(** * CPU scheduler simulation (schedule.cpp): model and verification

    A shallow embedding of [schedule.cpp]: the scheduler core
    ([stable_sort_blocked], [Simulation::init_from_lines],
    [Simulation::enqueue_ready], [Simulation::move_to_blocked],
    [Simulation::advance_blocked], [Simulation::run] and
    [Simulation::print_stats_and_finish]) and what runs it ([exit_ok],
    [parse_args], [read_bursts], [scheduler_thread] and [main]).

    Modelling conventions.
    - The program is modelled twice.  The first model computes the sums of
      the program (the clock, the executed and total times, the wait) in
      [Z]: it is the program as long as no sum leaves the range of [int],
      and it is the model of the statements on the control flow, the
      containers and the comparison of two runs.  The module [Int32] is the
      program with these sums on 32-bit integers, where a sum that leaves
      the range of [int] wraps around; it is the model of the statements on
      the values of the clock, of the executed times and of the report.
      The two have the same runs when the bursts of the input add up to a
      value of [int] ([run_int_agrees], [simulate_int_agrees]), and in any
      case the run of [Int32] is the run in [Z] with every sum taken modulo
      [2^32] ([run_wrap]).  [int_range] shows that in a run from a
      well-formed input every sum is at most the sum of the bursts of the
      input.
    - A [Proc*] is always the address of an element of [procs]; it is
      modelled as the index of that element, and so is [pid], which
      [init_from_lines] sets to that index.  Updating through an index out
      of range (which no pointer of the program corresponds to) leaves the
      store unchanged.  [size_t] counters are natural numbers.
    - [std::deque<int>], [std::queue<Proc*>], [std::deque<BlockedItem>] and
      the vectors are lists; the front is the head.
    - [front()] on an empty deque is undefined behaviour: [Undefined].
    - The three [while] loops take fuel; [OutOfFuel] is distinct from
      [Undefined], and the two inner loops are given fuel that is proved
      sufficient in every state ([advance_blocked_total],
      [exec_segment_fuel]).
    - The calls of the logging functions are recorded, in order, in the
      field [log] that the model adds to [Simulation].
    - [std::exit(0)] in the middle of a function is an outcome of its own,
      [Exits], that carries what was printed.
    - The library functions that the program calls are modelled as the C
      and C++ standards describe them in the C locale: [std::getline] as
      [getlines], [operator>>] on an [int] as [extract_ints], [strtol] as
      [strtol] for a [long] of [long_bits] bits, and the conversion
      [(int)val] as the value modulo [2^32].  [getopt] is not modelled:
      [parse_args] takes the results of its successive calls.  The
      theorems on [read_bursts_with] hold for every reading of a line as
      numbers.
    - [main] waits for the worker thread and touches nothing meanwhile;
      the worker's calls are made in sequence in the model. *)

From stdpp Require Import base numbers list sorting strings pretty.
From Stdlib Require Import ZifyNat Ascii.

Local Open Scope Z_scope.

(** * The model *)

(** ** Results of fallible or fuelled computations *)

Inductive res (A : Type) : Type :=
  | Ok (a : A)
  | Undefined
  | OutOfFuel.
Arguments Ok {A} a.
Arguments Undefined {A}.
Arguments OutOfFuel {A}.

Definition res_bind {A B} (m : res A) (k : A → res B) : res B :=
  match m with
  | Ok a => k a
  | Undefined => Undefined
  | OutOfFuel => OutOfFuel
  end.

Definition res_map {A B} (f : A → B) (m : res A) : res B :=
  res_bind m (λ a, Ok (f a)).

Notation "'let*' x := m 'in' k" := (res_bind m (λ x, k))
  (at level 10, x name, m at level 200, k at level 200,
   format "'[v' 'let*'  x  :=  m  'in' '/' k ']'").

(** ** std::stable_sort

    For a comparator that is a strict weak order the result of
    [std::stable_sort] is determined: the sorted permutation in which
    equivalent elements keep their relative order.  Insertion from the right,
    placing an element before the first one that is not smaller, computes
    it. *)

Section StableSort.
Context {A : Type} (lt : A → A → bool).

Fixpoint sort_insert (x : A) (l : list A) : list A :=
  match l with
  | [] => [x]
  | y :: l' => if lt y x then y :: sort_insert x l' else x :: y :: l'
  end.

Fixpoint stable_sort (l : list A) : list A :=
  match l with
  | [] => []
  | x :: l' => sort_insert x (stable_sort l')
  end.
End StableSort.

(** The requirement on a comparator ([Compare] in the C++ standard): a
    strict weak order.  It is asymmetric, and being incomparable is
    transitive. *)
Definition incomparable {A : Type} (lt : A → A → bool) (x y : A) : Prop :=
  lt x y = false ∧ lt y x = false.

Class StrictWeakOrder {A : Type} (lt : A → A → bool) : Prop := {
  swo_asym : ∀ x y, lt x y = true → lt y x = false;
  swo_incomparable : ∀ x y z,
    incomparable lt x y → incomparable lt y z → incomparable lt x z
}.

#[global] Instance incomparable_dec {A : Type} (lt : A → A → bool) x y :
  Decision (incomparable lt x y).
Proof. unfold incomparable. apply _. Defined.

(** ** Data model *)

Inductive Strategy := FCFS | RR.

Record Options := mkOptions {
  strategy : Strategy;
  quantum : Z
}.

(** A [BurstLine] is its only field, [bursts]. *)
Abbreviation BurstLine := (list Z).

Record Proc := mkProc {
  pid : nat;
  bursts : list Z;
  executed_cpu : Z;
  executed_io : Z;
  total_cpu : Z;
  total_io : Z;
  completion_time : Z
}.

Record BlockedItem := mkBlockedItem {
  p : nat;
  remaining_io : Z;
  order : nat
}.

(** Modelled from the spec: [log.h] is not part of the sources.  Its reason
    codes [ENTER_IO], [QUANTUM_EXPIRED], [COMPLETED] and its functions
    [log_cpuburst_execution] and [log_process_completion] are modelled as
    appending one event, carrying the arguments of the call, to a trace. *)
Inductive Reason := ENTER_IO | QUANTUM_EXPIRED | COMPLETED.

Inductive Event :=
  | CpuBurstExecution (id : nat) (cpu io clock : Z) (why : Reason)
  | ProcessCompletion (id : nat) (turnaround wait : Z).

Record Simulation := mkSimulation {
  opt : Options;
  time_elapsed : Z;
  ready : list nat;
  blocked : list BlockedItem;
  procs : list Proc;
  completed : list (Z * nat);
  order_counter : nat;
  log : list Event
}.

(** Field updates. *)

Definition set_bursts (b : list Z) (P : Proc) : Proc :=
  mkProc (pid P) b (executed_cpu P) (executed_io P) (total_cpu P) (total_io P)
         (completion_time P).
Definition add_executed_cpu (d : Z) (P : Proc) : Proc :=
  mkProc (pid P) (bursts P) (executed_cpu P + d) (executed_io P) (total_cpu P)
         (total_io P) (completion_time P).
Definition add_executed_io (d : Z) (P : Proc) : Proc :=
  mkProc (pid P) (bursts P) (executed_cpu P) (executed_io P + d) (total_cpu P)
         (total_io P) (completion_time P).
Definition add_total_cpu (d : Z) (P : Proc) : Proc :=
  mkProc (pid P) (bursts P) (executed_cpu P) (executed_io P) (total_cpu P + d)
         (total_io P) (completion_time P).
Definition add_total_io (d : Z) (P : Proc) : Proc :=
  mkProc (pid P) (bursts P) (executed_cpu P) (executed_io P) (total_cpu P)
         (total_io P + d) (completion_time P).
Definition set_completion_time (t : Z) (P : Proc) : Proc :=
  mkProc (pid P) (bursts P) (executed_cpu P) (executed_io P) (total_cpu P)
         (total_io P) t.

(** [bursts.pop_front()] guarded by [!bursts.empty()]. *)
Definition pop_front (P : Proc) : Proc := set_bursts (tail (bursts P)) P.

Definition set_opt (o : Options) (s : Simulation) : Simulation :=
  mkSimulation o (time_elapsed s) (ready s) (blocked s) (procs s)
               (completed s) (order_counter s) (log s).
Definition set_time (t : Z) (s : Simulation) : Simulation :=
  mkSimulation (opt s) t (ready s) (blocked s) (procs s) (completed s)
               (order_counter s) (log s).
Definition set_ready (r : list nat) (s : Simulation) : Simulation :=
  mkSimulation (opt s) (time_elapsed s) r (blocked s) (procs s) (completed s)
               (order_counter s) (log s).
Definition set_blocked (b : list BlockedItem) (s : Simulation) : Simulation :=
  mkSimulation (opt s) (time_elapsed s) (ready s) b (procs s) (completed s)
               (order_counter s) (log s).
Definition set_procs (ps : list Proc) (s : Simulation) : Simulation :=
  mkSimulation (opt s) (time_elapsed s) (ready s) (blocked s) ps (completed s)
               (order_counter s) (log s).
Definition set_completed (c : list (Z * nat)) (s : Simulation) : Simulation :=
  mkSimulation (opt s) (time_elapsed s) (ready s) (blocked s) (procs s) c
               (order_counter s) (log s).
Definition set_order_counter (n : nat) (s : Simulation) : Simulation :=
  mkSimulation (opt s) (time_elapsed s) (ready s) (blocked s) (procs s)
               (completed s) n (log s).
Definition emit (e : Event) (s : Simulation) : Simulation :=
  mkSimulation (opt s) (time_elapsed s) (ready s) (blocked s) (procs s)
               (completed s) (order_counter s) (log s ++ [e]).

(** The [Simulation] constructor: every container empty, clock 0. *)
Definition new_simulation (o : Options) : Simulation :=
  mkSimulation o 0 [] [] [] [] 0%nat [].

(** ** stable_sort_blocked *)

(** The comparator lambda of [stable_sort_blocked]. *)
Definition blocked_lt (a b : BlockedItem) : bool :=
  if negb (remaining_io a =? remaining_io b)
  then remaining_io a <? remaining_io b
  else (order a <? order b)%nat.

Definition stable_sort_blocked (bl : list BlockedItem) : list BlockedItem :=
  stable_sort blocked_lt bl.

(** ** init_from_lines *)

(** The inner loop over [k]: even positions are CPU bursts, odd ones I/O. *)
Fixpoint sum_totals (k : nat) (bs : list Z) (P : Proc) : Proc :=
  match bs with
  | [] => P
  | b :: bs' =>
      sum_totals (S k) bs'
        (if Nat.even k then add_total_cpu b P else add_total_io b P)
  end.

Definition make_proc (i : nat) (line : BurstLine) : Proc :=
  sum_totals 0 line (mkProc i line 0 0 0 0 (-1)).

Definition init_from_lines (lines : list BurstLine) (s : Simulation)
  : Simulation :=
  let ps := imap make_proc lines in
  set_ready (ready s ++ seq 0 (length ps)) (set_procs ps s).

(** ** enqueue_ready, move_to_blocked *)

Definition enqueue_ready (q : nat) (s : Simulation) : Simulation :=
  set_ready (ready s ++ [q]) s.

Definition move_to_blocked (q : nat) (s : Simulation) : Simulation :=
  match procs s !! q with
  | None => s
  | Some P =>
      let P1 := match bursts P with
                | c :: rest => if c =? 0 then set_bursts rest P else P
                | [] => P
                end in
      let s1 := set_procs (<[q := P1]> (procs s)) s in
      match bursts P1 with
      | io :: _ =>
          set_order_counter (S (order_counter s1))
            (set_blocked
               (stable_sort_blocked
                  (blocked s1 ++ [mkBlockedItem q io (order_counter s1)]))
               s1)
      | [] => s1
      end
  end.

(** ** advance_blocked *)

(** First [for] loop of an iteration: every entry loses
    [min(step, remaining_io)] and its process gains it as executed I/O. *)
Fixpoint progress_items (step : Z) (bl : list BlockedItem) (ps : list Proc)
  : list BlockedItem * list Proc :=
  match bl with
  | [] => ([], ps)
  | bi :: bl' =>
      let dec := Z.min step (remaining_io bi) in
      let '(bl'', ps') :=
        progress_items step bl' (alter (add_executed_io dec) (p bi) ps) in
      (mkBlockedItem (p bi) (remaining_io bi - dec) (order bi) :: bl'', ps')
  end.

(** Second [for] loop: entries at zero lose their I/O burst and join the
    ready queue, in the current order; the others are kept. *)
Fixpoint release_finished (bl : list BlockedItem) (ps : list Proc)
    (rdy : list nat) : list BlockedItem * list Proc * list nat :=
  match bl with
  | [] => ([], ps, rdy)
  | bi :: bl' =>
      if remaining_io bi =? 0 then
        release_finished bl' (alter pop_front (p bi) ps) (rdy ++ [p bi])
      else
        let '(keep, ps', rdy') := release_finished bl' ps rdy in
        (bi :: keep, ps', rdy')
  end.

(** One iteration of the [while] loop of [advance_blocked]; the result is the
    new value of [t] and the new state. *)
Definition advance_iter (t : Z) (s : Simulation) : res (Z * Simulation) :=
  match stable_sort_blocked (blocked s) with
  | [] => Undefined
  | front :: rest =>
      let next_finish := remaining_io front in
      let step := Z.min next_finish t in
      let '(bl1, ps1) := progress_items step (front :: rest) (procs s) in
      let '(bl2, ps2, rdy) := release_finished bl1 ps1 (ready s) in
      Ok (t - step, set_ready rdy (set_procs ps2 (set_blocked bl2 s)))
  end.

Fixpoint advance_loop (fuel : nat) (t : Z) (s : Simulation) : res Simulation :=
  if (0 <? t) && negb (bool_decide (blocked s = [])) then
    match fuel with
    | O => OutOfFuel
    | S fuel' =>
        let* r := advance_iter t s in
        advance_loop fuel' r.1 r.2
    end
  else Ok s.

(** Every iteration that does not exhaust [t] removes the front entry, so the
    loop runs at most [blocked.size()] times. *)
Definition advance_blocked (dt : Z) (s : Simulation) : res Simulation :=
  advance_loop (S (length (blocked s))) dt s.

(** ** run *)

(** One iteration of the sub-step loop of a CPU segment; the result is the
    new value of [remaining] and the new state. *)
Definition substep (q : nat) (remaining : Z) (s : Simulation)
  : res (Z * Simulation) :=
  let sorted :=
    match blocked s with
    | [] => []
    | _ :: _ => stable_sort_blocked (blocked s)
    end in
  let step :=
    match sorted with
    | [] => remaining
    | front :: _ =>
        let soonest := remaining_io front in
        if 0 <? soonest then Z.min remaining soonest else remaining
    end in
  match procs s !! q with
  | None => Undefined
  | Some P =>
      match bursts P with
      | [] => Undefined
      | c :: rest =>
          let P' := set_bursts (c - step :: rest) (add_executed_cpu step P) in
          let s1 :=
            set_procs (<[q := P']> (procs s))
              (set_time (time_elapsed s + step) (set_blocked sorted s)) in
          let* s2 := advance_blocked step s1 in
          Ok (remaining - step, s2)
      end
  end.

Fixpoint exec_segment (fuel : nat) (q : nat) (remaining : Z) (s : Simulation)
  : res Simulation :=
  if 0 <? remaining then
    match fuel with
    | O => OutOfFuel
    | S fuel' =>
        let* r := substep q remaining s in
        exec_segment fuel' q r.1 r.2
    end
  else Ok s.

(** [p->bursts.front()]. *)
Definition front_burst (q : nat) (s : Simulation) : res Z :=
  match procs s !! q with
  | Some P => match bursts P with c :: _ => Ok c | [] => Undefined end
  | None => Undefined
  end.

Definition segment_length (o : Options) (cpu_remaining : Z) : Z :=
  match strategy o with
  | FCFS => cpu_remaining
  | RR => Z.min cpu_remaining (quantum o)
  end.

(** The branch taken after the segment. *)
Definition finish_segment (q : nat) (s : Simulation) : res Simulation :=
  match procs s !! q with
  | None => Undefined
  | Some P =>
      match bursts P with
      | [] => Undefined
      | c :: rest =>
          if c =? 0 then
            let P1 := set_bursts rest P in
            match rest with
            | [] =>
                let P2 := set_completion_time (time_elapsed s) P1 in
                Ok (emit (CpuBurstExecution (pid P2) (executed_cpu P2)
                            (executed_io P2) (time_elapsed s) COMPLETED)
                      (set_completed
                         (completed s ++ [(time_elapsed s, pid P2)])
                         (set_procs (<[q := P2]> (procs s)) s)))
            | _ :: _ =>
                Ok (move_to_blocked q
                      (emit (CpuBurstExecution (pid P1) (executed_cpu P1)
                               (executed_io P1) (time_elapsed s) ENTER_IO)
                         (set_procs (<[q := P1]> (procs s)) s)))
            end
          else
            Ok (enqueue_ready q
                  (emit (CpuBurstExecution (pid P) (executed_cpu P)
                           (executed_io P) (time_elapsed s) QUANTUM_EXPIRED)
                     s))
      end
  end.

(** The branch taken when the ready queue is non-empty, [q] being its
    front and [s] the state after [ready.pop()]. *)
Definition dispatch (q : nat) (s : Simulation) : res Simulation :=
  let* cpu_remaining := front_burst q s in
  let segment := segment_length (opt s) cpu_remaining in
  let* s1 := exec_segment (Z.to_nat segment) q segment s in
  finish_segment q s1.

(** The branch taken when only the blocked set is non-empty. *)
Definition idle_jump (s : Simulation) : res Simulation :=
  match stable_sort_blocked (blocked s) with
  | [] => Undefined
  | front :: rest =>
      let step := remaining_io front in
      let* s1 := advance_blocked step (set_blocked (front :: rest) s) in
      Ok (set_time (time_elapsed s1 + step) s1)
  end.

(** One iteration of [while(true)]; [None] is the [break]. *)
Definition run_iter (s : Simulation) : res (option Simulation) :=
  match ready s with
  | q :: rdy => res_map Some (dispatch q (set_ready rdy s))
  | [] =>
      match blocked s with
      | _ :: _ => res_map Some (idle_jump s)
      | [] => Ok None
      end
  end.

Fixpoint run (fuel : nat) (s : Simulation) : res Simulation :=
  match fuel with
  | O => OutOfFuel
  | S fuel' =>
      let* r := run_iter s in
      match r with
      | Some s' => run fuel' s'
      | None => Ok s
      end
  end.

(** ** print_stats_and_finish *)

(** [operator<] of [std::pair<int, int>]. *)
Definition pair_lt (a b : Z * nat) : bool :=
  (a.1 <? b.1) || (negb (b.1 <? a.1) && (a.2 <? b.2)%nat).

Fixpoint emit_stats (cs : list (Z * nat)) (s : Simulation) : res Simulation :=
  match cs with
  | [] => Ok s
  | (t, i) :: cs' =>
      match procs s !! i with
      | None => Undefined
      | Some P =>
          let turnaround := completion_time P in
          let wait := turnaround - (total_cpu P + total_io P) in
          emit_stats cs' (emit (ProcessCompletion i turnaround wait) s)
      end
  end.

Definition print_stats_and_finish (s : Simulation) : res Simulation :=
  let sorted := stable_sort pair_lt (completed s) in
  emit_stats sorted (set_completed sorted s).

(** The simulation of [main]: construct, load, run, report. *)
Definition simulate (fuel : nat) (o : Options) (lines : list BurstLine)
  : res Simulation :=
  let* s := run fuel (init_from_lines lines (new_simulation o)) in
  print_stats_and_finish s.

(** ** The loader: exits, characters, read_bursts *)

(** A call of the loader returns, or leaves the program through [exit_ok],
    that is [std::exit(0)], after it has printed [out] on [std::cout]. *)
Inductive outcome (A : Type) : Type :=
  | Returns (a : A)
  | Exits (out : string).
Arguments Returns {A} a.
Arguments Exits {A} out.

(** The newline character. *)
Definition nl : string := String "010"%char EmptyString.

(** The states of the extraction of a decimal integer from a character
    sequence, by [operator>>] on an [int] and by [strtol] in base 10, in the
    C locale: leading white space is skipped, a sign may come first, and the
    digits that follow are the number. *)
Inductive scan_state :=
  | Skipping
  | Signed (neg : bool)
  | Digits (neg : bool) (acc : Z).

Definition digit (c : ascii) : option Z := Z.of_nat <$> Ascii.is_nat c.

Definition sign (c : ascii) : option bool :=
  if decide (c = "+"%char) then Some false
  else if decide (c = "-"%char) then Some true
  else None.

(** The state after [c], when a number may start at [c]. *)
Definition scan_start (c : ascii) : option scan_state :=
  if Ascii.is_space c then Some Skipping
  else match sign c with
       | Some neg => Some (Signed neg)
       | None => Digits false <$> digit c
       end.

Definition signed_value (neg : bool) (acc : Z) : Z :=
  if neg then - acc else acc.

Definition INT_MAX : Z := 2147483647.
Definition INT_MIN : Z := -2147483648.

Definition fits_int (v : Z) : bool := (INT_MIN <=? v) && (v <=? INT_MAX).

(** The values that [while (iss >> x)] sees, in order, for the characters
    [s] left in the stream: an extraction fails, and ends the loop, at the
    end of the text, at a character that can not start a number, at a sign
    that no digit follows and at a number that no [int] holds. *)
Fixpoint extract_ints (st : scan_state) (s : string) : list Z :=
  match s with
  | EmptyString =>
      match st with
      | Digits neg acc =>
          if fits_int (signed_value neg acc) then [signed_value neg acc]
          else []
      | _ => []
      end
  | String c s' =>
      match st with
      | Skipping =>
          match scan_start c with
          | Some st' => extract_ints st' s'
          | None => []
          end
      | Signed neg =>
          match digit c with
          | Some d => extract_ints (Digits neg d) s'
          | None => []
          end
      | Digits neg acc =>
          match digit c with
          | Some d => extract_ints (Digits neg (10 * acc + d)) s'
          | None =>
              if fits_int (signed_value neg acc) then
                signed_value neg acc ::
                match scan_start c with
                | Some st' => extract_ints st' s'
                | None => []
                end
              else []
          end
      end
  end.

(** The lines that [std::getline] reads from a stream that holds [s]: the
    text between newline characters; the last line needs no newline, and a
    newline at the end starts no line. *)
Fixpoint getlines (s : string) : list string :=
  match s with
  | EmptyString => []
  | String c s' =>
      if decide (c = "010"%char) then EmptyString :: getlines s'
      else match getlines s' with
           | [] => [String c EmptyString]
           | l :: ls => String c l :: ls
           end
  end.

Definition msg_open (path : string) : string :=
  "Unable to open <" +:+ path +:+ ">" +:+ nl.
Definition msg_positive : string :=
  "A burst number must be bigger than 0" +:+ nl.
Definition msg_odd : string :=
  "There must be an odd number of bursts for each process" +:+ nl.

(** The inner [while] of [read_bursts] on the values [xs] that the
    extractions give: the bursts pushed on [bl], or the exit at the first
    value that is not positive. *)
Fixpoint push_bursts (xs : list Z) (bl : list Z) : outcome (list Z) :=
  match xs with
  | [] => Returns bl
  | x :: xs' =>
      if x <=? 0 then Exits msg_positive else push_bursts xs' (bl ++ [x])
  end.

(** The outer [while] of [read_bursts] on the lines read, [extract] being
    what the extractions give for a line. *)
Fixpoint read_lines (extract : string → list Z) (ls : list string)
    (lines : list BurstLine) : outcome (list BurstLine) :=
  match ls with
  | [] => Returns lines
  | line :: ls' =>
      if decide (line = EmptyString) then read_lines extract ls' lines
      else
        match push_bursts (extract line) [] with
        | Exits out => Exits out
        | Returns bl =>
            if negb (bool_decide (bl = [])) && Nat.even (length bl)
            then Exits msg_odd
            else if negb (bool_decide (bl = []))
                 then read_lines extract ls' (lines ++ [bl])
                 else read_lines extract ls' lines
        end
  end.

(** [read_bursts(path)]; [file] is the text of the file, or [None] when the
    stream can not be opened. *)
Definition read_bursts_with (extract : string → list Z) (path : string)
    (file : option string) : outcome (list BurstLine) :=
  match file with
  | None => Exits (msg_open path)
  | Some text => read_lines extract (getlines text) []
  end.

Definition read_bursts : string → option string → outcome (list BurstLine) :=
  read_bursts_with (extract_ints Skipping).

(** ** The command line: parse_args *)

(** [strtol(optarg, &end, 10)] before the result is brought into the range
    of [long]: the value of the longest prefix of [s] that is a number, or
    [None] when there is no conversion, that is when [end == optarg]. *)
Fixpoint strtol_scan (st : scan_state) (s : string) : option Z :=
  match s with
  | EmptyString =>
      match st with
      | Digits neg acc => Some (signed_value neg acc)
      | _ => None
      end
  | String c s' =>
      match st with
      | Skipping =>
          match scan_start c with
          | Some st' => strtol_scan st' s'
          | None => None
          end
      | Signed neg =>
          match digit c with
          | Some d => strtol_scan (Digits neg d) s'
          | None => None
          end
      | Digits neg acc =>
          match digit c with
          | Some d => strtol_scan (Digits neg (10 * acc + d)) s'
          | None => Some (signed_value neg acc)
          end
      end
  end.

(** [long] has [long_bits] bits; a value out of its range is replaced by
    [LONG_MAX] or [LONG_MIN]. *)
Definition strtol (long_bits : Z) (s : string) : option Z :=
  (λ v, Z.max (- 2 ^ (long_bits - 1))
          (Z.min v (2 ^ (long_bits - 1) - 1))) <$> strtol_scan Skipping s.

(** The conversion [(int)val] of a [long]: the value modulo [2^32] that an
    [int] holds. *)
Definition to_int (v : Z) : Z := (v + 2 ^ 31) `mod` 2 ^ 32 - 2 ^ 31.

Definition msg_quantum : string :=
  "Time quantum must be a number and bigger than 0" +:+ nl.
Definition msg_usage (argv0 : string) : string :=
  "Usage: " +:+ argv0 +:+ " [-s fcfs|rr] [-q N] <bursts-file>" +:+ nl.

(** The body of the [switch] for the option character [c] that [getopt]
    returned with [optarg]. *)
Definition parse_option (long_bits : Z) (o : Options) (c : ascii)
    (optarg : option string) : res (outcome Options) :=
  if decide (c = "s"%char) then
    let v := default EmptyString optarg in
    if decide (v = "fcfs") then Ok (Returns (mkOptions FCFS (quantum o)))
    else if decide (v = "rr") then Ok (Returns (mkOptions RR (quantum o)))
    else Ok (Returns (mkOptions FCFS (quantum o)))
  else if decide (c = "q"%char) then
    match optarg with
    | None => Undefined
    | Some a =>
        match strtol long_bits a with
        | None => Ok (Exits msg_quantum)
        | Some val =>
            if val <=? 0 then Ok (Exits msg_quantum)
            else Ok (Returns (mkOptions (strategy o) (to_int val)))
        end
    end
  else Ok (Returns o).

(** The [while] of [parse_args] on the results of the successive calls of
    [getopt] that are not [-1]. *)
Fixpoint parse_options (long_bits : Z) (o : Options)
    (opts : list (ascii * option string)) : res (outcome Options) :=
  match opts with
  | [] => Ok (Returns o)
  | (c, optarg) :: opts' =>
      let* r := parse_option long_bits o c optarg in
      match r with
      | Returns o' => parse_options long_bits o' opts'
      | Exits out => Ok (Exits out)
      end
  end.

(** [parse_args]: [opts] is what [getopt] returns, call after call, and
    [operands] are the arguments from [argv[optind]] on, after the last
    call; the result is the options and the name of the file. *)
Definition parse_args (long_bits : Z) (argv0 : string)
    (opts : list (ascii * option string)) (operands : list string)
  : res (outcome (Options * string)) :=
  let* r := parse_options long_bits (mkOptions FCFS 2) opts in
  match r with
  | Exits out => Ok (Exits out)
  | Returns o =>
      match operands with
      | [] => Ok (Exits (msg_usage argv0))
      | file :: _ => Ok (Returns (o, file))
      end
  end.

(** ** main *)

(** What the program writes: text on [std::cout], the calls of
    [log_process_bursts] and of the two other log functions, and the line
    of [perror] on [stderr]. *)
Inductive Output :=
  | Printed (text : string)
  | ProcessBursts (bursts : list Z)
  | Logged (ev : Event)
  | Perror (prefix : string).

(** [main]: the exit status and the output, in order.  [open] gives the text
    of the file of a name, [thread_created] tells whether [pthread_create]
    returns 0.  The worker thread runs the simulation and sets [done];
    [main] polls [done] and touches nothing else meanwhile, so the calls of
    the worker are made in sequence here, and a simulation that does not
    end leaves [main] in its loop. *)
Definition main (long_bits : Z) (fuel : nat) (argv0 : string)
    (opts : list (ascii * option string)) (operands : list string)
    (open : string → option string) (thread_created : bool)
  : res (Z * list Output) :=
  let* a := parse_args long_bits argv0 opts operands in
  match a with
  | Exits out => Ok (0, [Printed out])
  | Returns (o, file) =>
      match read_bursts file (open file) with
      | Exits out => Ok (0, [Printed out])
      | Returns lines =>
          let echo := ProcessBursts <$> lines in
          if thread_created then
            let* s := simulate fuel o lines in
            Ok (0, echo ++ (Logged <$> log s))
          else Ok (1, echo ++ [Perror "pthread_create"])
      end
  end.

(** * Specification *)

(** ** Scenarios *)

Definition scenario_D : list BurstLine := [[2; 3; 2]; [5]].
Definition scenario_C : list BurstLine := [[4]; [4]].

(** ** Well-formed input and configuration *)

(** A burst list is well formed when it has odd length (so it is not empty)
    and every entry is positive. *)
Definition well_formed_line (l : BurstLine) : Prop :=
  Nat.odd (length l) = true ∧ Forall (λ b, 0 < b) l.

Definition well_formed (lines : list BurstLine) : Prop :=
  Forall well_formed_line lines.

(** The quantum matters under round-robin only, where it is positive. *)
Definition valid_options (o : Options) : Prop :=
  strategy o = FCFS ∨ 0 < quantum o.

(** Sum of the entries at even positions (the CPU bursts of a list that
    starts with a CPU burst) and at odd positions (its I/O bursts). *)
Fixpoint cpu_sum (l : list Z) : Z :=
  match l with
  | [] => 0
  | b :: l' => b + io_sum l'
  end
with io_sum (l : list Z) : Z :=
  match l with
  | [] => 0
  | _ :: l' => cpu_sum l'
  end.

(** The state [run] starts from. *)
Definition initial (o : Options) (lines : list BurstLine) : Simulation :=
  init_from_lines lines (new_simulation o).

(** ** Control points and reachable states

    [LoopHead] is the head of [while(true)]; [Executing q remaining] is the
    head of the sub-step loop while process [q] holds the CPU.
    [reach c0 s0 c s]: the run that is at control point [c0] in state [s0]
    later is at [c] in state [s]. *)

Inductive control :=
  | LoopHead
  | Executing (q : nat) (remaining : Z).

Inductive reach (c0 : control) (s0 : Simulation)
  : control → Simulation → Prop :=
  | reach_init : reach c0 s0 c0 s0
  | reach_pop s q rdy c :
      reach c0 s0 LoopHead s →
      ready s = q :: rdy →
      front_burst q (set_ready rdy s) = Ok c →
      reach c0 s0 (Executing q (segment_length (opt s) c)) (set_ready rdy s)
  | reach_substep s q remaining r :
      reach c0 s0 (Executing q remaining) s →
      0 < remaining →
      substep q remaining s = Ok r →
      reach c0 s0 (Executing q r.1) r.2
  | reach_finish s q remaining s' :
      reach c0 s0 (Executing q remaining) s →
      remaining ≤ 0 →
      finish_segment q s = Ok s' →
      reach c0 s0 LoopHead s'
  | reach_idle s s' :
      reach c0 s0 LoopHead s →
      ready s = [] →
      blocked s ≠ [] →
      idle_jump s = Ok s' →
      reach c0 s0 LoopHead s'.

(** The process that holds the CPU at a control point. *)
Definition running (c : control) : list nat :=
  match c with
  | LoopHead => []
  | Executing q _ => [q]
  end.

(** Every place a process can be, in one list. *)
Definition containers (c : control) (s : Simulation) : list nat :=
  ready s ++ (p <$> blocked s) ++ running c ++ (snd <$> completed s).

(** ** The invariant of the dispatch loop

    What holds of a process record depends on where the process is. *)

(** Nothing negative was executed. *)
Definition executed_nonneg (P : Proc) : Prop :=
  0 ≤ executed_cpu P ∧ 0 ≤ executed_io P.

(** In the ready queue: the bursts start with a CPU burst, all are positive,
    and what was executed plus what remains is the total. *)
Definition ready_ok (P : Proc) : Prop :=
  Nat.odd (length (bursts P)) = true ∧
  Forall (λ b, 0 < b) (bursts P) ∧
  executed_cpu P + cpu_sum (bursts P) = total_cpu P ∧
  executed_io P + io_sum (bursts P) = total_io P ∧
  executed_nonneg P.

(** On the CPU with [remaining] left of the segment: as in the ready queue,
    but the front burst is only known to cover the rest of the segment. *)
Definition running_ok (remaining : Z) (P : Proc) : Prop :=
  ∃ c rest,
    bursts P = c :: rest ∧ remaining ≤ c ∧ 0 ≤ c ∧
    Nat.even (length rest) = true ∧
    Forall (λ b, 0 < b) rest ∧
    executed_cpu P + cpu_sum (bursts P) = total_cpu P ∧
    executed_io P + io_sum (bursts P) = total_io P ∧
    executed_nonneg P.

(** In the blocked set with [r] left: the front burst is the I/O burst in
    progress, which the entry counts down, not the record. *)
Definition blocked_ok (r : Z) (P : Proc) : Prop :=
  ∃ io rest,
    bursts P = io :: rest ∧ 0 < r ≤ io ∧
    Nat.odd (length rest) = true ∧
    Forall (λ b, 0 < b) rest ∧
    executed_cpu P + cpu_sum rest = total_cpu P ∧
    executed_io P + r + io_sum rest = total_io P ∧
    executed_nonneg P.

(** Completed at [t]. *)
Definition completed_ok (t : Z) (P : Proc) : Prop :=
  bursts P = [] ∧ completion_time P = t ∧
  executed_cpu P = total_cpu P ∧ executed_io P = total_io P ∧
  executed_nonneg P.

(** What never changes after [init_from_lines]. *)
Definition static_ok (lines : list BurstLine) (ps : list Proc) : Prop :=
  length ps = length lines ∧
  ∀ i P, ps !! i = Some P →
    pid P = i ∧
    ∃ l, lines !! i = Some l ∧ total_cpu P = cpu_sum l ∧ total_io P = io_sum l.

Record inv (lines : list BurstLine) (c : control) (s : Simulation) : Prop := {
  inv_static : static_ok lines (procs s);
  inv_perm : containers c s ≡ₚ seq 0 (length lines);
  inv_ready : ∀ q, q ∈ ready s → ∃ P, procs s !! q = Some P ∧ ready_ok P;
  inv_blocked : ∀ bi, bi ∈ blocked s →
    ∃ P, procs s !! p bi = Some P ∧ blocked_ok (remaining_io bi) P;
  inv_running : ∀ q remaining, c = Executing q remaining →
    ∃ P, procs s !! q = Some P ∧ running_ok remaining P;
  inv_completed : ∀ t q, (t, q) ∈ completed s →
    ∃ P, procs s !! q = Some P ∧ completed_ok t P
}.

(** Auxiliary functions the loops of [advance_blocked] are compared with. *)

Definition dec_item (step : Z) (bi : BlockedItem) : BlockedItem :=
  mkBlockedItem (p bi) (remaining_io bi - Z.min step (remaining_io bi))
                (order bi).

Definition alter_each {A B} (f : B → A → A) (k : B → nat) (l : list B)
    (ps : list A) : list A :=
  foldl (λ ps x, alter (f x) (k x) ps) ps l.

(** The state after one iteration of the loop of [advance_blocked] that
    advances the sorted entries [sorted] by [step]. *)
Definition advance_step (step : Z) (sorted : list BlockedItem)
    (s : Simulation) : Simulation :=
  let bl1 := dec_item step <$> sorted in
  let released := filter (λ bi, remaining_io bi = 0) bl1 in
  set_ready (ready s ++ (p <$> released))
    (set_procs
       (alter_each (λ _, pop_front) p released
          (alter_each (λ bi, add_executed_io (Z.min step (remaining_io bi)))
             p sorted (procs s)))
       (set_blocked (filter (λ bi, remaining_io bi ≠ 0) bl1) s)).

(** ** The termination measure

    The simulated time executed so far, over all processes, and the time the
    input asks for. *)

Definition work (P : Proc) : Z := executed_cpu P + executed_io P.

Definition total_of {A} (f : A → Z) (l : list A) : Z :=
  foldr (λ x acc, f x + acc) 0 l.

Definition work_done (s : Simulation) : Z := total_of work (procs s).

Definition work_total (lines : list BurstLine) : Z :=
  total_of (λ l, cpu_sum l + io_sum l) lines.

(** ** Statements of the properties *)

(** Conservation for the process loaded from the burst list [l]: what was
    executed of each kind is the sum of the bursts of that kind, which is
    also the total computed at load time. *)
Definition conserved (l : BurstLine) (P : Proc) : Prop :=
  executed_cpu P = cpu_sum l ∧ executed_io P = io_sum l ∧
  total_cpu P = cpu_sum l ∧ total_io P = io_sum l.

(** Scenario D in the middle of P1's burst: clock 5, P0 back in the ready
    queue, P1 on the CPU with 2 to go. *)
Definition scenario_D_mid : Simulation :=
  mkSimulation (mkOptions FCFS 2) 5 [0%nat] []
    [mkProc 0 [2] 2 3 4 3 (-1); mkProc 1 [2] 3 0 5 0 (-1)]
    [] 1 [CpuBurstExecution 0 2 0 2 ENTER_IO].

(** A computation fails fast when it does not return normally. *)
Definition fails_fast {A} (r : res A) : Prop :=
  match r with
  | Ok _ => False
  | Undefined | OutOfFuel => True
  end.

(** Scenario D after P0's first burst: P0 is blocked with 3 of I/O to go
    and P1 is ready. *)
Definition blocked_sample : Simulation :=
  mkSimulation (mkOptions FCFS 2) 2 [1%nat] [mkBlockedItem 0 3 0]
    [mkProc 0 [3; 2] 2 0 4 3 (-1); mkProc 1 [5] 0 0 5 0 (-1)]
    [] 1 [CpuBurstExecution 0 2 0 2 ENTER_IO].

(** The order of the final report in the words of the specification: the
    completion records sorted by completion time alone, records with equal
    times keeping the order in which they were appended. *)
Definition by_completion_time (a b : Z * nat) : bool := a.1 <? b.1.

Definition spec_report_order (cs : list (Z * nat)) : list (Z * nat) :=
  stable_sort by_completion_time cs.

(** The statistics record the specification asks for the completion record
    [c], read off the process table [ps]. *)
Definition spec_record (ps : list Proc) (ev : Event) (c : Z * nat) : Prop :=
  ∃ P, ps !! c.2 = Some P ∧
       completion_time P = c.1 ∧
       ev = ProcessCompletion c.2 (completion_time P)
              (completion_time P - (total_cpu P + total_io P)).

(** The completion records carry strictly increasing times, none later
    than the clock. *)
Definition clock_inv (s : Simulation) : Prop :=
  StronglySorted (λ a b : Z * nat, a.1 < b.1) (completed s) ∧
  Forall (λ a : Z * nat, a.1 ≤ time_elapsed s) (completed s).

(** What a run shows: the trace of events (each with the clock at which
    it was emitted, the final statistics last), the clock, the completion
    records and the process table. *)
Definition observable (s : Simulation)
  : list Event * Z * list (Z * nat) * list Proc :=
  (log s, time_elapsed s, completed s, procs s).

(** ** The blocked set, one iteration of the dispatch loop and the trace *)

(** Not later in the order of the blocked set: what the comparator of
    [stable_sort_blocked] does not put the other way round. *)
Definition blocked_le (a b : BlockedItem) : Prop := blocked_lt b a = false.

(** Strictly earlier: less I/O to go, or as much and an earlier stamp. *)
Definition order_lt (a b : BlockedItem) : Prop :=
  remaining_io a < remaining_io b ∨
  (remaining_io a = remaining_io b ∧ (order a < order b)%nat).

(** The blocked set is in order, and its stamps are distinct and older than
    the counter. *)
Definition blocked_ordered (s : Simulation) : Prop :=
  StronglySorted blocked_le (blocked s) ∧
  NoDup (order <$> blocked s) ∧
  ∀ bi, bi ∈ blocked s → (order bi < order_counter s)%nat.

(** The state in which process [q], whose record is [P] with front
    burst [c], has been on the CPU for [d]: what the three assignments of a
    sub-step do, for [d] at once. *)
Definition run_on_cpu (q : nat) (P : Proc) (c : Z) (rest : list Z) (d : Z)
    (s : Simulation) : Simulation :=
  set_procs
    (<[q := set_bursts (c - d :: rest) (add_executed_cpu d P)]> (procs s))
    (set_time (time_elapsed s + d) s).

(** The step taken by a sub-step: up to the next I/O completion. *)
Definition substep_length (remaining : Z) (s : Simulation) : Z :=
  match stable_sort_blocked (blocked s) with
  | [] => remaining
  | front :: _ => Z.min remaining (remaining_io front)
  end.

(** Every process of the ready queue has a positive front burst, nothing is
    blocked, and the queue is not empty. *)
Definition spinning (s : Simulation) : Prop :=
  blocked s = [] ∧ ready s ≠ [] ∧
  ∀ q, q ∈ ready s → ∃ c, front_burst q s = Ok c ∧ 0 < c.

(** How the record of the process that held the CPU for [seg]
    changes, with the reason that is logged; [now] is the clock after the
    segment. *)
Inductive cpu_outcome (now seg : Z) (P : Proc) : Reason → Proc → Prop :=
  | outcome_expired c rest :
      bursts P = c :: rest → seg < c →
      cpu_outcome now seg P QUANTUM_EXPIRED
        (set_bursts (c - seg :: rest) (add_executed_cpu seg P))
  | outcome_enter_io io rest :
      bursts P = seg :: io :: rest → 0 < io →
      cpu_outcome now seg P ENTER_IO
        (set_bursts (io :: rest) (add_executed_cpu seg P))
  | outcome_completed :
      bursts P = [seg] →
      cpu_outcome now seg P COMPLETED
        (set_completion_time now (set_bursts [] (add_executed_cpu seg P))).

(** The blocked set after the process [q] left the CPU. *)
Definition blocked_after (why : Reason) (q : nat) (P' : Proc)
    (s1 : Simulation) : list BlockedItem :=
  match why, bursts P' with
  | ENTER_IO, io :: _ =>
      stable_sort_blocked
        (blocked s1 ++ [mkBlockedItem q io (order_counter s1)])
  | _, _ => blocked s1
  end.

#[global] Instance Reason_eq_dec : EqDecision Reason.
Proof. solve_decision. Defined.

(** The states at the head of [while(true)] in the run from [s0]. *)
Inductive at_loop_head (s0 : Simulation) : Simulation → Prop :=
  | at_loop_head_first : at_loop_head s0 s0
  | at_loop_head_next s s' :
      at_loop_head s0 s → run_iter s = Ok (Some s') → at_loop_head s0 s'.

(** How the record of a process that does not hold the CPU changes
    while [d] elapses: not at all, or its I/O progresses by [d], or its I/O
    ends after [e ≤ d] and the burst is consumed. *)
Inductive io_outcome (d : Z) (P : Proc) : Proc → Prop :=
  | outcome_untouched : io_outcome d P P
  | outcome_progress : io_outcome d P (add_executed_io d P)
  | outcome_released e io c rest :
      0 < e ≤ d → e ≤ io → bursts P = io :: c :: rest → 0 < c →
      Nat.even (length rest) = true →
      io_outcome d P (pop_front (add_executed_io e P)).

(** One iteration of the dispatch loop that does not end it, seen
    from the process records: [d] elapses; the process at the front of the
    ready queue, if there is one, holds the CPU for [d] and one event is
    logged. *)
Inductive iteration (s1 s2 : Simulation) : Prop :=
  | iteration_dispatch q rdy P why P' d :
      ready s1 = q :: rdy → procs s1 !! q = Some P → 0 < d →
      d = segment_length (opt s1) (default 0 (head (bursts P))) →
      cpu_outcome (time_elapsed s1 + d) d P why P' →
      procs s2 !! q = Some P' →
      time_elapsed s2 = time_elapsed s1 + d →
      log s2 = log s1 ++ [CpuBurstExecution q (executed_cpu P + d)
                            (executed_io P) (time_elapsed s1 + d) why] →
      completed s2 =
        completed s1 ++
        (if decide (why = COMPLETED) then [(time_elapsed s1 + d, q)] else []) →
      (why = QUANTUM_EXPIRED → q ∈ ready s2) →
      (why = ENTER_IO → q ∈ p <$> blocked s2) →
      (∀ i Pi, i ≠ q → procs s1 !! i = Some Pi →
         ∃ Pi', procs s2 !! i = Some Pi' ∧ io_outcome d Pi Pi' ∧
                (i ∉ p <$> blocked s1 → Pi' = Pi)) →
      iteration s1 s2
  | iteration_idle d :
      ready s1 = [] → 0 < d →
      time_elapsed s2 = time_elapsed s1 + d →
      log s2 = log s1 → completed s2 = completed s1 →
      ready s2 ≠ [] →
      (∀ i Pi, procs s1 !! i = Some Pi →
         ∃ Pi', procs s2 !! i = Some Pi' ∧ io_outcome d Pi Pi' ∧
                (i ∉ p <$> blocked s1 → Pi' = Pi)) →
      iteration s1 s2.

(** The event that the dispatch loop logs when it takes the CPU
    from a process whose burst is not over. *)
Definition is_preemption (ev : Event) : Prop :=
  match ev with
  | CpuBurstExecution _ _ _ _ QUANTUM_EXPIRED => True
  | _ => False
  end.

(** No process has executed more than the time that has elapsed, and a
    completed process had executed no more than its completion time. *)
Definition clock_covers_work (s : Simulation) : Prop :=
  (∀ i P, procs s !! i = Some P → work P ≤ time_elapsed s) ∧
  (∀ t i P, (t, i) ∈ completed s → procs s !! i = Some P → work P ≤ t).

(** The time the CPU was busy. *)
Definition cpu_time (s : Simulation) : Z := total_of executed_cpu (procs s).

(** A run that is over ended on a completion, at the final clock. *)
Definition ends_on_completion (lines : list BurstLine) (s : Simulation)
  : Prop :=
  ready s = [] → blocked s = [] →
  lines = [] ∨ ∃ cs q, completed s = cs ++ [(time_elapsed s, q)].

(** [b] is what remains of the burst list [l]: nothing, or a
    suffix of [l] whose first burst is partly consumed. *)
Definition remains_of (l b : list Z) : Prop :=
  b = [] ∨
  ∃ k c0 c rest, drop k l = c0 :: rest ∧ b = c :: rest ∧ 0 < c ≤ c0.

(** The completion events of a trace, in order, as completion records. *)
Definition completion_of (ev : Event) : option (Z * nat) :=
  match ev with
  | CpuBurstExecution id _ _ clock COMPLETED => Some (clock, id)
  | _ => None
  end.

Definition completion_events (lg : list Event) : list (Z * nat) :=
  omap completion_of lg.

(** The event says that process [i] enters I/O. *)
Definition enters_io (i : nat) (ev : Event) : bool :=
  match ev with
  | CpuBurstExecution id _ _ _ ENTER_IO => bool_decide (id = i)
  | _ => false
  end.

Definition io_entries (i : nat) (lg : list Event) : nat :=
  length (filter (λ ev, enters_io i ev = true) lg).

(** The trace so far accounts for the bursts consumed so far. *)
Definition trace_accounts (lines : list BurstLine) (s : Simulation) : Prop :=
  completion_events (log s) = completed s ∧
  (∀ i P l, procs s !! i = Some P → lines !! i = Some l →
     (io_entries i (log s) + (length (bursts P) - 1) / 2 =
      (length l - 1) / 2)%nat) ∧
  (∀ id cpu io clock,
     CpuBurstExecution id cpu io clock COMPLETED ∈ log s →
     ∃ P, procs s !! id = Some P ∧
          cpu = executed_cpu P ∧ io = executed_io P).

(** The clock that an event of the dispatch loop carries; the
    records of the final report carry none. *)
Definition event_clock (ev : Event) : option Z :=
  match ev with
  | CpuBurstExecution _ _ _ clock _ => Some clock
  | ProcessCompletion _ _ _ => None
  end.

Definition chronological (s : Simulation) : Prop :=
  StronglySorted Z.lt (omap event_clock (log s)) ∧
  Forall (λ c, 0 < c ≤ time_elapsed s) (omap event_clock (log s)) ∧
  0 ≤ time_elapsed s.

(** The sum of a list of bursts. *)
Definition sum_list (bs : list Z) : Z := total_of (λ b, b) bs.

(** The input in which process [i] has the one CPU burst
    [bs !! i]. *)
Definition cpu_only (bs : list Z) : list BurstLine := (λ b, [b]) <$> bs.

(** First-come first-served on CPU bursts alone: the first [k]
    processes have completed, one after the other, and the others have not
    started. *)
Definition served (bs : list Z) (k : nat) (s : Simulation) : Prop :=
  (k ≤ length bs)%nat ∧
  ready s = seq k (length bs - k) ∧ blocked s = [] ∧
  completed s = imap (λ i _, (sum_list (take (S i) bs), i)) (take k bs) ∧
  time_elapsed s = sum_list (take k bs) ∧
  ∀ i b, (k ≤ i)%nat → bs !! i = Some b →
         ∃ P, procs s !! i = Some P ∧ bursts P = [b].

(** Every CPU burst of [b] is at most [Q]; the CPU bursts are the
    bursts at an odd distance from the end of the list. *)
Definition cpu_bursts_le (Q : Z) (b : list Z) : Prop :=
  ∀ k c, b !! k = Some c → Nat.odd (length b - k) = true → c ≤ Q.

Definition quantum_covers (Q : Z) (s : Simulation) : Prop :=
  ∀ i P, procs s !! i = Some P → cpu_bursts_le Q (bursts P).

(** Two processes blocked with as much I/O to go, process 0 since
    clock 1 and process 1 since clock 2: the input [[1; 4; 1]; [1; 3; 1]]
    at clock 2. *)
Definition blocked_tie : Simulation :=
  mkSimulation (mkOptions FCFS 2) 2 []
    [mkBlockedItem 0 3 0; mkBlockedItem 1 3 1]
    [mkProc 0 [4; 1] 1 1 2 4 (-1); mkProc 1 [3; 1] 1 0 2 3 (-1)]
    [] 2
    [CpuBurstExecution 0 1 0 1 ENTER_IO; CpuBurstExecution 1 1 0 2 ENTER_IO].

(** Scenario B: one process that computes, waits for I/O and
    computes again. *)
Definition scenario_B : BurstLine := [3; 2; 4].

(** Three jobs without I/O. *)
Definition three_jobs : list Z := [5; 3; 8].

(** ** The text of the input and the command line *)

(** The first complaint of [read_bursts] about the numbers of a line, if
    it has one. *)
Definition first_error (xs : list Z) : option string :=
  if decide (Forall (λ x, 0 < x) xs) then
    if decide (xs ≠ [] ∧ Nat.even (length xs) = true) then Some msg_odd
    else None
  else Some msg_positive.

(** The numbers of the lines of a text that are not empty. *)
Definition numbers_of (extract : string → list Z) (text : string)
  : list (list Z) :=
  extract <$> filter (λ l, l ≠ EmptyString) (getlines text).

(** The numbers of a process on one line, in decimal, one space
    between two of them. *)
Fixpoint print_line (xs : list Z) : string :=
  match xs with
  | [] => EmptyString
  | [x] => pretty x
  | x :: xs' => pretty x +:+ " " +:+ print_line xs'
  end.

(** One line for each process, every line ended by a newline. *)
Fixpoint print_file (lines : list BurstLine) : string :=
  match lines with
  | [] => EmptyString
  | l :: lines' => print_line l +:+ nl +:+ print_file lines'
  end.

(** Every character of [s] satisfies [P]. *)
Fixpoint all_chars (P : ascii → bool) (s : string) : bool :=
  match s with
  | EmptyString => true
  | String c s' => P c && all_chars P s'
  end.

(** A text of the lines of a file, each with a note behind its
    numbers: a space, and then any characters without a newline, the first
    of which can not start a number. *)
Definition no_newline (s : string) : Prop :=
  all_chars (λ c, negb (bool_decide (c = "010"%char))) s = true.

Definition is_note (note : string) : Prop :=
  no_newline note ∧
  match note with
  | EmptyString => True
  | String c _ => scan_start c = None
  end.

Fixpoint print_file_notes (lines : list (BurstLine * string)) : string :=
  match lines with
  | [] => EmptyString
  | (l, note) :: lines' =>
      print_line l +:+ " " +:+ note +:+ nl +:+ print_file_notes lines'
  end.

(** The strategy that a word after [-s] names. *)
Definition strategy_word (a : option string) : Strategy :=
  if decide (a = Some "rr") then RR else FCFS.

(** The strategy that the options choose: the last [-s] decides. *)
Definition chosen_strategy (opts : list (ascii * option string)) : Strategy :=
  match last (filter (λ oa, oa.1 = "s"%char) opts) with
  | Some oa => strategy_word oa.2
  | None => FCFS
  end.

(** What [strtol] makes of the words after the [-q] options, in
    order. *)
Definition quantum_values (long_bits : Z)
    (opts : list (ascii * option string)) : list (option Z) :=
  (λ oa, strtol long_bits (default EmptyString oa.2)) <$>
  filter (λ oa, oa.1 = "q"%char) opts.

(** A quantum is accepted when it is a number and positive. *)
Definition accepted (v : option Z) : bool :=
  match v with
  | Some val => bool_decide (0 < val)
  | None => false
  end.

(** The quantum that the options choose: the last [-q] decides, and
    without one it is 2. *)
Definition chosen_quantum (long_bits : Z)
    (opts : list (ascii * option string)) : Z :=
  match last (quantum_values long_bits opts) with
  | Some (Some val) => to_int val
  | _ => 2
  end.

(** [getopt] with the option string [s:q:] returns [q] only
    together with its argument. *)
Definition getopt_contract (opts : list (ascii * option string)) : Prop :=
  Forall (λ oa, oa.1 = "q"%char → is_Some oa.2) opts.

(** Every number that a [-q] gives is a value of [int]. *)
Definition quantum_in_int (long_bits : Z)
    (opts : list (ascii * option string)) : Prop :=
  Forall (λ v, ∀ val, v = Some val → val ≤ INT_MAX)
    (quantum_values long_bits opts).

(** A command line for round-robin with the quantum 3, and one
    whose quantum is a multiple of [2^32]. *)
Definition sample_options : list (ascii * option string) :=
  [("s"%char, Some "rr"); ("q"%char, Some "3")].

Definition wrapped_options : list (ascii * option string) :=
  [("s"%char, Some "rr"); ("q"%char, Some "4294967296")].

(** The two processes of scenario D, each with a note. *)
Definition noted_lines : list (BurstLine * string) :=
  [([2; 3; 2], "# editor"); ([5], EmptyString)].

(** ** The program on 32-bit integers

    The definitions above add in [Z] where the program adds [int]s: they
    describe the program as long as no sum leaves the range of [int].
    [Int32] is the same program with the sums that can leave it (the clock,
    the executed and the total times of a process, the wait of the report)
    brought back into the range of [int] modulo [2^32], by [to_int], which
    is what the addition of the two's-complement machines the program runs
    on computes (the C++ standard leaves a signed overflow undefined).  The
    subtractions that count down a burst, the I/O time of a blocked entry
    or the rest of a segment or of an advance take away no more than there
    is; they are as above. *)

Module Int32.

(** [int]'s [+=] on a field. *)
Definition add_executed_cpu (d : Z) (P : Proc) : Proc :=
  mkProc (pid P) (bursts P) (to_int (executed_cpu P + d)) (executed_io P)
         (total_cpu P) (total_io P) (completion_time P).
Definition add_executed_io (d : Z) (P : Proc) : Proc :=
  mkProc (pid P) (bursts P) (executed_cpu P) (to_int (executed_io P + d))
         (total_cpu P) (total_io P) (completion_time P).
Definition add_total_cpu (d : Z) (P : Proc) : Proc :=
  mkProc (pid P) (bursts P) (executed_cpu P) (executed_io P)
         (to_int (total_cpu P + d)) (total_io P) (completion_time P).
Definition add_total_io (d : Z) (P : Proc) : Proc :=
  mkProc (pid P) (bursts P) (executed_cpu P) (executed_io P) (total_cpu P)
         (to_int (total_io P + d)) (completion_time P).

(** [init_from_lines]. *)
Fixpoint sum_totals (k : nat) (bs : list Z) (P : Proc) : Proc :=
  match bs with
  | [] => P
  | b :: bs' =>
      sum_totals (S k) bs'
        (if Nat.even k then add_total_cpu b P else add_total_io b P)
  end.

Definition make_proc (i : nat) (line : BurstLine) : Proc :=
  sum_totals 0 line (mkProc i line 0 0 0 0 (-1)).

Definition init_from_lines (lines : list BurstLine) (s : Simulation)
  : Simulation :=
  let ps := imap make_proc lines in
  set_ready (ready s ++ seq 0 (length ps)) (set_procs ps s).

Definition initial (o : Options) (lines : list BurstLine) : Simulation :=
  init_from_lines lines (new_simulation o).

(** [advance_blocked]. *)
Fixpoint progress_items (step : Z) (bl : list BlockedItem) (ps : list Proc)
  : list BlockedItem * list Proc :=
  match bl with
  | [] => ([], ps)
  | bi :: bl' =>
      let dec := Z.min step (remaining_io bi) in
      let '(bl'', ps') :=
        progress_items step bl' (alter (add_executed_io dec) (p bi) ps) in
      (mkBlockedItem (p bi) (remaining_io bi - dec) (order bi) :: bl'', ps')
  end.

Definition advance_iter (t : Z) (s : Simulation) : res (Z * Simulation) :=
  match stable_sort_blocked (blocked s) with
  | [] => Undefined
  | front :: rest =>
      let next_finish := remaining_io front in
      let step := Z.min next_finish t in
      let '(bl1, ps1) := progress_items step (front :: rest) (procs s) in
      let '(bl2, ps2, rdy) := release_finished bl1 ps1 (ready s) in
      Ok (t - step, set_ready rdy (set_procs ps2 (set_blocked bl2 s)))
  end.

Fixpoint advance_loop (fuel : nat) (t : Z) (s : Simulation) : res Simulation :=
  if (0 <? t) && negb (bool_decide (blocked s = [])) then
    match fuel with
    | O => OutOfFuel
    | S fuel' =>
        let* r := advance_iter t s in
        advance_loop fuel' r.1 r.2
    end
  else Ok s.

Definition advance_blocked (dt : Z) (s : Simulation) : res Simulation :=
  advance_loop (S (length (blocked s))) dt s.

(** [run]. *)
Definition substep (q : nat) (remaining : Z) (s : Simulation)
  : res (Z * Simulation) :=
  let sorted :=
    match blocked s with
    | [] => []
    | _ :: _ => stable_sort_blocked (blocked s)
    end in
  let step :=
    match sorted with
    | [] => remaining
    | front :: _ =>
        let soonest := remaining_io front in
        if 0 <? soonest then Z.min remaining soonest else remaining
    end in
  match procs s !! q with
  | None => Undefined
  | Some P =>
      match bursts P with
      | [] => Undefined
      | c :: rest =>
          let P' := set_bursts (c - step :: rest) (add_executed_cpu step P) in
          let s1 :=
            set_procs (<[q := P']> (procs s))
              (set_time (to_int (time_elapsed s + step))
                 (set_blocked sorted s)) in
          let* s2 := advance_blocked step s1 in
          Ok (remaining - step, s2)
      end
  end.

Fixpoint exec_segment (fuel : nat) (q : nat) (remaining : Z) (s : Simulation)
  : res Simulation :=
  if 0 <? remaining then
    match fuel with
    | O => OutOfFuel
    | S fuel' =>
        let* r := substep q remaining s in
        exec_segment fuel' q r.1 r.2
    end
  else Ok s.

Definition dispatch (q : nat) (s : Simulation) : res Simulation :=
  let* cpu_remaining := front_burst q s in
  let segment := segment_length (opt s) cpu_remaining in
  let* s1 := exec_segment (Z.to_nat segment) q segment s in
  finish_segment q s1.

Definition idle_jump (s : Simulation) : res Simulation :=
  match stable_sort_blocked (blocked s) with
  | [] => Undefined
  | front :: rest =>
      let step := remaining_io front in
      let* s1 := advance_blocked step (set_blocked (front :: rest) s) in
      Ok (set_time (to_int (time_elapsed s1 + step)) s1)
  end.

Definition run_iter (s : Simulation) : res (option Simulation) :=
  match ready s with
  | q :: rdy => res_map Some (dispatch q (set_ready rdy s))
  | [] =>
      match blocked s with
      | _ :: _ => res_map Some (idle_jump s)
      | [] => Ok None
      end
  end.

Fixpoint run (fuel : nat) (s : Simulation) : res Simulation :=
  match fuel with
  | O => OutOfFuel
  | S fuel' =>
      let* r := run_iter s in
      match r with
      | Some s' => run fuel' s'
      | None => Ok s
      end
  end.

(** [print_stats_and_finish]. *)
Fixpoint emit_stats (cs : list (Z * nat)) (s : Simulation) : res Simulation :=
  match cs with
  | [] => Ok s
  | (t, i) :: cs' =>
      match procs s !! i with
      | None => Undefined
      | Some P =>
          let turnaround := completion_time P in
          let wait := to_int (turnaround - to_int (total_cpu P + total_io P)) in
          emit_stats cs' (emit (ProcessCompletion i turnaround wait) s)
      end
  end.

Definition print_stats_and_finish (s : Simulation) : res Simulation :=
  let sorted := stable_sort pair_lt (completed s) in
  emit_stats sorted (set_completed sorted s).

Definition simulate (fuel : nat) (o : Options) (lines : list BurstLine)
  : res Simulation :=
  let* s := run fuel (init_from_lines lines (new_simulation o)) in
  print_stats_and_finish s.

(** The control points of a run, as [reach] above. *)
Inductive reach (c0 : control) (s0 : Simulation)
  : control → Simulation → Prop :=
  | reach_init : reach c0 s0 c0 s0
  | reach_pop s q rdy c :
      reach c0 s0 LoopHead s →
      ready s = q :: rdy →
      front_burst q (set_ready rdy s) = Ok c →
      reach c0 s0 (Executing q (segment_length (opt s) c)) (set_ready rdy s)
  | reach_substep s q remaining r :
      reach c0 s0 (Executing q remaining) s →
      0 < remaining →
      substep q remaining s = Ok r →
      reach c0 s0 (Executing q r.1) r.2
  | reach_finish s q remaining s' :
      reach c0 s0 (Executing q remaining) s →
      remaining ≤ 0 →
      finish_segment q s = Ok s' →
      reach c0 s0 LoopHead s'
  | reach_idle s s' :
      reach c0 s0 LoopHead s →
      ready s = [] →
      blocked s ≠ [] →
      idle_jump s = Ok s' →
      reach c0 s0 LoopHead s'.

(** [main]. *)
Definition main (long_bits : Z) (fuel : nat) (argv0 : string)
    (opts : list (ascii * option string)) (operands : list string)
    (open : string → option string) (thread_created : bool)
  : res (Z * list Output) :=
  let* a := parse_args long_bits argv0 opts operands in
  match a with
  | Exits out => Ok (0, [Printed out])
  | Returns (o, file) =>
      match read_bursts file (open file) with
      | Exits out => Ok (0, [Printed out])
      | Returns lines =>
          let echo := ProcessBursts <$> lines in
          if thread_created then
            let* s := simulate fuel o lines in
            Ok (0, echo ++ (Logged <$> log s))
          else Ok (1, echo ++ [Perror "pthread_create"])
      end
  end.

End Int32.

(** [wrap s] is the state [s] as [int]s hold it. *)
Definition in_int (v : Z) : Prop := INT_MIN ≤ v ≤ INT_MAX.

Definition wrap_proc (P : Proc) : Proc :=
  mkProc (pid P) (bursts P) (to_int (executed_cpu P)) (to_int (executed_io P))
         (to_int (total_cpu P)) (to_int (total_io P))
         (to_int (completion_time P)).

Definition wrap_event (ev : Event) : Event :=
  match ev with
  | CpuBurstExecution id cpu io clock why =>
      CpuBurstExecution id (to_int cpu) (to_int io) (to_int clock) why
  | ProcessCompletion id turnaround wait =>
      ProcessCompletion id (to_int turnaround) (to_int wait)
  end.

Definition wrap (s : Simulation) : Simulation :=
  mkSimulation (opt s) (to_int (time_elapsed s)) (ready s) (blocked s)
    (wrap_proc <$> procs s)
    ((λ c : Z * nat, (to_int c.1, c.2)) <$> completed s)
    (order_counter s) (wrap_event <$> log s).

(** The bursts of the input add up to a value of [int]: then no sum
    of the program leaves the range of [int]. *)
Definition fits_in_int (lines : list BurstLine) : Prop :=
  work_total lines ≤ INT_MAX.

(** A state that [int]s hold as it is. *)
Definition int_proc (P : Proc) : Prop :=
  in_int (executed_cpu P) ∧ in_int (executed_io P) ∧
  in_int (total_cpu P) ∧ in_int (total_io P) ∧ in_int (completion_time P).

Definition int_event (ev : Event) : Prop :=
  match ev with
  | CpuBurstExecution _ cpu io clock _ =>
      in_int cpu ∧ in_int io ∧ in_int clock
  | ProcessCompletion _ turnaround wait => in_int turnaround ∧ in_int wait
  end.

Definition int_state (s : Simulation) : Prop :=
  in_int (time_elapsed s) ∧ Forall int_proc (procs s) ∧
  Forall (λ c : Z * nat, in_int c.1) (completed s) ∧
  Forall int_event (log s).

(** What a run has recorded lies between 0 and [B]; a completion
    time may still be the initial -1. *)
Definition event_within (B : Z) (ev : Event) : Prop :=
  match ev with
  | CpuBurstExecution _ cpu io clock _ =>
      0 ≤ cpu ≤ B ∧ 0 ≤ io ≤ B ∧ 0 ≤ clock ≤ B
  | ProcessCompletion _ turnaround wait =>
      -1 ≤ turnaround ≤ B ∧ -1 - B ≤ wait ≤ B
  end.

Definition recorded_within (B : Z) (s : Simulation) : Prop :=
  Forall (λ P, -1 ≤ completion_time P ≤ B) (procs s) ∧
  Forall (λ c : Z * nat, 0 ≤ c.1 ≤ B) (completed s) ∧
  Forall (event_within B) (log s).

(** An input whose I/O bursts add up to [2^31], one more than an
    [int] holds, and an input on which the clock of the program comes back
    to 3. *)
Definition overflow_input : list BurstLine := [[1; 2147483647; 1; 1; 1]].

Definition tie_input : list BurstLine :=
  [[1; 2147483647; 1; 2147483647; 3]; [2]].

(** * Lemmas *)

(** ** The result type *)

Lemma res_bind_Ok {A B} (m : res A) (k : A → res B) b :
  res_bind m k = Ok b ↔ ∃ a, m = Ok a ∧ k a = Ok b.
Proof.
  destruct m; simpl; split.
  - eauto.
  - by intros (a' & [= <-] & ?).
  - done.
  - by intros (? & ? & ?).
  - done.
  - by intros (? & ? & ?).
Qed.

Lemma res_map_Ok {A B} (f : A → B) (m : res A) b :
  res_map f m = Ok b ↔ ∃ a, m = Ok a ∧ b = f a.
Proof.
  unfold res_map. rewrite res_bind_Ok. split.
  - intros (a & ? & [= <-]). eauto.
  - intros (a & ? & ->). eauto.
Qed.

(** ** The sort *)

Section stable_sort_facts.
Context {A : Type} (lt : A → A → bool).

Lemma sort_insert_perm x l : sort_insert lt x l ≡ₚ x :: l.
Proof.
  induction l as [|y l IH]; simpl; [done|].
  destruct (lt y x); [|done].
  rewrite IH. apply Permutation_swap.
Qed.

Lemma stable_sort_perm l : stable_sort lt l ≡ₚ l.
Proof.
  induction l as [|x l IH]; simpl; [done|].
  by rewrite sort_insert_perm, IH.
Qed.

Lemma stable_sort_length l : length (stable_sort lt l) = length l.
Proof. by rewrite stable_sort_perm. Qed.

Lemma stable_sort_nil_inv l : stable_sort lt l = [] → l = [].
Proof.
  intros H. apply Permutation_nil_r. by rewrite <- H, stable_sort_perm.
Qed.

Lemma elem_of_stable_sort x l : x ∈ stable_sort lt l ↔ x ∈ l.
Proof. by rewrite stable_sort_perm. Qed.

(** A list in which no element is smaller than its predecessor is left as
    it is. *)
Lemma stable_sort_sorted_id l :
  Sorted (λ x y, lt y x = false) l → stable_sort lt l = l.
Proof.
  induction 1 as [|x l Hs IH Hhd]; simpl; [done|].
  rewrite IH. destruct Hhd as [|y l Hyx]; simpl; [done|].
  by rewrite Hyx.
Qed.
End stable_sort_facts.

(** ** The two loops over the blocked entries *)

Section alter_each_facts.
Context {A B : Type} (f : B → A → A) (k : B → nat).

Lemma alter_each_length l ps : length (alter_each f k l ps) = length ps.
Proof.
  revert ps. induction l as [|x l IH]; intros ps; simpl; [done|].
  unfold alter_each in *. simpl. by rewrite IH, length_alter.
Qed.

Lemma alter_each_lookup_ne l ps i :
  i ∉ k <$> l → alter_each f k l ps !! i = ps !! i.
Proof.
  revert ps. induction l as [|x l IH]; intros ps Hi; [done|].
  rewrite fmap_cons, not_elem_of_cons in Hi. destruct Hi as [Hne Hi].
  unfold alter_each in *. simpl. rewrite IH by done.
  by apply list_lookup_alter_ne.
Qed.

Lemma alter_each_lookup l ps x :
  NoDup (k <$> l) → x ∈ l →
  alter_each f k l ps !! k x = f x <$> ps !! k x.
Proof.
  revert ps. induction l as [|y l IH]; intros ps Hnd Hx.
  { by apply elem_of_nil in Hx. }
  rewrite fmap_cons in Hnd. apply NoDup_cons in Hnd as [Hy Hnd].
  apply elem_of_cons in Hx as [->|Hx].
  - change (alter_each f k (y :: l) ps)
      with (alter_each f k l (alter (f y) (k y) ps)).
    rewrite alter_each_lookup_ne by done.
    apply list_lookup_alter_eq.
  - change (alter_each f k (y :: l) ps)
      with (alter_each f k l (alter (f y) (k y) ps)).
    rewrite IH by done.
    rewrite list_lookup_alter_ne; [done|].
    intros Heq. apply Hy. rewrite Heq. by apply list_elem_of_fmap_2.
Qed.
End alter_each_facts.

Lemma progress_items_eq step bl ps :
  progress_items step bl ps =
    (dec_item step <$> bl,
     alter_each (λ bi, add_executed_io (Z.min step (remaining_io bi))) p bl ps).
Proof.
  revert ps. induction bl as [|bi bl IH]; intros ps; simpl; [done|].
  by rewrite IH.
Qed.

Lemma release_finished_eq bl ps rdy :
  release_finished bl ps rdy =
    (filter (λ bi, remaining_io bi ≠ 0) bl,
     alter_each (λ _, pop_front) p (filter (λ bi, remaining_io bi = 0) bl) ps,
     rdy ++ (p <$> filter (λ bi, remaining_io bi = 0) bl)).
Proof.
  revert ps rdy. induction bl as [|bi bl IH]; intros ps rdy; simpl.
  { by rewrite app_nil_r. }
  rewrite !filter_cons.
  destruct (Z.eqb_spec (remaining_io bi) 0) as [Hz|Hz].
  - rewrite decide_False by (by intros ?). rewrite decide_True by done.
    rewrite IH. simpl. by rewrite <- app_assoc.
  - rewrite decide_True by done. rewrite decide_False by done.
    by rewrite IH.
Qed.

Lemma advance_iter_eq t s front rest :
  stable_sort_blocked (blocked s) = front :: rest →
  advance_iter t s =
    Ok (t - Z.min (remaining_io front) t,
        advance_step (Z.min (remaining_io front) t) (front :: rest) s).
Proof.
  intros Hs. unfold advance_iter. rewrite Hs.
  rewrite progress_items_eq, release_finished_eq. done.
Qed.

Lemma advance_loop_unfold fuel t s :
  advance_loop fuel t s =
    if (0 <? t) && negb (bool_decide (blocked s = [])) then
      match fuel with
      | O => OutOfFuel
      | S fuel' =>
          let* r := advance_iter t s in
          advance_loop fuel' r.1 r.2
      end
    else Ok s.
Proof. by destruct fuel. Qed.

Lemma advance_loop_stop fuel t s :
  t ≤ 0 ∨ blocked s = [] → advance_loop fuel t s = Ok s.
Proof.
  intros H. rewrite advance_loop_unfold.
  destruct H as [H| ->].
  - by rewrite (proj2 (Z.ltb_ge 0 t)) by done.
  - rewrite bool_decide_eq_true_2 by done. by rewrite andb_false_r.
Qed.

(** The front entry is released by an iteration that does not use up [t]. *)
Lemma advance_step_length t s front rest :
  stable_sort_blocked (blocked s) = front :: rest →
  remaining_io front ≤ t →
  (length (blocked (advance_step (Z.min (remaining_io front) t)
                      (front :: rest) s)) < length (blocked s))%nat.
Proof.
  intros Hs Hle. unfold advance_step, set_ready, set_procs, set_blocked.
  cbn [blocked]. rewrite fmap_cons, filter_cons.
  rewrite decide_False.
  2:{ simpl. lia. }
  pose proof (length_filter (λ bi, remaining_io bi ≠ 0)
                (dec_item (Z.min (remaining_io front) t) <$> rest)) as Hf.
  rewrite length_fmap in Hf.
  rewrite <- (stable_sort_length blocked_lt (blocked s)).
  unfold stable_sort_blocked in Hs. rewrite Hs. simpl. lia.
Qed.

Lemma advance_loop_total fuel t s :
  (length (blocked s) < fuel)%nat → ∃ s', advance_loop fuel t s = Ok s'.
Proof.
  revert t s. induction fuel as [|fuel IH]; intros t s Hlen; [lia|].
  rewrite advance_loop_unfold.
  destruct ((0 <? t) && negb (bool_decide (blocked s = []))) eqn:Hc; [|eauto].
  apply andb_true_iff in Hc as [Ht Hb]. apply Z.ltb_lt in Ht.
  apply negb_true_iff, bool_decide_eq_false in Hb.
  destruct (stable_sort_blocked (blocked s)) as [|front rest] eqn:Hs.
  { by apply stable_sort_nil_inv in Hs. }
  rewrite (advance_iter_eq _ _ _ _ Hs). simpl.
  destruct (decide (remaining_io front ≤ t)) as [Hle|Hgt].
  - apply IH.
    pose proof (advance_step_length t s front rest Hs Hle). lia.
  - rewrite advance_loop_stop; [eauto|]. left. lia.
Qed.

(** [advance_blocked] returns in every state and for every [dt]. *)
Lemma advance_blocked_total dt s : ∃ s', advance_blocked dt s = Ok s'.
Proof. apply advance_loop_total. lia. Qed.

(** ** Consequences of the invariant *)

Lemma NoDup_fmap_eq {A B} (f : A → B) (l : list A) x y :
  NoDup (f <$> l) → x ∈ l → y ∈ l → f x = f y → x = y.
Proof.
  induction l as [|z l IH]; intros Hnd Hx Hy Hf.
  { by apply elem_of_nil in Hx. }
  rewrite fmap_cons in Hnd. apply NoDup_cons in Hnd as [Hz Hnd].
  apply elem_of_cons in Hx as [->|Hx]; apply elem_of_cons in Hy as [->|Hy].
  - done.
  - exfalso. apply Hz. rewrite Hf. by apply list_elem_of_fmap_2.
  - exfalso. apply Hz. rewrite <- Hf. by apply list_elem_of_fmap_2.
  - by apply IH.
Qed.

Lemma containers_NoDup lines c s : inv lines c s → NoDup (containers c s).
Proof. intros H. rewrite (inv_perm _ _ _ H). apply NoDup_seq. Qed.

Lemma blocked_NoDup lines c s : inv lines c s → NoDup (p <$> blocked s).
Proof.
  intros H. apply containers_NoDup in H. unfold containers in H.
  apply NoDup_app in H as (_ & _ & H). by apply NoDup_app in H as (H & _ & _).
Qed.

Lemma ready_NoDup lines c s : inv lines c s → NoDup (ready s).
Proof.
  intros H. apply containers_NoDup in H. unfold containers in H.
  by apply NoDup_app in H as (H & _ & _).
Qed.

Lemma ready_not_blocked lines c s q :
  inv lines c s → q ∈ ready s → q ∉ p <$> blocked s.
Proof.
  intros H Hq. apply containers_NoDup in H. unfold containers in H.
  apply NoDup_app in H as (_ & H & _). specialize (H q Hq).
  by apply not_elem_of_app in H as [H _].
Qed.

Lemma running_not_blocked lines q remaining s :
  inv lines (Executing q remaining) s → q ∉ p <$> blocked s.
Proof.
  intros H. apply containers_NoDup in H. unfold containers in H.
  apply NoDup_app in H as (_ & _ & H). apply NoDup_app in H as (_ & H & _).
  intros Hq. apply (H q Hq). simpl. apply elem_of_cons. by left.
Qed.

Lemma completed_not_blocked lines c s t q :
  inv lines c s → (t, q) ∈ completed s → q ∉ p <$> blocked s.
Proof.
  intros H Hq. apply containers_NoDup in H. unfold containers in H.
  apply NoDup_app in H as (_ & _ & H). apply NoDup_app in H as (_ & H & _).
  intros Hb. apply (H q Hb). apply elem_of_app. right.
  by apply (list_elem_of_fmap_2 snd) in Hq.
Qed.

(** ** One advance of the blocked set keeps the invariant *)

Lemma dec_item_p step (bl : list BlockedItem) :
  p <$> (dec_item step <$> bl) = p <$> bl.
Proof. rewrite <- list_fmap_compose. by apply list_fmap_ext. Qed.

Lemma advance_step_lookup_ne step sorted s i :
  i ∉ p <$> sorted → procs (advance_step step sorted s) !! i = procs s !! i.
Proof.
  intros Hi. unfold advance_step, set_ready, set_procs, set_blocked.
  cbn [procs]. rewrite !alter_each_lookup_ne; [done|done|].
  intros Hin. apply Hi. rewrite <- (dec_item_p step).
  eapply elem_of_sublist; [exact Hin|]. apply fmap_sublist, sublist_filter.
Qed.

Lemma advance_step_lookup step sorted s bi :
  NoDup (p <$> sorted) → bi ∈ sorted →
  procs (advance_step step sorted s) !! p bi =
    (λ P, let P' := add_executed_io (Z.min step (remaining_io bi)) P in
          if decide (remaining_io (dec_item step bi) = 0)
          then pop_front P' else P') <$> procs s !! p bi.
Proof.
  intros Hnd Hbi. unfold advance_step, set_ready, set_procs, set_blocked.
  cbn [procs].
  assert (NoDup (p <$> filter (λ bi, remaining_io bi = 0)
                         (dec_item step <$> sorted))) as Hnd'.
  { eapply sublist_NoDup; [|apply fmap_sublist, sublist_filter].
    by rewrite dec_item_p. }
  destruct (decide (remaining_io (dec_item step bi) = 0)) as [Hz|Hz].
  - change (p bi) with (p (dec_item step bi)).
    assert (dec_item step bi ∈ filter (λ bi, remaining_io bi = 0)
                                 (dec_item step <$> sorted)) as Hin.
    { apply list_elem_of_filter. split; [done|by apply list_elem_of_fmap_2]. }
    rewrite (alter_each_lookup (λ _, pop_front) p _ _ _ Hnd' Hin).
    change (p (dec_item step bi)) with (p bi).
    rewrite (alter_each_lookup _ p) by done.
    by destruct (procs s !! p bi).
  - rewrite alter_each_lookup_ne.
    + by rewrite (alter_each_lookup _ p) by done.
    + intros Hin. apply list_elem_of_fmap in Hin as (x & Hpx & Hx).
      apply list_elem_of_filter in Hx as [Hx0 Hx].
      apply list_elem_of_fmap in Hx as (bj & -> & Hbj).
      assert (bi = bj) as ->; [|done].
      by apply (NoDup_fmap_eq p sorted).
Qed.

Lemma blocked_ok_release step r P :
  blocked_ok r P → 0 ≤ step → r - Z.min step r = 0 →
  ready_ok (pop_front (add_executed_io (Z.min step r) P)).
Proof.
  intros (io & rest & Hb & Hr & Hodd & Hpos & Hcpu & Hio & Hc0 & Hi0)
    Hstep Hz.
  unfold ready_ok, executed_nonneg, pop_front. simpl. rewrite Hb. simpl.
  repeat split; try done; lia.
Qed.

Lemma blocked_ok_progress step r P :
  blocked_ok r P → 0 ≤ step → r - Z.min step r ≠ 0 →
  blocked_ok (r - Z.min step r) (add_executed_io (Z.min step r) P).
Proof.
  intros (io & rest & Hb & Hr & Hodd & Hpos & Hcpu & Hio & Hc0 & Hi0)
    Hstep Hz.
  exists io, rest. unfold executed_nonneg. simpl.
  repeat split; try done; lia.
Qed.

Lemma static_ok_fmap lines ps ps' :
  static_ok lines ps →
  length ps' = length ps →
  (∀ i P', ps' !! i = Some P' →
     ∃ P, ps !! i = Some P ∧ pid P' = pid P ∧
          total_cpu P' = total_cpu P ∧ total_io P' = total_io P) →
  static_ok lines ps'.
Proof.
  intros [Hlen Hst] Hlen' Hpt. split; [congruence|].
  intros i P' HP'. destruct (Hpt i P' HP') as (P & HP & -> & -> & ->).
  by apply Hst.
Qed.

Lemma advance_step_inv lines c s sorted step :
  inv lines c s → sorted ≡ₚ blocked s → 0 ≤ step →
  inv lines c (advance_step step sorted s).
Proof.
  intros Hinv Hperm Hstep.
  assert (NoDup (p <$> sorted)) as Hnd.
  { rewrite Hperm. by eapply blocked_NoDup. }
  assert (∀ i, i ∉ p <$> blocked s →
            procs (advance_step step sorted s) !! i = procs s !! i) as Hne.
  { intros i Hi. apply advance_step_lookup_ne. by rewrite Hperm. }
  split.
  - (* static fields *)
    eapply static_ok_fmap; [apply (inv_static _ _ _ Hinv)| |].
    { unfold advance_step. cbn [procs set_ready set_procs].
      by rewrite !alter_each_length. }
    intros i P' HP'.
    destruct (decide (i ∈ p <$> sorted)) as [Hin|Hout].
    + apply list_elem_of_fmap in Hin as (bi & -> & Hbi).
      rewrite (advance_step_lookup _ _ _ _ Hnd Hbi) in HP'.
      destruct (procs s !! p bi) as [P|]; [|done].
      injection HP' as <-. exists P. split; [done|].
      by destruct (decide _).
    + rewrite advance_step_lookup_ne in HP' by done. eauto.
  - (* containers *)
    rewrite <- (inv_perm _ _ _ Hinv).
    unfold containers, advance_step. cbn [ready blocked completed set_ready
      set_procs set_blocked].
    rewrite <- !app_assoc. apply Permutation_app_head.
    rewrite !app_assoc. do 2 apply Permutation_app_tail.
    rewrite <- fmap_app, <- Hperm, <- (dec_item_p step sorted).
    apply fmap_Permutation.
    apply (filter_app_complement (λ bi, remaining_io bi = 0)).
  - (* ready *)
    intros q Hq. unfold advance_step in Hq. cbn [ready set_ready] in Hq.
    apply elem_of_app in Hq as [Hq|Hq].
    + rewrite Hne by (by eapply ready_not_blocked).
      by apply (inv_ready _ _ _ Hinv).
    + apply list_elem_of_fmap in Hq as (x & -> & Hx).
      apply list_elem_of_filter in Hx as [Hx0 Hx].
      apply list_elem_of_fmap in Hx as (bi & -> & Hbi).
      change (p (dec_item step bi)) with (p bi).
      rewrite (advance_step_lookup _ _ _ _ Hnd Hbi).
      destruct (inv_blocked _ _ _ Hinv bi) as (P & -> & HP).
      { by rewrite <- Hperm. }
      eexists; split; [done|]. cbv beta zeta.
      rewrite decide_True by done. by apply blocked_ok_release.
  - (* blocked *)
    intros x Hx. unfold advance_step in Hx. cbn [blocked set_ready set_procs
      set_blocked] in Hx.
    apply list_elem_of_filter in Hx as [Hx0 Hx].
    apply list_elem_of_fmap in Hx as (bi & -> & Hbi).
    change (p (dec_item step bi)) with (p bi).
    rewrite (advance_step_lookup _ _ _ _ Hnd Hbi).
    destruct (inv_blocked _ _ _ Hinv bi) as (P & -> & HP).
    { by rewrite <- Hperm. }
    eexists; split; [done|]. cbv beta zeta.
    rewrite decide_False by done. by apply blocked_ok_progress.
  - (* running *)
    intros q remaining ->.
    rewrite Hne by (by eapply running_not_blocked).
    by eapply (inv_running _ _ _ Hinv).
  - (* completed *)
    intros t q Hq. change (completed (advance_step step sorted s))
      with (completed s) in Hq.
    rewrite Hne by (by eapply completed_not_blocked).
    by apply (inv_completed _ _ _ Hinv).
Qed.

(** ** The work done never decreases *)

Lemma total_of_le {A} (f : A → Z) (l l' : list A) :
  Forall2 (λ x y, f x ≤ f y) l l' → total_of f l ≤ total_of f l'.
Proof. induction 1; simpl; lia. Qed.

Lemma total_of_lt {A} (f : A → Z) (l l' : list A) i x y :
  Forall2 (λ x y, f x ≤ f y) l l' →
  l !! i = Some x → l' !! i = Some y → f x < f y →
  total_of f l < total_of f l'.
Proof.
  intros H. revert i. induction H as [|a b l l' Hab H IH]; intros i Hx Hy Hlt.
  { done. }
  destruct i as [|i]; simpl in *.
  - injection Hx as ->. injection Hy as ->.
    apply total_of_le in H. lia.
  - specialize (IH i Hx Hy Hlt). lia.
Qed.

Lemma advance_step_work lines c s sorted step :
  inv lines c s → sorted ≡ₚ blocked s → 0 ≤ step →
  Forall2 (λ P P', work P ≤ work P')
    (procs s) (procs (advance_step step sorted s)).
Proof.
  intros Hinv Hperm Hstep.
  assert (NoDup (p <$> sorted)) as Hnd.
  { rewrite Hperm. by eapply blocked_NoDup. }
  apply Forall2_same_length_lookup_2.
  { unfold advance_step. cbn [procs set_ready set_procs].
    by rewrite !alter_each_length. }
  intros i P P' HP HP'.
  destruct (decide (i ∈ p <$> sorted)) as [Hin|Hout].
  - apply list_elem_of_fmap in Hin as (bi & -> & Hbi).
    rewrite (advance_step_lookup _ _ _ _ Hnd Hbi), HP in HP'.
    injection HP' as <-.
    destruct (inv_blocked _ _ _ Hinv bi) as (P0 & HP0 & Hok).
    { by rewrite <- Hperm. }
    destruct Hok as (io & rest & _ & Hr & _).
    cbv beta zeta. destruct (decide _); unfold work; simpl; lia.
  - rewrite advance_step_lookup_ne, HP in HP' by done.
    by injection HP' as <-.
Qed.

Lemma advance_step_work_lt lines c s sorted step :
  inv lines c s → sorted ≡ₚ blocked s → 0 < step → blocked s ≠ [] →
  work_done s < work_done (advance_step step sorted s).
Proof.
  intros Hinv Hperm Hstep Hne.
  assert (NoDup (p <$> sorted)) as Hnd.
  { rewrite Hperm. by eapply blocked_NoDup. }
  destruct sorted as [|bi rest].
  { symmetry in Hperm. by apply Permutation_nil_r in Hperm. }
  assert (bi ∈ bi :: rest) as Hbi by (by apply elem_of_cons; left).
  destruct (inv_blocked _ _ _ Hinv bi) as (P0 & HP0 & Hok).
  { by rewrite <- Hperm. }
  destruct Hok as (io & rest' & _ & Hr & _).
  eapply (total_of_lt work _ _ (p bi)).
  - eapply advance_step_work; [done|done|lia].
  - done.
  - rewrite (advance_step_lookup _ _ _ _ Hnd Hbi), HP0. done.
  - cbv beta zeta. destruct (decide _); unfold work; simpl; lia.
Qed.

(** ** advance_blocked keeps the invariant *)

Lemma advance_loop_frame fuel t s s' :
  advance_loop fuel t s = Ok s' →
  time_elapsed s' = time_elapsed s ∧ completed s' = completed s ∧
  log s' = log s ∧ opt s' = opt s ∧ order_counter s' = order_counter s.
Proof.
  revert t s. induction fuel as [|fuel IH]; intros t s; rewrite advance_loop_unfold;
    destruct (_ && _); try done; try (by intros [= <-]).
  intros (r & Hr & Hloop)%res_bind_Ok.
  apply IH in Hloop. unfold advance_iter in Hr.
  destruct (stable_sort_blocked (blocked s)) as [|front rest]; [done|].
  rewrite progress_items_eq, release_finished_eq in Hr.
  by injection Hr as <-.
Qed.

Lemma advance_loop_inv lines c fuel t s s' :
  inv lines c s → advance_loop fuel t s = Ok s' →
  inv lines c s' ∧ work_done s ≤ work_done s' ∧
  (0 < t → blocked s ≠ [] → work_done s < work_done s').
Proof.
  revert t s. induction fuel as [|fuel IH]; intros t s Hinv;
    rewrite advance_loop_unfold;
    destruct ((0 <? t) && negb (bool_decide (blocked s = []))) eqn:Hc;
    try done.
  - intros [= <-]. split; [done|]. split; [lia|].
    intros Ht Hb. apply andb_false_iff in Hc as [Hc|Hc].
    + apply Z.ltb_ge in Hc. lia.
    + apply negb_false_iff, bool_decide_eq_true in Hc. done.
  - apply andb_true_iff in Hc as [Ht Hb]. apply Z.ltb_lt in Ht.
    apply negb_true_iff, bool_decide_eq_false in Hb.
    destruct (stable_sort_blocked (blocked s)) as [|front rest] eqn:Hs.
    { by apply stable_sort_nil_inv in Hs. }
    rewrite (advance_iter_eq _ _ _ _ Hs). simpl.
    assert (front :: rest ≡ₚ blocked s) as Hperm.
    { rewrite <- Hs. apply stable_sort_perm. }
    assert (0 < remaining_io front) as Hfront.
    { destruct (inv_blocked _ _ _ Hinv front) as (P0 & _ & Hok).
      { rewrite <- Hperm. apply elem_of_cons. by left. }
      destruct Hok as (? & ? & _ & ? & _). lia. }
    intros Hloop. apply IH in Hloop as (Hinv' & Hle & _).
    2:{ apply advance_step_inv; [done|done|lia]. }
    split; [done|].
    pose proof (advance_step_work_lt lines c s (front :: rest)
                  (Z.min (remaining_io front) t) Hinv Hperm) as Hlt.
    specialize (Hlt ltac:(lia) Hb). split; [lia|intros _ _; lia].
  - intros [= <-]. split; [done|]. split; [lia|].
    intros Ht Hb. apply andb_false_iff in Hc as [Hc|Hc].
    + apply Z.ltb_ge in Hc. lia.
    + apply negb_false_iff, bool_decide_eq_true in Hc. done.
Qed.

(** ** A sub-step of a CPU segment keeps the invariant *)

Lemma running_not_ready lines q remaining s :
  inv lines (Executing q remaining) s → q ∉ ready s.
Proof.
  intros H. apply containers_NoDup in H. unfold containers in H.
  apply NoDup_app in H as (_ & H & _). intros Hq. apply (H q Hq).
  apply elem_of_app. right. apply elem_of_app. left. apply elem_of_cons.
  by left.
Qed.

Lemma running_not_completed lines q remaining s t :
  inv lines (Executing q remaining) s → (t, q) ∉ completed s.
Proof.
  intros H. apply containers_NoDup in H. unfold containers in H.
  apply NoDup_app in H as (_ & _ & H). apply NoDup_app in H as (_ & _ & H).
  simpl in H. apply NoDup_cons in H as [H _]. intros Hq. apply H.
  by apply (list_elem_of_fmap_2 snd) in Hq.
Qed.

Lemma total_of_insert {A} (f : A → Z) (l : list A) i x y :
  l !! i = Some x → total_of f (<[i:=y]> l) = total_of f l - f x + f y.
Proof.
  revert i. induction l as [|a l IH]; intros i Hi; [done|].
  destruct i as [|i]; simpl in *.
  - injection Hi as ->. lia.
  - rewrite (IH i Hi). lia.
Qed.

Lemma static_ok_insert lines ps q P P' :
  static_ok lines ps → ps !! q = Some P →
  pid P' = pid P → total_cpu P' = total_cpu P → total_io P' = total_io P →
  static_ok lines (<[q:=P']> ps).
Proof.
  intros Hst HP Hpid Hcpu Hio.
  eapply static_ok_fmap; [done|apply length_insert|].
  intros i P0 HP0. destruct (decide (q = i)) as [<-|Hne].
  - rewrite list_lookup_insert_eq in HP0 by (by eapply lookup_lt_Some).
    injection HP0 as <-. eauto.
  - rewrite list_lookup_insert_ne in HP0 by done. eauto.
Qed.

(** The running process is updated, the clock moves and the blocked
    entries are reordered. *)
Lemma inv_update_running lines q remaining remaining' s P P' bl t :
  inv lines (Executing q remaining) s →
  bl ≡ₚ blocked s →
  procs s !! q = Some P →
  pid P' = pid P → total_cpu P' = total_cpu P → total_io P' = total_io P →
  running_ok remaining' P' →
  inv lines (Executing q remaining')
    (set_procs (<[q:=P']> (procs s)) (set_time t (set_blocked bl s))).
Proof.
  intros Hinv Hperm HP Hpid Hcpu Hio Hok.
  assert (q < length (procs s))%nat as Hlt by (by eapply lookup_lt_Some).
  split; cbn [procs ready blocked completed set_procs set_time set_blocked].
  - by eapply static_ok_insert; [apply (inv_static _ _ _ Hinv)|..].
  - rewrite <- (inv_perm _ _ _ Hinv). unfold containers.
    cbn [ready blocked completed set_procs set_time set_blocked running].
    by rewrite Hperm.
  - intros q' Hq'. rewrite list_lookup_insert_ne.
    + by apply (inv_ready _ _ _ Hinv).
    + intros <-. by eapply running_not_ready.
  - intros bi Hbi. rewrite Hperm in Hbi. rewrite list_lookup_insert_ne.
    + by apply (inv_blocked _ _ _ Hinv).
    + intros Heq. eapply running_not_blocked; [done|]. rewrite Heq.
      by apply list_elem_of_fmap_2.
  - intros q' r' [= <- <-]. rewrite list_lookup_insert_eq by done. eauto.
  - intros t' q' Hq'. rewrite list_lookup_insert_ne.
    + by apply (inv_completed _ _ _ Hinv).
    + intros <-. by eapply running_not_completed.
Qed.

Lemma substep_sorted_perm (bl : list BlockedItem) :
  match bl with
  | [] => []
  | _ :: _ => stable_sort_blocked bl
  end ≡ₚ bl.
Proof. destruct bl; [done|]. apply stable_sort_perm. Qed.

Lemma substep_inv lines q remaining s :
  inv lines (Executing q remaining) s → 0 < remaining →
  ∃ step s',
    substep q remaining s = Ok (remaining - step, s') ∧
    0 < step ≤ remaining ∧
    inv lines (Executing q (remaining - step)) s' ∧
    time_elapsed s' = time_elapsed s + step ∧
    work_done s + step ≤ work_done s' ∧
    completed s' = completed s ∧ log s' = log s ∧ opt s' = opt s.
Proof.
  intros Hinv Hrem. unfold substep.
  pose proof (substep_sorted_perm (blocked s)) as Hperm.
  set (sorted := match blocked s with
                 | [] => []
                 | _ :: _ => stable_sort_blocked (blocked s)
                 end) in *.
  set (step := match sorted with
               | [] => remaining
               | front :: _ =>
                   if 0 <? remaining_io front
                   then Z.min remaining (remaining_io front) else remaining
               end).
  assert (0 < step ≤ remaining) as Hstep.
  { subst step. destruct sorted as [|front rest]; [lia|].
    destruct (Z.ltb_spec 0 (remaining_io front)); lia. }
  destruct (inv_running _ _ _ Hinv q remaining eq_refl) as (P & HP & Hok).
  rewrite HP.
  destruct Hok
    as (c & rest & Hb & Hle & Hc & Heven & Hpos & Hcpu & Hio & Hc0 & Hi0).
  rewrite Hb.
  set (P' := set_bursts (c - step :: rest) (add_executed_cpu step P)).
  set (s1 := set_procs _ _).
  assert (inv lines (Executing q (remaining - step)) s1) as Hinv1.
  { eapply inv_update_running; try done.
    exists (c - step), rest. subst P'. unfold executed_nonneg. simpl.
    rewrite Hb in Hcpu, Hio.
    simpl in Hcpu, Hio. repeat split; try done; lia. }
  destruct (advance_blocked_total step s1) as [s2 Hs2].
  exists step, s2. rewrite Hs2. simpl. split; [done|]. split; [done|].
  pose proof (advance_loop_frame _ _ _ _ Hs2) as (Ht & Hcomp & Hlog & Hopt & _).
  apply (advance_loop_inv lines _ _ _ _ _ Hinv1) in Hs2 as (Hinv2 & Hwork & _).
  split; [done|]. split; [by rewrite Ht|]. split; [|by rewrite Hcomp, Hlog, Hopt].
  etrans; [|exact Hwork]. unfold work_done, s1. cbn [procs set_procs].
  rewrite (total_of_insert _ _ _ _ _ HP). subst P'. unfold work. simpl. lia.
Qed.

(** Processes outside the blocked set are not touched by
    [advance_blocked]. *)
Lemma advance_loop_lookup_ne fuel t s s' i :
  i ∉ p <$> blocked s → advance_loop fuel t s = Ok s' →
  procs s' !! i = procs s !! i.
Proof.
  revert t s. induction fuel as [|fuel IH]; intros t s Hi;
    rewrite advance_loop_unfold; destruct (_ && _); try done;
    try (by intros [= <-]).
  intros (r & Hr & Hloop)%res_bind_Ok.
  destruct (stable_sort_blocked (blocked s)) as [|front rest] eqn:Hs.
  { unfold advance_iter in Hr. by rewrite Hs in Hr. }
  rewrite (advance_iter_eq _ _ _ _ Hs) in Hr. injection Hr as <-.
  assert (i ∉ p <$> front :: rest) as Hi'.
  { rewrite <- Hs. unfold stable_sort_blocked. by rewrite stable_sort_perm. }
  simpl in Hloop. apply IH in Hloop.
  - rewrite Hloop. by apply advance_step_lookup_ne.
  - unfold advance_step. cbn [blocked set_ready set_procs set_blocked].
    intros Hin. apply Hi'. rewrite <- (dec_item_p (Z.min (remaining_io front) t)).
    eapply elem_of_sublist; [exact Hin|]. apply fmap_sublist, sublist_filter.
Qed.

Lemma substep_front lines q remaining s step s' c :
  inv lines (Executing q remaining) s →
  substep q remaining s = Ok (remaining - step, s') →
  front_burst q s = Ok c → front_burst q s' = Ok (c - step).
Proof.
  intros Hinv Hsub Hfront. unfold front_burst in *.
  unfold substep in Hsub.
  destruct (procs s !! q) as [P|] eqn:HP; [|done].
  destruct (bursts P) as [|c' rest] eqn:Hb; [done|]. injection Hfront as ->.
  apply res_bind_Ok in Hsub as (s2 & Hs2 & Heq).
  injection Heq as Hstep <-.
  apply advance_loop_lookup_ne with (i := q) in Hs2.
  - rewrite Hs2. cbn [procs set_procs].
    rewrite list_lookup_insert_eq by (by eapply lookup_lt_Some). simpl.
    do 2 f_equal. lia.
  - cbn [blocked set_procs set_time set_blocked].
    rewrite substep_sorted_perm. by eapply running_not_blocked.
Qed.

(** ** A whole CPU segment *)

Lemma exec_segment_unfold fuel q remaining s :
  exec_segment fuel q remaining s =
    if 0 <? remaining then
      match fuel with
      | O => OutOfFuel
      | S fuel' =>
          let* r := substep q remaining s in
          exec_segment fuel' q r.1 r.2
      end
    else Ok s.
Proof. by destruct fuel. Qed.

Lemma exec_segment_inv lines fuel q remaining s :
  inv lines (Executing q remaining) s →
  (Z.to_nat remaining ≤ fuel)%nat →
  ∃ s',
    exec_segment fuel q remaining s = Ok s' ∧
    inv lines (Executing q (Z.min remaining 0)) s' ∧
    time_elapsed s' = time_elapsed s + Z.max remaining 0 ∧
    work_done s + Z.max remaining 0 ≤ work_done s' ∧
    completed s' = completed s ∧ log s' = log s ∧ opt s' = opt s ∧
    (∀ c, front_burst q s = Ok c →
          front_burst q s' = Ok (c - Z.max remaining 0)).
Proof.
  revert remaining s. induction fuel as [|fuel IH]; intros remaining s Hinv Hfuel;
    rewrite exec_segment_unfold; destruct (Z.ltb_spec 0 remaining) as [Hpos|Hneg];
    try lia.
  - exists s. rewrite Z.min_l, Z.max_r by lia.
    split; [done|]. split; [done|]. split; [lia|]. split; [lia|].
    do 3 (split; [done|]). intros c. by rewrite Z.sub_0_r.
  - destruct (substep_inv _ _ _ _ Hinv Hpos)
      as (step & s1 & Hsub & Hstep & Hinv1 & Ht1 & Hw1 & Hc1 & Hl1 & Ho1).
    rewrite Hsub. simpl.
    assert (Z.to_nat (remaining - step) ≤ fuel)%nat as Hfuel' by lia.
    destruct (IH (remaining - step) s1 Hinv1 Hfuel')
      as (s' & Hex & Hinv' & Ht' & Hw' & Hc' & Hl' & Ho' & Hf').
    exists s'. rewrite Z.min_r in Hinv' by lia. rewrite Z.min_r by lia.
    rewrite Z.max_l in Ht', Hw', Hf' by lia. rewrite Z.max_l by lia.
    split; [done|]. split; [done|]. split; [lia|]. split; [lia|].
    split; [congruence|]. split; [congruence|]. split; [congruence|].
    intros c Hc. eapply substep_front in Hc; [|done..].
    rewrite (Hf' _ Hc). f_equal. lia.
  - exists s. rewrite Z.min_l, Z.max_r by lia.
    split; [done|]. split; [done|]. split; [lia|]. split; [lia|].
    do 3 (split; [done|]). intros c. by rewrite Z.sub_0_r.
Qed.

(** ** After the segment *)

(** The running process leaves the CPU for one of the containers. *)
Lemma inv_release_cpu lines q remaining s s' P P' :
  inv lines (Executing q remaining) s →
  procs s !! q = Some P →
  procs s' = <[q:=P']> (procs s) →
  pid P' = pid P → total_cpu P' = total_cpu P → total_io P' = total_io P →
  containers LoopHead s' ≡ₚ containers (Executing q remaining) s →
  (∀ q', q' ∈ ready s' → q' ∈ ready s ∨ (q' = q ∧ ready_ok P')) →
  (∀ bi, bi ∈ blocked s' →
     bi ∈ blocked s ∨ (p bi = q ∧ blocked_ok (remaining_io bi) P')) →
  (∀ t q', (t, q') ∈ completed s' →
     (t, q') ∈ completed s ∨ (q' = q ∧ completed_ok t P')) →
  inv lines LoopHead s'.
Proof.
  intros Hinv HP Hprocs Hpid Hcpu Hio Hperm Hready Hblocked Hcompleted.
  assert (q < length (procs s))%nat as Hlt by (by eapply lookup_lt_Some).
  split.
  - rewrite Hprocs.
    by eapply static_ok_insert; [apply (inv_static _ _ _ Hinv)|..].
  - by rewrite Hperm, (inv_perm _ _ _ Hinv).
  - intros q' Hq'. rewrite Hprocs.
    destruct (Hready q' Hq') as [Hin|[-> Hok]].
    + rewrite list_lookup_insert_ne; [by apply (inv_ready _ _ _ Hinv)|].
      intros <-. by eapply running_not_ready.
    + rewrite list_lookup_insert_eq by done. eauto.
  - intros bi Hbi. rewrite Hprocs.
    destruct (Hblocked bi Hbi) as [Hin|[Heq Hok]].
    + rewrite list_lookup_insert_ne; [by apply (inv_blocked _ _ _ Hinv)|].
      intros Heq. eapply running_not_blocked; [done|]. rewrite Heq.
      by apply list_elem_of_fmap_2.
    + rewrite Heq, list_lookup_insert_eq by done. eauto.
  - done.
  - intros t q' Hq'. rewrite Hprocs.
    destruct (Hcompleted t q' Hq') as [Hin|[-> Hok]].
    + rewrite list_lookup_insert_ne; [by apply (inv_completed _ _ _ Hinv)|].
      intros <-. by eapply running_not_completed.
    + rewrite list_lookup_insert_eq by done. eauto.
Qed.

Lemma running_pid lines q remaining s P :
  inv lines (Executing q remaining) s → procs s !! q = Some P → pid P = q.
Proof.
  intros Hinv HP. by destruct (proj2 (inv_static _ _ _ Hinv) q P HP).
Qed.

Lemma finish_segment_inv lines q remaining s :
  inv lines (Executing q remaining) s → remaining ≤ 0 →
  ∃ s' P why,
    finish_segment q s = Ok s' ∧
    inv lines LoopHead s' ∧
    procs s !! q = Some P ∧
    time_elapsed s' = time_elapsed s ∧
    work_done s' = work_done s ∧
    opt s' = opt s ∧
    log s' = log s ++ [CpuBurstExecution q (executed_cpu P) (executed_io P)
                         (time_elapsed s) why] ∧
    match why with
    | COMPLETED =>
        front_burst q s = Ok 0 ∧
        completed s' = completed s ++ [(time_elapsed s, q)] ∧
        ready s' = ready s ∧ blocked s' = blocked s
    | ENTER_IO =>
        front_burst q s = Ok 0 ∧
        completed s' = completed s ∧
        ready s' = ready s ∧ q ∈ p <$> blocked s'
    | QUANTUM_EXPIRED =>
        (∃ c, front_burst q s = Ok c ∧ front_burst q s' = Ok c ∧ 0 < c) ∧
        completed s' = completed s ∧
        ready s' = ready s ++ [q] ∧ blocked s' = blocked s
    end.
Proof.
  intros Hinv Hrem. unfold finish_segment.
  destruct (inv_running _ _ _ Hinv q remaining eq_refl) as (P & HP & Hok).
  pose proof (running_pid _ _ _ _ _ Hinv HP) as Hpid.
  rewrite HP.
  destruct Hok
    as (c & rest & Hb & Hle & Hc & Heven & Hpos & Hcpu & Hio & Hnc & Hni).
  unfold executed_nonneg in *.
  rewrite Hb in *. simpl in Hcpu, Hio.
  destruct (Z.eqb_spec c 0) as [->|Hc0].
  - destruct rest as [|io rest]; simpl in Hcpu, Hio.
    + (* completed *)
      eexists _, P, COMPLETED. split; [done|]. simpl. rewrite Hpid.
      split; [|split; [done|]; split; [done|]; split;
                 [|do 2 (split; [done|]); unfold front_burst;
                   by rewrite HP, Hb]].
      * eapply inv_release_cpu; try done; cbn [ready blocked completed emit
          set_completed set_procs procs]; try done.
        -- unfold containers. cbn [ready blocked completed emit
             set_completed set_procs running].
           rewrite fmap_app. simpl.
           by rewrite (Permutation_app_comm (snd <$> completed s) [q]).
        -- auto.
        -- auto.
        -- intros t q' [Hin|Hin%list_elem_of_singleton]%elem_of_app; [auto|].
           injection Hin as -> ->. right. split; [done|].
           unfold completed_ok, executed_nonneg. simpl. repeat split; lia.
      * unfold work_done. cbn [procs emit set_completed set_procs].
        rewrite (total_of_insert _ _ _ _ _ HP). unfold work. simpl. lia.
    + (* enters I/O *)
      apply Forall_cons in Hpos as [Hpio Hpos].
      set (P1 := set_bursts (io :: rest) P).
      set (s1 := emit _ _).
      assert (procs s1 !! q = Some P1) as HP1.
      { subst s1. cbn [procs emit set_procs].
        apply list_lookup_insert_eq. by eapply lookup_lt_Some. }
      assert (move_to_blocked q s1 =
                set_order_counter (S (order_counter s1))
                  (set_blocked
                     (stable_sort_blocked
                        (blocked s ++ [mkBlockedItem q io (order_counter s)]))
                     (set_procs (<[q:=P1]> (procs s)) s1))) as Hmove.
      { unfold move_to_blocked. rewrite HP1. subst P1. simpl.
        destruct (Z.eqb_spec io 0) as [->|_]; [lia|]. simpl.
        by rewrite list_insert_insert_eq. }
      eexists _, P, ENTER_IO. split; [done|]. rewrite Hmove.
      split; [|split; [done|]; split; [done|]; split;
                 [|split; [done|]; split;
                   [by subst s1 P1; simpl; rewrite Hpid|]]].
      3:{ split; [by unfold front_burst; rewrite HP, Hb|].
          do 2 (split; [done|]).
          cbn [blocked set_order_counter set_blocked].
          unfold stable_sort_blocked. rewrite stable_sort_perm, fmap_app.
          apply elem_of_app. right. simpl. by apply list_elem_of_singleton. }
      * eapply (inv_release_cpu _ _ _ _ _ P P1); try done;
          cbn [ready blocked completed emit set_order_counter set_blocked
               set_procs procs]; try done.
        -- unfold containers. cbn [ready blocked completed emit
             set_order_counter set_blocked set_procs running].
           unfold stable_sort_blocked. rewrite stable_sort_perm, fmap_app.
           simpl. by rewrite <- !app_assoc.
        -- auto.
        -- intros bi Hbi. unfold stable_sort_blocked in Hbi.
           rewrite elem_of_stable_sort in Hbi.
           apply elem_of_app in Hbi as [Hin|Hin%list_elem_of_singleton];
             [auto|].
           subst bi. right. split; [done|]. exists io, rest.
           unfold executed_nonneg. simpl.
           cbn [length] in Heven. rewrite Nat.even_succ in Heven.
           repeat split; try done; lia.
        -- auto.
      * unfold work_done. cbn [procs emit set_order_counter set_blocked
          set_procs].
        rewrite (total_of_insert _ _ _ _ _ HP). unfold work. simpl. lia.
  - (* quantum expired *)
    eexists _, P, QUANTUM_EXPIRED. split; [done|]. rewrite Hpid.
    split; [|do 5 (split; [done|]); split; [|done]; exists c;
             unfold front_burst; cbn [procs emit enqueue_ready set_ready];
             rewrite HP, Hb; repeat split; try done; lia].
    eapply (inv_release_cpu _ _ _ _ _ P P); try done;
      cbn [ready blocked completed procs emit enqueue_ready set_ready];
      try done.
    + by rewrite list_insert_id.
    + unfold containers. cbn [ready blocked completed emit enqueue_ready
        set_ready running].
      rewrite <- !app_assoc. apply Permutation_app_head. simpl.
      by rewrite <- Permutation_middle.
    + intros q' [Hin|Hin%list_elem_of_singleton]%elem_of_app; [auto|].
      right. split; [done|]. unfold ready_ok, executed_nonneg.
      rewrite Hb. simpl. cbn [length]. rewrite Nat.odd_succ.
      repeat split; try done.
      apply Forall_cons. split; [lia|done].
    + auto.
    + auto.
Qed.

(** ** The idle jump *)

Lemma inv_reorder lines c s bl :
  inv lines c s → bl ≡ₚ blocked s → inv lines c (set_blocked bl s).
Proof.
  intros Hinv Hperm. split; cbn [procs ready blocked completed set_blocked].
  - apply (inv_static _ _ _ Hinv).
  - rewrite <- (inv_perm _ _ _ Hinv). unfold containers.
    cbn [ready blocked completed set_blocked]. by rewrite Hperm.
  - apply (inv_ready _ _ _ Hinv).
  - intros bi Hbi. rewrite Hperm in Hbi. by apply (inv_blocked _ _ _ Hinv).
  - apply (inv_running _ _ _ Hinv).
  - apply (inv_completed _ _ _ Hinv).
Qed.

Lemma inv_set_time lines c s t : inv lines c s → inv lines c (set_time t s).
Proof. intros [? ? ? ? ? ?]. by split. Qed.

Lemma idle_jump_inv lines s :
  inv lines LoopHead s → blocked s ≠ [] →
  ∃ s' step,
    idle_jump s = Ok s' ∧
    inv lines LoopHead s' ∧
    0 < step ∧
    time_elapsed s' = time_elapsed s + step ∧
    work_done s < work_done s' ∧
    completed s' = completed s ∧ log s' = log s ∧ opt s' = opt s.
Proof.
  intros Hinv Hne. unfold idle_jump.
  destruct (stable_sort_blocked (blocked s)) as [|front rest] eqn:Hs.
  { by apply stable_sort_nil_inv in Hs. }
  assert (front :: rest ≡ₚ blocked s) as Hperm.
  { rewrite <- Hs. apply stable_sort_perm. }
  assert (0 < remaining_io front) as Hfront.
  { destruct (inv_blocked _ _ _ Hinv front) as (P0 & _ & Hok).
    { rewrite <- Hperm. apply elem_of_cons. by left. }
    destruct Hok as (? & ? & _ & ? & _). lia. }
  pose proof (inv_reorder _ _ _ _ Hinv Hperm) as Hinv0.
  destruct (advance_blocked_total (remaining_io front)
              (set_blocked (front :: rest) s)) as [s1 Hs1].
  rewrite Hs1. simpl. eexists _, (remaining_io front). split; [done|].
  pose proof (advance_loop_frame _ _ _ _ Hs1) as (Ht & Hcomp & Hlog & Hopt & _).
  apply (advance_loop_inv lines _ _ _ _ _ Hinv0) in Hs1 as (Hinv1 & _ & Hlt).
  split; [by apply inv_set_time|]. split; [done|].
  cbn [time_elapsed set_time]. split; [by rewrite Ht|].
  split; [by apply Hlt|]. done.
Qed.

(** ** Dispatching the front of the ready queue *)

Lemma segment_length_le o c : segment_length o c ≤ c.
Proof. unfold segment_length. destruct (strategy o); lia. Qed.

Lemma segment_length_pos o c :
  valid_options o → 0 < c → 0 < segment_length o c.
Proof.
  unfold segment_length. intros [->| Hq] Hc; [done|].
  destruct (strategy o); lia.
Qed.

Lemma pop_inv lines s q rdy :
  inv lines LoopHead s → ready s = q :: rdy →
  ∃ c,
    front_burst q (set_ready rdy s) = Ok c ∧ 0 < c ∧
    inv lines (Executing q (segment_length (opt s) c)) (set_ready rdy s).
Proof.
  intros Hinv Hready.
  destruct (inv_ready _ _ _ Hinv q) as (P & HP & Hok).
  { rewrite Hready. apply elem_of_cons. by left. }
  destruct Hok as (Hodd & Hpos & Hcpu & Hio & Hnc & Hni).
  destruct (bursts P) as [|c rest] eqn:Hb; [done|].
  apply Forall_cons in Hpos as [Hc Hpos].
  exists c. unfold front_burst. cbn [procs set_ready]. rewrite HP, Hb.
  split; [done|]. split; [done|].
  split; cbn [procs ready blocked completed set_ready].
  - apply (inv_static _ _ _ Hinv).
  - rewrite <- (inv_perm _ _ _ Hinv). unfold containers.
    cbn [ready blocked completed set_ready running]. rewrite Hready.
    cbn [app]. by rewrite <- !Permutation_middle.
  - intros q' Hq'. apply (inv_ready _ _ _ Hinv). rewrite Hready.
    apply elem_of_cons. by right.
  - apply (inv_blocked _ _ _ Hinv).
  - intros q' r' [= <- <-]. exists P. split; [done|].
    exists c, rest. rewrite Hb in *. cbn [length] in Hodd.
    rewrite Nat.odd_succ in Hodd.
    pose proof (segment_length_le (opt s) c). unfold executed_nonneg.
    repeat split; try done; lia.
  - apply (inv_completed _ _ _ Hinv).
Qed.

Lemma dispatch_inv lines s q rdy :
  inv lines LoopHead s → ready s = q :: rdy →
  ∃ s' c cpu io why,
    dispatch q (set_ready rdy s) = Ok s' ∧
    inv lines LoopHead s' ∧
    front_burst q s = Ok c ∧ 0 < c ∧
    time_elapsed s' = time_elapsed s + Z.max (segment_length (opt s) c) 0 ∧
    work_done s + Z.max (segment_length (opt s) c) 0 ≤ work_done s' ∧
    opt s' = opt s ∧
    log s' = log s ++ [CpuBurstExecution q cpu io (time_elapsed s') why] ∧
    match why with
    | COMPLETED =>
        c ≤ segment_length (opt s) c ∧
        completed s' = completed s ++ [(time_elapsed s', q)]
    | ENTER_IO =>
        c ≤ segment_length (opt s) c ∧
        completed s' = completed s ∧ q ∈ p <$> blocked s'
    | QUANTUM_EXPIRED =>
        segment_length (opt s) c < c ∧
        completed s' = completed s ∧
        (∃ r, ready s' = r ++ [q]) ∧
        front_burst q s' = Ok (c - Z.max (segment_length (opt s) c) 0)
    end.
Proof.
  intros Hinv Hready. unfold dispatch.
  destruct (pop_inv _ _ _ _ Hinv Hready) as (c & Hfront & Hc & Hinv0).
  rewrite Hfront. cbn [res_bind opt set_ready].
  set (segment := segment_length (opt s) c) in *.
  destruct (exec_segment_inv _ (Z.to_nat segment) _ _ _ Hinv0 ltac:(done))
    as (s1 & Hex & Hinv1 & Ht1 & Hw1 & Hc1 & Hl1 & Ho1 & Hf1).
  rewrite Hex. cbn [res_bind].
  destruct (finish_segment_inv _ _ _ _ Hinv1 ltac:(lia))
    as (s' & P & why & Hfin & Hinv' & HP & Ht' & Hw' & Ho' & Hl' & Hwhy).
  exists s', c, (executed_cpu P), (executed_io P), why.
  specialize (Hf1 c Hfront).
  split; [done|]. split; [done|]. split; [done|]. split; [done|].
  split; [by rewrite Ht', Ht1|]. split; [by rewrite Hw'|].
  split; [by rewrite Ho', Ho1|]. split; [by rewrite Hl', Hl1, Ht'|].
  destruct why.
  - destruct Hwhy as (Hf0 & Hcomp & _ & Hin). rewrite Hf1 in Hf0.
    split; [injection Hf0; lia|]. split; [by rewrite Hcomp, Hc1|done].
  - destruct Hwhy as ((c' & Hf0 & Hf' & Hc') & Hcomp & Hrdy & _).
    rewrite Hf1 in Hf0. injection Hf0 as <-.
    split; [lia|]. split; [by rewrite Hcomp, Hc1|]. split; [eauto|done].
  - destruct Hwhy as (Hf0 & Hcomp & _). rewrite Hf1 in Hf0.
    split; [injection Hf0; lia|]. rewrite Hcomp, Hc1, Ht'. done.
Qed.

(** ** The initial state *)

Lemma sum_totals_spec k bs P :
  let P' := sum_totals k bs P in
  pid P' = pid P ∧ bursts P' = bursts P ∧
  executed_cpu P' = executed_cpu P ∧ executed_io P' = executed_io P ∧
  completion_time P' = completion_time P ∧
  total_cpu P' =
    total_cpu P + (if Nat.even k then cpu_sum bs else io_sum bs) ∧
  total_io P' =
    total_io P + (if Nat.even k then io_sum bs else cpu_sum bs).
Proof.
  revert k P. induction bs as [|b bs IH]; intros k P; simpl.
  { destruct (Nat.even k); repeat split; lia. }
  specialize (IH (S k)). rewrite Nat.even_succ, <- Nat.negb_even in IH.
  destruct (Nat.even k); simpl in IH;
    destruct (IH (add_total_cpu b P)) as (? & ? & ? & ? & ? & Hc1 & Hi1);
    destruct (IH (add_total_io b P)) as (? & ? & ? & ? & ? & Hc2 & Hi2);
    simpl in *; repeat split; try done; lia.
Qed.

Lemma make_proc_spec i l :
  let P := make_proc i l in
  pid P = i ∧ bursts P = l ∧ executed_cpu P = 0 ∧ executed_io P = 0 ∧
  total_cpu P = cpu_sum l ∧ total_io P = io_sum l.
Proof.
  unfold make_proc.
  destruct (sum_totals_spec 0 l (mkProc i l 0 0 0 0 (-1)))
    as (? & ? & ? & ? & ? & ? & ?).
  simpl in *. repeat split; try done; lia.
Qed.

Lemma initial_inv o lines :
  well_formed lines → inv lines LoopHead (initial o lines).
Proof.
  intros Hwf. unfold initial, init_from_lines.
  split; cbn [procs ready blocked completed set_ready set_procs
              new_simulation].
  - split; [apply length_imap|]. intros i P HP.
    rewrite list_lookup_imap in HP.
    destruct (lines !! i) as [l|] eqn:Hl; [|done]. injection HP as <-.
    destruct (make_proc_spec i l) as (? & ? & ? & ? & ? & ?). eauto.
  - unfold containers. cbn [ready blocked completed set_ready set_procs
      new_simulation running].
    by rewrite length_imap, !app_nil_r.
  - intros q Hq. rewrite length_imap in Hq. simpl in Hq.
    apply elem_of_seq in Hq as [_ Hq]. rewrite list_lookup_imap.
    destruct (lookup_lt_is_Some_2 lines q Hq) as [l Hl]. rewrite Hl.
    eexists; split; [done|].
    destruct (make_proc_spec q l) as (? & Hb & Hc & Hi & Htc & Hti).
    destruct (Forall_lookup_1 _ _ _ _ Hwf Hl) as [Hodd Hpos].
    unfold ready_ok. rewrite Hb, Hc, Hi, Htc, Hti.
    repeat split; try done; lia.
  - intros bi Hbi. by apply elem_of_nil in Hbi.
  - done.
  - intros t q Hq. by apply elem_of_nil in Hq.
Qed.

Lemma initial_fields o lines :
  opt (initial o lines) = o ∧ time_elapsed (initial o lines) = 0 ∧
  completed (initial o lines) = [] ∧ log (initial o lines) = [] ∧
  blocked (initial o lines) = [] ∧
  ready (initial o lines) = seq 0 (length lines).
Proof.
  unfold initial, init_from_lines. simpl. by rewrite length_imap.
Qed.

(** ** Reachable states satisfy the invariant *)

Lemma reach_inv_from lines c0 s0 c s :
  inv lines c0 s0 → reach c0 s0 c s →
  inv lines c s ∧ time_elapsed s0 ≤ time_elapsed s ∧ opt s = opt s0.
Proof.
  intros Hinv0. induction 1 as [|s q rdy c Hreach (IH & Ht & Ho) Hready Hfront
    |s q remaining r Hreach (IH & Ht & Ho) Hpos Hsub
    |s q remaining s' Hreach (IH & Ht & Ho) Hneg Hfin
    |s s' Hreach (IH & Ht & Ho) Hready Hblocked Hidle].
  - done.
  - destruct (pop_inv _ _ _ _ IH Hready) as (c' & Hfront' & _ & Hinv).
    rewrite Hfront in Hfront'. by injection Hfront' as <-.
  - destruct (substep_inv _ _ _ _ IH Hpos)
      as (step & s' & Hsub' & Hstep & Hinv & Ht' & _ & _ & _ & Ho').
    rewrite Hsub in Hsub'. injection Hsub' as ->. simpl.
    split; [done|]. split; [lia|congruence].
  - destruct (finish_segment_inv _ _ _ _ IH Hneg)
      as (s'' & P & why & Hfin' & Hinv & _ & Ht' & _ & Ho' & _).
    rewrite Hfin in Hfin'. injection Hfin' as ->.
    split; [done|]. split; [lia|congruence].
  - destruct (idle_jump_inv _ _ IH Hblocked)
      as (s'' & step & Hidle' & Hinv & Hstep & Ht' & _ & _ & _ & Ho').
    rewrite Hidle in Hidle'. injection Hidle' as ->.
    split; [done|]. split; [lia|congruence].
Qed.

Lemma reach_inv o lines c s :
  well_formed lines → reach LoopHead (initial o lines) c s → inv lines c s.
Proof.
  intros Hwf Hreach.
  by destruct (reach_inv_from lines _ _ _ _ (initial_inv o _ Hwf) Hreach).
Qed.

Lemma reach_opt o lines c s :
  well_formed lines → reach LoopHead (initial o lines) c s → opt s = o.
Proof.
  intros Hwf Hreach.
  destruct (reach_inv_from lines _ _ _ _ (initial_inv o _ Hwf) Hreach)
    as (_ & _ & ->).
  by destruct (initial_fields o lines) as (-> & _).
Qed.

(** The states at the head of [while(true)] in a run are reachable. *)

Lemma exec_segment_reach c0 s0 fuel q remaining s s' :
  reach c0 s0 (Executing q remaining) s →
  exec_segment fuel q remaining s = Ok s' →
  ∃ remaining', remaining' ≤ 0 ∧ reach c0 s0 (Executing q remaining') s'.
Proof.
  revert remaining s. induction fuel as [|fuel IH]; intros remaining s Hreach;
    rewrite exec_segment_unfold; destruct (Z.ltb_spec 0 remaining) as [Hpos|Hneg];
    try done.
  - intros [= <-]. eauto.
  - intros (r & Hsub & Hex)%res_bind_Ok. eapply IH; [|done].
    by eapply reach_substep.
  - intros [= <-]. eauto.
Qed.

Lemma run_iter_reach c0 s0 s s' :
  reach c0 s0 LoopHead s → run_iter s = Ok (Some s') → reach c0 s0 LoopHead s'.
Proof.
  intros Hreach. unfold run_iter.
  destruct (ready s) as [|q rdy] eqn:Hready.
  - destruct (blocked s) eqn:Hblocked; [done|].
    intros (s1 & Hidle & [= <-])%res_map_Ok.
    eapply reach_idle; [done|done| |done]. by rewrite Hblocked.
  - intros (s1 & Hdisp & [= <-])%res_map_Ok. unfold dispatch in Hdisp.
    apply res_bind_Ok in Hdisp as (c & Hfront & Hdisp).
    apply res_bind_Ok in Hdisp as (s2 & Hex & Hfin).
    pose proof (reach_pop _ _ _ _ _ _ Hreach Hready Hfront) as Hr.
    destruct (exec_segment_reach _ _ _ _ _ _ _ Hr Hex) as (r' & Hr' & Hreach').
    by eapply reach_finish.
Qed.

Lemma run_reach c0 s0 fuel s s' :
  reach c0 s0 LoopHead s → run fuel s = Ok s' →
  reach c0 s0 LoopHead s' ∧ ready s' = [] ∧ blocked s' = [].
Proof.
  revert s. induction fuel as [|fuel IH]; intros s Hreach; simpl; [done|].
  intros ([s1|] & Hiter & Hrun)%res_bind_Ok.
  - eapply IH; [|done]. by eapply run_iter_reach.
  - injection Hrun as <-. split; [done|]. unfold run_iter in Hiter.
    destruct (ready s); [|by destruct (dispatch _ _)].
    destruct (blocked s); [done|by destruct (idle_jump _)].
Qed.

(** ** The work done is bounded by the work asked for *)

Lemma sums_nonneg l :
  Forall (λ b, 0 < b) l → 0 ≤ cpu_sum l ∧ 0 ≤ io_sum l.
Proof. induction 1 as [|b l Hb Hl IH]; simpl; lia. Qed.

Lemma total_of_le2 {A B} (f : A → Z) (g : B → Z) l l' :
  Forall2 (λ x y, f x ≤ g y) l l' → total_of f l ≤ total_of g l'.
Proof. induction 1; simpl; lia. Qed.

(** Whatever its place, a process has executed at most its totals. *)
Lemma inv_proc_bounds lines c s i P :
  inv lines c s → procs s !! i = Some P →
  0 ≤ executed_cpu P ≤ total_cpu P ∧ 0 ≤ executed_io P ≤ total_io P.
Proof.
  intros Hinv HP.
  assert (i ∈ containers c s) as Hin.
  { rewrite (inv_perm _ _ _ Hinv). apply elem_of_seq.
    apply lookup_lt_Some in HP.
    rewrite (proj1 (inv_static _ _ _ Hinv)) in HP. lia. }
  unfold containers in Hin.
  apply elem_of_app in Hin as [Hin|Hin];
    [|apply elem_of_app in Hin as [Hin|Hin];
      [|apply elem_of_app in Hin as [Hin|Hin]]].
  - destruct (inv_ready _ _ _ Hinv i Hin) as (P' & HP' & Hok).
    rewrite HP in HP'. injection HP' as <-.
    destruct Hok as (_ & Hpos & ? & ? & ? & ?).
    apply sums_nonneg in Hpos. lia.
  - apply list_elem_of_fmap in Hin as (bi & -> & Hbi).
    destruct (inv_blocked _ _ _ Hinv bi Hbi) as (P' & HP' & Hok).
    rewrite HP in HP'. injection HP' as <-.
    destruct Hok as (io & rest & _ & ? & _ & Hpos & ? & ? & ? & ?).
    apply sums_nonneg in Hpos. lia.
  - destruct c as [|q remaining]; simpl in Hin.
    { by apply elem_of_nil in Hin. }
    apply list_elem_of_singleton in Hin as ->.
    destruct (inv_running _ _ _ Hinv q remaining eq_refl) as (P' & HP' & Hok).
    rewrite HP in HP'. injection HP' as <-.
    destruct Hok as (c & rest & Hb & _ & ? & _ & Hpos & Hcpu & Hio & ? & ?).
    rewrite Hb in Hcpu, Hio. simpl in Hcpu, Hio.
    apply sums_nonneg in Hpos. lia.
  - apply list_elem_of_fmap in Hin as ([t q] & -> & Htq).
    destruct (inv_completed _ _ _ Hinv t q Htq) as (P' & HP' & Hok).
    simpl in HP. rewrite HP in HP'. injection HP' as <-.
    destruct Hok as (_ & _ & ? & ? & ? & ?). lia.
Qed.

Lemma inv_work_bound lines c s :
  inv lines c s → work_done s ≤ work_total lines.
Proof.
  intros Hinv. apply total_of_le2.
  destruct (inv_static _ _ _ Hinv) as [Hlen Hst].
  apply Forall2_same_length_lookup_2; [done|].
  intros i P l HP Hl.
  destruct (Hst i P HP) as (_ & l' & Hl' & Hcpu & Hio).
  assert (l' = l) as -> by congruence. rewrite <- Hcpu, <- Hio.
  pose proof (inv_proc_bounds _ _ _ _ _ Hinv HP). unfold work. lia.
Qed.

(** ** One iteration of the dispatch loop *)

Lemma run_iter_inv lines s :
  inv lines LoopHead s →
  (ready s = [] ∧ blocked s = [] ∧ run_iter s = Ok None) ∨
  (∃ s', run_iter s = Ok (Some s') ∧ inv lines LoopHead s' ∧
         opt s' = opt s ∧ work_done s ≤ work_done s' ∧
         time_elapsed s ≤ time_elapsed s' ∧
         (valid_options (opt s) →
          work_done s < work_done s' ∧ time_elapsed s < time_elapsed s')).
Proof.
  intros Hinv. unfold run_iter.
  destruct (ready s) as [|q rdy] eqn:Hready.
  - destruct (blocked s) as [|bi bl] eqn:Hblocked; [by left|right].
    destruct (idle_jump_inv lines s Hinv)
      as (s' & step & Hidle & Hinv' & Hstep & Ht & Hw & _ & _ & Ho).
    { by rewrite Hblocked. }
    exists s'. rewrite Hidle. do 3 (split; [done|]).
    split; [lia|]. split; [lia|]. intros _. lia.
  - right.
    destruct (dispatch_inv _ _ _ _ Hinv Hready)
      as (s' & c & cpu & io & why & Hdisp & Hinv' & _ & Hc & Ht & Hw & Ho & _).
    exists s'. rewrite Hdisp. split; [done|]. split; [done|]. split; [done|].
    split; [lia|]. split; [lia|]. intros Hvalid.
    pose proof (segment_length_pos _ _ Hvalid Hc). lia.
Qed.

(** With enough fuel [run] returns, and what it returns satisfies the
    invariant with both containers empty. *)
Lemma run_terminates lines fuel s :
  inv lines LoopHead s → valid_options (opt s) →
  (Z.to_nat (work_total lines - work_done s) < fuel)%nat →
  ∃ s', run fuel s = Ok s' ∧ inv lines LoopHead s' ∧
        ready s' = [] ∧ blocked s' = [] ∧ opt s' = opt s.
Proof.
  revert s. induction fuel as [|fuel IH]; intros s Hinv Hvalid Hfuel; [lia|].
  simpl.
  destruct (run_iter_inv _ _ Hinv) as [(Hr & Hb & ->)|(s' & -> & Hinv' & Ho & _ & _ & Hlt)].
  - simpl. eauto 10.
  - simpl. destruct (Hlt Hvalid) as [Hw _].
    pose proof (inv_work_bound _ _ _ Hinv').
    destruct (IH s' Hinv') as (s'' & Hrun & ? & ? & ? & ?).
    + by rewrite Ho.
    + lia.
    + exists s''. rewrite Hrun. do 4 (split; [done|]). congruence.
Qed.

(** The result of [run] does not depend on the fuel once there is enough. *)
Lemma run_fuel_mono fuel fuel' s s' :
  run fuel s = Ok s' → (fuel ≤ fuel')%nat → run fuel' s = Ok s'.
Proof.
  revert fuel' s. induction fuel as [|fuel IH]; intros fuel' s; simpl; [done|].
  intros ([s1|] & Hiter & Hrun)%res_bind_Ok Hle;
    (destruct fuel' as [|fuel']; [lia|]); simpl; rewrite Hiter; simpl.
  - apply IH; [done|lia].
  - done.
Qed.

Lemma run_inv o lines fuel s :
  well_formed lines → run fuel (initial o lines) = Ok s →
  inv lines LoopHead s ∧ ready s = [] ∧ blocked s = [].
Proof.
  intros Hwf Hrun.
  destruct (run_reach _ _ _ _ _ (reach_init _ _) Hrun) as (Hreach & ? & ?).
  split; [|done]. by eapply reach_inv.
Qed.

(** The state after the first sub-step of a segment that runs a whole
    burst is reachable. *)
Lemma reach_in_segment c0 s0 s s1 q rdy c r :
  reach c0 s0 LoopHead s →
  ready s = q :: rdy →
  front_burst q (set_ready rdy s) = Ok c →
  segment_length (opt s) c = c →
  0 < c →
  substep q c (set_ready rdy s) = Ok (r, s1) →
  reach c0 s0 (Executing q r) s1.
Proof.
  intros R Hr Hf Hseg Hc Hsub.
  pose proof (reach_pop _ _ _ _ _ _ R Hr Hf) as R2. rewrite Hseg in R2.
  exact (reach_substep _ _ _ _ _ (r, s1) R2 Hc Hsub).
Qed.

(** ** The sort is sorted and stable *)

Section stable_sort_order.
Context {A : Type} (lt : A → A → bool) `{!StrictWeakOrder lt}.

Lemma sort_insert_Sorted x l :
  Sorted (λ a b, lt b a = false) l →
  Sorted (λ a b, lt b a = false) (sort_insert lt x l).
Proof.
  induction 1 as [|y l Hs IH Hhd]; simpl.
  { by repeat constructor. }
  destruct (lt y x) eqn:Hyx.
  - constructor; [done|]. destruct Hhd as [|z l Hzy]; simpl.
    + constructor. by apply swo_asym.
    + destruct (lt z x); constructor; [done|]. by apply swo_asym.
  - by repeat constructor.
Qed.

Lemma stable_sort_Sorted l :
  Sorted (λ a b, lt b a = false) (stable_sort lt l).
Proof.
  induction l as [|x l IH]; simpl; [constructor|].
  by apply sort_insert_Sorted.
Qed.

Lemma sort_insert_stable x a l :
  filter (incomparable lt x) (sort_insert lt a l) =
  filter (incomparable lt x) (a :: l).
Proof.
  induction l as [|y l IH]; simpl; [done|].
  destruct (lt y a) eqn:Hya; [|done].
  rewrite (filter_cons _ y), IH, !filter_cons.
  destruct (decide (incomparable lt x y)) as [Hy|Hy];
    destruct (decide (incomparable lt x a)) as [Ha|Ha]; try done.
  exfalso. destruct Hy as [Hxy Hyx].
  assert (incomparable lt y a) as [Hlt _].
  { eapply swo_incomparable; [|exact Ha]. by split. }
  congruence.
Qed.

(** Elements that the comparator does not tell apart keep their order. *)
Lemma stable_sort_stable x l :
  filter (incomparable lt x) (stable_sort lt l) =
  filter (incomparable lt x) l.
Proof.
  induction l as [|a l IH]; simpl; [done|].
  by rewrite sort_insert_stable, !filter_cons, IH.
Qed.
End stable_sort_order.

(** The three comparators of the program and of the specification are
    strict weak orders. *)

Ltac compare_cases :=
  repeat match goal with
         | |- context [?a =? ?b] => destruct (Z.eqb_spec a b)
         | H : context [?a =? ?b] |- _ => destruct (Z.eqb_spec a b)
         | |- context [?a <? ?b] => destruct (Z.ltb_spec a b)
         | H : context [?a <? ?b] |- _ => destruct (Z.ltb_spec a b)
         | |- context [(?a <? ?b)%nat] => destruct (Nat.ltb_spec a b)
         | H : context [(?a <? ?b)%nat] |- _ => destruct (Nat.ltb_spec a b)
         end;
  simpl in *; try done; try lia.

#[global] Instance blocked_lt_swo : StrictWeakOrder blocked_lt.
Proof.
  split.
  - intros x y. unfold blocked_lt. compare_cases.
  - intros x y z. unfold incomparable, blocked_lt.
    intros [H1 H2] [H3 H4]. split; compare_cases.
Qed.

#[global] Instance pair_lt_swo : StrictWeakOrder pair_lt.
Proof.
  split.
  - intros x y. unfold pair_lt. compare_cases.
  - intros x y z. unfold incomparable, pair_lt.
    intros [H1 H2] [H3 H4]. split; compare_cases.
Qed.

#[global] Instance by_completion_time_swo : StrictWeakOrder by_completion_time.
Proof.
  split.
  - intros x y. unfold by_completion_time. compare_cases.
  - intros x y z. unfold incomparable, by_completion_time.
    intros [H1 H2] [H3 H4]. split; compare_cases.
Qed.

(** The front of the sorted blocked set has the least remaining time. *)
Lemma stable_sort_blocked_front bl front rest bi :
  stable_sort_blocked bl = front :: rest → bi ∈ bl →
  remaining_io front ≤ remaining_io bi.
Proof.
  intros Hs Hbi.
  assert (∀ a b, blocked_lt b a = false → remaining_io a ≤ remaining_io b)
    as Hle.
  { intros a b. unfold blocked_lt. compare_cases. }
  pose proof (stable_sort_Sorted blocked_lt bl) as Hsorted.
  unfold stable_sort_blocked in Hs. rewrite Hs in Hsorted.
  apply (elem_of_stable_sort blocked_lt) in Hbi. rewrite Hs in Hbi.
  clear Hs. revert front Hsorted Hbi.
  induction rest as [|y rest IH]; intros front Hsorted Hbi.
  - apply list_elem_of_singleton in Hbi as ->. lia.
  - apply elem_of_cons in Hbi as [->|Hbi]; [lia|].
    apply Sorted_inv in Hsorted as [Hsorted Hhd].
    apply HdRel_inv in Hhd. apply Hle in Hhd.
    specialize (IH y Hsorted Hbi). lia.
Qed.

(** ** Termination *)

Lemma total_of_imap_zero {A B} (g : B → Z) (f : nat → A → B) (l : list A) :
  (∀ i x, g (f i x) = 0) → total_of g (imap f l) = 0.
Proof.
  revert f. induction l as [|x l IH]; intros f Hf; simpl; [done|].
  rewrite Hf, IH; [done|]. intros i y. apply Hf.
Qed.

Lemma initial_work o lines : work_done (initial o lines) = 0.
Proof.
  unfold work_done, initial, init_from_lines. cbn [procs set_ready set_procs].
  apply total_of_imap_zero. intros i l.
  destruct (make_proc_spec i l) as (_ & _ & Hc & Hi & _).
  unfold work. lia.
Qed.

Lemma final_all_completed lines s i :
  inv lines LoopHead s → ready s = [] → blocked s = [] →
  (i < length lines)%nat →
  ∃ t P, (t, i) ∈ completed s ∧ procs s !! i = Some P ∧ completed_ok t P.
Proof.
  intros Hinv Hr Hb Hi.
  assert (i ∈ containers LoopHead s) as Hin.
  { rewrite (inv_perm _ _ _ Hinv). apply elem_of_seq. lia. }
  unfold containers in Hin. rewrite Hr, Hb in Hin. simpl in Hin.
  apply list_elem_of_fmap in Hin as ([t q] & -> & Htq).
  destruct (inv_completed _ _ _ Hinv t q Htq) as (P & HP & Hok). eauto.
Qed.

(** ** The options are read by the segment computation only *)

(** Replacing the options commutes with every step that does not read
    them, and with a dispatch when both options say first-come-first-served. *)
Section set_opt_commutes.
Variable o : Options.

Lemma res_map_bind {A B C} (f : B → C) (m : res A) (k : A → res B) :
  res_map f (res_bind m k) = res_bind m (λ a, res_map f (k a)).
Proof. by destruct m. Qed.

Lemma res_bind_map {A B C} (f : A → B) (m : res A) (k : B → res C) :
  res_bind (res_map f m) k = res_bind m (λ a, k (f a)).
Proof. by destruct m. Qed.

Lemma res_bind_ext {A B} (m : res A) (k k' : A → res B) :
  (∀ a, k a = k' a) → res_bind m k = res_bind m k'.
Proof. intros H. destruct m; simpl; auto. Qed.

Lemma advance_iter_set_opt t s :
  advance_iter t (set_opt o s) =
    res_map (λ r, (r.1, set_opt o r.2)) (advance_iter t s).
Proof.
  unfold advance_iter. cbn [blocked procs ready set_opt].
  destruct (stable_sort_blocked (blocked s)) as [|front rest]; [done|].
  destruct (progress_items _ _ _) as [bl1 ps1].
  by destruct (release_finished _ _ _) as [[bl2 ps2] rdy].
Qed.

Lemma advance_loop_set_opt fuel t s :
  advance_loop fuel t (set_opt o s) =
    res_map (set_opt o) (advance_loop fuel t s).
Proof.
  revert t s. induction fuel as [|fuel IH]; intros t s;
    rewrite !advance_loop_unfold; cbn [blocked set_opt];
    destruct (_ && _); try done.
  rewrite advance_iter_set_opt, res_bind_map, res_map_bind.
  apply res_bind_ext. intros r. apply IH.
Qed.

Lemma substep_set_opt q remaining s :
  substep q remaining (set_opt o s) =
    res_map (λ r, (r.1, set_opt o r.2)) (substep q remaining s).
Proof.
  unfold substep, advance_blocked.
  cbn [blocked procs time_elapsed set_opt set_procs set_time set_blocked].
  destruct (procs s !! q) as [P|]; [|done].
  destruct (bursts P) as [|c rest]; [done|].
  match goal with
  | |- context [advance_loop ?f ?t (set_procs ?ps (set_time ?u
                  (set_blocked ?bl (set_opt o s))))] =>
      change (set_procs ps (set_time u (set_blocked bl (set_opt o s))))
        with (set_opt o (set_procs ps (set_time u (set_blocked bl s))))
  end.
  rewrite advance_loop_set_opt, res_bind_map, res_map_bind. done.
Qed.

Lemma exec_segment_set_opt fuel q remaining s :
  exec_segment fuel q remaining (set_opt o s) =
    res_map (set_opt o) (exec_segment fuel q remaining s).
Proof.
  revert remaining s. induction fuel as [|fuel IH]; intros remaining s;
    rewrite !exec_segment_unfold; destruct (0 <? remaining); try done.
  rewrite substep_set_opt, res_bind_map, res_map_bind.
  apply res_bind_ext. intros r. apply IH.
Qed.

Lemma move_to_blocked_set_opt q s :
  move_to_blocked q (set_opt o s) = set_opt o (move_to_blocked q s).
Proof.
  unfold move_to_blocked. cbn [procs set_opt].
  destruct (procs s !! q) as [P|]; [|done].
  by destruct (bursts _).
Qed.

Lemma finish_segment_set_opt q s :
  finish_segment q (set_opt o s) =
    res_map (set_opt o) (finish_segment q s).
Proof.
  unfold finish_segment. cbn [procs set_opt].
  destruct (procs s !! q) as [P|]; [|done].
  destruct (bursts P) as [|c rest]; [done|].
  destruct (c =? 0); [|done]. destruct rest as [|io rest]; [done|].
  simpl. f_equal.
  exact (move_to_blocked_set_opt q
           (emit (CpuBurstExecution (pid P) (executed_cpu P) (executed_io P)
                    (time_elapsed s) ENTER_IO)
              (set_procs (<[q:=set_bursts (io :: rest) P]> (procs s)) s))).
Qed.

Lemma idle_jump_set_opt s :
  idle_jump (set_opt o s) = res_map (set_opt o) (idle_jump s).
Proof.
  unfold idle_jump, advance_blocked. cbn [blocked set_opt set_blocked].
  destruct (stable_sort_blocked (blocked s)) as [|front rest]; [done|].
  change (set_blocked (front :: rest) (set_opt o s))
    with (set_opt o (set_blocked (front :: rest) s)).
  rewrite advance_loop_set_opt, res_bind_map, res_map_bind. done.
Qed.

Lemma dispatch_set_opt q s :
  strategy o = FCFS → strategy (opt s) = FCFS →
  dispatch q (set_opt o s) = res_map (set_opt o) (dispatch q s).
Proof.
  intros Ho Hs. unfold dispatch, front_burst, segment_length.
  cbn [procs opt set_opt]. rewrite Ho, Hs.
  destruct (procs s !! q) as [P|]; [|done].
  destruct (bursts P) as [|c rest]; [done|]. simpl.
  rewrite exec_segment_set_opt, res_bind_map, res_map_bind.
  apply res_bind_ext. intros s1. apply finish_segment_set_opt.
Qed.

Lemma run_iter_set_opt s :
  strategy o = FCFS → strategy (opt s) = FCFS →
  run_iter (set_opt o s) = res_map (fmap (set_opt o)) (run_iter s).
Proof.
  intros Ho Hs. unfold run_iter. cbn [ready blocked set_opt].
  destruct (ready s) as [|q rdy].
  - destruct (blocked s); [done|].
    rewrite idle_jump_set_opt. by destruct (idle_jump s).
  - change (set_ready rdy (set_opt o s)) with (set_opt o (set_ready rdy s)).
    rewrite dispatch_set_opt by done. by destruct (dispatch _ _).
Qed.
End set_opt_commutes.

(** No step changes the options. *)

Lemma substep_opt q remaining s r :
  substep q remaining s = Ok r → opt r.2 = opt s.
Proof.
  unfold substep. destruct (procs s !! q) as [P|]; [|done].
  destruct (bursts P) as [|c rest]; [done|].
  intros (s2 & Hs2 & [= <-])%res_bind_Ok. simpl.
  by apply advance_loop_frame in Hs2 as (_ & _ & _ & -> & _).
Qed.

Lemma exec_segment_opt fuel q remaining s s' :
  exec_segment fuel q remaining s = Ok s' → opt s' = opt s.
Proof.
  revert remaining s. induction fuel as [|fuel IH]; intros remaining s;
    rewrite exec_segment_unfold; destruct (0 <? remaining); try done;
    try (by intros [= <-]).
  intros (r & Hsub & Hex)%res_bind_Ok.
  apply IH in Hex. apply substep_opt in Hsub. congruence.
Qed.

Lemma move_to_blocked_opt q s : opt (move_to_blocked q s) = opt s.
Proof.
  unfold move_to_blocked. destruct (procs s !! q) as [P|]; [|done].
  by destruct (bursts _).
Qed.

Lemma finish_segment_opt q s s' :
  finish_segment q s = Ok s' → opt s' = opt s.
Proof.
  unfold finish_segment. destruct (procs s !! q) as [P|]; [|done].
  destruct (bursts P) as [|c rest]; [done|].
  destruct (c =? 0); [|by intros [= <-]].
  destruct rest; intros [= <-]; [done|]. by rewrite move_to_blocked_opt.
Qed.

Lemma run_iter_opt s s' : run_iter s = Ok (Some s') → opt s' = opt s.
Proof.
  unfold run_iter. destruct (ready s) as [|q rdy].
  - destruct (blocked s); [done|].
    intros (s1 & Hidle & [= <-])%res_map_Ok. unfold idle_jump in Hidle.
    destruct (stable_sort_blocked _); [done|].
    apply res_bind_Ok in Hidle as (s2 & Hs2 & [= <-]). simpl.
    by apply advance_loop_frame in Hs2 as (_ & _ & _ & -> & _).
  - intros (s1 & Hdisp & [= <-])%res_map_Ok. unfold dispatch in Hdisp.
    apply res_bind_Ok in Hdisp as (c & _ & Hdisp).
    apply res_bind_Ok in Hdisp as (s2 & Hex & Hfin).
    apply exec_segment_opt in Hex. apply finish_segment_opt in Hfin.
    by rewrite Hfin, Hex.
Qed.

Lemma run_set_opt o fuel s :
  strategy o = FCFS → strategy (opt s) = FCFS →
  run fuel (set_opt o s) = res_map (set_opt o) (run fuel s).
Proof.
  intros Ho. revert s. induction fuel as [|fuel IH]; intros s Hs; [done|].
  simpl. rewrite run_iter_set_opt by done.
  destruct (run_iter s) as [[s'|]| |] eqn:Hiter; simpl; try done.
  apply IH. apply run_iter_opt in Hiter. by rewrite Hiter.
Qed.

Lemma emit_stats_set_opt o cs s :
  emit_stats cs (set_opt o s) = res_map (set_opt o) (emit_stats cs s).
Proof.
  revert s. induction cs as [|[t i] cs IH]; intros s; [done|].
  simpl. destruct (procs s !! i) as [P|]; [|done].
  exact (IH (emit (ProcessCompletion i (completion_time P)
                     (completion_time P - (total_cpu P + total_io P))) s)).
Qed.

Lemma print_stats_set_opt o s :
  print_stats_and_finish (set_opt o s) =
    res_map (set_opt o) (print_stats_and_finish s).
Proof.
  unfold print_stats_and_finish. cbn [completed set_opt].
  exact (emit_stats_set_opt o _
           (set_completed (stable_sort pair_lt (completed s)) s)).
Qed.

Lemma simulate_set_opt fuel o1 o2 lines :
  strategy o1 = FCFS → strategy o2 = FCFS →
  simulate fuel o2 lines = res_map (set_opt o2) (simulate fuel o1 lines).
Proof.
  intros H1 H2. unfold simulate.
  change (init_from_lines lines (new_simulation o2))
    with (set_opt o2 (init_from_lines lines (new_simulation o1))).
  rewrite run_set_opt by done.
  rewrite res_bind_map, res_map_bind. apply res_bind_ext.
  intros s. apply print_stats_set_opt.
Qed.

(** ** The completion records and the report *)

Lemma run_iter_clock_inv lines s s' :
  inv lines LoopHead s → valid_options (opt s) → clock_inv s →
  run_iter s = Ok (Some s') → clock_inv s'.
Proof.
  intros Hinv Hvalid [Hsorted Hbound]. unfold run_iter.
  destruct (ready s) as [|q rdy] eqn:Hready.
  - destruct (blocked s) as [|bi bl] eqn:Hblocked; [done|].
    destruct (idle_jump_inv lines s Hinv)
      as (s1 & step & Hidle & _ & Hstep & Ht & _ & Hcomp & _).
    { by rewrite Hblocked. }
    rewrite Hidle. intros [= <-]. unfold clock_inv. rewrite Hcomp.
    split; [done|]. eapply Forall_impl; [done|]. simpl. lia.
  - destruct (dispatch_inv _ _ _ _ Hinv Hready)
      as (s1 & c & cpu & io & why & Hdisp & _ & _ & Hc & Ht & _ & _ & _ & Hwhy).
    rewrite Hdisp. intros [= <-].
    pose proof (segment_length_pos _ _ Hvalid Hc) as Hseg.
    assert (Forall (λ a : Z * nat, a.1 < time_elapsed s1) (completed s))
      as Hlt.
    { eapply Forall_impl; [done|]. simpl. lia. }
    assert (clock_inv (set_completed (completed s) s1)) as Hsame.
    { split; [done|]. simpl. eapply Forall_impl; [exact Hlt|]. simpl. lia. }
    unfold clock_inv in *. destruct why.
    + destruct Hwhy as (_ & -> & _). apply Hsame.
    + destruct Hwhy as (_ & -> & _). apply Hsame.
    + destruct Hwhy as (_ & ->). split.
      * apply StronglySorted_app_2; [|done|repeat constructor].
        intros a b Ha Hb%list_elem_of_singleton. subst b. simpl.
        by apply (proj1 (Forall_forall _ _) Hlt).
      * apply Forall_app. split; [apply Hsame|].
        apply Forall_singleton. simpl. lia.
Qed.

Lemma run_clock_inv lines fuel s s' :
  inv lines LoopHead s → valid_options (opt s) → clock_inv s →
  run fuel s = Ok s' → clock_inv s'.
Proof.
  revert s. induction fuel as [|fuel IH]; intros s Hinv Hvalid Hclock; [done|].
  simpl. intros ([s1|] & Hiter & Hrun)%res_bind_Ok.
  - destruct (run_iter_inv _ _ Hinv)
      as [(_ & _ & Hnone)|(s2 & Hsome & Hinv' & Ho & _)].
    { by rewrite Hnone in Hiter. }
    rewrite Hsome in Hiter. injection Hiter as <-.
    apply (IH s2 Hinv'); [by rewrite Ho| |done].
    eapply run_iter_clock_inv; [exact Hinv|done|done|done].
  - by injection Hrun as <-.
Qed.

Lemma strictly_increasing_sorted (lt : Z * nat → Z * nat → bool) cs :
  (∀ a b, a.1 < b.1 → lt b a = false) →
  StronglySorted (λ a b : Z * nat, a.1 < b.1) cs →
  stable_sort lt cs = cs.
Proof.
  intros Hlt Hs. apply stable_sort_sorted_id.
  apply StronglySorted_Sorted in Hs.
  induction Hs as [|a cs Hs IH Hhd]; constructor; [done|].
  destruct Hhd; constructor. by apply Hlt.
Qed.

Lemma emit_stats_spec cs s :
  (∀ c, c ∈ cs → ∃ P, procs s !! c.2 = Some P ∧ completion_time P = c.1) →
  ∃ s' records,
    emit_stats cs s = Ok s' ∧
    log s' = log s ++ records ∧
    procs s' = procs s ∧ completed s' = completed s ∧
    time_elapsed s' = time_elapsed s ∧
    Forall2 (spec_record (procs s)) records cs.
Proof.
  revert s. induction cs as [|[t i] cs IH]; intros s Hcs.
  { exists s, []. simpl. by rewrite app_nil_r. }
  destruct (Hcs (t, i)) as (P & HP & Ht); [by apply elem_of_cons; left|].
  simpl in HP, Ht. simpl. rewrite HP.
  set (ev := ProcessCompletion i (completion_time P)
               (completion_time P - (total_cpu P + total_io P))).
  destruct (IH (emit ev s)) as (s' & records & Hemit & Hlog & Hps & Hcomp & Htime & Hrec).
  { intros c Hc. apply Hcs. apply elem_of_cons. by right. }
  exists s', (ev :: records). split; [done|].
  split; [by rewrite Hlog; simpl; rewrite <- app_assoc|].
  do 3 (split; [done|]).
  constructor; [|done]. exists P. by simpl.
Qed.

Lemma print_stats_spec lines s :
  inv lines LoopHead s → clock_inv s →
  ∃ s' records,
    print_stats_and_finish s = Ok s' ∧
    log s' = log s ++ records ∧
    Forall2 (spec_record (procs s)) records (spec_report_order (completed s)) ∧
    procs s' = procs s ∧ completed s' = completed s ∧
    time_elapsed s' = time_elapsed s.
Proof.
  intros Hinv [Hsorted _]. unfold print_stats_and_finish, spec_report_order.
  rewrite !strictly_increasing_sorted; try done.
  - destruct (emit_stats_spec (completed s) (set_completed (completed s) s))
      as (s' & records & Hemit & Hlog & Hps & Hcomp & Htime & Hrec).
    { intros [t i] Hc. simpl.
      destruct (inv_completed _ _ _ Hinv t i Hc) as (P & HP & _ & Ht & _).
      eauto. }
    exists s', records. by rewrite Hemit.
  - intros a b Hab. unfold by_completion_time. apply Z.ltb_ge. lia.
  - intros a b Hab. unfold pair_lt.
    rewrite (proj2 (Z.ltb_ge (b.1) (a.1))) by lia.
    by rewrite (proj2 (Z.ltb_lt (a.1) (b.1))) by lia.
Qed.

Lemma initial_clock_inv o lines : clock_inv (initial o lines).
Proof.
  unfold clock_inv. destruct (initial_fields o lines) as (_ & _ & -> & _).
  split; constructor.
Qed.

Lemma run_deterministic fuel1 fuel2 s s1 s2 :
  run fuel1 s = Ok s1 → run fuel2 s = Ok s2 → s1 = s2.
Proof.
  intros H1 H2.
  apply (run_fuel_mono _ (fuel1 `max` fuel2)) in H1; [|lia].
  apply (run_fuel_mono _ (fuel1 `max` fuel2)) in H2; [|lia].
  congruence.
Qed.

(** The whole simulation returns for a well-formed input and a valid
    configuration, with the same state whatever the fuel beyond the total
    burst time. *)
Lemma simulate_returns o lines :
  well_formed lines → valid_options o →
  ∃ s, ∀ fuel, (Z.to_nat (work_total lines) < fuel)%nat →
               simulate fuel o lines = Ok s.
Proof.
  intros Hwf Hvalid.
  assert (valid_options (opt (initial o lines))) as Hvalid'.
  { by destruct (initial_fields o lines) as (-> & _). }
  destruct (run_terminates lines (S (Z.to_nat (work_total lines)))
              (initial o lines)) as (s & Hrun & Hinv & _).
  { by apply initial_inv. }
  { done. }
  { rewrite initial_work. lia. }
  assert (clock_inv s) as Hclock.
  { eapply run_clock_inv;
      [by apply initial_inv|done|apply initial_clock_inv|done]. }
  destruct (print_stats_spec _ _ Hinv Hclock) as (s' & records & Hprint & _).
  exists s'. intros fuel Hfuel. unfold simulate.
  fold (initial o lines). rewrite (run_fuel_mono _ fuel _ _ Hrun) by lia.
  done.
Qed.

(** ** The integers of a run stay between 0 and the total burst time *)

Lemma total_of_add {A} (f : A → Z) (l l' : list A) i x y d :
  Forall2 (λ x y, f x ≤ f y) l l' →
  l !! i = Some x → l' !! i = Some y → f x + d ≤ f y →
  total_of f l + d ≤ total_of f l'.
Proof.
  intros H. revert i. induction H as [|a b l l' Hab H IH]; intros i Hx Hy Hd.
  { done. }
  destruct i as [|i]; simpl in *.
  - injection Hx as ->. injection Hy as ->.
    apply total_of_le in H. lia.
  - specialize (IH i Hx Hy Hd). lia.
Qed.

(** When no entry has less than [t] left, [advance_blocked t] is one
    iteration of its loop: the engine never asks for more than the time to
    the next completion, so no completion is skipped. *)
Lemma advance_blocked_one_step t s :
  0 < t → blocked s ≠ [] →
  (∀ bi, bi ∈ blocked s → t ≤ remaining_io bi) →
  advance_blocked t s =
    Ok (advance_step t (stable_sort_blocked (blocked s)) s).
Proof.
  intros Ht Hne Hall. unfold advance_blocked. cbn [advance_loop].
  rewrite (proj2 (Z.ltb_lt 0 t)) by done.
  rewrite bool_decide_eq_false_2 by done. cbn [andb negb].
  destruct (stable_sort_blocked (blocked s)) as [|front rest] eqn:Hs.
  { by apply stable_sort_nil_inv in Hs. }
  rewrite (advance_iter_eq _ _ _ _ Hs). cbn [res_bind fst snd].
  assert (t ≤ remaining_io front) as Hfront.
  { apply Hall. apply (elem_of_stable_sort blocked_lt).
    unfold stable_sort_blocked in Hs. rewrite Hs. apply elem_of_cons.
    by left. }
  rewrite Z.min_r by done. apply advance_loop_stop. left. lia.
Qed.

Lemma advance_step_work_ge lines c s sorted t :
  inv lines c s → sorted ≡ₚ blocked s → blocked s ≠ [] → 0 ≤ t →
  (∀ bi, bi ∈ blocked s → t ≤ remaining_io bi) →
  work_done s + t ≤ work_done (advance_step t sorted s).
Proof.
  intros Hinv Hperm Hne Ht Hall.
  assert (NoDup (p <$> sorted)) as Hnd.
  { rewrite Hperm. by eapply blocked_NoDup. }
  destruct sorted as [|bi rest].
  { symmetry in Hperm. by apply Permutation_nil_r in Hperm. }
  assert (bi ∈ bi :: rest) as Hbi by (by apply elem_of_cons; left).
  assert (bi ∈ blocked s) as Hbi' by (by rewrite <- Hperm).
  destruct (inv_blocked _ _ _ Hinv bi Hbi') as (P0 & HP0 & Hok).
  specialize (Hall bi Hbi').
  eapply (total_of_add work _ _ (p bi)).
  - by eapply advance_step_work.
  - done.
  - rewrite (advance_step_lookup _ _ _ _ Hnd Hbi), HP0. done.
  - cbv beta zeta. destruct (decide _); unfold work; simpl; lia.
Qed.

Lemma idle_jump_work lines s s' :
  inv lines LoopHead s → blocked s ≠ [] → idle_jump s = Ok s' →
  work_done s + (time_elapsed s' - time_elapsed s) ≤ work_done s'.
Proof.
  intros Hinv Hne. unfold idle_jump.
  destruct (stable_sort_blocked (blocked s)) as [|front rest] eqn:Hs.
  { by apply stable_sort_nil_inv in Hs. }
  assert (front :: rest ≡ₚ blocked s) as Hperm.
  { rewrite <- Hs. apply stable_sort_perm. }
  pose proof (inv_reorder _ _ _ _ Hinv Hperm) as Hinv0.
  assert (0 < remaining_io front) as Hfront.
  { destruct (inv_blocked _ _ _ Hinv front) as (P0 & _ & Hok).
    { rewrite <- Hperm. apply elem_of_cons. by left. }
    destruct Hok as (? & ? & _ & ? & _). lia. }
  assert (∀ bi, bi ∈ front :: rest →
                remaining_io front ≤ remaining_io bi) as Hall.
  { intros bi Hbi. eapply stable_sort_blocked_front; [exact Hs|].
    by rewrite <- Hperm. }
  set (s0 := set_blocked (front :: rest) s) in *.
  set (t := remaining_io front) in *.
  rewrite (advance_blocked_one_step t s0 Hfront); [|done|exact Hall].
  set (s1 := advance_step t (stable_sort_blocked (blocked s0)) s0).
  assert (work_done s0 + t ≤ work_done s1) as Hw.
  { apply (advance_step_work_ge lines LoopHead); try done.
    - apply stable_sort_perm.
    - lia. }
  change (work_done s0) with (work_done s) in Hw.
  assert (time_elapsed s1 = time_elapsed s) as Ht1 by done.
  clearbody s1. unfold res_bind. intros [= <-].
  cbn [time_elapsed set_time].
  change (work_done (set_time (time_elapsed s1 + t) s1)) with (work_done s1).
  lia.
Qed.

(** The clock is at most the time executed so far. *)
Lemma reach_clock_work lines c0 s0 c s :
  inv lines c0 s0 → time_elapsed s0 ≤ work_done s0 → reach c0 s0 c s →
  time_elapsed s ≤ work_done s.
Proof.
  intros Hinv0 H0 Hreach.
  assert (inv lines c s ∧ time_elapsed s ≤ work_done s) as [_ ?]; [|done].
  induction Hreach as [|s q rdy c Hreach [IH Ht] Hready Hfront
    |s q remaining r Hreach [IH Ht] Hpos Hsub
    |s q remaining s' Hreach [IH Ht] Hneg Hfin
    |s s' Hreach [IH Ht] Hready Hblocked Hidle].
  - done.
  - split; [|done].
    by destruct (reach_inv_from _ _ _ _ _ IH
                   (reach_pop _ _ _ _ _ _ (reach_init _ _) Hready Hfront)).
  - destruct (substep_inv _ _ _ _ IH Hpos)
      as (step & s' & Hsub' & Hstep & Hinv & Ht' & Hw & _).
    rewrite Hsub in Hsub'. injection Hsub' as ->. simpl. split; [done|lia].
  - destruct (finish_segment_inv _ _ _ _ IH Hneg)
      as (s'' & P & why & Hfin' & Hinv & _ & Ht' & Hw & _).
    rewrite Hfin in Hfin'. injection Hfin' as ->. split; [done|lia].
  - pose proof (idle_jump_work _ _ _ IH Hblocked Hidle).
    destruct (idle_jump_inv _ _ IH Hblocked) as (s'' & step & Hidle' & Hinv & _).
    rewrite Hidle in Hidle'. injection Hidle' as ->. split; [done|lia].
Qed.

Lemma total_of_elem {A} (f : A → Z) (l : list A) x :
  (∀ y, y ∈ l → 0 ≤ f y) → x ∈ l → f x ≤ total_of f l.
Proof.
  induction l as [|a l IH]; intros Hpos Hx.
  { by apply elem_of_nil in Hx. }
  simpl.
  assert (0 ≤ total_of f l) as Hl.
  { clear IH Hx. induction l as [|b l IH]; simpl; [done|].
    assert (0 ≤ f b) by (apply Hpos; apply elem_of_cons; right;
                         apply elem_of_cons; by left).
    assert (0 ≤ total_of f l); [|lia].
    apply IH. intros y Hy. apply Hpos. apply elem_of_cons in Hy as [->|Hy].
    - apply elem_of_cons. by left.
    - apply elem_of_cons. right. apply elem_of_cons. by right. }
  assert (0 ≤ f a) by (apply Hpos; apply elem_of_cons; by left).
  apply elem_of_cons in Hx as [->|Hx]; [lia|].
  assert (f x ≤ total_of f l); [|lia].
  apply IH; [|done]. intros y Hy. apply Hpos. apply elem_of_cons. by right.
Qed.

(** In every state a run from a well-formed input reaches, the clock and
    the executed times, the quantities the program accumulates, lie between
    0 and the total burst time of the input.  When that total fits in an
    [int], so does every one of them: the run has no signed overflow and is
    the run this model describes. *)
Lemma int_range o lines c s :
  well_formed lines → reach LoopHead (initial o lines) c s →
  0 ≤ time_elapsed s ≤ work_done s ∧
  work_done s ≤ work_total lines ∧
  ∀ i P, procs s !! i = Some P →
    0 ≤ executed_cpu P ≤ total_cpu P ∧
    0 ≤ executed_io P ≤ total_io P ∧
    total_cpu P + total_io P ≤ work_total lines.
Proof.
  intros Hwf Hreach.
  pose proof (initial_inv o _ Hwf) as Hinv0.
  destruct (reach_inv_from _ _ _ _ _ Hinv0 Hreach) as (Hinv & Ht & _).
  destruct (initial_fields o lines) as (_ & Ht0 & _).
  split; [split; [lia|]|split].
  - eapply reach_clock_work; [exact Hinv0| |exact Hreach].
    rewrite Ht0, initial_work. lia.
  - by eapply inv_work_bound.
  - intros i P HP.
    destruct (inv_proc_bounds _ _ _ _ _ Hinv HP) as [? ?].
    do 2 (split; [done|]).
    destruct (proj2 (inv_static _ _ _ Hinv) i P HP) as (_ & l & Hl & -> & ->).
    apply (total_of_elem (λ l, cpu_sum l + io_sum l)).
    + intros l' Hl'.
      destruct (proj1 (Forall_forall _ _) Hwf l' Hl') as [_ Hpos].
      apply sums_nonneg in Hpos. lia.
    + by eapply list_elem_of_lookup_2.
Qed.

(** The fuel [dispatch] gives the sub-step loop is enough in every state:
    each sub-step uses at least one unit of the segment. *)
Lemma substep_decreases q remaining s r :
  0 < remaining → substep q remaining s = Ok r → r.1 < remaining.
Proof.
  intros Hpos. unfold substep.
  destruct (procs s !! q) as [P|]; [|done].
  destruct (bursts P) as [|c rest]; [done|].
  intros (s2 & _ & [= <-])%res_bind_Ok. simpl.
  destruct (match blocked s with
            | [] => []
            | _ :: _ => stable_sort_blocked (blocked s)
            end) as [|front _]; [lia|].
  destruct (Z.ltb_spec 0 (remaining_io front)); lia.
Qed.

Lemma exec_segment_fuel fuel q remaining s :
  (Z.to_nat remaining ≤ fuel)%nat →
  exec_segment fuel q remaining s ≠ OutOfFuel.
Proof.
  revert remaining s. induction fuel as [|fuel IH]; intros remaining s Hfuel;
    rewrite exec_segment_unfold;
    destruct (Z.ltb_spec 0 remaining) as [Hpos|Hneg]; try done; try lia.
  destruct (substep q remaining s) as [r| |] eqn:Hsub; simpl; try done.
  - apply IH. apply substep_decreases in Hsub; [|done]. lia.
  - unfold substep in Hsub.
    destruct (procs s !! q) as [P|]; [|done].
    destruct (bursts P) as [|c rest]; [done|].
    match type of Hsub with
    | res_bind (advance_blocked ?t ?s1) _ = _ =>
        destruct (advance_blocked_total t s1) as [s2 Hs2]
    end.
    by rewrite Hs2 in Hsub.
Qed.

(** ** Exactly one of four places *)

Lemma one_of_four (a b c d : list nat) i :
  NoDup (a ++ b ++ c ++ d) → i ∈ a ++ b ++ c ++ d →
  let A := i ∈ a in
  let B := i ∈ b in
  let C := i ∈ c in
  let D := i ∈ d in
  (A ∧ ¬ B ∧ ¬ C ∧ ¬ D) ∨ (¬ A ∧ B ∧ ¬ C ∧ ¬ D) ∨
  (¬ A ∧ ¬ B ∧ C ∧ ¬ D) ∨ (¬ A ∧ ¬ B ∧ ¬ C ∧ D).
Proof.
  rewrite !NoDup_app, !elem_of_app.
  intros (_ & Ha & _ & Hb & _ & Hc & _) Hin.
  assert (i ∈ a → ¬ i ∈ b ∧ ¬ i ∈ c ∧ ¬ i ∈ d) as Ha'.
  { intros H. specialize (Ha i H). rewrite !elem_of_app in Ha. tauto. }
  assert (i ∈ b → ¬ i ∈ c ∧ ¬ i ∈ d) as Hb'.
  { intros H. specialize (Hb i H). rewrite !elem_of_app in Hb. tauto. }
  specialize (Hc i). simpl. tauto.
Qed.

(** ** Evaluation of concrete runs *)

(** Well-formedness of a concrete input, by evaluation. *)
Ltac well_formed_by_evaluation :=
  repeat (apply Forall_cons; split; [split; [reflexivity|]|]);
  repeat (apply Forall_cons; split; [lia|]); apply Forall_nil_2.

(** A state in the middle of the first segment of a run that uses the whole
    burst, by evaluation. *)
Ltac reach_by_evaluation q c :=
  eapply (reach_in_segment _ _ _ _ q [] c);
  [ eapply run_iter_reach; [apply reach_init|vm_compute; reflexivity]
  | vm_compute; reflexivity
  | vm_compute; reflexivity
  | vm_compute; reflexivity
  | lia
  | vm_compute; reflexivity ].

(** * The program on 32-bit integers *)

(** ** The arithmetic of [to_int] *)

Ltac to_int_arith :=
  unfold to_int;
  change (2 ^ 32) with 4294967296; change (2 ^ 31) with 2147483648;
  Z.div_mod_to_equations; lia.

Lemma to_int_add_l a b : to_int (to_int a + b) = to_int (a + b).
Proof. to_int_arith. Qed.

Lemma to_int_idemp a : to_int (to_int a) = to_int a.
Proof. to_int_arith. Qed.

Lemma to_int_wait a b c :
  to_int (to_int a - to_int (to_int b + to_int c)) = to_int (a - (b + c)).
Proof. to_int_arith. Qed.

Lemma to_int_in_int v : in_int v → to_int v = v.
Proof.
  unfold in_int, to_int, INT_MIN, INT_MAX. intros Hv.
  rewrite Z.mod_small; lia.
Qed.

Lemma in_int_to_int v : in_int (to_int v).
Proof.
  unfold in_int, to_int, INT_MIN, INT_MAX.
  pose proof (Z.mod_pos_bound (v + 2 ^ 31) (2 ^ 32)). lia.
Qed.

(** ** The exact run, wrapped, is the run on 32-bit integers *)

Lemma wrap_proc_add_executed_cpu d P :
  wrap_proc (add_executed_cpu d P) = Int32.add_executed_cpu d (wrap_proc P).
Proof.
  unfold wrap_proc, add_executed_cpu, Int32.add_executed_cpu. simpl.
  by rewrite to_int_add_l.
Qed.

Lemma wrap_proc_add_executed_io d P :
  wrap_proc (add_executed_io d P) = Int32.add_executed_io d (wrap_proc P).
Proof.
  unfold wrap_proc, add_executed_io, Int32.add_executed_io. simpl.
  by rewrite to_int_add_l.
Qed.

Lemma wrap_proc_add_total_cpu d P :
  wrap_proc (add_total_cpu d P) = Int32.add_total_cpu d (wrap_proc P).
Proof.
  unfold wrap_proc, add_total_cpu, Int32.add_total_cpu. simpl.
  by rewrite to_int_add_l.
Qed.

Lemma wrap_proc_add_total_io d P :
  wrap_proc (add_total_io d P) = Int32.add_total_io d (wrap_proc P).
Proof.
  unfold wrap_proc, add_total_io, Int32.add_total_io. simpl.
  by rewrite to_int_add_l.
Qed.

Lemma sum_totals_wrap k bs P :
  Int32.sum_totals k bs (wrap_proc P) = wrap_proc (sum_totals k bs P).
Proof.
  revert k P. induction bs as [|b bs IH]; intros k P; [done|]. simpl.
  destruct (Nat.even k).
  - by rewrite <- wrap_proc_add_total_cpu, IH.
  - by rewrite <- wrap_proc_add_total_io, IH.
Qed.

Lemma make_proc_wrap i l : Int32.make_proc i l = wrap_proc (make_proc i l).
Proof.
  unfold Int32.make_proc, make_proc. by rewrite <- sum_totals_wrap.
Qed.

Lemma init_from_lines_wrap lines s :
  Int32.init_from_lines lines (wrap s) = wrap (init_from_lines lines s).
Proof.
  unfold Int32.init_from_lines, init_from_lines, wrap.
  cbn [opt time_elapsed ready blocked procs completed order_counter log
       set_ready set_procs].
  rewrite !length_imap, fmap_imap.
  rewrite (imap_ext Int32.make_proc (λ n, wrap_proc ∘ make_proc n)); [done|].
  intros i l _. apply make_proc_wrap.
Qed.

Lemma initial_wrap o lines :
  Int32.initial o lines = wrap (initial o lines).
Proof.
  unfold Int32.initial, initial. by rewrite <- init_from_lines_wrap.
Qed.

Lemma progress_items_wrap step bl ps :
  Int32.progress_items step bl (wrap_proc <$> ps) =
  ((progress_items step bl ps).1, wrap_proc <$> (progress_items step bl ps).2).
Proof.
  revert ps. induction bl as [|bi bl IH]; intros ps; [done|].
  cbn [Int32.progress_items progress_items].
  rewrite <- (list_fmap_alter wrap_proc
                (add_executed_io (Z.min step (remaining_io bi)))).
  2:{ apply Forall_forall. intros P _. apply wrap_proc_add_executed_io. }
  rewrite IH. by destruct (progress_items _ _ _).
Qed.

Lemma release_finished_wrap bl ps rdy :
  release_finished bl (wrap_proc <$> ps) rdy =
  ((release_finished bl ps rdy).1.1,
   wrap_proc <$> (release_finished bl ps rdy).1.2,
   (release_finished bl ps rdy).2).
Proof.
  revert ps rdy. induction bl as [|bi bl IH]; intros ps rdy; [done|].
  cbn [release_finished]. destruct (remaining_io bi =? 0).
  - rewrite <- (list_fmap_alter wrap_proc pop_front).
    2:{ apply Forall_forall. by intros P _. }
    by rewrite IH.
  - rewrite IH. by destruct (release_finished bl ps rdy) as [[? ?] ?].
Qed.

Lemma advance_iter_wrap t s :
  Int32.advance_iter t (wrap s) =
    res_map (λ r, (r.1, wrap r.2)) (advance_iter t s).
Proof.
  unfold Int32.advance_iter, advance_iter. cbn [blocked procs ready wrap].
  destruct (stable_sort_blocked (blocked s)) as [|front rest]; [done|].
  rewrite progress_items_wrap.
  destruct (progress_items _ _ _) as [bl1 ps1]. cbn [fst snd].
  rewrite release_finished_wrap.
  by destruct (release_finished _ _ _) as [[bl2 ps2] rdy].
Qed.

Lemma advance_loop_int_unfold fuel t s :
  Int32.advance_loop fuel t s =
    if (0 <? t) && negb (bool_decide (blocked s = [])) then
      match fuel with
      | O => OutOfFuel
      | S fuel' =>
          let* r := Int32.advance_iter t s in
          Int32.advance_loop fuel' r.1 r.2
      end
    else Ok s.
Proof. by destruct fuel. Qed.

Lemma advance_loop_wrap fuel t s :
  Int32.advance_loop fuel t (wrap s) = res_map wrap (advance_loop fuel t s).
Proof.
  revert t s. induction fuel as [|fuel IH]; intros t s;
    rewrite advance_loop_int_unfold, advance_loop_unfold; cbn [blocked wrap];
    destruct (_ && _); try done.
  rewrite advance_iter_wrap, res_bind_map, res_map_bind.
  apply res_bind_ext. intros r. apply IH.
Qed.

Lemma advance_blocked_wrap dt s :
  Int32.advance_blocked dt (wrap s) = res_map wrap (advance_blocked dt s).
Proof. apply advance_loop_wrap. Qed.

Lemma exec_segment_int_unfold fuel q remaining s :
  Int32.exec_segment fuel q remaining s =
    if 0 <? remaining then
      match fuel with
      | O => OutOfFuel
      | S fuel' =>
          let* r := Int32.substep q remaining s in
          Int32.exec_segment fuel' q r.1 r.2
      end
    else Ok s.
Proof. by destruct fuel. Qed.

Lemma substep_wrap q remaining s :
  Int32.substep q remaining (wrap s) =
    res_map (λ r, (r.1, wrap r.2)) (substep q remaining s).
Proof.
  unfold Int32.substep, substep.
  cbn [blocked procs time_elapsed wrap].
  rewrite list_lookup_fmap.
  destruct (procs s !! q) as [P|]; [|done]. cbn [fmap option_fmap option_map].
  cbn [bursts wrap_proc].
  destruct (bursts P) as [|c rest]; [done|].
  match goal with
  | |- context [Int32.advance_blocked ?d ?s1] =>
      match goal with
      | |- context [advance_blocked d ?s2] =>
          replace s1 with (wrap s2)
      end
  end.
  - rewrite advance_blocked_wrap, res_bind_map, res_map_bind. done.
  - unfold wrap.
    cbn [opt time_elapsed ready blocked procs completed order_counter log
         set_procs set_time set_blocked].
    rewrite list_fmap_insert, to_int_add_l. do 2 f_equal.
    rewrite <- wrap_proc_add_executed_cpu. done.
Qed.

Lemma exec_segment_wrap fuel q remaining s :
  Int32.exec_segment fuel q remaining (wrap s) =
    res_map wrap (exec_segment fuel q remaining s).
Proof.
  revert remaining s. induction fuel as [|fuel IH]; intros remaining s;
    rewrite exec_segment_int_unfold, exec_segment_unfold;
    destruct (0 <? remaining); try done.
  rewrite substep_wrap, res_bind_map, res_map_bind.
  apply res_bind_ext. intros r. apply IH.
Qed.

Lemma move_to_blocked_wrap q s :
  move_to_blocked q (wrap s) = wrap (move_to_blocked q s).
Proof.
  unfold move_to_blocked. cbn [procs wrap]. rewrite list_lookup_fmap.
  destruct (procs s !! q) as [P|]; [|done].
  cbn [fmap option_fmap option_map]. cbv zeta.
  change (bursts (wrap_proc P)) with (bursts P).
  assert (match bursts P with
          | [] => wrap_proc P
          | c :: rest => if c =? 0 then set_bursts rest (wrap_proc P)
                         else wrap_proc P
          end =
          wrap_proc match bursts P with
                    | [] => P
                    | c :: rest => if c =? 0 then set_bursts rest P else P
                    end) as ->.
  { destruct (bursts P) as [|c rest]; [done|]. by destruct (c =? 0). }
  set (P1 := match bursts P with
             | [] => P
             | c :: rest => if c =? 0 then set_bursts rest P else P
             end).
  change (bursts (wrap_proc P1)) with (bursts P1).
  destruct (bursts P1); unfold wrap;
    cbn [opt time_elapsed ready blocked procs completed order_counter log
         set_procs set_blocked set_order_counter];
    by rewrite list_fmap_insert.
Qed.

Lemma finish_segment_wrap q s :
  finish_segment q (wrap s) = res_map wrap (finish_segment q s).
Proof.
  unfold finish_segment. cbn [procs wrap]. rewrite list_lookup_fmap.
  destruct (procs s !! q) as [P|]; [|done].
  cbn [fmap option_fmap option_map bursts wrap_proc].
  destruct (bursts P) as [|c rest]; [done|].
  destruct (c =? 0).
  - destruct rest as [|io rest].
    + cbn [res_map res_bind]. f_equal. unfold wrap.
      cbn [opt time_elapsed ready blocked procs completed order_counter log
           set_procs set_completed emit pid executed_cpu executed_io
           set_completion_time set_bursts wrap_proc].
      by rewrite list_fmap_insert, !fmap_app.
    + cbn [res_map res_bind]. f_equal.
      rewrite <- move_to_blocked_wrap. f_equal. unfold wrap.
      cbn [opt time_elapsed ready blocked procs completed order_counter log
           set_procs emit pid executed_cpu executed_io set_bursts wrap_proc].
      by rewrite list_fmap_insert, !fmap_app.
  - cbn [res_map res_bind]. f_equal. unfold wrap, enqueue_ready.
    cbn [opt time_elapsed ready blocked procs completed order_counter log
         set_ready emit pid executed_cpu executed_io wrap_proc].
    by rewrite !fmap_app.
Qed.

Lemma front_burst_wrap q s : front_burst q (wrap s) = front_burst q s.
Proof.
  unfold front_burst. cbn [procs wrap]. rewrite list_lookup_fmap.
  by destruct (procs s !! q) as [P|].
Qed.

Lemma dispatch_wrap q s :
  Int32.dispatch q (wrap s) = res_map wrap (dispatch q s).
Proof.
  unfold Int32.dispatch, dispatch. rewrite front_burst_wrap.
  cbn [opt wrap].
  destruct (front_burst q s) as [c| |]; [|done..]. cbn [res_bind].
  rewrite exec_segment_wrap, res_bind_map, res_map_bind.
  apply res_bind_ext. intros s1. apply finish_segment_wrap.
Qed.

Lemma idle_jump_wrap s :
  Int32.idle_jump (wrap s) = res_map wrap (idle_jump s).
Proof.
  unfold Int32.idle_jump, idle_jump. cbn [blocked wrap].
  destruct (stable_sort_blocked (blocked s)) as [|front rest]; [done|].
  change (set_blocked (front :: rest) (wrap s))
    with (wrap (set_blocked (front :: rest) s)).
  rewrite advance_blocked_wrap, res_bind_map, res_map_bind.
  apply res_bind_ext. intros s1. cbn [res_map res_bind]. f_equal.
  unfold wrap.
  cbn [opt time_elapsed ready blocked procs completed order_counter log
       set_time].
  by rewrite to_int_add_l.
Qed.

Lemma run_iter_wrap s :
  Int32.run_iter (wrap s) = res_map (fmap wrap) (run_iter s).
Proof.
  unfold Int32.run_iter, run_iter. cbn [ready blocked wrap].
  destruct (ready s) as [|q rdy].
  - destruct (blocked s); [done|].
    change (mkSimulation (opt s) (to_int (time_elapsed s)) [] (b :: l)
              (wrap_proc <$> procs s)
              ((λ c : Z * nat, (to_int c.1, c.2)) <$> completed s)
              (order_counter s) (wrap_event <$> log s))
      with (wrap (set_blocked (b :: l) (set_ready [] s))).
    rewrite idle_jump_wrap.
    by destruct (idle_jump _).
  - change (set_ready rdy _) with (wrap (set_ready rdy s)) at 1.
    rewrite dispatch_wrap.
    by destruct (dispatch _ _).
Qed.

Lemma run_wrap fuel s : Int32.run fuel (wrap s) = res_map wrap (run fuel s).
Proof.
  revert s. induction fuel as [|fuel IH]; intros s; [done|].
  cbn [Int32.run run]. rewrite run_iter_wrap.
  destruct (run_iter s) as [[s'|]| |]; try done.
  cbn [res_map res_bind fmap option_fmap option_map]. apply IH.
Qed.

Lemma emit_stats_wrap cs s :
  Int32.emit_stats cs (wrap s) = res_map wrap (emit_stats cs s).
Proof.
  revert s. induction cs as [|[t i] cs IH]; intros s; [done|].
  cbn [Int32.emit_stats emit_stats procs wrap]. rewrite list_lookup_fmap.
  destruct (procs s !! i) as [P|]; [|done].
  cbn [fmap option_fmap option_map completion_time total_cpu total_io
       wrap_proc].
  rewrite <- IH. f_equal. unfold wrap.
  cbn [opt time_elapsed ready blocked procs completed order_counter log emit].
  rewrite fmap_app. cbn [fmap list_fmap wrap_event].
  by rewrite to_int_wait.
Qed.

(** ** States that are states of [int]s *)

Lemma wrap_int_state s : int_state s → wrap s = s.
Proof.
  intros (Ht & Hps & Hcs & Hlog). destruct s as [o t r b ps cs n l].
  unfold wrap. cbn [opt time_elapsed ready blocked procs completed
                    order_counter log] in *.
  rewrite (to_int_in_int t Ht). f_equal.
  - rewrite <- (list_fmap_id ps) at 2. apply Forall_fmap_ext_1.
    eapply Forall_impl; [exact Hps|]. intros [i bs ec ei tc ti ct].
    unfold int_proc, wrap_proc. simpl. intros (? & ? & ? & ? & ?).
    by rewrite !to_int_in_int.
  - rewrite <- (list_fmap_id cs) at 2. apply Forall_fmap_ext_1.
    eapply Forall_impl; [exact Hcs|]. intros [c i]. simpl. intros ?.
    by rewrite to_int_in_int.
  - rewrite <- (list_fmap_id l) at 2. apply Forall_fmap_ext_1.
    eapply Forall_impl; [exact Hlog|]. intros [id cpu io clock why|id tn w];
      simpl.
    + intros (? & ? & ?). by rewrite !to_int_in_int.
    + intros (? & ?). by rewrite !to_int_in_int.
Qed.

Section completion_time_frame.
Context (Q : Z → Prop).

Lemma alter_each_completion_time {B} (f : B → Proc → Proc) (k : B → nat)
    (l : list B) (ps : list Proc) :
  (∀ x P, completion_time (f x P) = completion_time P) →
  Forall (λ P, Q (completion_time P)) ps →
  Forall (λ P, Q (completion_time P)) (alter_each f k l ps).
Proof.
  intros Hf. revert ps. induction l as [|x l IH]; intros ps Hps; [done|].
  change (alter_each f k (x :: l) ps)
    with (alter_each f k l (alter (f x) (k x) ps)).
  apply IH. apply Forall_alter; [done|]. intros P _. by rewrite Hf.
Qed.

Lemma advance_loop_completion_time fuel t s s' :
  advance_loop fuel t s = Ok s' →
  Forall (λ P, Q (completion_time P)) (procs s) →
  Forall (λ P, Q (completion_time P)) (procs s').
Proof.
  revert t s. induction fuel as [|fuel IH]; intros t s;
    rewrite advance_loop_unfold; destruct (_ && _); try done;
    try (by intros [= <-]).
  intros (r & Hr & Hloop)%res_bind_Ok Hps.
  apply (IH _ _ Hloop).
  destruct (stable_sort_blocked (blocked s)) as [|front rest] eqn:Hsort.
  { unfold advance_iter in Hr. by rewrite Hsort in Hr. }
  rewrite (advance_iter_eq _ _ _ _ Hsort) in Hr. injection Hr as <-.
  unfold advance_step. cbn [snd procs set_ready set_procs].
  apply alter_each_completion_time; [done|].
  by apply alter_each_completion_time.
Qed.

Lemma substep_completion_time q remaining s r :
  substep q remaining s = Ok r →
  Forall (λ P, Q (completion_time P)) (procs s) →
  Forall (λ P, Q (completion_time P)) (procs r.2).
Proof.
  unfold substep. destruct (procs s !! q) as [P|] eqn:HP; [|done].
  destruct (bursts P) as [|c rest]; [done|].
  intros (s2 & Hs2 & [= <-])%res_bind_Ok Hps. cbn [snd].
  apply (advance_loop_completion_time _ _ _ _ Hs2).
  cbn [procs set_procs]. apply Forall_insert; [done|].
  cbn [completion_time set_bursts add_executed_cpu].
  by apply (proj1 (Forall_lookup _ _) Hps q P).
Qed.

Lemma idle_jump_completion_time s s' :
  idle_jump s = Ok s' →
  Forall (λ P, Q (completion_time P)) (procs s) →
  Forall (λ P, Q (completion_time P)) (procs s').
Proof.
  unfold idle_jump.
  destruct (stable_sort_blocked (blocked s)) as [|front rest]; [done|].
  intros (s1 & Hs1 & [= <-])%res_bind_Ok Hps. cbn [procs set_time].
  by apply (advance_loop_completion_time _ _ _ _ Hs1).
Qed.
End completion_time_frame.

Lemma move_to_blocked_recorded B q s :
  recorded_within B s → recorded_within B (move_to_blocked q s).
Proof.
  intros (Hps & Hcs & Hlog). unfold move_to_blocked.
  destruct (procs s !! q) as [P|] eqn:HP; [|done].
  pose proof (proj1 (Forall_lookup _ _) Hps q P HP) as Hct.
  set (P1 := match bursts P with
             | [] => P
             | c :: rest => if c =? 0 then set_bursts rest P else P
             end).
  assert (completion_time P1 = completion_time P) as HP1.
  { subst P1. destruct (bursts P) as [|c rest]; [done|]. by destruct (c =? 0). }
  cbv zeta.
  assert (Forall (λ P, -1 ≤ completion_time P ≤ B) (<[q:=P1]> (procs s)))
    as Hps'.
  { apply Forall_insert; [done|]. simpl. by rewrite HP1. }
  by destruct (bursts P1).
Qed.

Lemma finish_segment_recorded B q s s' :
  finish_segment q s = Ok s' →
  (∀ P, procs s !! q = Some P →
        0 ≤ executed_cpu P ≤ B ∧ 0 ≤ executed_io P ≤ B) →
  0 ≤ time_elapsed s ≤ B →
  recorded_within B s → recorded_within B s'.
Proof.
  unfold finish_segment. intros Hfin HP Ht (Hps & Hcs & Hlog).
  destruct (procs s !! q) as [P|] eqn:Hq; [|done].
  destruct (HP P eq_refl) as [Hcpu Hio].
  pose proof (proj1 (Forall_lookup _ _) Hps q P Hq) as Hct. simpl in Hct.
  destruct (bursts P) as [|c rest]; [done|].
  destruct (c =? 0).
  - destruct rest as [|io rest]; injection Hfin as <-.
    + split; [|split].
      * cbn [procs emit set_completed set_procs].
        apply Forall_insert; [done|]. simpl. lia.
      * cbn [completed emit set_completed set_procs].
        apply Forall_app. split; [done|]. apply Forall_singleton. simpl. lia.
      * cbn [log emit set_completed set_procs].
        apply Forall_app. split; [done|]. apply Forall_singleton. simpl. lia.
    + apply move_to_blocked_recorded. split; [|split].
      * cbn [procs emit set_procs]. apply Forall_insert; [done|]. simpl. lia.
      * done.
      * cbn [log emit set_procs].
        apply Forall_app. split; [done|]. apply Forall_singleton. simpl. lia.
  - injection Hfin as <-. split; [done|]. split; [done|].
    cbn [log emit enqueue_ready set_ready].
    apply Forall_app. split; [done|]. apply Forall_singleton. simpl. lia.
Qed.

Lemma work_total_nonneg lines : well_formed lines → 0 ≤ work_total lines.
Proof.
  intros Hwf.
  destruct (int_range (mkOptions FCFS 2) lines LoopHead
              (initial (mkOptions FCFS 2) lines) Hwf (reach_init _ _))
    as (? & ? & _).
  lia.
Qed.

Lemma reach_recorded o lines c s :
  well_formed lines → reach LoopHead (initial o lines) c s →
  recorded_within (work_total lines) s.
Proof.
  intros Hwf Hreach.
  induction Hreach as [|s q rdy c Hreach IH Hready Hfront
    |s q remaining r Hreach IH Hpos Hsub
    |s q remaining s' Hreach IH Hneg Hfin
    |s s' Hreach IH Hready Hblocked Hidle].
  - destruct (initial_fields o lines) as (_ & _ & Hc & Hl & _).
    split; [|by rewrite Hc, Hl].
    unfold initial, init_from_lines. cbn [procs set_ready set_procs].
    apply Forall_forall. intros P [i [l [-> _]]]%elem_of_lookup_imap.
    unfold make_proc.
    destruct (sum_totals_spec 0 l (mkProc i l 0 0 0 0 (-1)))
      as (_ & _ & _ & _ & -> & _).
    pose proof (work_total_nonneg lines Hwf). simpl. lia.
  - done.
  - pose proof (reach_inv _ _ _ _ Hwf Hreach) as Hinv.
    destruct (substep_inv _ _ _ _ Hinv Hpos)
      as (step & s' & Hsub' & _ & _ & _ & _ & Hc & Hl & _).
    rewrite Hsub in Hsub'. injection Hsub' as ->.
    destruct IH as (Hps & Hcs & Hlog). cbn [snd].
    split; [|by rewrite Hc, Hl].
    exact (substep_completion_time (λ t, -1 ≤ t ≤ work_total lines)
             _ _ _ _ Hsub Hps).
  - destruct (int_range _ _ _ _ Hwf Hreach) as (Ht & Hw & Hp).
    eapply finish_segment_recorded; [exact Hfin| |lia|done].
    intros P HP. destruct (Hp q P HP) as (? & ? & ?). lia.
  - pose proof (reach_inv _ _ _ _ Hwf Hreach) as Hinv.
    destruct (idle_jump_inv _ _ Hinv Hblocked)
      as (s1 & step & Hidle' & _ & _ & _ & _ & Hc & Hl & _).
    rewrite Hidle in Hidle'. injection Hidle' as <-.
    destruct IH as (Hps & Hcs & Hlog).
    split; [|by rewrite Hc, Hl].
    exact (idle_jump_completion_time (λ t, -1 ≤ t ≤ work_total lines)
             _ _ Hidle Hps).
Qed.

(** Every state of a run from a well-formed input whose bursts add up to a
    value of [int] is a state of [int]s. *)
Lemma reach_int_state o lines c s :
  well_formed lines → fits_in_int lines →
  reach LoopHead (initial o lines) c s → int_state s.
Proof.
  unfold fits_in_int. intros Hwf Hfit Hreach.
  destruct (int_range _ _ _ _ Hwf Hreach) as (Ht & Hw & Hp).
  destruct (reach_recorded _ _ _ _ Hwf Hreach) as (Hps & Hcs & Hlog).
  assert (INT_MIN ≤ -1 - work_total lines) as Hmin.
  { unfold INT_MIN, INT_MAX in *. lia. }
  assert (INT_MIN ≤ -1) as Hneg by (unfold INT_MIN; lia).
  unfold int_state, in_int. split; [lia|].
  split; [|split].
  - apply Forall_lookup. intros i P HP.
    destruct (Hp i P HP) as (? & ? & ?).
    pose proof (proj1 (Forall_lookup _ _) Hps i P HP) as Hct. simpl in Hct.
    unfold int_proc, in_int. lia.
  - eapply Forall_impl; [exact Hcs|]. intros [t i]. simpl. lia.
  - eapply Forall_impl; [exact Hlog|].
    intros [id cpu io clock why|id tn w]; simpl; unfold in_int; lia.
Qed.

(** ** The two runs agree when the bursts add up to a value of [int] *)

Lemma reach_trans c0 s0 c1 s1 c2 s2 :
  reach c0 s0 c1 s1 → reach c1 s1 c2 s2 → reach c0 s0 c2 s2.
Proof.
  intros H01. induction 1 as [|s q rdy c _ IH Hready Hfront
    |s q remaining r _ IH Hpos Hsub
    |s q remaining s' _ IH Hneg Hfin
    |s s' _ IH Hready Hblocked Hidle].
  - done.
  - by eapply reach_pop.
  - by eapply reach_substep.
  - by eapply reach_finish.
  - by eapply reach_idle.
Qed.

Section agreement.
Context (o : Options) (lines : list BurstLine).
Context (Hwf : well_formed lines) (Hfit : fits_in_int lines).

Lemma initial_int_agrees : Int32.initial o lines = initial o lines.
Proof.
  rewrite initial_wrap. apply wrap_int_state.
  eapply reach_int_state; [done|done|apply reach_init].
Qed.

Lemma substep_int_agrees q remaining s :
  reach LoopHead (initial o lines) (Executing q remaining) s →
  0 < remaining →
  Int32.substep q remaining s = substep q remaining s.
Proof.
  intros Hreach Hpos.
  rewrite <- (wrap_int_state s) at 1
    by (by eapply reach_int_state).
  rewrite substep_wrap.
  destruct (substep q remaining s) as [r| |] eqn:Hsub; [|done..].
  cbn [res_map res_bind]. rewrite wrap_int_state; [by destruct r|].
  eapply reach_int_state; [done|done|]. by eapply reach_substep.
Qed.

Lemma idle_jump_int_agrees s :
  reach LoopHead (initial o lines) LoopHead s →
  ready s = [] → blocked s ≠ [] →
  Int32.idle_jump s = idle_jump s.
Proof.
  intros Hreach Hready Hblocked.
  rewrite <- (wrap_int_state s) at 1
    by (by eapply reach_int_state).
  rewrite idle_jump_wrap.
  destruct (idle_jump s) as [s'| |] eqn:Hidle; [|done..].
  cbn [res_map res_bind]. rewrite wrap_int_state; [done|].
  eapply reach_int_state; [done|done|]. by eapply reach_idle.
Qed.

Lemma run_iter_int_agrees s :
  reach LoopHead (initial o lines) LoopHead s →
  Int32.run_iter s = run_iter s.
Proof.
  intros Hreach.
  rewrite <- (wrap_int_state s) at 1
    by (by eapply reach_int_state).
  rewrite run_iter_wrap.
  destruct (run_iter s) as [[s'|]| |] eqn:Hiter; [|done..].
  cbn [res_map res_bind fmap option_fmap option_map].
  rewrite wrap_int_state; [done|].
  eapply reach_int_state; [done|done|]. by eapply run_iter_reach.
Qed.

Lemma run_int_agrees_from fuel s :
  reach LoopHead (initial o lines) LoopHead s →
  Int32.run fuel s = run fuel s.
Proof.
  revert s. induction fuel as [|fuel IH]; intros s Hreach; [done|].
  cbn [Int32.run run]. rewrite run_iter_int_agrees by done.
  destruct (run_iter s) as [[s'|]| |] eqn:Hiter; [|done..].
  cbn [res_bind]. apply IH. by eapply run_iter_reach.
Qed.

Lemma run_int_agrees fuel :
  Int32.run fuel (Int32.initial o lines) = run fuel (initial o lines).
Proof.
  rewrite initial_int_agrees. apply run_int_agrees_from, reach_init.
Qed.

Lemma reach_int_sound c s c' s' :
  reach LoopHead (initial o lines) c s →
  Int32.reach c s c' s' → reach c s c' s'.
Proof.
  intros Hreach. induction 1 as [|s1 q rdy c1 _ IH Hready Hfront
    |s1 q remaining r _ IH Hpos Hsub
    |s1 q remaining s2 _ IH Hneg Hfin
    |s1 s2 _ IH Hready Hblocked Hidle].
  - apply reach_init.
  - by eapply reach_pop.
  - eapply reach_substep; [done|done|].
    rewrite <- Hsub. symmetry. apply substep_int_agrees; [|done].
    by eapply reach_trans.
  - by eapply reach_finish.
  - eapply reach_idle; [done|done|done|].
    rewrite <- Hidle. symmetry. apply idle_jump_int_agrees; [|done..].
    by eapply reach_trans.
Qed.

Lemma reach_int_initial c s :
  Int32.reach LoopHead (Int32.initial o lines) c s →
  reach LoopHead (initial o lines) c s.
Proof.
  rewrite initial_int_agrees. apply reach_int_sound, reach_init.
Qed.

Lemma emit_stats_int_state cs s s' :
  emit_stats cs s = Ok s' → int_state s →
  Forall (λ P, in_int (completion_time P - (total_cpu P + total_io P)))
    (procs s) →
  int_state s'.
Proof.
  revert s. induction cs as [|[t i] cs IH]; intros s; [by intros [= <-]|].
  cbn [emit_stats]. destruct (procs s !! i) as [P|] eqn:HP; [|done].
  intros Hemit (Ht & Hps & Hcs & Hlog) Hwait.
  apply (IH _ Hemit); [|done].
  split; [done|]. split; [done|]. split; [done|].
  cbn [log emit]. apply Forall_app. split; [done|]. apply Forall_singleton.
  split.
  - by destruct (proj1 (Forall_lookup _ _) Hps i P HP) as (_ & _ & _ & _ & ?).
  - exact (proj1 (Forall_lookup _ _) Hwait i P HP).
Qed.

Lemma print_stats_int_agrees s :
  reach LoopHead (initial o lines) LoopHead s →
  Int32.print_stats_and_finish s = print_stats_and_finish s.
Proof.
  intros Hreach.
  pose proof (reach_int_state _ _ _ _ Hwf Hfit Hreach) as Hint.
  unfold Int32.print_stats_and_finish, print_stats_and_finish.
  set (sorted := stable_sort pair_lt (completed s)).
  assert (int_state (set_completed sorted s)) as Hint0.
  { destruct Hint as (Ht & Hps & Hcs & Hlog).
    split; [done|]. split; [done|]. split; [|done].
    cbn [completed set_completed]. subst sorted.
    by rewrite stable_sort_perm. }
  rewrite <- (wrap_int_state _ Hint0) at 1. rewrite emit_stats_wrap.
  destruct (emit_stats sorted (set_completed sorted s)) as [s'| |] eqn:Hemit;
    [|done..].
  cbn [res_map res_bind]. rewrite wrap_int_state; [done|].
  apply (emit_stats_int_state _ _ _ Hemit Hint0).
  cbn [procs set_completed].
  destruct (int_range _ _ _ _ Hwf Hreach) as (_ & _ & Hp).
  destruct (reach_recorded _ _ _ _ Hwf Hreach) as (Hps & _).
  apply Forall_lookup. intros i P HP.
  destruct (Hp i P HP) as (? & ? & ?).
  pose proof (proj1 (Forall_lookup _ _) Hps i P HP) as Hct. simpl in Hct.
  unfold fits_in_int in Hfit. unfold in_int, INT_MIN, INT_MAX in *. lia.
Qed.

Lemma simulate_int_agrees fuel :
  Int32.simulate fuel o lines = simulate fuel o lines.
Proof.
  unfold Int32.simulate, simulate.
  fold (Int32.initial o lines). fold (initial o lines).
  rewrite run_int_agrees.
  destruct (run fuel (initial o lines)) as [s| |] eqn:Hrun; [|done..].
  cbn [res_bind]. apply print_stats_int_agrees.
  by destruct (run_reach _ _ _ _ _ (reach_init _ _) Hrun).
Qed.
End agreement.

Lemma exec_segment_int_reach c0 s0 fuel q remaining s s' :
  Int32.reach c0 s0 (Executing q remaining) s →
  Int32.exec_segment fuel q remaining s = Ok s' →
  ∃ remaining', remaining' ≤ 0 ∧ Int32.reach c0 s0 (Executing q remaining') s'.
Proof.
  revert remaining s. induction fuel as [|fuel IH]; intros remaining s Hreach;
    rewrite exec_segment_int_unfold;
    destruct (Z.ltb_spec 0 remaining) as [Hpos|Hneg]; try done.
  - intros [= <-]. eauto.
  - intros (r & Hsub & Hex)%res_bind_Ok. eapply IH; [|done].
    by eapply Int32.reach_substep.
  - intros [= <-]. eauto.
Qed.

Lemma run_iter_int_reach c0 s0 s s' :
  Int32.reach c0 s0 LoopHead s → Int32.run_iter s = Ok (Some s') →
  Int32.reach c0 s0 LoopHead s'.
Proof.
  intros Hreach. unfold Int32.run_iter.
  destruct (ready s) as [|q rdy] eqn:Hready.
  - destruct (blocked s) eqn:Hblocked; [done|].
    intros (s1 & Hidle & [= <-])%res_map_Ok.
    eapply Int32.reach_idle; [done|done| |done]. by rewrite Hblocked.
  - intros (s1 & Hdisp & [= <-])%res_map_Ok. unfold Int32.dispatch in Hdisp.
    apply res_bind_Ok in Hdisp as (c & Hfront & Hdisp).
    apply res_bind_Ok in Hdisp as (s2 & Hex & Hfin).
    pose proof (Int32.reach_pop _ _ _ _ _ _ Hreach Hready Hfront) as Hr.
    destruct (exec_segment_int_reach _ _ _ _ _ _ _ Hr Hex)
      as (r' & Hr' & Hreach').
    by eapply Int32.reach_finish.
Qed.

Lemma scenario_D_fits : fits_in_int scenario_D.
Proof. unfold fits_in_int, INT_MAX. by vm_compute. Qed.

Lemma scenario_C_fits : fits_in_int scenario_C.
Proof. unfold fits_in_int, INT_MAX. by vm_compute. Qed.

(** * The scenarios *)

(** C1.  Scenario D: P0 has bursts [2; 3; 2], P1 has [5], first-come
    first-served (whatever the quantum).  The first iteration runs P0 for 2
    up to clock 2 and puts it in the blocked set with 3 of I/O to go.  The
    second iteration dispatches P1 with a segment of 5: its first sub-step
    stops at clock 5, where P0's I/O is over and P0 is at the back of the
    ready queue while P1 still holds the CPU with 2 to go; the iteration ends
    with P1 completed at clock 7.  The third iteration runs P0's last burst
    of 2 and completes it at clock 9, and the loop stops. *)
Theorem scenario_D_fcfs (quantum : Z) :
  let s0 := initial (mkOptions FCFS quantum) scenario_D in
  ∃ s1 s1a s2 s3,
    run_iter s0 = Ok (Some s1) ∧
    time_elapsed s1 = 2 ∧
    ready s1 = [1%nat] ∧
    blocked s1 = [mkBlockedItem 0 3 0] ∧
    log s1 = [CpuBurstExecution 0 2 0 2 ENTER_IO] ∧
    front_burst 1 s1 = Ok 5 ∧
    substep 1 5 (set_ready [] s1) = Ok (2, s1a) ∧
    reach LoopHead s0 (Executing 1 2) s1a ∧
    time_elapsed s1a = 5 ∧
    ready s1a = [0%nat] ∧ blocked s1a = [] ∧ completed s1a = [] ∧
    log s1a = log s1 ∧
    run_iter s1 = Ok (Some s2) ∧
    time_elapsed s2 = 7 ∧
    ready s2 = [0%nat] ∧ blocked s2 = [] ∧
    completed s2 = [(7, 1%nat)] ∧
    log s2 = log s1 ++ [CpuBurstExecution 1 5 0 7 COMPLETED] ∧
    run_iter s2 = Ok (Some s3) ∧
    time_elapsed s3 = 9 ∧
    completed s3 = [(7, 1%nat); (9, 0%nat)] ∧
    log s3 = log s2 ++ [CpuBurstExecution 0 4 3 9 COMPLETED] ∧
    run_iter s3 = Ok None ∧
    run 4 s0 = Ok s3.
Proof.
  intros s0. eexists _, _, _, _.
  do 7 (split; [vm_compute; reflexivity|]).
  split.
  { reach_by_evaluation 1%nat 5. }
  do 16 (split; [vm_compute; reflexivity|]).
  vm_compute; reflexivity.
Qed.

(** C2.  Scenario C: P0 and P1 both have bursts [4], round-robin with
    quantum 2.  The dispatches are P0 for 2 (quantum expired at clock 2), P1
    for 2 (quantum expired at clock 4), P0 for 2 (completed at clock 6) and
    P1 for 2 (completed at clock 8); the completion records and the final
    report are P0 at 6, then P1 at 8. *)
Theorem scenario_C_rr :
  let s0 := initial (mkOptions RR 2) scenario_C in
  ∃ s1 s2 s3 s4 s5,
    run_iter s0 = Ok (Some s1) ∧
    log s1 = [CpuBurstExecution 0 2 0 2 QUANTUM_EXPIRED] ∧
    ready s1 = [1%nat; 0%nat] ∧
    run_iter s1 = Ok (Some s2) ∧
    log s2 = log s1 ++ [CpuBurstExecution 1 2 0 4 QUANTUM_EXPIRED] ∧
    ready s2 = [0%nat; 1%nat] ∧
    run_iter s2 = Ok (Some s3) ∧
    log s3 = log s2 ++ [CpuBurstExecution 0 4 0 6 COMPLETED] ∧
    ready s3 = [1%nat] ∧
    completed s3 = [(6, 0%nat)] ∧
    run_iter s3 = Ok (Some s4) ∧
    log s4 = log s3 ++ [CpuBurstExecution 1 4 0 8 COMPLETED] ∧
    ready s4 = [] ∧ blocked s4 = [] ∧
    completed s4 = [(6, 0%nat); (8, 1%nat)] ∧
    run_iter s4 = Ok None ∧
    run 5 s0 = Ok s4 ∧
    print_stats_and_finish s4 = Ok s5 ∧
    log s5 = log s4 ++ [ProcessCompletion 0 6 2; ProcessCompletion 1 8 4].
Proof.
  intros s0. eexists _, _, _, _, _.
  do 18 (split; [vm_compute; reflexivity|]).
  vm_compute; reflexivity.
Qed.

(** * Termination, conservation and the place of every process *)

(** C3.  For a well-formed input and a positive quantum, under either
    discipline, the dispatch loop terminates: [run] returns as soon as its
    fuel exceeds the total burst time of the input, always with the same
    state, in which the ready queue and the blocked set are empty. *)
Theorem dispatch_loop_terminates o lines :
  well_formed lines → 0 < quantum o →
  ∃ s,
    (∀ fuel, (Z.to_nat (work_total lines) < fuel)%nat →
             run fuel (initial o lines) = Ok s) ∧
    ready s = [] ∧ blocked s = [].
Proof.
  intros Hwf Hq.
  destruct (run_terminates lines (S (Z.to_nat (work_total lines)))
              (initial o lines)) as (s & Hrun & _ & Hr & Hb & _).
  - by apply initial_inv.
  - right. by destruct (initial_fields o lines) as (-> & _).
  - rewrite initial_work. lia.
  - exists s. split; [|done]. intros fuel Hfuel.
    eapply run_fuel_mono; [done|lia].
Qed.

Lemma dispatch_loop_terminates_witness :
  well_formed scenario_C ∧ 0 < quantum (mkOptions RR 2) ∧
  ∃ s,
    (∀ fuel, (Z.to_nat (work_total scenario_C) < fuel)%nat →
             run fuel (initial (mkOptions RR 2) scenario_C) = Ok s) ∧
    ready s = [] ∧ blocked s = [].
Proof.
  split; [well_formed_by_evaluation|]. split; [simpl; lia|].
  apply (dispatch_loop_terminates (mkOptions RR 2) scenario_C).
  - well_formed_by_evaluation.
  - simpl. lia.
Defined.

(** With the sums in [Z].  For a well-formed input and either discipline, in
    the state [run] returns every process has executed exactly the CPU time
    and the I/O time of its original burst list: [executed_cpu] is the sum of
    the bursts at even positions and equals [total_cpu], [executed_io] is the
    sum of the bursts at odd positions and equals [total_io].  With a valid
    quantum [run] does return. *)
Lemma conservation_exact o lines :
  well_formed lines →
  (∀ fuel s, run fuel (initial o lines) = Ok s →
     ∀ i l, lines !! i = Some l →
       ∃ P, procs s !! i = Some P ∧ conserved l P ∧
            executed_cpu P = total_cpu P ∧ executed_io P = total_io P) ∧
  (valid_options o → ∃ fuel s, run fuel (initial o lines) = Ok s).
Proof.
  intros Hwf. split.
  - intros fuel s Hrun i l Hl.
    destruct (run_inv _ _ _ _ Hwf Hrun) as (Hinv & Hr & Hb).
    destruct (final_all_completed lines s i Hinv Hr Hb)
      as (t & P & _ & HP & _ & _ & Hcpu & Hio & _).
    { by eapply lookup_lt_Some. }
    exists P. split; [done|].
    destruct (proj2 (inv_static _ _ _ Hinv) i P HP) as (_ & l' & Hl' & ? & ?).
    assert (l' = l) as -> by congruence.
    unfold conserved. repeat split; congruence.
  - intros Hvalid.
    destruct (run_terminates lines (S (Z.to_nat (work_total lines)))
                (initial o lines)) as (s & Hrun & _).
    + by apply initial_inv.
    + by destruct (initial_fields o lines) as (-> & _).
    + rewrite initial_work. lia.
    + eauto.
Qed.

(** C4, as stated (for every well-formed input), fails: the I/O bursts of
    the one process of [overflow_input] add up to [2^31]; the run of the
    program returns, and the process has then executed -2147483648 of I/O,
    which is not that sum. *)
Lemma conservation_overflow :
  well_formed overflow_input ∧
  ∃ s P l,
    Int32.run 10 (Int32.initial (mkOptions FCFS 2) overflow_input) = Ok s ∧
    overflow_input !! 0%nat = Some l ∧ procs s !! 0%nat = Some P ∧
    io_sum l = 2147483648 ∧ executed_io P = -2147483648 ∧
    ¬ conserved l P.
Proof.
  split; [unfold overflow_input; well_formed_by_evaluation|].
  eexists _, _, _. split; [vm_compute; reflexivity|].
  split; [reflexivity|]. split; [reflexivity|].
  split; [reflexivity|]. split; [reflexivity|].
  intros (_ & Hio & _). vm_compute in Hio. discriminate Hio.
Qed.

(** C4, amended.  For a well-formed input whose bursts add up to a value
    of [int] and either discipline, in the state that the run of the
    program returns every process has executed exactly the CPU time and the I/O
    time of its original burst list: [executed_cpu] is the sum of the
    bursts at even positions and equals [total_cpu], [executed_io] is the
    sum of the bursts at odd positions and equals [total_io].  With a valid
    quantum the run does return. *)
Theorem conservation o lines :
  well_formed lines → fits_in_int lines →
  (∀ fuel s, Int32.run fuel (Int32.initial o lines) = Ok s →
     ∀ i l, lines !! i = Some l →
       ∃ P, procs s !! i = Some P ∧ conserved l P ∧
            executed_cpu P = total_cpu P ∧ executed_io P = total_io P) ∧
  (valid_options o →
   ∃ fuel s, Int32.run fuel (Int32.initial o lines) = Ok s).
Proof.
  intros Hwf Hfit. destruct (conservation_exact o lines Hwf) as [Hcons Hreturns].
  split.
  - intros fuel s Hrun. rewrite run_int_agrees in Hrun by done.
    by apply (Hcons fuel).
  - intros Hvalid. destruct (Hreturns Hvalid) as (fuel & s & Hrun).
    exists fuel, s. by rewrite run_int_agrees.
Qed.

Lemma conservation_witness :
  well_formed scenario_D ∧ fits_in_int scenario_D ∧
  (∀ fuel s,
     Int32.run fuel (Int32.initial (mkOptions FCFS 2) scenario_D) = Ok s →
     ∀ i l, scenario_D !! i = Some l →
       ∃ P, procs s !! i = Some P ∧ conserved l P ∧
            executed_cpu P = total_cpu P ∧ executed_io P = total_io P) ∧
  (valid_options (mkOptions FCFS 2) →
   ∃ fuel s,
     Int32.run fuel (Int32.initial (mkOptions FCFS 2) scenario_D) = Ok s).
Proof.
  split; [well_formed_by_evaluation|]. split; [apply scenario_D_fits|].
  apply (conservation (mkOptions FCFS 2) scenario_D).
  - well_formed_by_evaluation.
  - apply scenario_D_fits.
Defined.

(** C5.  In every state a run from a well-formed input reaches, at the
    head of the dispatch loop or between two sub-steps of a segment, the
    ready queue, the blocked set, the process on the CPU and the completion
    records together hold every process exactly once: each process is in
    exactly one of the four places.  So no process is in the ready queue and
    in the blocked set at once, and none is twice in either. *)
Theorem exactly_one_place o lines c s :
  well_formed lines → reach LoopHead (initial o lines) c s →
  containers c s ≡ₚ seq 0 (length lines) ∧
  (∀ i, (i < length lines)%nat →
     let R := i ∈ ready s in
     let B := i ∈ p <$> blocked s in
     let X := i ∈ running c in
     let C := i ∈ snd <$> completed s in
     (R ∧ ¬ B ∧ ¬ X ∧ ¬ C) ∨ (¬ R ∧ B ∧ ¬ X ∧ ¬ C) ∨
     (¬ R ∧ ¬ B ∧ X ∧ ¬ C) ∨ (¬ R ∧ ¬ B ∧ ¬ X ∧ C)) ∧
  (∀ q, q ∈ ready s → q ∉ p <$> blocked s) ∧
  NoDup (ready s) ∧ NoDup (p <$> blocked s).
Proof.
  intros Hwf Hreach. pose proof (reach_inv _ _ _ _ Hwf Hreach) as Hinv.
  split; [apply (inv_perm _ _ _ Hinv)|]. split; [|split].
  - intros i Hi. apply one_of_four.
    + by eapply containers_NoDup.
    + fold (containers c s). rewrite (inv_perm _ _ _ Hinv).
      apply elem_of_seq. lia.
  - intros q. by eapply ready_not_blocked.
  - split; [by eapply ready_NoDup|by eapply blocked_NoDup].
Qed.

Lemma exactly_one_place_witness :
  well_formed scenario_D ∧
  reach LoopHead (initial (mkOptions FCFS 2) scenario_D) (Executing 1 2)
    scenario_D_mid ∧
  containers (Executing 1 2) scenario_D_mid ≡ₚ seq 0 (length scenario_D) ∧
  (∀ i, (i < length scenario_D)%nat →
     let R := i ∈ ready scenario_D_mid in
     let B := i ∈ p <$> blocked scenario_D_mid in
     let X := i ∈ running (Executing 1 2) in
     let C := i ∈ snd <$> completed scenario_D_mid in
     (R ∧ ¬ B ∧ ¬ X ∧ ¬ C) ∨ (¬ R ∧ B ∧ ¬ X ∧ ¬ C) ∨
     (¬ R ∧ ¬ B ∧ X ∧ ¬ C) ∨ (¬ R ∧ ¬ B ∧ ¬ X ∧ C)) ∧
  (∀ q, q ∈ ready scenario_D_mid → q ∉ p <$> blocked scenario_D_mid) ∧
  NoDup (ready scenario_D_mid) ∧ NoDup (p <$> blocked scenario_D_mid).
Proof.
  split; [well_formed_by_evaluation|].
  split; [reach_by_evaluation 1%nat 5|].
  apply (exactly_one_place (mkOptions FCFS 2) scenario_D).
  - well_formed_by_evaluation.
  - reach_by_evaluation 1%nat 5.
Defined.

(** * The final report *)

(** With the sums in [Z].  For a well-formed input and a valid configuration
    the dispatch loop returns a state [s] (the same for every fuel that is
    enough), and [print_stats_and_finish] then appends to the trace one
    statistics record per completion record, in the order the specification
    asks for: the completion records sorted stably by completion time alone.
    These records name every process exactly once, and each reports as
    turnaround the completion time of its process and as wait the turnaround
    minus [total_cpu + total_io]. *)
Lemma final_report_exact o lines :
  well_formed lines → valid_options o →
  ∃ s s' records,
    (∀ fuel, (Z.to_nat (work_total lines) < fuel)%nat →
       run fuel (initial o lines) = Ok s ∧ simulate fuel o lines = Ok s') ∧
    (∀ fuel s0, run fuel (initial o lines) = Ok s0 → s0 = s) ∧
    print_stats_and_finish s = Ok s' ∧
    log s' = log s ++ records ∧
    Forall2 (spec_record (procs s)) records
      (spec_report_order (completed s)) ∧
    (snd <$> spec_report_order (completed s)) ≡ₚ seq 0 (length lines).
Proof.
  intros Hwf Hvalid.
  assert (valid_options (opt (initial o lines))) as Hvalid'.
  { by destruct (initial_fields o lines) as (-> & _). }
  destruct (run_terminates lines (S (Z.to_nat (work_total lines)))
              (initial o lines)) as (s & Hrun & Hinv & Hr & Hb & _).
  { by apply initial_inv. }
  { done. }
  { rewrite initial_work. lia. }
  assert (clock_inv s) as Hclock.
  { eapply run_clock_inv;
      [by apply initial_inv|done|apply initial_clock_inv|done]. }
  destruct (print_stats_spec _ _ Hinv Hclock)
    as (s' & records & Hprint & Hlog & Hrec & _).
  exists s, s', records. split.
  { intros fuel Hfuel.
    assert (run fuel (initial o lines) = Ok s) as Hrun'.
    { eapply run_fuel_mono; [done|lia]. }
    split; [done|]. unfold simulate. fold (initial o lines).
    by rewrite Hrun'. }
  split.
  { intros fuel s0 Hrun0. by eapply run_deterministic. }
  do 3 (split; [done|]).
  unfold spec_report_order. rewrite stable_sort_perm.
  rewrite <- (inv_perm _ _ _ Hinv). unfold containers.
  by rewrite Hr, Hb.
Qed.

(** C6, as stated (for every well-formed input), fails: on [tie_input]
    the clock of the program passes [2^31 - 1] and comes back to
    3: process 1 completes at 3 and then process 0 at 3.  The report, which
    sorts the pairs of time and process, has process 0 before process 1;
    the order of the specification, by time alone and stable, is the order
    of completion, process 1 first. *)
Lemma final_report_overflow :
  well_formed tie_input ∧ valid_options (mkOptions FCFS 2) ∧
  ∃ s s',
    Int32.run 10 (Int32.initial (mkOptions FCFS 2) tie_input) = Ok s ∧
    Int32.print_stats_and_finish s = Ok s' ∧
    completed s = [(3, 1%nat); (3, 0%nat)] ∧
    spec_report_order (completed s) = [(3, 1%nat); (3, 0%nat)] ∧
    log s' = log s ++ [ProcessCompletion 0 3 0; ProcessCompletion 1 3 1] ∧
    ¬ ∃ records,
        log s' = log s ++ records ∧
        Forall2 (spec_record (procs s)) records
          (spec_report_order (completed s)).
Proof.
  split; [unfold tie_input; well_formed_by_evaluation|].
  split; [by left|].
  eexists _, _. split; [vm_compute; reflexivity|].
  split; [vm_compute; reflexivity|].
  split; [reflexivity|]. split; [vm_compute; reflexivity|].
  split; [reflexivity|].
  intros (records & Hlog & Hrec).
  cbn in Hlog. simplify_eq.
  apply Forall2_cons_inv_l in Hrec as (c & cs & (P & _ & _ & Hev) & _ & Hcs).
  vm_compute in Hcs. simplify_eq.
Qed.

(** C6, amended.  For a well-formed input whose bursts add up to a value
    of [int] and a valid configuration the dispatch loop of the program returns a
    state [s] (the same for every fuel that is enough), and
    [print_stats_and_finish] then appends to the trace one statistics record
    per completion record, in the order the specification asks for: the
    completion records sorted stably by completion time alone.  These
    records name every process exactly once, and each reports as turnaround
    the completion time of its process and as wait the turnaround minus
    [total_cpu + total_io]. *)
Theorem final_report o lines :
  well_formed lines → valid_options o → fits_in_int lines →
  ∃ s s' records,
    (∀ fuel, (Z.to_nat (work_total lines) < fuel)%nat →
       Int32.run fuel (Int32.initial o lines) = Ok s ∧
       Int32.simulate fuel o lines = Ok s') ∧
    (∀ fuel s0, Int32.run fuel (Int32.initial o lines) = Ok s0 → s0 = s) ∧
    Int32.print_stats_and_finish s = Ok s' ∧
    log s' = log s ++ records ∧
    Forall2 (spec_record (procs s)) records
      (spec_report_order (completed s)) ∧
    (snd <$> spec_report_order (completed s)) ≡ₚ seq 0 (length lines).
Proof.
  intros Hwf Hvalid Hfit.
  destruct (final_report_exact o lines Hwf Hvalid)
    as (s & s' & records & Hret & Hsame & Hprint & Hlog & Hrec & Hperm).
  exists s, s', records. split.
  { intros fuel Hfuel. rewrite run_int_agrees, simulate_int_agrees by done.
    by apply Hret. }
  split.
  { intros fuel s0 Hrun. rewrite run_int_agrees in Hrun by done.
    by apply (Hsame fuel). }
  split; [|done].
  rewrite (print_stats_int_agrees o lines Hwf Hfit); [done|].
  destruct (Hret (S (Z.to_nat (work_total lines)))) as [Hrun _]; [lia|].
  by destruct (run_reach _ _ _ _ _ (reach_init _ _) Hrun).
Qed.

Lemma final_report_witness :
  well_formed scenario_C ∧ valid_options (mkOptions RR 2) ∧
  fits_in_int scenario_C ∧
  ∃ s s' records,
    (∀ fuel, (Z.to_nat (work_total scenario_C) < fuel)%nat →
       Int32.run fuel (Int32.initial (mkOptions RR 2) scenario_C) = Ok s ∧
       Int32.simulate fuel (mkOptions RR 2) scenario_C = Ok s') ∧
    (∀ fuel s0,
       Int32.run fuel (Int32.initial (mkOptions RR 2) scenario_C) = Ok s0 →
       s0 = s) ∧
    Int32.print_stats_and_finish s = Ok s' ∧
    log s' = log s ++ records ∧
    Forall2 (spec_record (procs s)) records
      (spec_report_order (completed s)) ∧
    (snd <$> spec_report_order (completed s)) ≡ₚ seq 0 (length scenario_C).
Proof.
  split; [well_formed_by_evaluation|]. split; [right; simpl; lia|].
  split; [apply scenario_C_fits|].
  apply (final_report (mkOptions RR 2) scenario_C).
  - well_formed_by_evaluation.
  - right. simpl. lia.
  - apply scenario_C_fits.
Defined.

(** * Advancing the blocked set by a negative amount *)

(** C7, as stated, fails: asked to advance by -1 with a process blocked,
    [advance_blocked] returns normally and the state is unchanged. *)
Lemma advance_blocked_negative_returns :
  advance_blocked (-1) blocked_sample = Ok blocked_sample ∧
  ¬ fails_fast (advance_blocked (-1) blocked_sample).
Proof. split; [reflexivity|]. intros H. exact H. Qed.

(** C7, amended.  [advance_blocked] has no failure path for a non-positive
    amount: the guard [t > 0] of its loop is false at once, so it returns
    normally and leaves every part of the state as it was. *)
Theorem advance_blocked_nonpositive dt s :
  dt ≤ 0 → advance_blocked dt s = Ok s.
Proof. intros Hdt. apply advance_loop_stop. by left. Qed.

Lemma advance_blocked_nonpositive_witness :
  -5 ≤ 0 ∧ advance_blocked (-5) blocked_sample = Ok blocked_sample.
Proof.
  split; [lia|]. apply (advance_blocked_nonpositive (-5) blocked_sample). lia.
Defined.

(** * The quantum under first-come-first-served *)

(** C8.  Under first-come-first-served the quantum is ignored.  For every
    input, every fuel and any two quantum values, the two simulations have
    the same outcome and, when they return, show the same events with the
    same clock values, the same final statistics, the same clock and the
    same process table; so do the two runs of the dispatch loop alone.  For
    a well-formed input both simulations do return. *)
Theorem fcfs_ignores_quantum lines q1 q2 :
  (∀ fuel,
     res_map observable (simulate fuel (mkOptions FCFS q1) lines) =
     res_map observable (simulate fuel (mkOptions FCFS q2) lines)) ∧
  (∀ fuel,
     res_map observable (run fuel (initial (mkOptions FCFS q1) lines)) =
     res_map observable (run fuel (initial (mkOptions FCFS q2) lines))) ∧
  (well_formed lines →
   ∃ s1 s2,
     (∀ fuel, (Z.to_nat (work_total lines) < fuel)%nat →
        simulate fuel (mkOptions FCFS q1) lines = Ok s1 ∧
        simulate fuel (mkOptions FCFS q2) lines = Ok s2) ∧
     observable s1 = observable s2).
Proof.
  assert (∀ fuel,
     res_map observable (simulate fuel (mkOptions FCFS q1) lines) =
     res_map observable (simulate fuel (mkOptions FCFS q2) lines)) as Hsim.
  { intros fuel.
    rewrite (simulate_set_opt fuel (mkOptions FCFS q1) (mkOptions FCFS q2))
      by done.
    by destruct (simulate fuel (mkOptions FCFS q1) lines). }
  split; [done|]. split.
  - intros fuel. unfold initial.
    change (init_from_lines lines (new_simulation (mkOptions FCFS q2)))
      with (set_opt (mkOptions FCFS q2)
              (init_from_lines lines (new_simulation (mkOptions FCFS q1)))).
    rewrite run_set_opt by done.
    by destruct (run fuel _).
  - intros Hwf.
    destruct (simulate_returns (mkOptions FCFS q1) lines Hwf) as [s1 H1];
      [by left|].
    destruct (simulate_returns (mkOptions FCFS q2) lines Hwf) as [s2 H2];
      [by left|].
    exists s1, s2. split; [by split; [apply H1|apply H2]|].
    specialize (Hsim (S (Z.to_nat (work_total lines)))).
    rewrite H1, H2 in Hsim by lia. unfold res_map in Hsim.
    cbn [res_bind] in Hsim. congruence.
Qed.

Lemma fcfs_ignores_quantum_witness :
  ∃ s1 s2,
    (∀ fuel, (Z.to_nat (work_total scenario_D) < fuel)%nat →
       simulate fuel (mkOptions FCFS 1) scenario_D = Ok s1 ∧
       simulate fuel (mkOptions FCFS 7) scenario_D = Ok s2) ∧
    observable s1 = observable s2.
Proof.
  apply (fcfs_ignores_quantum scenario_D 1 7).
  well_formed_by_evaluation.
Defined.

(** * The clock *)

(** With the sums in [Z].  In a run from a well-formed input the clock never
    decreases: a state reached later, at any control point, has a clock at
    least as large.  With a valid configuration every iteration of the
    dispatch loop, a dispatch or an idle jump, returns and strictly increases
    the clock (so no idle jump has zero duration); the only other case is the
    end of the loop, with both containers empty. *)
Lemma clock_monotone_exact o lines :
  well_formed lines →
  (∀ c s c' s',
     reach LoopHead (initial o lines) c s → reach c s c' s' →
     time_elapsed s ≤ time_elapsed s') ∧
  (valid_options o →
   ∀ s,
     reach LoopHead (initial o lines) LoopHead s →
     (ready s = [] ∧ blocked s = [] ∧ run_iter s = Ok None) ∨
     (∃ s', run_iter s = Ok (Some s') ∧
            time_elapsed s < time_elapsed s')).
Proof.
  intros Hwf. split.
  - intros c s c' s' Hreach Hlater.
    pose proof (reach_inv _ _ _ _ Hwf Hreach) as Hinv.
    by destruct (reach_inv_from _ _ _ _ _ Hinv Hlater) as (_ & ? & _).
  - intros Hvalid s Hreach.
    pose proof (reach_inv _ _ _ _ Hwf Hreach) as Hinv.
    pose proof (reach_opt _ _ _ _ Hwf Hreach) as Hopt.
    destruct (run_iter_inv _ _ Hinv)
      as [Hend|(s' & Hsome & _ & _ & _ & _ & Hlt)]; [by left|right].
    exists s'. split; [done|]. apply Hlt. by rewrite Hopt.
Qed.

(** C9, as stated (for every well-formed input), fails: on
    [overflow_input] the first iteration of the dispatch loop ends at the
    clock 1 with the process in I/O for [2^31 - 1]; the next iteration, the
    idle jump over that time, ends at the clock -2147483648. *)
Lemma clock_overflow :
  well_formed overflow_input ∧ valid_options (mkOptions FCFS 2) ∧
  ∃ s s',
    Int32.reach LoopHead (Int32.initial (mkOptions FCFS 2) overflow_input)
      LoopHead s ∧
    Int32.run_iter s = Ok (Some s') ∧
    time_elapsed s = 1 ∧ time_elapsed s' = -2147483648 ∧
    ¬ time_elapsed s ≤ time_elapsed s'.
Proof.
  split; [unfold overflow_input; well_formed_by_evaluation|].
  split; [by left|].
  eexists _, _. split.
  { eapply run_iter_int_reach; [apply Int32.reach_init|].
    vm_compute. reflexivity. }
  split; [vm_compute; reflexivity|].
  split; [reflexivity|]. split; [reflexivity|]. simpl. lia.
Qed.

(** C9, amended.  In a run of the program from a well-formed input whose
    bursts add up to a value of [int] the clock never decreases: a state reached
    later, at any control point, has a clock at least as large.  With a
    valid configuration every iteration of the dispatch loop, a dispatch or
    an idle jump, returns and strictly increases the clock (so no idle jump
    has zero duration); the only other case is the end of the loop, with
    both containers empty. *)
Theorem clock_monotone o lines :
  well_formed lines → fits_in_int lines →
  (∀ c s c' s',
     Int32.reach LoopHead (Int32.initial o lines) c s →
     Int32.reach c s c' s' →
     time_elapsed s ≤ time_elapsed s') ∧
  (valid_options o →
   ∀ s,
     Int32.reach LoopHead (Int32.initial o lines) LoopHead s →
     (ready s = [] ∧ blocked s = [] ∧ Int32.run_iter s = Ok None) ∨
     (∃ s', Int32.run_iter s = Ok (Some s') ∧
            time_elapsed s < time_elapsed s')).
Proof.
  intros Hwf Hfit. destruct (clock_monotone_exact o lines Hwf) as [Hmono Hstrict].
  split.
  - intros c s c' s' Hreach Hlater.
    apply (reach_int_initial o lines Hwf Hfit) in Hreach.
    apply (Hmono c s c' s' Hreach).
    by apply (reach_int_sound o lines Hwf Hfit).
  - intros Hvalid s Hreach.
    apply (reach_int_initial o lines Hwf Hfit) in Hreach.
    rewrite (run_iter_int_agrees o lines Hwf Hfit s Hreach).
    by apply Hstrict.
Qed.

Lemma clock_monotone_witness :
  well_formed scenario_D ∧ fits_in_int scenario_D ∧
  (∀ c s c' s',
     Int32.reach LoopHead (Int32.initial (mkOptions FCFS 2) scenario_D) c s →
     Int32.reach c s c' s' →
     time_elapsed s ≤ time_elapsed s') ∧
  (valid_options (mkOptions FCFS 2) →
   ∀ s,
     Int32.reach LoopHead (Int32.initial (mkOptions FCFS 2) scenario_D)
       LoopHead s →
     (ready s = [] ∧ blocked s = [] ∧ Int32.run_iter s = Ok None) ∨
     (∃ s', Int32.run_iter s = Ok (Some s') ∧
            time_elapsed s < time_elapsed s')).
Proof.
  split; [well_formed_by_evaluation|]. split; [apply scenario_D_fits|].
  apply (clock_monotone (mkOptions FCFS 2) scenario_D).
  - well_formed_by_evaluation.
  - apply scenario_D_fits.
Defined.

(** * Round-robin at the quantum boundary *)

(** C10.  Under round-robin with a positive quantum, when the process [q]
    at the front of the ready queue is dispatched with [c] left of its CPU
    burst, the iteration ends with one event for [q].  If [c] is at most the
    quantum, the whole burst ran (the clock advanced by [c]) and the event is
    a completion, recorded at the new clock, or an entry into I/O, [q] being
    then in the blocked set; [q] is not in the ready queue.  The event is
    "quantum expired" exactly when [c] exceeds the quantum: then the clock
    advanced by the quantum, [q] is at the back of the ready queue and what
    is left of its burst, [c] minus the quantum, is positive. *)
Theorem rr_quantum_boundary o lines s q rdy c :
  well_formed lines → strategy o = RR → 0 < quantum o →
  reach LoopHead (initial o lines) LoopHead s →
  ready s = q :: rdy → front_burst q s = Ok c →
  ∃ s' cpu io why,
    run_iter s = Ok (Some s') ∧
    log s' = log s ++ [CpuBurstExecution q cpu io (time_elapsed s') why] ∧
    (c ≤ quantum o →
       time_elapsed s' = time_elapsed s + c ∧
       (why = COMPLETED ∧
          completed s' = completed s ++ [(time_elapsed s', q)] ∨
        why = ENTER_IO ∧ q ∈ p <$> blocked s') ∧
       q ∉ ready s') ∧
    (why = QUANTUM_EXPIRED ↔ quantum o < c) ∧
    (why = QUANTUM_EXPIRED →
       time_elapsed s' = time_elapsed s + quantum o ∧
       (∃ r, ready s' = r ++ [q]) ∧
       front_burst q s' = Ok (c - quantum o) ∧ 0 < c - quantum o).
Proof.
  intros Hwf Hrr Hq Hreach Hready Hfront.
  pose proof (reach_inv _ _ _ _ Hwf Hreach) as Hinv.
  pose proof (reach_opt _ _ _ _ Hwf Hreach) as Hopt.
  destruct (dispatch_inv _ _ _ _ Hinv Hready)
    as (s' & c' & cpu & io & why & Hdisp & Hinv' & Hfront' & Hc & Ht & _ & _
        & Hlog & Hwhy).
  rewrite Hfront in Hfront'. injection Hfront' as <-.
  rewrite Hopt in Ht, Hwhy. unfold segment_length in Ht, Hwhy.
  rewrite Hrr in Ht, Hwhy.
  exists s', cpu, io, why. unfold run_iter. rewrite Hready, Hdisp.
  split; [done|]. split; [done|].
  destruct why.
  - destruct Hwhy as (Hle & Hcomp & Hin).
    split; [|split; [split; [done|lia]|done]].
    intros _. split; [lia|]. split; [by right|].
    intros Hr. by eapply (ready_not_blocked _ _ _ _ Hinv' Hr).
  - destruct Hwhy as (Hlt & Hcomp & Hr & Hf).
    split; [lia|]. split; [split; [lia|done]|].
    intros _. split; [lia|]. split; [done|].
    rewrite Hf. split; [f_equal|]; lia.
  - destruct Hwhy as (Hle & Hcomp).
    split; [|split; [split; [done|lia]|done]].
    intros _. split; [lia|]. split; [by left|].
    intros Hr. apply containers_NoDup in Hinv'. unfold containers in Hinv'.
    apply NoDup_app in Hinv' as (_ & Hdisj & _). apply (Hdisj q Hr).
    apply elem_of_app. right. simpl. rewrite Hcomp, fmap_app.
    apply elem_of_app. right. by apply list_elem_of_singleton.
Qed.

Lemma rr_quantum_boundary_witness :
  well_formed scenario_C ∧ strategy (mkOptions RR 4) = RR ∧
  0 < quantum (mkOptions RR 4) ∧
  reach LoopHead (initial (mkOptions RR 4) scenario_C) LoopHead
    (initial (mkOptions RR 4) scenario_C) ∧
  ready (initial (mkOptions RR 4) scenario_C) = 0%nat :: [1%nat] ∧
  front_burst 0 (initial (mkOptions RR 4) scenario_C) = Ok 4 ∧
  ∃ s' cpu io why,
    run_iter (initial (mkOptions RR 4) scenario_C) = Ok (Some s') ∧
    log s' = log (initial (mkOptions RR 4) scenario_C) ++
             [CpuBurstExecution 0 cpu io (time_elapsed s') why] ∧
    (4 ≤ quantum (mkOptions RR 4) →
       time_elapsed s' =
         time_elapsed (initial (mkOptions RR 4) scenario_C) + 4 ∧
       (why = COMPLETED ∧
          completed s' = completed (initial (mkOptions RR 4) scenario_C) ++
                         [(time_elapsed s', 0%nat)] ∨
        why = ENTER_IO ∧ 0%nat ∈ p <$> blocked s') ∧
       0%nat ∉ ready s') ∧
    (why = QUANTUM_EXPIRED ↔ quantum (mkOptions RR 4) < 4) ∧
    (why = QUANTUM_EXPIRED →
       time_elapsed s' =
         time_elapsed (initial (mkOptions RR 4) scenario_C) +
         quantum (mkOptions RR 4) ∧
       (∃ r, ready s' = r ++ [0%nat]) ∧
       front_burst 0 s' = Ok (4 - quantum (mkOptions RR 4)) ∧
       0 < 4 - quantum (mkOptions RR 4)).
Proof.
  split; [well_formed_by_evaluation|]. split; [reflexivity|].
  split; [simpl; lia|]. split; [apply reach_init|].
  split; [reflexivity|]. split; [reflexivity|].
  apply (rr_quantum_boundary (mkOptions RR 4) scenario_C
           (initial (mkOptions RR 4) scenario_C) 0%nat [1%nat] 4).
  - well_formed_by_evaluation.
  - reflexivity.
  - simpl. lia.
  - apply reach_init.
  - reflexivity.
  - reflexivity.
Defined.

(** * The scheduler core, iteration by iteration *)

Ltac lia_div := zify; Z.div_mod_to_equations; lia.

Lemma blocked_le_spec a b :
  blocked_le a b ↔
  remaining_io a < remaining_io b ∨
  (remaining_io a = remaining_io b ∧ (order a ≤ order b)%nat).
Proof.
  unfold blocked_le, blocked_lt. split.
  - intros H. compare_cases.
  - intros H. compare_cases.
Qed.

#[global] Instance blocked_le_trans : Transitive blocked_le.
Proof.
  intros a b c. rewrite !blocked_le_spec. lia.
Qed.

Lemma stable_sort_blocked_sorted bl :
  StronglySorted blocked_le (stable_sort_blocked bl).
Proof.
  apply Sorted_StronglySorted; [apply _|].
  apply (stable_sort_Sorted blocked_lt).
Qed.

Lemma sorted_stable_sort_blocked bl :
  StronglySorted blocked_le bl → stable_sort_blocked bl = bl.
Proof.
  intros H. apply stable_sort_sorted_id. by apply StronglySorted_Sorted.
Qed.

Lemma dec_item_nonzero step bi :
  remaining_io (dec_item step bi) ≠ 0 ↔ step < remaining_io bi.
Proof. unfold dec_item. simpl. lia. Qed.

Lemma dec_filter_sorted step l :
  StronglySorted blocked_le l →
  StronglySorted blocked_le
    (filter (λ bi, remaining_io bi ≠ 0) (dec_item step <$> l)).
Proof.
  induction 1 as [|x l Hs IH Hx]; [constructor|].
  rewrite fmap_cons, filter_cons. destruct (decide _) as [Hnz|]; [|done].
  constructor; [done|].
  apply Forall_forall. intros y' Hy'.
  apply list_elem_of_filter in Hy' as [Hy0 Hy'].
  apply list_elem_of_fmap in Hy' as (y & -> & Hy).
  rewrite Forall_forall in Hx. specialize (Hx y Hy).
  apply dec_item_nonzero in Hnz, Hy0.
  revert Hx. rewrite !blocked_le_spec. unfold dec_item. simpl. lia.
Qed.

Lemma advance_step_ordered step sorted s :
  blocked_ordered s → sorted ≡ₚ blocked s → StronglySorted blocked_le sorted →
  blocked_ordered (advance_step step sorted s).
Proof.
  intros (_ & Hnd & Hlt) Hperm Hs. unfold blocked_ordered, advance_step.
  cbn [blocked order_counter set_ready set_procs set_blocked].
  split; [by apply dec_filter_sorted|]. split.
  - eapply sublist_NoDup; [|apply fmap_sublist, sublist_filter].
    rewrite <- list_fmap_compose.
    change (order ∘ dec_item step) with order. by rewrite Hperm.
  - intros bi Hbi. apply list_elem_of_filter in Hbi as [_ Hbi].
    apply list_elem_of_fmap in Hbi as (bj & -> & Hbj).
    apply (Hlt bj). by rewrite <- Hperm.
Qed.

Lemma advance_loop_ordered fuel t s s' :
  blocked_ordered s → advance_loop fuel t s = Ok s' → blocked_ordered s'.
Proof.
  revert t s. induction fuel as [|fuel IH]; intros t s Hord;
    rewrite advance_loop_unfold; destruct (_ && _); try done;
    try (by intros [= <-]).
  intros (r & Hr & Hloop)%res_bind_Ok.
  destruct (stable_sort_blocked (blocked s)) as [|front rest] eqn:Hs.
  { unfold advance_iter in Hr. by rewrite Hs in Hr. }
  rewrite (advance_iter_eq _ _ _ _ Hs) in Hr. injection Hr as <-.
  simpl in Hloop. apply IH in Hloop; [done|].
  apply advance_step_ordered; [done| |].
  - rewrite <- Hs. apply stable_sort_perm.
  - rewrite <- Hs. apply stable_sort_blocked_sorted.
Qed.

Lemma blocked_ordered_frame s s' :
  blocked s' = blocked s → order_counter s' = order_counter s →
  blocked_ordered s → blocked_ordered s'.
Proof. unfold blocked_ordered. by intros -> ->. Qed.

Lemma blocked_ordered_sort s bl :
  bl ≡ₚ blocked s → StronglySorted blocked_le bl →
  blocked_ordered s → blocked_ordered (set_blocked bl s).
Proof.
  intros Hperm Hs (_ & Hnd & Hlt). unfold blocked_ordered.
  cbn [blocked order_counter set_blocked]. split; [done|]. split.
  - by rewrite Hperm.
  - intros bi Hbi. apply Hlt. by rewrite <- Hperm.
Qed.

Lemma move_to_blocked_ordered q s :
  blocked_ordered s → blocked_ordered (move_to_blocked q s).
Proof.
  intros Hord. unfold move_to_blocked.
  destruct (procs s !! q) as [P|]; [|done].
  set (P1 := match bursts P with
             | c :: rest => if c =? 0 then set_bursts rest P else P
             | [] => P
             end).
  destruct (bursts P1) as [|io rest]; [done|].
  destruct Hord as (Hs & Hnd & Hlt). unfold blocked_ordered.
  cbn [blocked order_counter set_order_counter set_blocked set_procs].
  split; [apply stable_sort_blocked_sorted|].
  assert (stable_sort_blocked
            (blocked s ++ [mkBlockedItem q io (order_counter s)])
          ≡ₚ mkBlockedItem q io (order_counter s) :: blocked s) as Hperm.
  { unfold stable_sort_blocked. rewrite stable_sort_perm.
    by rewrite Permutation_app_comm. }
  split.
  - rewrite Hperm, fmap_cons. apply NoDup_cons. split; [|done]. simpl.
    intros (bi & Heq & Hbi)%list_elem_of_fmap. specialize (Hlt bi Hbi). lia.
  - intros bi Hbi. rewrite Hperm in Hbi.
    apply elem_of_cons in Hbi as [->|Hbi]; simpl; [lia|].
    specialize (Hlt bi Hbi). lia.
Qed.

Lemma substep_ordered q remaining s r :
  blocked_ordered s → substep q remaining s = Ok r → blocked_ordered r.2.
Proof.
  intros Hord Hsub. unfold substep in Hsub.
  destruct (procs s !! q) as [P|]; [|done].
  destruct (bursts P) as [|c rest]; [done|].
  apply res_bind_Ok in Hsub as (s2 & Hs2 & [= <-]). simpl.
  eapply advance_loop_ordered; [|exact Hs2].
  eapply blocked_ordered_frame; [| |eapply blocked_ordered_sort; [| |exact Hord]];
    [reflexivity|reflexivity|..].
  - apply substep_sorted_perm.
  - destruct (blocked s); [constructor|apply stable_sort_blocked_sorted].
Qed.

Lemma finish_segment_ordered q s s' :
  blocked_ordered s → finish_segment q s = Ok s' → blocked_ordered s'.
Proof.
  intros Hord Hfin. unfold finish_segment in Hfin.
  destruct (procs s !! q) as [P|]; [|done].
  destruct (bursts P) as [|c rest]; [done|].
  destruct (c =? 0).
  - destruct rest as [|io rest]; injection Hfin as <-; [done|].
    by apply move_to_blocked_ordered.
  - by injection Hfin as <-.
Qed.

Lemma idle_jump_ordered s s' :
  blocked_ordered s → idle_jump s = Ok s' → blocked_ordered s'.
Proof.
  intros Hord Hidle. unfold idle_jump in Hidle.
  destruct (stable_sort_blocked (blocked s)) as [|front rest] eqn:Hs; [done|].
  apply res_bind_Ok in Hidle as (s1 & Hs1 & [= <-]).
  apply (blocked_ordered_frame s1); [done|done|].
  eapply advance_loop_ordered; [|exact Hs1].
  apply blocked_ordered_sort; [| |done]; rewrite <- Hs.
  - apply stable_sort_perm.
  - apply stable_sort_blocked_sorted.
Qed.

Lemma reach_ordered c0 s0 c s :
  blocked_ordered s0 → reach c0 s0 c s → blocked_ordered s.
Proof.
  intros H0. induction 1 as [|s q rdy c _ IH _ _|s q remaining r _ IH _ Hsub
    |s q remaining s' _ IH _ Hfin|s s' _ IH _ _ Hidle].
  - done.
  - done.
  - by eapply substep_ordered.
  - by eapply finish_segment_ordered.
  - by eapply idle_jump_ordered.
Qed.

Lemma initial_ordered o lines : blocked_ordered (initial o lines).
Proof.
  unfold blocked_ordered. destruct (initial_fields o lines) as (_&_&_&_&->&_).
  split; [constructor|]. split; [constructor|]. by intros bi ?%elem_of_nil.
Qed.

Lemma ordered_strict bl :
  StronglySorted blocked_le bl → NoDup (order <$> bl) →
  StronglySorted order_lt bl.
Proof.
  induction 1 as [|x l Hs IH Hx]; [constructor|].
  rewrite fmap_cons, NoDup_cons. intros [Hnin Hnd].
  constructor; [by apply IH|].
  apply Forall_forall. intros y Hy. rewrite Forall_forall in Hx.
  specialize (Hx y Hy). apply blocked_le_spec in Hx. unfold order_lt.
  assert (order x ≠ order y).
  { intros Heq. apply Hnin. rewrite Heq. by apply list_elem_of_fmap_2. }
  lia.
Qed.

(** X1.  At every control point of a run the blocked set is in the order of
    [stable_sort_blocked], strictly: by remaining I/O, then by stamp, no two
    entries with the same key.  So sorting it again changes nothing (only
    the sort in [move_to_blocked] ever moves an entry), its front is the
    entry that finishes soonest, and every stamp is older than the
    counter. *)
Theorem blocked_set_stays_sorted o lines c s :
  reach LoopHead (initial o lines) c s →
  StronglySorted order_lt (blocked s) ∧
  stable_sort_blocked (blocked s) = blocked s ∧
  (∀ bi, bi ∈ blocked s → (order bi < order_counter s)%nat).
Proof.
  intros Hreach.
  destruct (reach_ordered _ _ _ _ (initial_ordered o lines) Hreach)
    as (Hs & Hnd & Hlt).
  split; [by apply ordered_strict|]. split; [|done].
  by apply sorted_stable_sort_blocked.
Qed.

(** ** Closed form of advance_blocked *)

Lemma simulation_eq s s' :
  opt s = opt s' → time_elapsed s = time_elapsed s' → ready s = ready s' →
  blocked s = blocked s' → procs s = procs s' → completed s = completed s' →
  order_counter s = order_counter s' → log s = log s' → s = s'.
Proof. destruct s, s'. simpl. by intros -> -> -> -> -> -> -> ->. Qed.

Lemma proc_eq P P' :
  pid P = pid P' → bursts P = bursts P' →
  executed_cpu P = executed_cpu P' → executed_io P = executed_io P' →
  total_cpu P = total_cpu P' → total_io P = total_io P' →
  completion_time P = completion_time P' → P = P'.
Proof. destruct P, P'. simpl. by intros -> -> -> -> -> -> ->. Qed.

Lemma advance_step_nil t s : blocked s = [] → advance_step t [] s = s.
Proof.
  intros Hb. apply simulation_eq; try done.
  unfold advance_step. simpl. by rewrite app_nil_r.
Qed.

(** What is left after [a] and then [b] is what is left after [a + b]. *)
Lemma dec_filter_add a b (l : list BlockedItem) :
  0 ≤ a → 0 ≤ b → (∀ bi, bi ∈ l → 0 < remaining_io bi) →
  filter (λ bi, remaining_io bi ≠ 0)
    (dec_item b <$> filter (λ bi, remaining_io bi ≠ 0) (dec_item a <$> l)) =
  filter (λ bi, remaining_io bi ≠ 0) (dec_item (a + b) <$> l).
Proof.
  intros Ha Hb. induction l as [|x l IH]; intros Hpos; [done|].
  assert (0 < remaining_io x) as Hx by (apply Hpos, elem_of_cons; by left).
  assert (∀ bi, bi ∈ l → 0 < remaining_io bi) as Hpos'.
  { intros bi Hbi. apply Hpos, elem_of_cons. by right. }
  specialize (IH Hpos').
  rewrite !fmap_cons. rewrite (filter_cons _ (dec_item (a + b) x)).
  rewrite (filter_cons _ (dec_item a x)).
  destruct (decide (remaining_io x ≤ a)) as [Hle|Hgt].
  - rewrite decide_False by (unfold dec_item; simpl; lia).
    rewrite decide_False by (unfold dec_item; simpl; lia).
    done.
  - rewrite decide_True by (unfold dec_item; simpl; lia).
    rewrite fmap_cons, filter_cons, IH.
    destruct (decide (remaining_io x ≤ a + b)) as [Hle'|Hgt'].
    + rewrite decide_False by (unfold dec_item; simpl; lia).
      rewrite decide_False by (unfold dec_item; simpl; lia).
      done.
    + rewrite decide_True by (unfold dec_item; simpl; lia).
      rewrite decide_True by (unfold dec_item; simpl; lia).
      f_equal. unfold dec_item. simpl. f_equal. lia.
Qed.

Lemma filter_none {A} (P : A → Prop) `{∀ x, Decision (P x)} (l : list A) :
  (∀ x, x ∈ l → ¬ P x) → filter P l = [].
Proof.
  induction l as [|x l IH]; intros Hl; [done|].
  rewrite filter_cons_False by (apply Hl, elem_of_cons; by left).
  apply IH. intros y Hy. apply Hl, elem_of_cons. by right.
Qed.

(** The entries released within [a + b] are those released within [a],
    then those released within the next [b], in the order of the list. *)
Lemma released_add a b (l : list BlockedItem) :
  0 ≤ a → 0 ≤ b → (∀ bi, bi ∈ l → 0 < remaining_io bi) →
  StronglySorted blocked_le l →
  (p <$> filter (λ bi, remaining_io bi = 0) (dec_item a <$> l)) ++
  (p <$> filter (λ bi, remaining_io bi = 0)
      (dec_item b <$> filter (λ bi, remaining_io bi ≠ 0) (dec_item a <$> l))) =
  p <$> filter (λ bi, remaining_io bi = 0) (dec_item (a + b) <$> l).
Proof.
  intros Ha Hb Hpos. induction 1 as [|x l Hs IH Hx]; [done|].
  assert (0 < remaining_io x) as Hx0 by (apply Hpos, elem_of_cons; by left).
  assert (∀ bi, bi ∈ l → 0 < remaining_io bi) as Hpos'.
  { intros bi Hbi. apply Hpos, elem_of_cons. by right. }
  specialize (IH Hpos').
  rewrite !fmap_cons, !filter_cons.
  destruct (decide (remaining_io x ≤ a)) as [Hle|Hgt].
  - rewrite decide_True by (unfold dec_item; simpl; lia).
    rewrite decide_False by (unfold dec_item; simpl; lia).
    rewrite decide_True by (unfold dec_item; simpl; lia).
    rewrite !fmap_cons. simpl. by rewrite IH.
  - rewrite decide_False by (unfold dec_item; simpl; lia).
    rewrite decide_True by (unfold dec_item; simpl; lia).
    rewrite fmap_cons, filter_cons.
    destruct (decide (remaining_io x ≤ a + b)) as [Hle'|Hgt'].
    + rewrite decide_True by (unfold dec_item; simpl; lia).
      rewrite decide_True by (unfold dec_item; simpl; lia).
      assert (filter (λ bi, remaining_io bi = 0) (dec_item a <$> l) = [])
        as Hnil.
      { apply filter_none.
        intros y' (y & -> & Hy)%list_elem_of_fmap.
        rewrite Forall_forall in Hx. specialize (Hx y Hy).
        apply blocked_le_spec in Hx. unfold dec_item. simpl. lia. }
      rewrite Hnil, fmap_nil, app_nil_l in IH.
      rewrite Hnil, fmap_nil, app_nil_l, !fmap_cons. by rewrite IH.
    + rewrite decide_False by (unfold dec_item; simpl; lia).
      rewrite decide_False by (unfold dec_item; simpl; lia).
      done.
Qed.

Lemma advance_step_blocked step sorted s :
  blocked (advance_step step sorted s) =
  filter (λ bi, remaining_io bi ≠ 0) (dec_item step <$> sorted).
Proof. done. Qed.

Lemma released_NoDup step (sorted : list BlockedItem) :
  NoDup (p <$> sorted) →
  NoDup (p <$> filter (λ bi, remaining_io bi ≠ 0) (dec_item step <$> sorted)).
Proof.
  intros Hnd. eapply sublist_NoDup; [|apply fmap_sublist, sublist_filter].
  by rewrite dec_item_p.
Qed.

(** Advancing by [a] and then by [b] is advancing by [a + b]. *)
Lemma advance_step_add a b sorted s :
  0 ≤ a → 0 ≤ b →
  (∀ bi, bi ∈ sorted → 0 < remaining_io bi) →
  NoDup (p <$> sorted) →
  StronglySorted blocked_le sorted →
  advance_step b (blocked (advance_step a sorted s)) (advance_step a sorted s) =
  advance_step (a + b) sorted s.
Proof.
  intros Ha Hb Hpos Hnd Hs.
  pose proof (released_NoDup a sorted Hnd) as Hnd1.
  rewrite (advance_step_blocked a sorted s).
  apply simulation_eq; try done.
  - unfold advance_step. cbn [ready blocked set_ready set_procs set_blocked].
    rewrite <- app_assoc. f_equal. by apply released_add.
  - rewrite !advance_step_blocked. by apply dec_filter_add.
  - apply list_eq. intros i.
    destruct (decide (i ∈ p <$> sorted)) as [Hin|Hout].
    + apply list_elem_of_fmap in Hin as (bi & -> & Hbi).
      specialize (Hpos bi Hbi).
      rewrite (advance_step_lookup (a + b) sorted s bi Hnd Hbi).
      destruct (decide (remaining_io bi ≤ a)) as [Hle|Hgt].
      * rewrite advance_step_lookup_ne.
        2:{ intros (y' & Hp & Hy')%list_elem_of_fmap.
            apply list_elem_of_filter in Hy' as [Hy0 Hy'].
            apply list_elem_of_fmap in Hy' as (y & -> & Hy).
            assert (bi = y) as <- by (by apply (NoDup_fmap_eq p sorted)).
            revert Hy0. unfold dec_item. simpl. lia. }
        rewrite (advance_step_lookup a sorted s bi Hnd Hbi).
        destruct (procs s !! p bi) as [P|]; [|done]. simpl. f_equal.
        rewrite !decide_True by (unfold dec_item; simpl; lia).
        apply proc_eq; simpl; try done. lia.
      * assert (dec_item a bi ∈ filter (λ bi, remaining_io bi ≠ 0)
                                   (dec_item a <$> sorted)) as Hin1.
        { apply list_elem_of_filter.
          split; [unfold dec_item; simpl; lia|by apply list_elem_of_fmap_2]. }
        pose proof (advance_step_lookup b _ (advance_step a sorted s)
                      (dec_item a bi) Hnd1 Hin1) as H1.
        change (p (dec_item a bi)) with (p bi) in H1. rewrite H1.
        rewrite (advance_step_lookup a sorted s bi Hnd Hbi).
        destruct (procs s !! p bi) as [P|]; [|done]. simpl. f_equal.
        rewrite (decide_False (P := remaining_io (dec_item a bi) = 0))
          by (unfold dec_item; simpl; lia).
        destruct (decide (remaining_io bi ≤ a + b)) as [Hle'|Hgt'].
        -- rewrite !decide_True by (unfold dec_item; simpl; lia).
           apply proc_eq; simpl; try done. lia.
        -- rewrite !decide_False by (unfold dec_item; simpl; lia).
           apply proc_eq; simpl; try done. lia.
    + rewrite !advance_step_lookup_ne; try done.
      intros Hin. apply Hout.
      rewrite <- (dec_item_p a).
      eapply elem_of_sublist; [exact Hin|]. apply fmap_sublist, sublist_filter.
Qed.

Lemma advance_loop_closed fuel t s :
  (length (blocked s) < fuel)%nat → 0 < t →
  (∀ bi, bi ∈ blocked s → 0 < remaining_io bi) →
  NoDup (p <$> blocked s) →
  advance_loop fuel t s =
    Ok (advance_step t (stable_sort_blocked (blocked s)) s).
Proof.
  revert t s. induction fuel as [|fuel IH]; intros t s Hfuel Ht Hpos Hnd; [lia|].
  rewrite advance_loop_unfold.
  destruct (stable_sort_blocked (blocked s)) as [|front rest] eqn:Hs.
  { apply stable_sort_nil_inv in Hs. rewrite Hs.
    rewrite bool_decide_eq_true_2, andb_false_r by done.
    by rewrite advance_step_nil. }
  assert (blocked s ≠ []) as Hne.
  { intros Hb. by rewrite Hb in Hs. }
  rewrite (proj2 (Z.ltb_lt 0 t)), bool_decide_eq_false_2 by done. simpl.
  rewrite (advance_iter_eq _ _ _ _ Hs). simpl.
  assert (front :: rest ≡ₚ blocked s) as Hperm.
  { rewrite <- Hs. apply stable_sort_perm. }
  assert (StronglySorted blocked_le (front :: rest)) as Hsorted.
  { rewrite <- Hs. apply stable_sort_blocked_sorted. }
  assert (∀ bi, bi ∈ front :: rest → 0 < remaining_io bi) as Hpos'.
  { intros bi Hbi. apply Hpos. by rewrite <- Hperm. }
  assert (NoDup (p <$> front :: rest)) as Hnd' by (by rewrite Hperm).
  destruct (decide (t ≤ remaining_io front)) as [Hle|Hgt].
  - rewrite Z.min_r by done. rewrite advance_loop_stop; [done|]. left. lia.
  - rewrite Z.min_l by lia.
    rewrite IH.
    + rewrite sorted_stable_sort_blocked.
      2:{ rewrite advance_step_blocked. by apply dec_filter_sorted. }
      rewrite advance_step_add; try done.
      * do 2 f_equal. lia.
      * assert (0 < remaining_io front); [|lia].
        apply Hpos', elem_of_cons. by left.
      * lia.
    + pose proof (advance_step_length t s front rest Hs) as Hlen.
      rewrite Z.min_l in Hlen by lia. specialize (Hlen ltac:(lia)). lia.
    + lia.
    + intros bi. rewrite advance_step_blocked.
      intros [Hnz (y & -> & Hy)%list_elem_of_fmap]%list_elem_of_filter.
      specialize (Hpos' y Hy). revert Hnz. unfold dec_item. simpl. lia.
    + rewrite advance_step_blocked. by apply released_NoDup.
Qed.

Lemma advance_blocked_closed t s :
  0 < t →
  (∀ bi, bi ∈ blocked s → 0 < remaining_io bi) →
  NoDup (p <$> blocked s) →
  advance_blocked t s =
    Ok (advance_step t (stable_sort_blocked (blocked s)) s).
Proof. intros. apply advance_loop_closed; [lia|done..]. Qed.

Lemma kept_filter dt (l : list BlockedItem) :
  filter (λ bi, remaining_io bi ≠ 0) (dec_item dt <$> l) =
  (λ bi, mkBlockedItem (p bi) (remaining_io bi - dt) (order bi)) <$>
    filter (λ bi, dt < remaining_io bi) l.
Proof.
  induction l as [|x l IH]; [done|].
  rewrite fmap_cons, !filter_cons, IH.
  destruct (decide (dt < remaining_io x)) as [Hlt|Hge].
  - rewrite decide_True by (unfold dec_item; simpl; lia).
    rewrite fmap_cons. f_equal. unfold dec_item. f_equal. lia.
  - rewrite decide_False by (unfold dec_item; simpl; lia). done.
Qed.

Lemma released_filter dt (l : list BlockedItem) :
  p <$> filter (λ bi, remaining_io bi = 0) (dec_item dt <$> l) =
  p <$> filter (λ bi, remaining_io bi ≤ dt) l.
Proof.
  induction l as [|x l IH]; [done|].
  rewrite fmap_cons, !filter_cons.
  destruct (decide (remaining_io x ≤ dt)) as [Hle|Hgt].
  - rewrite decide_True by (unfold dec_item; simpl; lia).
    rewrite !fmap_cons. by rewrite IH.
  - rewrite decide_False by (unfold dec_item; simpl; lia). done.
Qed.

(** X2.  What [advance_blocked] does in a state in which every blocked entry
    has I/O left and no process is blocked twice, for [dt > 0]: the entries
    with at most [dt] to go leave the blocked set for the back of the ready
    queue, in the order of [stable_sort_blocked]; their processes are
    credited what they had left and lose the I/O burst; the other entries
    stay, in order, with [dt] less to go, and their processes are credited
    [dt]; nothing else changes. *)
Theorem advance_blocked_effect dt s :
  0 < dt →
  (∀ bi, bi ∈ blocked s → 0 < remaining_io bi) →
  NoDup (p <$> blocked s) →
  ∃ s',
    advance_blocked dt s = Ok s' ∧
    let sorted := stable_sort_blocked (blocked s) in
    blocked s' =
      ((λ bi, mkBlockedItem (p bi) (remaining_io bi - dt) (order bi)) <$>
         filter (λ bi, dt < remaining_io bi) sorted) ∧
    ready s' = ready s ++ (p <$> filter (λ bi, remaining_io bi ≤ dt) sorted) ∧
    (∀ bi, bi ∈ blocked s →
       procs s' !! p bi =
         (λ P, if decide (remaining_io bi ≤ dt)
               then pop_front (add_executed_io (remaining_io bi) P)
               else add_executed_io dt P) <$> procs s !! p bi) ∧
    (∀ i, i ∉ p <$> blocked s → procs s' !! i = procs s !! i) ∧
    time_elapsed s' = time_elapsed s ∧ completed s' = completed s ∧
    log s' = log s ∧ order_counter s' = order_counter s ∧ opt s' = opt s.
Proof.
  intros Hdt Hpos Hnd. eexists. split; [by apply advance_blocked_closed|].
  cbv zeta.
  assert (stable_sort_blocked (blocked s) ≡ₚ blocked s) as Hperm
    by apply stable_sort_perm.
  split; [apply kept_filter|].
  split.
  { unfold advance_step. cbn [ready set_ready].
    by rewrite released_filter. }
  split.
  { intros bi Hbi. rewrite advance_step_lookup; [|by rewrite Hperm..].
    destruct (procs s !! p bi) as [P|]; [|done]. simpl. f_equal.
    specialize (Hpos bi Hbi).
    destruct (decide (remaining_io bi ≤ dt)).
    - rewrite decide_True by lia. by rewrite Z.min_r by done.
    - rewrite decide_False by lia. by rewrite Z.min_l by lia. }
  split; [|done].
  intros i Hi. apply advance_step_lookup_ne. by rewrite Hperm.
Qed.

(** X3.  Advancing the blocked set by [a] and then by [b] is advancing it by
    [a + b], state for state. *)
Theorem advance_blocked_additive a b s :
  0 ≤ a → 0 ≤ b →
  (∀ bi, bi ∈ blocked s → 0 < remaining_io bi) →
  NoDup (p <$> blocked s) →
  (let* s1 := advance_blocked a s in advance_blocked b s1) =
  advance_blocked (a + b) s.
Proof.
  intros Ha Hb Hpos Hnd.
  destruct (decide (a = 0)) as [->|Ha0].
  { unfold advance_blocked at 1. rewrite advance_loop_stop by (left; lia).
    simpl. by rewrite Z.add_0_l. }
  rewrite (advance_blocked_closed a) by (done || lia). simpl.
  destruct (decide (b = 0)) as [->|Hb0].
  { unfold advance_blocked at 1. rewrite advance_loop_stop by (left; lia).
    rewrite Z.add_0_r. by rewrite (advance_blocked_closed a) by (done || lia). }
  assert (stable_sort_blocked (blocked s) ≡ₚ blocked s) as Hperm
    by apply stable_sort_perm.
  pose proof (stable_sort_blocked_sorted (blocked s)) as Hsorted.
  rewrite !advance_blocked_closed; try done; try lia.
  - rewrite sorted_stable_sort_blocked
      by (rewrite advance_step_blocked; by apply dec_filter_sorted).
    rewrite advance_step_add; try done; try lia.
    + intros bi Hbi. apply Hpos. by rewrite <- Hperm.
    + by rewrite Hperm.
  - intros bi. rewrite advance_step_blocked.
    intros [Hnz (y & -> & Hy)%list_elem_of_fmap]%list_elem_of_filter.
    rewrite Hperm in Hy. specialize (Hpos y Hy).
    revert Hnz. unfold dec_item. simpl. lia.
  - rewrite advance_step_blocked. apply released_NoDup. by rewrite Hperm.
Qed.

(** ** A CPU segment in one step *)

Lemma substep_sorted_eq (bl : list BlockedItem) :
  match bl with
  | [] => []
  | _ :: _ => stable_sort_blocked bl
  end = stable_sort_blocked bl.
Proof. by destruct bl. Qed.

Lemma inv_blocked_pos lines c s bi :
  inv lines c s → bi ∈ blocked s → 0 < remaining_io bi.
Proof.
  intros Hinv Hbi. destruct (inv_blocked _ _ _ Hinv bi Hbi) as (P & _ & Hok).
  destruct Hok as (? & ? & _ & ? & _). lia.
Qed.

Lemma advance_step_state_irrel step sorted s s' :
  opt s = opt s' → time_elapsed s = time_elapsed s' → ready s = ready s' →
  procs s = procs s' → completed s = completed s' →
  order_counter s = order_counter s' → log s = log s' →
  advance_step step sorted s = advance_step step sorted s'.
Proof.
  intros. apply simulation_eq; unfold advance_step; simpl; congruence.
Qed.

Lemma substep_closed lines q remaining s P c rest :
  inv lines (Executing q remaining) s → 0 < remaining →
  procs s !! q = Some P → bursts P = c :: rest →
  let step := substep_length remaining s in
  0 < step ≤ remaining ∧
  substep q remaining s =
    Ok (remaining - step,
        advance_step step (stable_sort_blocked (blocked s))
          (run_on_cpu q P c rest step s)).
Proof.
  intros Hinv Hrem HP Hb step.
  assert (stable_sort_blocked (blocked s) ≡ₚ blocked s) as Hperm
    by apply stable_sort_perm.
  assert (0 < step ≤ remaining) as Hstep.
  { subst step. unfold substep_length.
    destruct (stable_sort_blocked (blocked s)) as [|front rest'] eqn:Hs; [lia|].
    assert (0 < remaining_io front); [|lia].
    eapply inv_blocked_pos; [done|]. rewrite <- Hperm.
    apply elem_of_cons. by left. }
  split; [done|].
  unfold substep. rewrite substep_sorted_eq, HP, Hb.
  assert ((match stable_sort_blocked (blocked s) with
           | [] => remaining
           | front :: _ =>
               if 0 <? remaining_io front
               then Z.min remaining (remaining_io front) else remaining
           end) = step) as ->.
  { subst step. unfold substep_length.
    destruct (stable_sort_blocked (blocked s)) as [|front rest'] eqn:Hs; [done|].
    rewrite (proj2 (Z.ltb_lt 0 (remaining_io front))); [done|].
    eapply inv_blocked_pos; [done|]. rewrite <- Hperm.
    apply elem_of_cons. by left. }
  rewrite advance_blocked_closed.
  - simpl. do 2 f_equal.
    cbn [blocked set_procs set_time set_blocked].
    rewrite sorted_stable_sort_blocked by apply stable_sort_blocked_sorted.
    by apply advance_step_state_irrel.
  - lia.
  - cbn [blocked set_procs set_time set_blocked]. intros bi Hbi.
    eapply inv_blocked_pos; [done|]. by rewrite <- Hperm.
  - cbn [blocked set_procs set_time set_blocked]. rewrite Hperm.
    by eapply blocked_NoDup.
Qed.

Lemma run_on_cpu_twice q P c rest d d' sorted s :
  q ∉ p <$> sorted → NoDup (p <$> sorted) →
  procs s !! q = Some P →
  let s2 := advance_step d sorted (run_on_cpu q P c rest d s) in
  run_on_cpu q (set_bursts (c - d :: rest) (add_executed_cpu d P))
    (c - d) rest d' s2 =
  advance_step d sorted (run_on_cpu q P c rest (d + d') s).
Proof.
  intros Hq Hnd HP s2.
  assert (q < length (procs s))%nat as Hlen by (by eapply lookup_lt_Some).
  apply simulation_eq; try done.
  { unfold run_on_cpu, s2, advance_step. simpl. lia. }
  unfold run_on_cpu at 1. cbn [procs set_procs].
  apply list_eq. intros i. destruct (decide (i = q)) as [->|Hne].
  - rewrite list_lookup_insert_eq.
    2:{ unfold s2, advance_step, run_on_cpu. cbn [procs set_procs set_ready].
        by rewrite !alter_each_length, length_insert. }
    rewrite advance_step_lookup_ne by done. unfold run_on_cpu.
    cbn [procs set_procs]. rewrite list_lookup_insert_eq by done.
    f_equal. apply proc_eq; simpl; try done; [f_equal|]; lia.
  - rewrite list_lookup_insert_ne by done. unfold s2.
    destruct (decide (i ∈ p <$> sorted)) as [Hin|Hout].
    + apply list_elem_of_fmap in Hin as (bi & -> & Hbi).
      rewrite !advance_step_lookup by done.
      unfold run_on_cpu. cbn [procs set_procs].
      by rewrite !list_lookup_insert_ne by done.
    + rewrite !advance_step_lookup_ne by done.
      unfold run_on_cpu. cbn [procs set_procs].
      by rewrite !list_lookup_insert_ne by done.
Qed.

Lemma exec_segment_closed lines fuel q remaining s P c rest :
  inv lines (Executing q remaining) s → 0 < remaining →
  (Z.to_nat remaining ≤ fuel)%nat →
  procs s !! q = Some P → bursts P = c :: rest →
  exec_segment fuel q remaining s =
    Ok (advance_step remaining (stable_sort_blocked (blocked s))
          (run_on_cpu q P c rest remaining s)).
Proof.
  revert remaining s P c. induction fuel as [|fuel IH];
    intros remaining s P c Hinv Hrem Hfuel HP Hb; [lia|].
  rewrite exec_segment_unfold, (proj2 (Z.ltb_lt 0 remaining)) by done.
  destruct (substep_closed _ _ _ _ _ _ _ Hinv Hrem HP Hb) as [Hstep Hsub].
  set (step := substep_length remaining s) in *.
  set (sorted := stable_sort_blocked (blocked s)) in *.
  assert (sorted ≡ₚ blocked s) as Hperm by apply stable_sort_perm.
  assert (NoDup (p <$> sorted)) as Hnd.
  { rewrite Hperm. by eapply blocked_NoDup. }
  assert (q ∉ p <$> sorted) as Hq.
  { rewrite Hperm. by eapply running_not_blocked. }
  rewrite Hsub. simpl.
  destruct (decide (step = remaining)) as [Heq|Hne].
  { rewrite Heq, Z.sub_diag, exec_segment_unfold. done. }
  set (s2 := advance_step step sorted (run_on_cpu q P c rest step s)).
  destruct (substep_inv _ _ _ _ Hinv Hrem)
    as (step' & s2' & Hsub' & _ & Hinv2 & _).
  rewrite Hsub in Hsub'. injection Hsub' as Hstep' <-.
  assert (step' = step) as -> by lia.
  assert (q < length (procs s))%nat as Hlen by (by eapply lookup_lt_Some).
  rewrite (IH _ _ (set_bursts (c - step :: rest) (add_executed_cpu step P))
             (c - step)); try done; try lia.
  2:{ unfold s2. rewrite advance_step_lookup_ne by done.
      unfold run_on_cpu. cbn [procs set_procs].
      by rewrite list_lookup_insert_eq. }
  f_equal. subst s2.
  pose proof (run_on_cpu_twice q P c rest step (remaining - step) sorted s
                Hq Hnd HP) as Htwice.
  cbv zeta in Htwice. rewrite Htwice.
  rewrite advance_step_blocked.
  rewrite sorted_stable_sort_blocked
    by (apply dec_filter_sorted, stable_sort_blocked_sorted).
  replace (step + (remaining - step)) with remaining by lia.
  rewrite <- (advance_step_blocked step sorted
                (run_on_cpu q P c rest remaining s)).
  rewrite advance_step_add; try lia; try done.
  - by replace (step + (remaining - step)) with remaining by lia.
  - intros bi Hbi. apply (inv_blocked_pos _ _ _ _ Hinv). by rewrite <- Hperm.
  - apply stable_sort_blocked_sorted.
Qed.

(** X4.  The sub-steps of a CPU segment cannot be observed: for a process
    [q] that holds the CPU with [remaining] of its segment to go, the
    sub-step loop ends in the state reached by charging [q] the whole of
    [remaining] at once and advancing the blocked set once by
    [remaining]. *)
Theorem segment_in_one_step o lines q remaining s P c rest fuel :
  well_formed lines →
  reach LoopHead (initial o lines) (Executing q remaining) s →
  0 < remaining → (Z.to_nat remaining ≤ fuel)%nat →
  procs s !! q = Some P → bursts P = c :: rest →
  exec_segment fuel q remaining s =
    advance_blocked remaining (run_on_cpu q P c rest remaining s).
Proof.
  intros Hwf Hreach Hrem Hfuel HP Hb.
  pose proof (reach_inv _ _ _ _ Hwf Hreach) as Hinv.
  rewrite (exec_segment_closed _ _ _ _ _ _ _ _ Hinv Hrem Hfuel HP Hb).
  rewrite advance_blocked_closed; [done|done|..].
  - intros bi Hbi. by apply (inv_blocked_pos _ _ _ _ Hinv).
  - by apply (blocked_NoDup _ _ _ Hinv).
Qed.

(** ** Round-robin with a quantum that is not positive *)

Lemma spinning_step s :
  strategy (opt s) = RR → quantum (opt s) ≤ 0 → spinning s →
  ∃ s', run_iter s = Ok (Some s') ∧ opt s' = opt s ∧ spinning s' ∧
        time_elapsed s' = time_elapsed s ∧ completed s' = completed s.
Proof.
  intros Hrr Hq (Hb & Hne & Hfront). unfold run_iter.
  destruct (ready s) as [|q rdy] eqn:Hr; [done|].
  destruct (Hfront q) as (c & Hc & Hpos); [by left|].
  unfold dispatch.
  change (front_burst q (set_ready rdy s)) with (front_burst q s).
  rewrite Hc. simpl. unfold segment_length. rewrite Hrr.
  rewrite exec_segment_unfold, (proj2 (Z.ltb_ge 0 _)) by lia.
  cbn [res_bind].
  unfold front_burst in Hc. unfold finish_segment. cbn [procs set_ready].
  destruct (procs s !! q) as [P|] eqn:HP; [|done].
  destruct (bursts P) as [|c' rest] eqn:HbP; [done|]. injection Hc as ->.
  rewrite (proj2 (Z.eqb_neq c 0)) by lia. simpl.
  eexists. split; [done|]. split; [done|]. split; [|done].
  split; [done|]. split.
  - cbn. by destruct rdy.
  - intros q' Hq'. cbn in Hq'. apply Hfront.
    apply elem_of_app in Hq' as [Hq'|Hq'].
    + by right.
    + apply list_elem_of_singleton in Hq' as ->. by left.
Qed.

Lemma spinning_forever fuel s :
  strategy (opt s) = RR → quantum (opt s) ≤ 0 → spinning s →
  run fuel s = OutOfFuel.
Proof.
  revert s. induction fuel as [|fuel IH]; intros s Hrr Hq Hspin; [done|].
  destruct (spinning_step s Hrr Hq Hspin) as (s' & Hiter & Hopt & Hspin' & _).
  simpl. rewrite Hiter. simpl. apply IH; by rewrite ?Hopt.
Qed.

Lemma initial_spinning o lines :
  well_formed lines → lines ≠ [] → spinning (initial o lines).
Proof.
  intros Hwf Hne. destruct (initial_fields o lines) as (_&_&_&_&Hb&Hr).
  split; [done|]. split.
  { rewrite Hr. destruct lines; [done|]. simpl. done. }
  intros q Hq. rewrite Hr in Hq. apply elem_of_seq in Hq as [_ Hq].
  simpl in Hq. apply lookup_lt_is_Some_2 in Hq as [l Hl].
  unfold front_burst, initial, init_from_lines. cbn [procs set_procs set_ready].
  rewrite list_lookup_imap, Hl. simpl.
  destruct (make_proc_spec q l) as (_ & -> & _).
  unfold well_formed in Hwf. rewrite Forall_forall in Hwf.
  destruct (Hwf l) as [Hodd Hpos]; [by eapply list_elem_of_lookup_2|].
  destruct l as [|c l']; [done|]. exists c. split; [done|].
  by apply Forall_cons in Hpos as [? _].
Qed.

(** X5.  Round-robin with a quantum that is not positive never ends: on a
    well-formed input that is not empty the dispatch loop is still running
    after any number of iterations. *)
Theorem rr_nonpositive_quantum_never_ends o lines fuel :
  strategy o = RR → quantum o ≤ 0 → well_formed lines → lines ≠ [] →
  run fuel (initial o lines) = OutOfFuel.
Proof.
  intros Hrr Hq Hwf Hne.
  destruct (initial_fields o lines) as (Hopt & _).
  apply spinning_forever; rewrite ?Hopt; try done.
  by apply initial_spinning.
Qed.

(** ** One iteration of the dispatch loop in closed form *)

Lemma advance_step_run_on_cpu q P c rest d sorted s :
  q ∉ p <$> sorted → NoDup (p <$> sorted) → procs s !! q = Some P →
  procs (advance_step d sorted (run_on_cpu q P c rest d s)) =
  <[q := set_bursts (c - d :: rest) (add_executed_cpu d P)]>
    (procs (advance_step d sorted s)).
Proof.
  intros Hq Hnd HP.
  assert (q < length (procs s))%nat as Hlen by (by eapply lookup_lt_Some).
  apply list_eq. intros i. destruct (decide (i = q)) as [->|Hne].
  - rewrite advance_step_lookup_ne by done.
    unfold run_on_cpu. cbn [procs set_procs].
    rewrite !list_lookup_insert_eq; [done| |done].
    unfold advance_step. cbn [procs set_procs set_ready].
    by rewrite !alter_each_length.
  - rewrite list_lookup_insert_ne by done.
    destruct (decide (i ∈ p <$> sorted)) as [Hin|Hout].
    + apply list_elem_of_fmap in Hin as (bi & -> & Hbi).
      rewrite !advance_step_lookup by done.
      unfold run_on_cpu. cbn [procs set_procs].
      by rewrite !list_lookup_insert_ne by done.
    + rewrite !advance_step_lookup_ne by done.
      unfold run_on_cpu. cbn [procs set_procs].
      by rewrite !list_lookup_insert_ne by done.
Qed.

Lemma move_to_blocked_front q s P io rest :
  procs s !! q = Some P → bursts P = io :: rest → io ≠ 0 →
  move_to_blocked q s =
    set_order_counter (S (order_counter s))
      (set_blocked
         (stable_sort_blocked
            (blocked s ++ [mkBlockedItem q io (order_counter s)]))
         s).
Proof.
  intros HP Hb Hio. unfold move_to_blocked. rewrite HP, Hb.
  rewrite (proj2 (Z.eqb_neq io 0)) by done. rewrite Hb.
  rewrite list_insert_id by done. by destruct s.
Qed.

Lemma dispatch_big_step lines s q rdy :
  inv lines LoopHead s → valid_options (opt s) → ready s = q :: rdy →
  ∃ P c rest why P' s',
    procs s !! q = Some P ∧ bursts P = c :: rest ∧
    let seg := segment_length (opt s) c in
    let s1 := advance_step seg (stable_sort_blocked (blocked s))
                (set_ready rdy s) in
    0 < seg ≤ c ∧
    cpu_outcome (time_elapsed s + seg) seg P why P' ∧
    dispatch q (set_ready rdy s) = Ok s' ∧
    opt s' = opt s ∧
    time_elapsed s' = time_elapsed s + seg ∧
    procs s' = <[q := P']> (procs s1) ∧
    ready s' = ready s1 ++ (if decide (why = QUANTUM_EXPIRED) then [q] else []) ∧
    blocked s' = blocked_after why q P' s1 ∧
    completed s' =
      completed s ++
      (if decide (why = COMPLETED) then [(time_elapsed s + seg, q)] else []) ∧
    order_counter s' =
      (order_counter s + (if decide (why = ENTER_IO) then 1 else 0))%nat ∧
    log s' =
      log s ++ [CpuBurstExecution q (executed_cpu P + seg) (executed_io P)
                  (time_elapsed s + seg) why].
Proof.
  intros Hinv Hvalid Hready.
  destruct (pop_inv _ _ _ _ Hinv Hready) as (c & Hfront & Hc & Hinv1).
  unfold front_burst in Hfront. cbn [procs set_ready] in Hfront.
  destruct (procs s !! q) as [P|] eqn:HP; [|done].
  destruct (bursts P) as [|c' rest] eqn:Hb; [done|]. injection Hfront as ->.
  set (seg := segment_length (opt s) c) in *.
  set (sorted := stable_sort_blocked (blocked s)).
  set (s1 := advance_step seg sorted (set_ready rdy s)).
  assert (0 < seg ≤ c) as Hseg.
  { split; [by apply segment_length_pos|apply segment_length_le]. }
  assert (sorted ≡ₚ blocked s) as Hperm by apply stable_sort_perm.
  assert (NoDup (p <$> sorted)) as Hnd.
  { rewrite Hperm. by eapply blocked_NoDup. }
  assert (q ∉ p <$> sorted) as Hq.
  { rewrite Hperm. by apply (running_not_blocked _ _ _ _ Hinv1). }
  assert (pid P = q) as Hpid by (by eapply (running_pid _ _ _ _ _ Hinv1)).
  assert (q < length (procs s1))%nat as Hlen.
  { unfold s1, advance_step. cbn [procs set_procs set_ready].
    rewrite !alter_each_length. by eapply lookup_lt_Some. }
  set (P1 := set_bursts (c - seg :: rest) (add_executed_cpu seg P)).
  set (s1' := advance_step seg sorted
                (run_on_cpu q P c rest seg (set_ready rdy s))).
  assert (procs s1' = <[q := P1]> (procs s1)) as Hprocs.
  { by apply advance_step_run_on_cpu. }
  assert (dispatch q (set_ready rdy s) = finish_segment q s1') as ->.
  { unfold dispatch, front_burst. cbn [procs opt set_ready]. rewrite HP, Hb.
    cbn [res_bind]. fold seg.
    by rewrite (exec_segment_closed _ _ _ _ _ _ _ _ Hinv1 (proj1 Hseg)
                  (reflexivity _) HP Hb). }
  destruct (inv_running _ _ _ Hinv1 q _ eq_refl) as (P0 & HP0 & Hok).
  cbn [procs set_ready] in HP0. rewrite HP in HP0. injection HP0 as <-.
  destruct Hok as (c0 & rest0 & Hb0 & _ & _ & _ & Hpos & _).
  rewrite Hb in Hb0. injection Hb0 as <- <-.
  unfold finish_segment. rewrite Hprocs, list_lookup_insert_eq by done.
  cbn [bursts P1 set_bursts].
  destruct (Z.eqb_spec (c - seg) 0) as [Hz|Hnz].
  - assert (c = seg) as Hcs by lia.
    destruct rest as [|io rest'].
    + (* completed *)
      exists P, c, [], COMPLETED. eexists _, _.
      split; [done|]. split; [done|]. cbv zeta. split; [done|]. split.
      { constructor. by rewrite Hb, Hcs at 1. }
      split; [done|]. cbn.
      rewrite list_insert_insert_eq, Hpid.
      repeat split; try done; repeat case_decide; try done;
        rewrite ?app_nil_r; try done; lia.
    + (* enters I/O *)
      apply Forall_cons in Hpos as [Hio _].
      exists P, c, (io :: rest'), ENTER_IO. eexists _, _.
      split; [done|]. split; [done|]. cbv zeta. split; [done|]. split.
      { constructor; [|done]. by rewrite Hb, Hcs at 1. }
      rewrite (move_to_blocked_front q _ (set_bursts (io :: rest') P1)
                 io rest'); [| |done|lia].
      2:{ cbn [procs emit set_procs]. apply list_lookup_insert_eq.
          by rewrite length_insert. }
      split; [done|]. cbn.
      rewrite list_insert_insert_eq, Hpid.
      repeat split; try done; repeat case_decide; try done;
        rewrite ?app_nil_r; try done; lia.
  - exists P, c, rest, QUANTUM_EXPIRED. eexists _, _.
    split; [done|]. split; [done|]. cbv zeta. split; [done|]. split.
    { constructor; [done|lia]. }
    split; [done|]. cbn. rewrite Hpid.
    repeat split; try done; repeat case_decide; try done;
      rewrite ?app_nil_r; try done; try lia.
Qed.

Lemma idle_jump_big_step lines s :
  inv lines LoopHead s → blocked s ≠ [] →
  ∃ front rest,
    stable_sort_blocked (blocked s) = front :: rest ∧
    0 < remaining_io front ∧
    idle_jump s =
      Ok (set_time (time_elapsed s + remaining_io front)
            (advance_step (remaining_io front) (front :: rest) s)).
Proof.
  intros Hinv Hne. unfold idle_jump.
  assert (stable_sort_blocked (blocked s) ≡ₚ blocked s) as Hperm
    by apply stable_sort_perm.
  pose proof (stable_sort_blocked_sorted (blocked s)) as Hsorted.
  destruct (stable_sort_blocked (blocked s)) as [|front rest] eqn:Hs.
  { by apply stable_sort_nil_inv in Hs. }
  assert (0 < remaining_io front) as Hpos.
  { apply (inv_blocked_pos _ _ _ _ Hinv). rewrite <- Hperm.
    apply elem_of_cons. by left. }
  exists front, rest. split; [done|]. split; [done|].
  rewrite advance_blocked_closed; [|done|..].
  - cbn [res_bind blocked set_blocked].
    rewrite sorted_stable_sort_blocked by done. do 2 f_equal.
  - cbn [blocked set_blocked]. intros bi Hbi.
    apply (inv_blocked_pos _ _ _ _ Hinv). by rewrite <- Hperm.
  - cbn [blocked set_blocked]. rewrite Hperm. by eapply blocked_NoDup.
Qed.

Lemma run_iter_cases s s' :
  run_iter s = Ok (Some s') →
  (∃ q rdy, ready s = q :: rdy ∧ dispatch q (set_ready rdy s) = Ok s') ∨
  (ready s = [] ∧ blocked s ≠ [] ∧ idle_jump s = Ok s').
Proof.
  unfold run_iter. destruct (ready s) as [|q rdy].
  - destruct (blocked s); [done|].
    intros (s1 & Hs1 & [= <-])%res_map_Ok. right. done.
  - intros (s1 & Hs1 & [= <-])%res_map_Ok. left. eauto.
Qed.

Lemma run_at_loop_head fuel s s' :
  run fuel s = Ok s' →
  at_loop_head s s' ∧ ready s' = [] ∧ blocked s' = [].
Proof.
  revert s. induction fuel as [|fuel IH]; intros s; [done|]. simpl.
  intros (r & Hr & Hrun)%res_bind_Ok. destruct r as [s1|].
  - apply IH in Hrun as (Hat & ? & ?). split; [|done].
    clear -Hat Hr. induction Hat as [|s2 s3 _ IH Hiter].
    + eapply at_loop_head_next; [constructor|done].
    + by eapply at_loop_head_next.
  - injection Hrun as <-. split; [constructor|].
    unfold run_iter in Hr. destruct (ready s); [|by destruct (dispatch _ _)].
    destruct (blocked s); [done|by destruct (idle_jump _)].
Qed.

Lemma advance_step_outcome lines c s sorted d i P :
  inv lines c s → sorted ≡ₚ blocked s → 0 < d → procs s !! i = Some P →
  ∃ P', procs (advance_step d sorted s) !! i = Some P' ∧ io_outcome d P P' ∧
        (i ∉ p <$> blocked s → P' = P).
Proof.
  intros Hinv Hperm Hd HP.
  assert (NoDup (p <$> sorted)) as Hnd.
  { rewrite Hperm. by eapply blocked_NoDup. }
  destruct (decide (i ∈ p <$> sorted)) as [Hin|Hout].
  - apply list_elem_of_fmap in Hin as (bi & -> & Hbi).
    rewrite (advance_step_lookup _ _ _ _ Hnd Hbi), HP.
    destruct (inv_blocked _ _ _ Hinv bi) as (P0 & HP0 & Hok).
    { by rewrite <- Hperm. }
    rewrite HP in HP0. injection HP0 as <-.
    destruct Hok as (io & rest & Hb & Hr & Hodd & Hpos & _).
    eexists. split; [done|]. split.
    2:{ intros Hne. exfalso. apply Hne. rewrite <- Hperm.
        by apply list_elem_of_fmap_2. }
    cbv zeta. destruct (decide _) as [Hz|Hnz].
    + unfold dec_item in Hz. simpl in Hz.
      destruct rest as [|c' rest']; [done|].
      apply Forall_cons in Hpos as [Hc' _].
      cbn [length] in Hodd. rewrite Nat.odd_succ in Hodd.
      eapply (outcome_released _ _ _ io c' rest'); try done; lia.
    + unfold dec_item in Hnz. simpl in Hnz.
      rewrite Z.min_l by lia. constructor.
  - rewrite advance_step_lookup_ne, HP by done.
    eexists. split; [done|]. split; [constructor|done].
Qed.

Lemma run_iter_iteration lines s1 s2 :
  inv lines LoopHead s1 → valid_options (opt s1) →
  run_iter s1 = Ok (Some s2) → iteration s1 s2.
Proof.
  intros Hinv Hvalid Hiter.
  apply run_iter_cases in Hiter as [(q & rdy & Hr & Hd)|(Hr & Hb & Hidle)].
  - destruct (dispatch_big_step _ _ _ _ Hinv Hvalid Hr)
      as (P & c & rest & why & P' & s' & HP & HbP & Hseg & Hout & Hd' & _ &
          Ht & Hprocs & Hrdy & Hblk & Hcomp & _ & Hlog).
    cbv zeta in *. rewrite Hd in Hd'. injection Hd' as <-.
    set (seg := segment_length (opt s1) c) in *.
    set (s1x := advance_step seg (stable_sort_blocked (blocked s1))
                  (set_ready rdy s1)) in *.
    assert (length (procs s1x) = length (procs s1)) as Hlen.
    { unfold s1x, advance_step. cbn [procs set_procs set_ready].
      by rewrite !alter_each_length. }
    eapply (iteration_dispatch _ _ q rdy P why P' seg); try done.
    + lia.
    + by rewrite HbP.
    + rewrite Hprocs. apply list_lookup_insert_eq. rewrite Hlen.
      by eapply lookup_lt_Some.
    + intros ->. rewrite Hrdy, decide_True by done.
      apply elem_of_app. right. by apply list_elem_of_singleton.
    + intros ->. rewrite Hblk. unfold blocked_after.
      inversion Hout as [| io rest' Hb' Hio HP'|]; subst. simpl.
      unfold stable_sort_blocked. rewrite stable_sort_perm, fmap_app.
      apply elem_of_app. right. simpl. by apply list_elem_of_singleton.
    + intros i Pi Hne HPi. rewrite Hprocs, list_lookup_insert_ne by done.
      assert (inv lines (Executing q seg) (set_ready rdy s1)) as Hinv1.
      { destruct (pop_inv _ _ _ _ Hinv Hr) as (c' & Hf & _ & Hinv1).
        unfold front_burst in Hf. cbn [procs set_ready] in Hf.
        rewrite HP, HbP in Hf. by injection Hf as <-. }
      apply (advance_step_outcome _ _ _ _ _ _ _ Hinv1); try done; [|lia].
      apply stable_sort_perm.
  - destruct (idle_jump_big_step _ _ Hinv Hb)
      as (front & rest & Hs & Hpos & Hidle').
    rewrite Hidle in Hidle'. injection Hidle' as ->.
    eapply (iteration_idle _ _ (remaining_io front)); try done.
    { unfold advance_step. cbn [ready set_time set_ready].
      rewrite fmap_cons, filter_cons, decide_True
        by (unfold dec_item; simpl; lia).
      rewrite Hr. done. }
    intros i Pi HPi. cbn [procs set_time].
    apply (advance_step_outcome _ _ _ _ _ _ _ Hinv); try done.
    rewrite <- Hs. apply stable_sort_perm.
Qed.

Lemma at_loop_head_invariant_iter (Φ : Simulation → Prop) lines s0 s :
  (∀ s1 s2, inv lines LoopHead s1 → inv lines LoopHead s2 →
            opt s1 = opt s0 → Φ s1 → run_iter s1 = Ok (Some s2) → Φ s2) →
  inv lines LoopHead s0 → Φ s0 →
  at_loop_head s0 s →
  Φ s ∧ inv lines LoopHead s ∧ opt s = opt s0.
Proof.
  intros Hstep Hinv0 H0. induction 1 as [|s s' _ IH Hiter]; [done|].
  destruct IH as (HΦ & Hinv & Hopt).
  destruct (run_iter_inv _ _ Hinv) as [(_ & _ & Hnone)|(s2 & Hs2 & Hinv2 & Hopt2 & _)].
  { by rewrite Hnone in Hiter. }
  rewrite Hs2 in Hiter. injection Hiter as <-.
  split; [|split; [done|congruence]].
  by eapply Hstep; [exact Hinv|exact Hinv2|exact Hopt|exact HΦ|].
Qed.

Lemma at_loop_head_invariant (Φ : Simulation → Prop) lines s0 s :
  (∀ s1 s2, inv lines LoopHead s1 → inv lines LoopHead s2 →
            opt s1 = opt s0 → Φ s1 → iteration s1 s2 → Φ s2) →
  inv lines LoopHead s0 → valid_options (opt s0) → Φ s0 →
  at_loop_head s0 s →
  Φ s ∧ inv lines LoopHead s ∧ opt s = opt s0.
Proof.
  intros Hstep Hinv0 Hv0. apply at_loop_head_invariant_iter; [|done].
  intros s1 s2 Hinv1 Hinv2 Hopt HΦ Hiter.
  eapply Hstep; [exact Hinv1|exact Hinv2|exact Hopt|exact HΦ|].
  eapply run_iter_iteration; [done| |done]. by rewrite Hopt.
Qed.

Lemma initial_invariant (Φ : Simulation → Prop) o lines s :
  (∀ s1 s2, inv lines LoopHead s1 → inv lines LoopHead s2 →
            opt s1 = o → Φ s1 → iteration s1 s2 → Φ s2) →
  well_formed lines → valid_options o → Φ (initial o lines) →
  at_loop_head (initial o lines) s → Φ s.
Proof.
  intros Hstep Hwf Hv H0 Hat.
  destruct (initial_fields o lines) as (Hopt & _).
  assert (∀ s1 s2, inv lines LoopHead s1 → inv lines LoopHead s2 →
            opt s1 = opt (initial o lines) → Φ s1 → iteration s1 s2 → Φ s2)
    as Hstep'.
  { intros s1 s2 ?? Ho. apply Hstep; try done; congruence. }
  assert (valid_options (opt (initial o lines))) as Hv' by (by rewrite Hopt).
  by destruct (at_loop_head_invariant Φ lines (initial o lines) s Hstep'
                 (initial_inv o lines Hwf) Hv' H0 Hat) as (HΦ & _).
Qed.

(** ** Results of a run *)

Lemma run_result o lines :
  well_formed lines → valid_options o →
  ∃ s, (∀ fuel, (Z.to_nat (work_total lines) < fuel)%nat →
          run fuel (initial o lines) = Ok s) ∧
       at_loop_head (initial o lines) s ∧
       reach LoopHead (initial o lines) LoopHead s ∧
       inv lines LoopHead s ∧ clock_inv s ∧ opt s = o ∧
       ready s = [] ∧ blocked s = [].
Proof.
  intros Hwf Hvalid.
  assert (valid_options (opt (initial o lines))) as Hvalid'.
  { by destruct (initial_fields o lines) as (-> & _). }
  destruct (run_terminates lines (S (Z.to_nat (work_total lines)))
              (initial o lines)) as (s & Hrun & Hinv & Hr & Hb & Hopt).
  { by apply initial_inv. }
  { done. }
  { rewrite initial_work. lia. }
  exists s. split.
  { intros fuel Hfuel. eapply run_fuel_mono; [done|lia]. }
  split; [by apply run_at_loop_head in Hrun as (? & _)|].
  split; [by eapply run_reach; [apply reach_init|]|].
  split; [done|]. split.
  { eapply run_clock_inv;
      [by apply initial_inv|done|apply initial_clock_inv|done]. }
  split; [|done]. rewrite Hopt. by destruct (initial_fields o lines) as (-> & _).
Qed.

Lemma simulate_result o lines :
  well_formed lines → valid_options o →
  ∃ s s' records,
    (∀ fuel, (Z.to_nat (work_total lines) < fuel)%nat →
       simulate fuel o lines = Ok s') ∧
    at_loop_head (initial o lines) s ∧
    inv lines LoopHead s ∧ clock_inv s ∧ opt s = o ∧
    ready s = [] ∧ blocked s = [] ∧
    log s' = log s ++ records ∧
    Forall2 (spec_record (procs s)) records (completed s) ∧
    procs s' = procs s ∧ completed s' = completed s ∧
    time_elapsed s' = time_elapsed s.
Proof.
  intros Hwf Hvalid.
  destruct (run_result o lines Hwf Hvalid)
    as (s & Hrun & Hat & _ & Hinv & Hclock & Hopt & Hr & Hb).
  destruct (print_stats_spec _ _ Hinv Hclock)
    as (s' & records & Hprint & Hlog & Hrec & Hprocs & Hcomp & Ht).
  exists s, s', records. split.
  { intros fuel Hfuel. unfold simulate. fold (initial o lines).
    by rewrite (Hrun fuel Hfuel). }
  do 7 (split; [done|]). split; [|done].
  unfold spec_report_order in Hrec.
  rewrite strictly_increasing_sorted in Hrec; [done| |apply Hclock].
  intros a b Hab. unfold by_completion_time. apply Z.ltb_ge. lia.
Qed.

(** ** First-come first-served never preempts *)

Lemma spec_record_completion ps ev c :
  spec_record ps ev c → ∃ id t w, ev = ProcessCompletion id t w.
Proof. intros (P & _ & _ & ->). eauto. Qed.

Lemma fcfs_iteration_log s1 s2 :
  strategy (opt s1) = FCFS → iteration s1 s2 →
  Forall (λ ev, ¬ is_preemption ev) (log s1) →
  Forall (λ ev, ¬ is_preemption ev) (log s2).
Proof.
  intros Hfcfs [q rdy P why P' d Hr HP Hd Hseg Hout HP' Ht Hlog _ _ _ _
               |d _ _ _ Hlog _ _ _] Hall.
  - rewrite Hlog. apply Forall_app. split; [done|].
    apply Forall_singleton. simpl.
    destruct Hout as [c rest Hb Hlt| |]; try (by intros []).
    rewrite Hb in Hseg. unfold segment_length in Hseg. rewrite Hfcfs in Hseg.
    simpl in Hseg. lia.
  - by rewrite Hlog.
Qed.

(** X6.  First-come first-served never takes the CPU from a process: the
    simulation returns, and its trace has no [QUANTUM_EXPIRED] event,
    whatever the quantum is. *)
Theorem fcfs_never_preempts quantum lines :
  well_formed lines →
  ∃ s, (∀ fuel, (Z.to_nat (work_total lines) < fuel)%nat →
          simulate fuel (mkOptions FCFS quantum) lines = Ok s) ∧
       ∀ id cpu io clock,
         CpuBurstExecution id cpu io clock QUANTUM_EXPIRED ∉ log s.
Proof.
  intros Hwf.
  assert (valid_options (mkOptions FCFS quantum)) as Hvalid by (by left).
  destruct (simulate_result _ lines Hwf Hvalid)
    as (s & s' & records & Hsim & Hat & _ & _ & _ & _ & _ & Hlog & Hrec & _).
  exists s'. split; [done|].
  assert (Forall (λ ev, ¬ is_preemption ev) (log s)) as Hrun.
  { eapply (initial_invariant
              (λ s, Forall (λ ev, ¬ is_preemption ev) (log s)));
      [|done|done| |done].
    - intros s1 s2 _ _ Ho HΦ1 Hiter.
      eapply fcfs_iteration_log; [by rewrite Ho|done|done].
    - destruct (initial_fields (mkOptions FCFS quantum) lines)
        as (_ & _ & _ & -> & _). constructor. }
  intros id cpu io clock Hin. rewrite Hlog in Hin.
  apply elem_of_app in Hin as [Hin|Hin].
  - rewrite Forall_forall in Hrun. by apply (Hrun _ Hin).
  - apply list_elem_of_lookup in Hin as (i & Hi).
    eapply Forall2_lookup_l in Hrec as (c & _ & Hc); [|done].
    by apply spec_record_completion in Hc as (? & ? & ? & ?).
Qed.

(** ** The clock covers the work of every process *)

Lemma cpu_outcome_work now d P why P' :
  cpu_outcome now d P why P' → work P' = work P + d.
Proof. destruct 1; unfold work; simpl; lia. Qed.

Lemma io_outcome_work d P P' :
  0 < d → io_outcome d P P' → work P ≤ work P' ≤ work P + d.
Proof. intros Hd. destruct 1; unfold work; simpl; lia. Qed.

Lemma inv_lookup_Some lines c c' s s' i P' :
  inv lines c s → inv lines c' s' → procs s' !! i = Some P' →
  ∃ P, procs s !! i = Some P.
Proof.
  intros [[Hlen _] _ _ _ _ _] [[Hlen' _] _ _ _ _ _] HP'.
  apply lookup_lt_is_Some_2. rewrite Hlen, <- Hlen'. by eapply lookup_lt_Some.
Qed.

Lemma ready_not_completed lines c s q t :
  inv lines c s → q ∈ ready s → (t, q) ∉ completed s.
Proof.
  intros H Hq Hc. apply containers_NoDup in H. unfold containers in H.
  apply NoDup_app in H as (_ & H & _). apply (H q Hq).
  apply elem_of_app. right. apply elem_of_app. right.
  by apply (list_elem_of_fmap_2 snd) in Hc.
Qed.

Lemma iteration_clock_covers_work lines s1 s2 :
  inv lines LoopHead s1 → inv lines LoopHead s2 →
  clock_covers_work s1 → iteration s1 s2 → clock_covers_work s2.
Proof.
  intros Hinv1 Hinv2 [Hw Hc]
    [q rdy P why P' d Hr HP Hd _ Hout HP' Ht _ Hcomp _ _ Hothers
    |d Hr Hd Ht _ Hcomp _ Hothers].
  - assert (∀ i P2, procs s2 !! i = Some P2 → i ≠ q →
              ∃ P1, procs s1 !! i = Some P1 ∧ work P2 ≤ work P1 + d ∧
                    (i ∉ p <$> blocked s1 → P2 = P1)) as Hother.
    { intros i P2 HP2 Hne.
      destruct (inv_lookup_Some _ _ _ _ _ _ _ Hinv1 Hinv2 HP2) as [P1 HP1].
      destruct (Hothers i P1 Hne HP1) as (P2' & HP2' & Hio & Hsame).
      rewrite HP2 in HP2'. injection HP2' as <-.
      exists P1. split; [done|]. split; [|done].
      by apply io_outcome_work in Hio as [_ ?]. }
    split.
    + intros i P2 HP2. rewrite Ht. destruct (decide (i = q)) as [->|Hne].
      * rewrite HP' in HP2. injection HP2 as <-.
        rewrite (cpu_outcome_work _ _ _ _ _ Hout). specialize (Hw q P HP). lia.
      * destruct (Hother i P2 HP2 Hne) as (P1 & HP1 & Hle & _).
        specialize (Hw i P1 HP1). lia.
    + intros t i P2 Hin HP2. rewrite Hcomp in Hin.
      apply elem_of_app in Hin as [Hin|Hin].
      * assert (i ≠ q) as Hne.
        { intros ->. eapply ready_not_completed; [exact Hinv1| |exact Hin].
          rewrite Hr. by left. }
        destruct (Hother i P2 HP2 Hne) as (P1 & HP1 & _ & Hsame).
        rewrite Hsame by (by eapply completed_not_blocked).
        by eapply Hc.
      * destruct (decide (why = COMPLETED)); [|by apply elem_of_nil in Hin].
        apply list_elem_of_singleton in Hin. injection Hin as -> ->.
        rewrite HP' in HP2. injection HP2 as <-.
        rewrite (cpu_outcome_work _ _ _ _ _ Hout). specialize (Hw q P HP). lia.
  - assert (∀ i P2, procs s2 !! i = Some P2 →
              ∃ P1, procs s1 !! i = Some P1 ∧ work P2 ≤ work P1 + d ∧
                    (i ∉ p <$> blocked s1 → P2 = P1)) as Hother.
    { intros i P2 HP2.
      destruct (inv_lookup_Some _ _ _ _ _ _ _ Hinv1 Hinv2 HP2) as [P1 HP1].
      destruct (Hothers i P1 HP1) as (P2' & HP2' & Hio & Hsame).
      rewrite HP2 in HP2'. injection HP2' as <-.
      exists P1. split; [done|]. split; [|done].
      by apply io_outcome_work in Hio as [_ ?]. }
    split.
    + intros i P2 HP2. rewrite Ht.
      destruct (Hother i P2 HP2) as (P1 & HP1 & Hle & _).
      specialize (Hw i P1 HP1). lia.
    + intros t i P2 Hin HP2. rewrite Hcomp in Hin.
      destruct (Hother i P2 HP2) as (P1 & HP1 & _ & Hsame).
      rewrite Hsame by (by eapply completed_not_blocked).
      by eapply Hc.
Qed.

Lemma initial_clock_covers_work o lines : clock_covers_work (initial o lines).
Proof.
  destruct (initial_fields o lines) as (_ & Ht & Hc & _).
  split.
  - intros i P HP. rewrite Ht.
    unfold initial, init_from_lines in HP. cbn [procs set_procs set_ready] in HP.
    rewrite list_lookup_imap in HP.
    destruct (lines !! i) as [l|]; [|done]. injection HP as <-.
    destruct (make_proc_spec i l) as (_ & _ & Hc0 & Hi0 & _).
    unfold work. lia.
  - intros t i P Hin. rewrite Hc in Hin. by apply elem_of_nil in Hin.
Qed.

Lemma at_loop_head_clock_covers_work o lines s :
  well_formed lines → valid_options o →
  at_loop_head (initial o lines) s → clock_covers_work s.
Proof.
  intros Hwf Hv. apply (initial_invariant clock_covers_work); try done.
  - intros s1 s2 Hi1 Hi2 _ H1 Hit.
    exact (iteration_clock_covers_work lines s1 s2 Hi1 Hi2 H1 Hit).
  - apply initial_clock_covers_work.
Qed.

(** The record of a completed process at the end of a run. *)
Lemma completed_record lines s t i :
  inv lines LoopHead s → (t, i) ∈ completed s →
  ∃ P l, procs s !! i = Some P ∧ lines !! i = Some l ∧
         completion_time P = t ∧
         work P = cpu_sum l + io_sum l ∧
         total_cpu P = cpu_sum l ∧ total_io P = io_sum l.
Proof.
  intros Hinv Hin.
  destruct (inv_completed _ _ _ Hinv t i Hin) as (P & HP & Hok).
  destruct Hok as (_ & Hct & Hcpu & Hio & _).
  destruct (inv_static _ _ _ Hinv) as [_ Hst].
  destruct (Hst i P HP) as (_ & l & Hl & Htc & Hti).
  exists P, l. unfold work. repeat split; try done; lia.
Qed.

Lemma at_loop_head_reach s0 s :
  at_loop_head s0 s → reach LoopHead s0 LoopHead s.
Proof.
  induction 1 as [|s s' _ IH Hiter]; [apply reach_init|].
  by eapply run_iter_reach.
Qed.

(** The dispatch loop logs no statistics record. *)
Lemma run_log_no_completion o lines s :
  well_formed lines → valid_options o → at_loop_head (initial o lines) s →
  Forall (λ ev, ∀ id t w, ev ≠ ProcessCompletion id t w) (log s).
Proof.
  intros Hwf Hvalid.
  apply (initial_invariant
           (λ s, Forall (λ ev, ∀ id t w, ev ≠ ProcessCompletion id t w)
                   (log s))); [|done|done|].
  - intros s1 s2 _ _ _ HΦ1
      [q rdy P why P' d _ _ _ _ _ _ _ Hl _ _ _ _|d _ _ _ Hl _ _ _];
      rewrite Hl; [|done].
    apply Forall_app. split; [done|]. by apply Forall_singleton.
  - destruct (initial_fields o lines) as (_ & _ & _ & -> & _). constructor.
Qed.

(** With the sums in [Z].  No process is reported a negative waiting time: the
    simulation returns, and every statistics record of its trace is for a
    process of the input, with a turnaround that is at least the sum of the
    bursts of that process and a wait that is the difference, which is not
    negative. *)
Lemma wait_never_negative_exact o lines :
  well_formed lines → valid_options o →
  ∃ s, (∀ fuel, (Z.to_nat (work_total lines) < fuel)%nat →
          simulate fuel o lines = Ok s) ∧
       ∀ id turnaround wait,
         ProcessCompletion id turnaround wait ∈ log s →
         0 ≤ wait ∧
         ∃ l, lines !! id = Some l ∧
              turnaround = wait + (cpu_sum l + io_sum l).
Proof.
  intros Hwf Hvalid.
  destruct (simulate_result _ lines Hwf Hvalid)
    as (s & s' & records & Hsim & Hat & Hinv & _ & _ & _ & _ & Hlog & Hrec & _).
  exists s'. split; [done|].
  pose proof (at_loop_head_clock_covers_work _ _ _ Hwf Hvalid Hat) as [_ Hc].
  pose proof (run_log_no_completion _ _ _ Hwf Hvalid Hat) as Hrun.
  intros id turnaround wait Hin. rewrite Hlog in Hin.
  apply elem_of_app in Hin as [Hin|Hin].
  { rewrite Forall_forall in Hrun. by destruct (Hrun _ Hin id turnaround wait). }
  apply list_elem_of_lookup in Hin as (k & Hk).
  eapply Forall2_lookup_l in Hrec as ([t i] & Hti & Hspec); [|done].
  destruct Hspec as (P & HP & Hct & Hev). simpl in *.
  injection Hev as -> -> ->.
  apply list_elem_of_lookup_2 in Hti.
  destruct (completed_record _ _ _ _ Hinv Hti)
    as (P0 & l & HP0 & Hl & _ & Hwork & Htc & Hti').
  rewrite HP in HP0. injection HP0 as <-.
  specialize (Hc _ _ _ Hti HP).
  split; [lia|]. exists l. split; [done|]. lia.
Qed.

(** X7.  No process is reported a negative waiting time.  For a
    well-formed input whose bursts add up to a value of [int] the
    simulation of the program returns, and every statistics record of its
    trace is for a process of the input, with a turnaround that is at least
    the sum of the bursts of that process and a wait that is the
    difference, which is not negative. *)
Theorem wait_never_negative o lines :
  well_formed lines → valid_options o → fits_in_int lines →
  ∃ s, (∀ fuel, (Z.to_nat (work_total lines) < fuel)%nat →
          Int32.simulate fuel o lines = Ok s) ∧
       ∀ id turnaround wait,
         ProcessCompletion id turnaround wait ∈ log s →
         0 ≤ wait ∧
         ∃ l, lines !! id = Some l ∧
              turnaround = wait + (cpu_sum l + io_sum l).
Proof.
  intros Hwf Hvalid Hfit.
  destruct (wait_never_negative_exact o lines Hwf Hvalid) as (s & Hsim & Hs).
  exists s. split; [|done]. intros fuel Hfuel.
  rewrite simulate_int_agrees by done. by apply Hsim.
Qed.

(** ** The length of a run *)

Lemma total_of_same {A} (f : A → Z) (l l' : list A) :
  length l = length l' →
  (∀ i x y, l !! i = Some x → l' !! i = Some y → f y = f x) →
  total_of f l' = total_of f l.
Proof.
  revert l'. induction l as [|x l IH]; intros [|y l'] Hlen Hf;
    simpl in *; try done.
  rewrite (Hf 0%nat x y eq_refl eq_refl), (IH l'); [done|lia|].
  intros i x' y' Hx Hy. by apply (Hf (S i)).
Qed.

Lemma total_of_bump {A} (f : A → Z) (l l' : list A) q d :
  length l = length l' → (q < length l)%nat →
  (∀ i x y, l !! i = Some x → l' !! i = Some y →
            f y = f x + (if decide (i = q) then d else 0)) →
  total_of f l' = total_of f l + d.
Proof.
  intros Hlen Hq Hf.
  destruct (lookup_lt_is_Some_2 l q Hq) as [x Hx].
  destruct (lookup_lt_is_Some_2 l' q ltac:(lia)) as [y Hy].
  rewrite (total_of_same f (<[q:=y]> l) l').
  - rewrite (total_of_insert f l q x y Hx).
    pose proof (Hf q x y Hx Hy) as H. rewrite decide_True in H by done. lia.
  - by rewrite length_insert.
  - intros i a b Ha Hb. destruct (decide (i = q)) as [->|Hne].
    + rewrite list_lookup_insert_eq in Ha by done. congruence.
    + rewrite list_lookup_insert_ne in Ha by done.
      pose proof (Hf i a b Ha Hb) as H. rewrite decide_False in H by done. lia.
Qed.

Lemma total_of_eq2 {A B} (f : A → Z) (g : B → Z) l l' :
  Forall2 (λ x y, f x = g y) l l' → total_of f l = total_of g l'.
Proof. induction 1; simpl; lia. Qed.

Lemma cpu_outcome_cpu now d P why P' :
  cpu_outcome now d P why P' → executed_cpu P' = executed_cpu P + d.
Proof. by destruct 1. Qed.

Lemma io_outcome_cpu d P P' :
  io_outcome d P P' → executed_cpu P' = executed_cpu P.
Proof. by destruct 1. Qed.

Lemma inv_length lines c s : inv lines c s → length (procs s) = length lines.
Proof. by intros [[? _] _ _ _ _ _]. Qed.

Lemma iteration_cpu_time lines s1 s2 :
  inv lines LoopHead s1 → inv lines LoopHead s2 → iteration s1 s2 →
  cpu_time s2 - cpu_time s1 ≤ time_elapsed s2 - time_elapsed s1.
Proof.
  intros Hinv1 Hinv2
    [q rdy P why P' d Hr HP Hd _ Hout HP' Ht _ _ _ _ Hothers
    |d Hr Hd Ht _ _ _ Hothers].
  - unfold cpu_time. rewrite (total_of_bump executed_cpu (procs s1) _ q d).
    + lia.
    + by rewrite (inv_length _ _ _ Hinv1), (inv_length _ _ _ Hinv2).
    + by eapply lookup_lt_Some.
    + intros i x y Hx Hy. destruct (decide (i = q)) as [->|Hne].
      * rewrite HP in Hx. injection Hx as <-.
        rewrite HP' in Hy. injection Hy as <-.
        by eapply cpu_outcome_cpu.
      * destruct (Hothers i x Hne Hx) as (y' & Hy' & Hio & _).
        rewrite Hy in Hy'. injection Hy' as <-.
        rewrite (io_outcome_cpu _ _ _ Hio). lia.
  - unfold cpu_time. rewrite (total_of_same executed_cpu (procs s1)).
    + lia.
    + by rewrite (inv_length _ _ _ Hinv1), (inv_length _ _ _ Hinv2).
    + intros i x y Hx Hy.
      destruct (Hothers i x Hx) as (y' & Hy' & Hio & _).
      rewrite Hy in Hy'. injection Hy' as <-.
      by rewrite (io_outcome_cpu _ _ _ Hio).
Qed.

Lemma final_cpu_time lines s :
  inv lines LoopHead s → ready s = [] → blocked s = [] →
  cpu_time s = total_of cpu_sum lines.
Proof.
  intros Hinv Hr Hb. unfold cpu_time. apply total_of_eq2.
  apply Forall2_same_length_lookup_2; [by eapply inv_length|].
  intros i P l HP Hl.
  destruct (final_all_completed _ _ i Hinv Hr Hb) as (t & P0 & Hin & HP0 & Hok).
  { by eapply lookup_lt_Some. }
  destruct (completed_record _ _ _ _ Hinv Hin)
    as (P1 & l1 & HP1 & Hl1 & _ & _ & Htc & _).
  rewrite HP in HP0, HP1. injection HP0 as <-. injection HP1 as <-.
  rewrite Hl in Hl1. injection Hl1 as <-.
  destruct Hok as (_ & _ & Hcpu & _). lia.
Qed.

Lemma iteration_ends_on_completion lines s1 s2 :
  iteration s1 s2 → ends_on_completion lines s2.
Proof.
  intros [q rdy P why P' d Hr HP Hd _ Hout HP' Ht _ Hcomp Hqe Hio _
         |d _ _ _ _ _ Hne _] Hr2 Hb2; [|done].
  right. destruct why.
  - specialize (Hio eq_refl). rewrite Hb2 in Hio. by apply elem_of_nil in Hio.
  - specialize (Hqe eq_refl). rewrite Hr2 in Hqe. by apply elem_of_nil in Hqe.
  - rewrite decide_True in Hcomp by done. rewrite Hcomp, Ht. eauto.
Qed.

(** With the sums in [Z].  The length of a run.  The dispatch loop returns
    with a final clock that is at least the sum of all CPU bursts (there is
    one CPU), at least the sum of the bursts of any one process, and at most
    the sum of all bursts (the CPU is idle only while some process does I/O);
    unless the input is empty, the final clock is the completion time of the
    process that completed last. *)
Lemma makespan_bounds_exact o lines :
  well_formed lines → valid_options o →
  ∃ s, (∀ fuel, (Z.to_nat (work_total lines) < fuel)%nat →
          run fuel (initial o lines) = Ok s) ∧
       total_of cpu_sum lines ≤ time_elapsed s ≤ work_total lines ∧
       (∀ l, l ∈ lines → cpu_sum l + io_sum l ≤ time_elapsed s) ∧
       (lines ≠ [] → ∃ cs q, completed s = cs ++ [(time_elapsed s, q)]).
Proof.
  intros Hwf Hvalid.
  destruct (run_result o lines Hwf Hvalid)
    as (s & Hrun & Hat & Hreach & Hinv & Hclock & Hopt & Hr & Hb).
  exists s. split; [done|].
  destruct (int_range _ _ _ _ Hwf Hreach) as ([_ Hle] & Hle' & _).
  split; [split; [|lia]|split].
  - rewrite <- (final_cpu_time _ _ Hinv Hr Hb).
    assert (cpu_time s ≤ time_elapsed s); [|done].
    apply (initial_invariant (λ s, cpu_time s ≤ time_elapsed s) o lines);
      try done.
    + intros s1 s2 Hi1 Hi2 _ H1 Hit.
      pose proof (iteration_cpu_time _ _ _ Hi1 Hi2 Hit). lia.
    + destruct (initial_fields o lines) as (_ & -> & _).
      unfold cpu_time, initial, init_from_lines. cbn [procs set_procs set_ready].
      rewrite total_of_imap_zero; [done|].
      intros i l. by destruct (make_proc_spec i l) as (_ & _ & -> & _).
  - intros l (i & Hl)%list_elem_of_lookup.
    destruct (final_all_completed _ _ i Hinv Hr Hb) as (t & P & Hin & HP & _).
    { by eapply lookup_lt_Some. }
    destruct (completed_record _ _ _ _ Hinv Hin)
      as (P1 & l1 & HP1 & Hl1 & _ & Hwork & _).
    rewrite HP in HP1. injection HP1 as <-.
    rewrite Hl in Hl1. injection Hl1 as <-.
    destruct (at_loop_head_clock_covers_work _ _ _ Hwf Hvalid Hat) as [Hw _].
    specialize (Hw i P HP). lia.
  - intros Hne.
    assert (ends_on_completion lines s) as Hend.
    { apply (initial_invariant (ends_on_completion lines) o lines); try done.
      - intros s1 s2 _ _ _ _ Hit. by eapply iteration_ends_on_completion.
      - intros Hr0 _. left.
        destruct (initial_fields o lines) as (_ & _ & _ & _ & _ & Hrdy).
        rewrite Hrdy in Hr0. destruct lines; [done|]. done. }
    by destruct (Hend Hr Hb) as [->|?].
Qed.

(** X8.  The length of a run.  For a well-formed input whose bursts add
    up to a value of [int] the dispatch loop of the program returns with a
    final clock that is at least the sum of all CPU bursts (there is one
    CPU), at least the sum of the bursts of any one process, and at most
    the sum of all bursts (the CPU is idle only while some process does
    I/O); unless the input is empty, the final clock is the completion time
    of the process that completed last. *)
Theorem makespan_bounds o lines :
  well_formed lines → valid_options o → fits_in_int lines →
  ∃ s, (∀ fuel, (Z.to_nat (work_total lines) < fuel)%nat →
          Int32.run fuel (Int32.initial o lines) = Ok s) ∧
       total_of cpu_sum lines ≤ time_elapsed s ≤ work_total lines ∧
       (∀ l, l ∈ lines → cpu_sum l + io_sum l ≤ time_elapsed s) ∧
       (lines ≠ [] → ∃ cs q, completed s = cs ++ [(time_elapsed s, q)]).
Proof.
  intros Hwf Hvalid Hfit.
  destruct (makespan_bounds_exact o lines Hwf Hvalid) as (s & Hrun & Hs).
  exists s. split; [|done]. intros fuel Hfuel.
  rewrite run_int_agrees by done. by apply Hrun.
Qed.

(** With the sums in [Z].  A process that is alone never waits: for an input
    of one process the simulation returns, and the report is the one record
    that gives as turnaround the sum of the bursts and as wait 0. *)
Lemma lone_process_never_waits_exact o l :
  well_formed [l] → valid_options o →
  ∃ s records,
    (∀ fuel, (Z.to_nat (work_total [l]) < fuel)%nat →
       simulate fuel o [l] = Ok s) ∧
    log s = records ++ [ProcessCompletion 0 (cpu_sum l + io_sum l) 0] ∧
    ∀ id t w, ProcessCompletion id t w ∉ records.
Proof.
  intros Hwf Hvalid.
  destruct (simulate_result _ _ Hwf Hvalid)
    as (s & s' & records & Hsim & Hat & Hinv & Hclock & _ & Hr & Hb & Hlog &
        Hrec & _).
  exists s', (log s). split; [done|].
  assert (snd <$> completed s = [0%nat]) as Hsnd.
  { pose proof (inv_perm _ _ _ Hinv) as Hperm. unfold containers in Hperm.
    rewrite Hr, Hb in Hperm. simpl in Hperm.
    by apply Permutation_singleton_r in Hperm. }
  destruct (int_range _ _ _ _ Hwf (at_loop_head_reach _ _ Hat))
    as ([_ Hup] & Hup' & _).
  assert (work_total [l] = cpu_sum l + io_sum l) as Htot.
  { unfold work_total. simpl. lia. }
  destruct (completed s) as [|[t i] [|? ?]] eqn:Hcomp; try done.
  injection Hsnd as ->.
  apply Forall2_cons_inv_r in Hrec as (ev & recs & Hev & Hnil & ->).
  apply Forall2_nil_inv_r in Hnil as ->.
  destruct Hev as (P & HP & Hct & ->). cbn [fst snd] in *.
  assert ((t, 0%nat) ∈ completed s) as Hin by (rewrite Hcomp; by left).
  destruct (completed_record _ _ _ _ Hinv Hin)
    as (P0 & l0 & HP0 & Hl0 & _ & Hwork & Htc & Hti).
  rewrite HP in HP0. injection HP0 as <-. injection Hl0 as <-.
  destruct (at_loop_head_clock_covers_work _ _ _ Hwf Hvalid Hat) as [_ Hc].
  specialize (Hc _ _ _ Hin HP).
  destruct Hclock as [_ Hle]. rewrite Hcomp in Hle.
  apply Forall_cons in Hle as [Hle _]. simpl in Hle.
  unfold work in Hwork, Hc. split.
  - rewrite Hlog. do 2 f_equal. f_equal; lia.
  - intros id t' w Hev.
    pose proof (run_log_no_completion _ _ _ Hwf Hvalid Hat) as Hrun.
    rewrite Forall_forall in Hrun. by destruct (Hrun _ Hev id t' w).
Qed.

Lemma scenario_B_fits : fits_in_int [scenario_B].
Proof. unfold fits_in_int, INT_MAX. by vm_compute. Qed.

(** X9.  A process that is alone never waits: for an input of one
    process whose bursts add up to a value of [int] the simulation of the
    program returns, and the report is the one record that gives as
    turnaround the sum of the bursts and as wait 0. *)
Theorem lone_process_never_waits o l :
  well_formed [l] → valid_options o → fits_in_int [l] →
  ∃ s records,
    (∀ fuel, (Z.to_nat (work_total [l]) < fuel)%nat →
       Int32.simulate fuel o [l] = Ok s) ∧
    log s = records ++ [ProcessCompletion 0 (cpu_sum l + io_sum l) 0] ∧
    ∀ id t w, ProcessCompletion id t w ∉ records.
Proof.
  intros Hwf Hvalid Hfit.
  destruct (lone_process_never_waits_exact o l Hwf Hvalid)
    as (s & records & Hsim & Hs).
  exists s, records. split; [|done]. intros fuel Hfuel.
  rewrite simulate_int_agrees by done. by apply Hsim.
Qed.

(** ** The remaining bursts of a process *)

Lemma drop_cons_S {A} k (l : list A) x r :
  drop k l = x :: r → drop (S k) l = r.
Proof.
  revert l. induction k as [|k IH]; intros [|y l]; simpl; try done.
  - by intros [= _ ->].
  - apply IH.
Qed.

Lemma cpu_outcome_remains now d P why P' l :
  0 < d → remains_of l (bursts P) → cpu_outcome now d P why P' →
  remains_of l (bursts P').
Proof.
  intros Hd Hrem [c rest Hb Hlt|io rest Hb Hio|Hb]; simpl.
  - destruct Hrem as [Hnil|(k & c0 & c' & rest' & Hdrop & Hb' & Hc)].
    { by rewrite Hb in Hnil. }
    rewrite Hb in Hb'. injection Hb' as <- <-.
    right. exists k, c0, (c - d), rest. repeat split; try done; lia.
  - destruct Hrem as [Hnil|(k & c0 & c' & rest' & Hdrop & Hb' & Hc)].
    { by rewrite Hb in Hnil. }
    rewrite Hb in Hb'. injection Hb' as <- <-.
    right. exists (S k), io, io, rest. repeat split; try done; try lia.
    by apply drop_cons_S in Hdrop.
  - by left.
Qed.

Lemma io_outcome_remains d P P' l :
  remains_of l (bursts P) → io_outcome d P P' → remains_of l (bursts P').
Proof.
  intros Hrem [| |e io c rest He Hle Hb Hc Heven]; simpl; try done.
  destruct Hrem as [Hnil|(k & c0 & c' & rest' & Hdrop & Hb' & Hc')].
  { by rewrite Hb in Hnil. }
  rewrite Hb in Hb'. injection Hb' as <- <-.
  right. exists (S k), c, c, rest. rewrite Hb. simpl.
  repeat split; try done; try lia.
  by apply drop_cons_S in Hdrop.
Qed.

(** X10.  The burst list of a process only shrinks: at the head of every
    iteration of the dispatch loop, what a process has left is nothing or a
    suffix of its line of the input, with a first burst that is positive and
    at most the burst of the input. *)
Theorem bursts_only_shrink o lines s i P l :
  well_formed lines → valid_options o →
  at_loop_head (initial o lines) s →
  procs s !! i = Some P → lines !! i = Some l →
  remains_of l (bursts P).
Proof.
  intros Hwf Hvalid Hat. revert i P l.
  apply (initial_invariant
           (λ s, ∀ i P l, procs s !! i = Some P → lines !! i = Some l →
                          remains_of l (bursts P)) o lines); try done.
  - intros s1 s2 Hinv1 Hinv2 _ HΦ
      [q rdy P why P' d Hr HP Hd _ Hout HP' _ _ _ _ _ Hothers
      |d Hr Hd _ _ _ _ Hothers] i P2 l HP2 Hl.
    + destruct (inv_lookup_Some _ _ _ _ _ _ _ Hinv1 Hinv2 HP2) as [P1 HP1].
      specialize (HΦ i P1 l HP1 Hl).
      destruct (decide (i = q)) as [->|Hne].
      * rewrite HP in HP1. injection HP1 as <-.
        rewrite HP' in HP2. injection HP2 as <-.
        by eapply cpu_outcome_remains.
      * destruct (Hothers i P1 Hne HP1) as (P2' & HP2' & Hio & _).
        rewrite HP2 in HP2'. injection HP2' as <-.
        by eapply io_outcome_remains.
    + destruct (inv_lookup_Some _ _ _ _ _ _ _ Hinv1 Hinv2 HP2) as [P1 HP1].
      specialize (HΦ i P1 l HP1 Hl).
      destruct (Hothers i P1 HP1) as (P2' & HP2' & Hio & _).
      rewrite HP2 in HP2'. injection HP2' as <-.
      by eapply io_outcome_remains.
  - intros i P l HP Hl.
    unfold initial, init_from_lines in HP. cbn [procs set_procs set_ready] in HP.
    rewrite list_lookup_imap, Hl in HP. injection HP as <-.
    destruct (make_proc_spec i l) as (_ & -> & _).
    unfold well_formed in Hwf. rewrite Forall_forall in Hwf.
    destruct (Hwf l) as [_ Hpos]; [by eapply list_elem_of_lookup_2|].
    destruct l as [|c l']; [by left|]. right.
    apply Forall_cons in Hpos as [Hc _].
    exists 0%nat, c, c, l'. repeat split; try done; lia.
Qed.

(** ** What the trace accounts for *)

Lemma completion_events_app lg lg' :
  completion_events (lg ++ lg') =
  completion_events lg ++ completion_events lg'.
Proof. apply omap_app. Qed.

Lemma io_entries_app i lg lg' :
  io_entries i (lg ++ lg') = (io_entries i lg + io_entries i lg')%nat.
Proof. unfold io_entries. by rewrite filter_app, length_app. Qed.

Lemma io_entries_singleton i ev :
  io_entries i [ev] = if enters_io i ev then 1%nat else 0%nat.
Proof.
  unfold io_entries. rewrite filter_cons, filter_nil.
  destruct (enters_io i ev); by simpl.
Qed.

Lemma odd_half n : Nat.odd n = true → ∃ k, n = (2 * k + 1)%nat.
Proof. intros H. apply Nat.odd_spec in H as [k ->]. eauto. Qed.

Lemma even_half n : Nat.even n = true → ∃ k, n = (2 * k)%nat.
Proof. intros H. apply Nat.even_spec in H as [k ->]. eauto. Qed.

Lemma iteration_trace_accounts lines s1 s2 :
  inv lines LoopHead s1 → inv lines LoopHead s2 →
  trace_accounts lines s1 → iteration s1 s2 → trace_accounts lines s2.
Proof.
  intros Hinv1 Hinv2 (Hce & Hio & Hev)
    [q rdy P why P' d Hr HP Hd _ Hout HP' Ht Hlog Hcomp _ _ Hothers
    |d Hr Hd Ht Hlog Hcomp _ Hothers].
  - assert (q ∈ ready s1) as Hq by (rewrite Hr; by left).
    destruct (inv_ready _ _ _ Hinv1 q Hq) as (P0 & HP0 & Hodd & _).
    rewrite HP in HP0. injection HP0 as <-.
    split; [|split].
    + rewrite Hlog, completion_events_app, Hce, Hcomp. f_equal.
      by destruct why.
    + intros i P2 l HP2 Hl.
      destruct (inv_lookup_Some _ _ _ _ _ _ _ Hinv1 Hinv2 HP2) as [P1 HP1].
      specialize (Hio i P1 l HP1 Hl). rewrite Hlog, io_entries_app.
      destruct (decide (i = q)) as [->|Hne].
      * rewrite HP in HP1. injection HP1 as <-.
        rewrite HP' in HP2. injection HP2 as <-.
        rewrite io_entries_singleton.
        destruct Hout as [c rest Hb Hlt|io rest Hb Hpos|Hb];
          rewrite Hb in *; cbn [bursts set_bursts set_completion_time
            add_executed_cpu length enters_io] in *.
        -- lia.
        -- rewrite bool_decide_eq_true_2 by done. cbn [length].
           apply odd_half in Hodd as [k Hk]. cbn [length] in Hk.
           revert Hio. generalize (length rest) Hk. clear. intros. lia_div.
        -- lia.
      * destruct (Hothers i P1 Hne HP1) as (P2' & HP2' & Hout' & _).
        rewrite HP2 in HP2'. injection HP2' as <-.
        assert (io_entries i [CpuBurstExecution q (executed_cpu P + d)
                                (executed_io P) (time_elapsed s1 + d) why]
                = 0%nat) as ->.
        { rewrite io_entries_singleton. destruct why; simpl; try done.
          by rewrite bool_decide_eq_false_2 by done. }
        destruct Hout' as [| |e io c rest He Hle Hb Hc Heven];
          cbn [bursts add_executed_io pop_front set_bursts tail]; try lia.
        rewrite Hb in *. cbn [length tail] in *.
        apply even_half in Heven as [k Hk].
        revert Hio. generalize (length rest) Hk. clear. intros. lia_div.
    + intros id cpu io clock Hin. rewrite Hlog in Hin.
      apply elem_of_app in Hin as [Hin|Hin].
      * destruct (Hev _ _ _ _ Hin) as (P1 & HP1 & -> & ->).
        assert ((clock, id) ∈ completed s1) as Hc.
        { rewrite <- Hce. unfold completion_events.
          apply list_elem_of_omap. eexists. split; [exact Hin|done]. }
        assert (id ≠ q) as Hne.
        { intros ->. exact (ready_not_completed _ _ _ _ _ Hinv1 Hq Hc). }
        destruct (Hothers id P1 Hne HP1) as (P2 & HP2 & _ & Hsame).
        rewrite Hsame in HP2
          by exact (completed_not_blocked _ _ _ _ _ Hinv1 Hc).
        eauto.
      * apply list_elem_of_singleton in Hin. injection Hin as -> -> -> -> <-.
        exists P'. split; [done|]. by inversion Hout.
  - split; [|split].
    + by rewrite Hlog, Hcomp.
    + intros i P2 l HP2 Hl.
      destruct (inv_lookup_Some _ _ _ _ _ _ _ Hinv1 Hinv2 HP2) as [P1 HP1].
      specialize (Hio i P1 l HP1 Hl). rewrite Hlog.
      destruct (Hothers i P1 HP1) as (P2' & HP2' & Hout' & _).
      rewrite HP2 in HP2'. injection HP2' as <-.
      destruct Hout' as [| |e io c rest He Hle Hb Hc Heven];
        cbn [bursts add_executed_io pop_front set_bursts tail]; try lia.
      rewrite Hb in *. cbn [length tail] in *.
      apply even_half in Heven as [k Hk].
      revert Hio. generalize (length rest) Hk. clear. intros. lia_div.
    + intros id cpu io clock Hin. rewrite Hlog in Hin.
      destruct (Hev _ _ _ _ Hin) as (P1 & HP1 & -> & ->).
      assert ((clock, id) ∈ completed s1) as Hc.
      { rewrite <- Hce. unfold completion_events.
        apply list_elem_of_omap. eexists. split; [exact Hin|done]. }
      destruct (Hothers id P1 HP1) as (P2 & HP2 & _ & Hsame).
      rewrite Hsame in HP2
        by exact (completed_not_blocked _ _ _ _ _ Hinv1 Hc).
      eauto.
Qed.

Lemma initial_trace_accounts o lines :
  well_formed lines → trace_accounts lines (initial o lines).
Proof.
  intros Hwf. destruct (initial_fields o lines) as (_ & _ & Hc & Hl & _).
  split; [by rewrite Hl, Hc|]. split.
  - intros i P l HP Hi. rewrite Hl.
    unfold initial, init_from_lines in HP. cbn [procs set_procs set_ready] in HP.
    rewrite list_lookup_imap, Hi in HP. injection HP as <-.
    by destruct (make_proc_spec i l) as (_ & -> & _).
  - intros id cpu io clock Hin. rewrite Hl in Hin. by apply elem_of_nil in Hin.
Qed.

Lemma records_are_statistics ps records cs i :
  Forall2 (spec_record ps) records cs →
  completion_events records = [] ∧ io_entries i records = 0%nat.
Proof.
  induction 1 as [|ev c records cs (P & _ & _ & ->) _ [IH1 IH2]]; [done|].
  split.
  - unfold completion_events in *. simpl. done.
  - change (ProcessCompletion ?a ?b ?c :: records)
      with ([ProcessCompletion a b c] ++ records).
    by rewrite io_entries_app, IH2.
Qed.

(** With the sums in [Z].  The trace accounts for every burst.  The simulation
    returns with a trace in which every process has exactly one [COMPLETED]
    event and one [ENTER_IO] event for each of its I/O bursts; the [COMPLETED]
    event of a process carries the sums of its CPU and of its I/O bursts, and
    the clock that the final report gives as its turnaround. *)
Lemma trace_accounts_for_every_burst_exact o lines :
  well_formed lines → valid_options o →
  ∃ s, (∀ fuel, (Z.to_nat (work_total lines) < fuel)%nat →
          simulate fuel o lines = Ok s) ∧
       (snd <$> completion_events (log s)) ≡ₚ seq 0 (length lines) ∧
       (∀ i l, lines !! i = Some l →
          io_entries i (log s) = (length l / 2)%nat) ∧
       (∀ id cpu io clock,
          CpuBurstExecution id cpu io clock COMPLETED ∈ log s →
          ∃ l, lines !! id = Some l ∧ cpu = cpu_sum l ∧ io = io_sum l ∧
               ProcessCompletion id clock (clock - (cpu + io)) ∈ log s).
Proof.
  intros Hwf Hvalid.
  destruct (simulate_result _ lines Hwf Hvalid)
    as (s & s' & records & Hsim & Hat & Hinv & _ & _ & Hr & Hb & Hlog & Hrec & _).
  exists s'. split; [done|].
  assert (trace_accounts lines s) as (Hce & Hio & Hev).
  { apply (initial_invariant (trace_accounts lines) o lines); try done.
    - intros s1 s2 Hi1 Hi2 _ H1 Hit.
      exact (iteration_trace_accounts lines s1 s2 Hi1 Hi2 H1 Hit).
    - by apply initial_trace_accounts. }
  split; [|split].
  - destruct (records_are_statistics _ _ _ 0%nat Hrec) as [Hnil _].
    rewrite Hlog, completion_events_app, Hnil, app_nil_r, Hce.
    rewrite <- (inv_perm _ _ _ Hinv). unfold containers. by rewrite Hr, Hb.
  - intros i l Hl.
    destruct (records_are_statistics _ _ _ i Hrec) as [_ Hzero].
    rewrite Hlog, io_entries_app, Hzero.
    destruct (final_all_completed _ _ i Hinv Hr Hb) as (t & P & Hin & HP & Hok).
    { by eapply lookup_lt_Some. }
    specialize (Hio i P l HP Hl). destruct Hok as (Hnil & _).
    rewrite Hnil in Hio. cbn [length] in Hio.
    unfold well_formed in Hwf. rewrite Forall_forall in Hwf.
    destruct (Hwf l) as [Hodd _]; [by eapply list_elem_of_lookup_2|].
    apply odd_half in Hodd as [k Hk].
    revert Hio. generalize (io_entries i (log s)) (length l) Hk. clear.
    intros. lia_div.
  - intros id cpu io clock Hin. rewrite Hlog in Hin.
    apply elem_of_app in Hin as [Hin|Hin].
    2:{ apply list_elem_of_lookup in Hin as (k & Hk).
        eapply Forall2_lookup_l in Hrec as (c & _ & Hc); [|done].
        by apply spec_record_completion in Hc as (? & ? & ? & ?). }
    destruct (Hev _ _ _ _ Hin) as (P & HP & -> & ->).
    assert ((clock, id) ∈ completed s) as Hc.
    { rewrite <- Hce. unfold completion_events.
      apply list_elem_of_omap. eexists. split; [exact Hin|done]. }
    destruct (completed_record _ _ _ _ Hinv Hc)
      as (P0 & l & HP0 & Hl & Hct & _ & Htc & Hti).
    rewrite HP in HP0. injection HP0 as <-.
    destruct (inv_completed _ _ _ Hinv _ _ Hc) as (P0 & HP0 & Hok).
    rewrite HP in HP0. injection HP0 as <-.
    destruct Hok as (_ & _ & Hcpu & Hio' & _).
    exists l. split; [done|]. split; [lia|]. split; [lia|].
    rewrite Hlog. apply elem_of_app. right.
    apply list_elem_of_lookup in Hc as (k & Hk).
    eapply Forall2_lookup_r in Hrec as (ev & Hev' & Hspec); [|done].
    destruct Hspec as (P1 & HP1 & Hct1 & ->). simpl in *.
    rewrite HP in HP1. injection HP1 as <-.
    apply list_elem_of_lookup_2 in Hev'.
    rewrite Hct in Hev'. by rewrite Hcpu, Hio'.
Qed.

(** X11.  The trace accounts for every burst.  For a well-formed input
    whose bursts add up to a value of [int] the simulation of the program
    returns with a trace in which every process has exactly one [COMPLETED]
    event and one [ENTER_IO] event for each of its I/O bursts; the
    [COMPLETED] event of a process carries the sums of its CPU and of its
    I/O bursts, and the clock that the final report gives as its
    turnaround. *)
Theorem trace_accounts_for_every_burst o lines :
  well_formed lines → valid_options o → fits_in_int lines →
  ∃ s, (∀ fuel, (Z.to_nat (work_total lines) < fuel)%nat →
          Int32.simulate fuel o lines = Ok s) ∧
       (snd <$> completion_events (log s)) ≡ₚ seq 0 (length lines) ∧
       (∀ i l, lines !! i = Some l →
          io_entries i (log s) = (length l / 2)%nat) ∧
       (∀ id cpu io clock,
          CpuBurstExecution id cpu io clock COMPLETED ∈ log s →
          ∃ l, lines !! id = Some l ∧ cpu = cpu_sum l ∧ io = io_sum l ∧
               ProcessCompletion id clock (clock - (cpu + io)) ∈ log s).
Proof.
  intros Hwf Hvalid Hfit.
  destruct (trace_accounts_for_every_burst_exact o lines Hwf Hvalid)
    as (s & Hsim & Hs).
  exists s. split; [|done]. intros fuel Hfuel.
  rewrite simulate_int_agrees by done. by apply Hsim.
Qed.

(** ** The trace is in the order of the clock *)

Lemma iteration_chronological s1 s2 :
  chronological s1 → iteration s1 s2 → chronological s2.
Proof.
  intros (Hs & Hle & H0)
    [q rdy P why P' d _ _ Hd _ _ _ Ht Hlog _ _ _ _|d _ Hd Ht Hlog _ _ _].
  - unfold chronological. rewrite Hlog, Ht, omap_app.
    change (omap event_clock [CpuBurstExecution q (executed_cpu P + d)
                                (executed_io P) (time_elapsed s1 + d) why])
      with [time_elapsed s1 + d].
    split; [|split; [|lia]].
    + apply StronglySorted_app_2; [|done|repeat constructor].
      intros x1 x2 Hx1 Hx2. apply list_elem_of_singleton in Hx2 as ->.
      rewrite Forall_forall in Hle. specialize (Hle x1 Hx1). lia.
    + apply Forall_app. split.
      * eapply Forall_impl; [exact Hle|]. simpl. intros. lia.
      * apply Forall_singleton. lia.
  - unfold chronological. rewrite Hlog, Ht. split; [done|]. split; [|lia].
    eapply Forall_impl; [exact Hle|]. simpl. intros. lia.
Qed.

(** With the sums in [Z].  The trace is in the order of the clock, strictly:
    the simulation returns, and the clocks of the CPU events of its trace
    increase strictly, from above 0 up to at most the final clock.  No two CPU
    segments end at the same time. *)
Lemma trace_is_chronological_exact o lines :
  well_formed lines → valid_options o →
  ∃ s, (∀ fuel, (Z.to_nat (work_total lines) < fuel)%nat →
          simulate fuel o lines = Ok s) ∧
       StronglySorted Z.lt (omap event_clock (log s)) ∧
       Forall (λ c, 0 < c ≤ time_elapsed s) (omap event_clock (log s)).
Proof.
  intros Hwf Hvalid.
  destruct (simulate_result _ lines Hwf Hvalid)
    as (s & s' & records & Hsim & Hat & _ & _ & _ & _ & _ & Hlog & Hrec & _ & _ &
        Ht).
  exists s'. split; [done|].
  assert (chronological s) as (Hs & Hle & _).
  { apply (initial_invariant chronological o lines); try done.
    - intros s1 s2 _ _ _ H1 Hit. by eapply iteration_chronological.
    - destruct (initial_fields o lines) as (_ & Ht0 & _ & Hl0 & _).
      unfold chronological. rewrite Hl0, Ht0. simpl.
      split; [constructor|]. split; [constructor|done]. }
  assert (omap event_clock records = []) as Hnil.
  { clear -Hrec. induction Hrec as [|ev c records cs (P & _ & _ & ->) _ IH];
      [done|]. simpl. done. }
  by rewrite Hlog, omap_app, Hnil, app_nil_r, Ht.
Qed.

(** X12.  The trace is in the order of the clock, strictly.  For a
    well-formed input whose bursts add up to a value of [int] the
    simulation of the program returns, and the clocks of the CPU events of
    its trace increase strictly, from above 0 up to at most the final
    clock.  No two CPU segments end at the same time. *)
Theorem trace_is_chronological o lines :
  well_formed lines → valid_options o → fits_in_int lines →
  ∃ s, (∀ fuel, (Z.to_nat (work_total lines) < fuel)%nat →
          Int32.simulate fuel o lines = Ok s) ∧
       StronglySorted Z.lt (omap event_clock (log s)) ∧
       Forall (λ c, 0 < c ≤ time_elapsed s) (omap event_clock (log s)).
Proof.
  intros Hwf Hvalid Hfit.
  destruct (trace_is_chronological_exact o lines Hwf Hvalid) as (s & Hsim & Hs).
  exists s. split; [|done]. intros fuel Hfuel.
  rewrite simulate_int_agrees by done. by apply Hsim.
Qed.

(** ** A process without bursts *)

(** X13.  The dispatch loop does not check that a process has a burst: when
    the process at the front of the ready queue has none, the iteration
    reads the front of an empty deque, which is undefined behaviour, with
    any configuration and at any time. *)
Theorem empty_bursts_undefined s q rdy P fuel :
  ready s = q :: rdy → procs s !! q = Some P → bursts P = [] →
  run (S fuel) s = Undefined.
Proof.
  intros Hr HP Hb. simpl. unfold run_iter. rewrite Hr.
  unfold dispatch, front_burst. cbn [procs set_ready]. by rewrite HP, Hb.
Qed.

(** ** The comparators *)

(** X14.  The comparator of [stable_sort_blocked] is a strict weak order, as
    [std::stable_sort] requires: irreflexive, transitive, and with a
    transitive incomparability, under which two entries are incomparable
    only when they agree on the remaining I/O and on the stamp.  So the
    sorted deque is the one permutation of the entries that is in
    non-decreasing order and keeps such entries in their order. *)
Theorem blocked_comparator_strict_weak_order :
  (∀ a, blocked_lt a a = false) ∧
  (∀ a b c, blocked_lt a b = true → blocked_lt b c = true →
            blocked_lt a c = true) ∧
  (∀ a b c, incomparable blocked_lt a b → incomparable blocked_lt b c →
            incomparable blocked_lt a c) ∧
  (∀ a b, incomparable blocked_lt a b ↔
          remaining_io a = remaining_io b ∧ order a = order b) ∧
  (∀ bl, stable_sort_blocked bl ≡ₚ bl ∧
         StronglySorted blocked_le (stable_sort_blocked bl) ∧
         ∀ x, filter (incomparable blocked_lt x) (stable_sort_blocked bl) =
              filter (incomparable blocked_lt x) bl).
Proof.
  split; [|split; [|split; [|split]]].
  - intros a. unfold blocked_lt. compare_cases.
  - intros a b c. unfold blocked_lt. intros H1 H2. compare_cases.
  - apply swo_incomparable.
  - intros a b. unfold incomparable, blocked_lt. split.
    + intros [H1 H2]. compare_cases.
    + intros [H1 H2]. rewrite H1, H2. compare_cases.
  - intros bl. split; [apply stable_sort_perm|].
    split; [apply stable_sort_blocked_sorted|].
    intros x. apply (stable_sort_stable blocked_lt).
Qed.

(** ** First-come first-served without I/O *)

Lemma sum_list_snoc bs b : sum_list (bs ++ [b]) = sum_list bs + b.
Proof.
  unfold sum_list. induction bs as [|x bs IH]; simpl in *; lia.
Qed.

Lemma cpu_only_well_formed bs :
  Forall (λ b, 0 < b) bs → well_formed (cpu_only bs).
Proof.
  intros H. unfold well_formed, cpu_only. apply Forall_fmap.
  eapply Forall_impl; [exact H|]. simpl. intros b Hb.
  split; [done|]. by apply Forall_singleton.
Qed.

Lemma served_step bs quantum k s1 s2 :
  inv (cpu_only bs) LoopHead s1 → opt s1 = mkOptions FCFS quantum →
  served bs k s1 → run_iter s1 = Ok (Some s2) → served bs (S k) s2.
Proof.
  intros Hinv Hopt (Hk & Hr & Hb & Hc & Ht & Hrest) Hiter.
  apply run_iter_cases in Hiter as [(q & rdy & Hr' & Hd)|(_ & Hb' & _)];
    [|done].
  assert (valid_options (opt s1)) as Hvalid by (rewrite Hopt; by left).
  destruct (dispatch_big_step _ _ _ _ Hinv Hvalid Hr')
    as (P & c & rest & why & P' & s' & HP & HbP & Hseg & Hout & Hd' & _ &
        Ht' & Hprocs & Hrdy & Hblk & Hcomp & _).
  cbv zeta in *. rewrite Hd in Hd'. injection Hd' as <-.
  rewrite Hb in *. change (stable_sort_blocked []) with (@nil BlockedItem) in *.
  rewrite Hr in Hr'.
  destruct (length bs - k)%nat as [|m] eqn:Hm; [done|].
  simpl in Hr'. injection Hr' as <- <-.
  assert (k < length bs)%nat as Hlt by lia.
  destruct (lookup_lt_is_Some_2 bs k Hlt) as [b Hbk].
  destruct (Hrest k b (reflexivity _) Hbk) as (P0 & HP0 & Hb0).
  rewrite HP in HP0. injection HP0 as <-.
  rewrite HbP in Hb0. injection Hb0 as -> ->.
  assert (segment_length (opt s1) b = b) as Hsegc.
  { unfold segment_length. by rewrite Hopt. }
  rewrite Hsegc in *.
  assert (why = COMPLETED) as ->.
  { inversion Hout as [c' rest' Hb' Hlt'|io rest' Hb'|]; subst; try done.
    - rewrite HbP in Hb'. injection Hb' as <- <-. lia.
    - by rewrite HbP in Hb'. }
  unfold advance_step in Hrdy, Hblk, Hprocs.
  cbn [ready blocked procs set_ready set_procs set_blocked fmap list_fmap
       filter list_filter alter_each foldl] in Hrdy, Hblk, Hprocs.
  rewrite decide_False in Hrdy by done. rewrite !app_nil_r in Hrdy.
  unfold blocked_after in Hblk.
  cbn [blocked set_ready set_procs set_blocked] in Hblk.
  rewrite decide_True in Hcomp by done.
  split; [lia|]. split.
  { rewrite Hrdy. f_equal. lia. }
  split; [done|]. split.
  { rewrite Hcomp, Hc, Ht. rewrite (take_S_r bs k b Hbk).
    rewrite imap_app. f_equal. simpl.
    rewrite length_take_le by lia. rewrite Nat.add_0_r.
    by rewrite (take_S_r bs k b Hbk), sum_list_snoc. }
  split.
  { rewrite Ht', Ht. by rewrite (take_S_r bs k b Hbk), sum_list_snoc. }
  intros i b' Hi Hbi. rewrite Hprocs, list_lookup_insert_ne by lia.
  apply Hrest; [lia|done].
Qed.

(** With the sums in [Z].  First-come first-served on processes that have one
    CPU burst each serves them in the order of the input, back to back: the
    simulation returns, process [i] completes when the bursts up to its own
    have been executed, and it is reported as wait the sum of the bursts
    before its own. *)
Lemma fcfs_cpu_only_schedule_exact quantum bs :
  Forall (λ b, 0 < b) bs →
  ∃ s, (∀ fuel, (Z.to_nat (work_total (cpu_only bs)) < fuel)%nat →
          simulate fuel (mkOptions FCFS quantum) (cpu_only bs) = Ok s) ∧
       completed s = imap (λ i _, (sum_list (take (S i) bs), i)) bs ∧
       time_elapsed s = sum_list bs ∧
       ∀ i b, bs !! i = Some b →
         ProcessCompletion i (sum_list (take (S i) bs)) (sum_list (take i bs))
           ∈ log s.
Proof.
  intros Hpos. pose proof (cpu_only_well_formed bs Hpos) as Hwf.
  assert (valid_options (mkOptions FCFS quantum)) as Hvalid by (by left).
  destruct (simulate_result _ _ Hwf Hvalid)
    as (s & s' & records & Hsim & Hat & Hinv & _ & _ & Hr & Hb & Hlog & Hrec &
        _ & Hcomp' & Ht').
  exists s'. split; [done|].
  destruct (initial_fields (mkOptions FCFS quantum) (cpu_only bs))
    as (Hopt0 & Ht0 & Hc0 & _ & Hb0 & Hr0).
  assert (∃ k, served bs k s) as (k & Hk & Hrk & _ & Hc & Ht & _).
  { destruct (at_loop_head_invariant_iter (λ s, ∃ k, served bs k s)
                (cpu_only bs) (initial (mkOptions FCFS quantum) (cpu_only bs))
                s) as (H & _); try done.
    - intros s1 s2 Hi1 _ Ho [k Hs] Hiter. exists (S k).
      eapply served_step; [done| |done|done]. by rewrite Ho, Hopt0.
    - by apply initial_inv.
    - exists 0%nat. unfold served.
      rewrite Hr0, Hb0, Hc0, Ht0. unfold cpu_only. rewrite length_fmap.
      split; [lia|]. split; [by rewrite Nat.sub_0_r|].
      do 3 (split; [done|]).
      intros i b _ Hbi. unfold initial, init_from_lines.
      cbn [procs set_procs set_ready].
      rewrite list_lookup_imap, list_lookup_fmap, Hbi. simpl.
      eexists. split; [done|].
      by destruct (make_proc_spec i [b]) as (_ & -> & _). }
  assert (k = length bs) as ->.
  { rewrite Hr in Hrk. destruct (length bs - k)%nat eqn:?; [lia|done]. }
  rewrite firstn_all in Hc, Ht.
  split; [by rewrite Hcomp'|]. split; [by rewrite Ht'|].
  intros i b Hbi. rewrite Hlog. apply elem_of_app. right.
  assert (completed s !! i = Some (sum_list (take (S i) bs), i)) as Hci.
  { rewrite Hc, list_lookup_imap, Hbi. done. }
  eapply Forall2_lookup_r in Hrec as (ev & Hev & Hspec); [|done].
  destruct Hspec as (P & HP & Hct & ->). simpl in *.
  apply list_elem_of_lookup_2 in Hci.
  destruct (completed_record _ _ _ _ Hinv Hci)
    as (P0 & l & HP0 & Hl & _ & _ & Htc & Hti).
  rewrite HP in HP0. injection HP0 as <-.
  unfold cpu_only in Hl. rewrite list_lookup_fmap, Hbi in Hl.
  injection Hl as <-. simpl in Htc, Hti.
  apply list_elem_of_lookup_2 in Hev.
  rewrite (take_S_r bs i b Hbi), sum_list_snoc in Hct |- *.
  rewrite Hct in Hev.
  replace (sum_list (take i bs) + b - (total_cpu P + total_io P))
    with (sum_list (take i bs)) in Hev by lia.
  done.
Qed.

(** X15.  First-come first-served on processes that have one CPU burst
    each, the bursts adding up to a value of [int], serves them in the
    order of the input, back to back: the simulation of the program
    returns, process [i] completes when the bursts up to its own have been
    executed, and it is reported as wait the sum of the bursts before its
    own. *)
Theorem fcfs_cpu_only_schedule quantum bs :
  Forall (λ b, 0 < b) bs → sum_list bs ≤ INT_MAX →
  ∃ s, (∀ fuel, (Z.to_nat (work_total (cpu_only bs)) < fuel)%nat →
          Int32.simulate fuel (mkOptions FCFS quantum) (cpu_only bs) = Ok s) ∧
       completed s = imap (λ i _, (sum_list (take (S i) bs), i)) bs ∧
       time_elapsed s = sum_list bs ∧
       ∀ i b, bs !! i = Some b →
         ProcessCompletion i (sum_list (take (S i) bs)) (sum_list (take i bs))
           ∈ log s.
Proof.
  intros Hpos Hfit.
  destruct (fcfs_cpu_only_schedule_exact quantum bs Hpos) as (s & Hsim & Hs).
  exists s. split; [|done]. intros fuel Hfuel.
  rewrite simulate_int_agrees; [by apply Hsim|by apply cpu_only_well_formed|].
  unfold fits_in_int.
  assert (work_total (cpu_only bs) = sum_list bs) as ->; [|done].
  clear. unfold work_total, cpu_only, sum_list, total_of.
  induction bs as [|b bs IH]; [done|]. rewrite fmap_cons. cbn [foldr cpu_sum io_sum]. rewrite IH. lia.
Qed.

(** ** Round-robin with a quantum no burst exceeds *)

Lemma cpu_bursts_le_tail Q x b : cpu_bursts_le Q (x :: b) → cpu_bursts_le Q b.
Proof. intros H k c Hk Hodd. apply (H (S k) c); done. Qed.

Lemma cpu_bursts_le_front Q x x' b :
  x' ≤ x → cpu_bursts_le Q (x :: b) → cpu_bursts_le Q (x' :: b).
Proof.
  intros Hle H [|k] c Hk Hodd.
  - injection Hk as <-. specialize (H 0%nat x eq_refl Hodd). lia.
  - by apply (H (S k) c).
Qed.

Lemma cpu_outcome_le Q now d P why P' :
  0 < d → cpu_bursts_le Q (bursts P) → cpu_outcome now d P why P' →
  cpu_bursts_le Q (bursts P').
Proof.
  intros Hd H [c rest Hb Hlt|io rest Hb Hio|Hb]; simpl; rewrite Hb in H.
  - eapply cpu_bursts_le_front; [|exact H]. lia.
  - by eapply cpu_bursts_le_tail.
  - by intros k c Hk.
Qed.

Lemma io_outcome_le Q d P P' :
  cpu_bursts_le Q (bursts P) → io_outcome d P P' →
  cpu_bursts_le Q (bursts P').
Proof.
  intros H [| |e io c rest He Hle Hb Hc Heven]; simpl; try done.
  rewrite Hb in *. simpl. by eapply cpu_bursts_le_tail.
Qed.

Lemma iteration_quantum_covers Q lines s1 s2 :
  inv lines LoopHead s1 → inv lines LoopHead s2 →
  quantum_covers Q s1 → iteration s1 s2 → quantum_covers Q s2.
Proof.
  intros Hinv1 Hinv2 HΦ
    [q rdy P why P' d Hr HP Hd _ Hout HP' _ _ _ _ _ Hothers
    |d Hr Hd _ _ _ _ Hothers] i P2 HP2;
    destruct (inv_lookup_Some _ _ _ _ _ _ _ Hinv1 Hinv2 HP2) as [P1 HP1];
    specialize (HΦ i P1 HP1).
  - destruct (decide (i = q)) as [->|Hne].
    + rewrite HP in HP1. injection HP1 as <-.
      rewrite HP' in HP2. injection HP2 as <-.
      by eapply cpu_outcome_le.
    + destruct (Hothers i P1 Hne HP1) as (P2' & HP2' & Hio & _).
      rewrite HP2 in HP2'. injection HP2' as <-.
      by eapply io_outcome_le.
  - destruct (Hothers i P1 HP1) as (P2' & HP2' & Hio & _).
    rewrite HP2 in HP2'. injection HP2' as <-.
    by eapply io_outcome_le.
Qed.

Lemma dispatch_set_opt_same o q s :
  (∀ c, front_burst q s = Ok c →
        segment_length o c = segment_length (opt s) c) →
  dispatch q (set_opt o s) = res_map (set_opt o) (dispatch q s).
Proof.
  intros Hseg. unfold dispatch.
  change (front_burst q (set_opt o s)) with (front_burst q s).
  destruct (front_burst q s) as [c| |] eqn:Hc; try done.
  cbn [res_bind opt set_opt]. rewrite (Hseg c eq_refl).
  rewrite exec_segment_set_opt, res_bind_map, res_map_bind.
  apply res_bind_ext. intros s1. apply finish_segment_set_opt.
Qed.

Lemma run_iter_set_opt_same o s :
  (∀ q rdy c, ready s = q :: rdy → front_burst q s = Ok c →
              segment_length o c = segment_length (opt s) c) →
  run_iter (set_opt o s) = res_map (fmap (set_opt o)) (run_iter s).
Proof.
  intros Hseg. unfold run_iter. cbn [ready blocked set_opt].
  destruct (ready s) as [|q rdy] eqn:Hr.
  - destruct (blocked s); [done|].
    rewrite idle_jump_set_opt. by destruct (idle_jump s).
  - change (set_ready rdy (set_opt o s)) with (set_opt o (set_ready rdy s)).
    rewrite dispatch_set_opt_same; [by destruct (dispatch _ _)|].
    intros c Hc. by eapply Hseg.
Qed.

Lemma run_set_opt_quantum_covers lines Q q' fuel s :
  0 < Q → inv lines LoopHead s → opt s = mkOptions RR Q →
  quantum_covers Q s →
  run fuel (set_opt (mkOptions FCFS q') s) =
    res_map (set_opt (mkOptions FCFS q')) (run fuel s).
Proof.
  intros HQ. revert s. induction fuel as [|fuel IH];
    intros s Hinv Hopt Hcov; [done|].
  simpl. rewrite run_iter_set_opt_same.
  2:{ intros q rdy c Hr Hc. unfold segment_length. rewrite Hopt. simpl.
      destruct (inv_ready _ _ _ Hinv q) as (P & HP & Hodd & _).
      { rewrite Hr. by left. }
      unfold front_burst in Hc. rewrite HP in Hc.
      destruct (bursts P) as [|c' rest] eqn:Hb; [done|]. injection Hc as ->.
      specialize (Hcov q P HP). rewrite Hb in Hcov.
      specialize (Hcov 0%nat c eq_refl). rewrite Nat.sub_0_r in Hcov.
      specialize (Hcov Hodd). lia. }
  destruct (run_iter s) as [[s'|]| |] eqn:Hiter; simpl; try done.
  assert (valid_options (opt s)) as Hvalid.
  { rewrite Hopt. by right. }
  destruct (run_iter_inv _ _ Hinv)
    as [(_ & _ & Hnone)|(s2 & Hs2 & Hinv2 & Hopt2 & _)].
  { by rewrite Hnone in Hiter. }
  rewrite Hs2 in Hiter. injection Hiter as ->.
  apply IH; [done|congruence|].
  eapply iteration_quantum_covers; [exact Hinv|exact Hinv2|done|].
  by eapply run_iter_iteration.
Qed.

(** X16.  Round-robin with a quantum that no CPU burst of the input exceeds
    is first-come first-served: with any amount of fuel the two simulations
    agree on whether they return and, when they do, on the trace, the clock,
    the completion records and the process table. *)
Theorem rr_large_quantum_is_fcfs lines Q q' :
  well_formed lines → 0 < Q →
  (∀ l k c, l ∈ lines → l !! k = Some c → Nat.even k = true → c ≤ Q) →
  ∀ fuel,
    res_map observable (simulate fuel (mkOptions RR Q) lines) =
    res_map observable (simulate fuel (mkOptions FCFS q') lines).
Proof.
  intros Hwf HQ Hle fuel. unfold simulate.
  change (init_from_lines lines (new_simulation (mkOptions FCFS q')))
    with (set_opt (mkOptions FCFS q') (initial (mkOptions RR Q) lines)).
  fold (initial (mkOptions RR Q) lines).
  rewrite (run_set_opt_quantum_covers lines Q q' fuel _ HQ
             (initial_inv _ _ Hwf) (proj1 (initial_fields _ _))).
  - rewrite res_bind_map.
    destruct (run fuel (initial (mkOptions RR Q) lines)) as [s| |]; try done.
    simpl. rewrite print_stats_set_opt.
    by destruct (print_stats_and_finish s).
  - intros i P HP k c Hk Hodd.
    unfold initial, init_from_lines in HP. cbn [procs set_procs set_ready] in HP.
    rewrite list_lookup_imap in HP.
    destruct (lines !! i) as [l|] eqn:Hl; [|done]. injection HP as <-.
    destruct (make_proc_spec i l) as (_ & Hb & _). rewrite Hb in Hk, Hodd.
    apply (Hle l k c); [by eapply list_elem_of_lookup_2|done|].
    unfold well_formed in Hwf. rewrite Forall_forall in Hwf.
    destruct (Hwf l) as [Hl_odd _]; [by eapply list_elem_of_lookup_2|].
    apply lookup_lt_Some in Hk.
    apply odd_half in Hl_odd as [a Ha]. apply odd_half in Hodd as [b' Hb'].
    apply Nat.even_spec. exists (a - b')%nat. lia.
Qed.

(** ** The order in which blocked processes become ready *)

(** X17.  Processes whose I/O ends within the same advance of the blocked
    set join the ready queue in the order of the comparator of
    [stable_sort_blocked]: the one with less I/O to go first and, when they
    have as much to go, the one that was blocked first. *)
Theorem released_in_blocked_order dt s b1 b2 :
  0 < dt →
  (∀ bi, bi ∈ blocked s → 0 < remaining_io bi) →
  NoDup (p <$> blocked s) →
  b1 ∈ blocked s → b2 ∈ blocked s →
  blocked_lt b1 b2 = true → remaining_io b2 ≤ dt →
  ∃ s' r1 r2 r3,
    advance_blocked dt s = Ok s' ∧
    ready s' = ready s ++ r1 ++ p b1 :: r2 ++ p b2 :: r3.
Proof.
  intros Hdt Hpos Hnd H1 H2 Hlt Hle.
  rewrite advance_blocked_closed by done.
  pose proof (stable_sort_blocked_sorted (blocked s)) as Hsorted.
  assert (stable_sort_blocked (blocked s) ≡ₚ blocked s) as Hperm
    by apply stable_sort_perm.
  rewrite <- Hperm in H1, H2.
  set (sorted := stable_sort_blocked (blocked s)) in *.
  assert (remaining_io b1 ≤ dt) as Hle1.
  { revert Hlt. unfold blocked_lt. intros. compare_cases. }
  apply list_elem_of_split in H1 as (l1 & l2 & Hsplit).
  rewrite Hsplit in H2, Hsorted.
  assert (b2 ∈ l2) as H2'.
  { apply elem_of_app in H2 as [H2|H2].
    - exfalso.
      assert (blocked_le b2 b1) as Hcontra.
      { eapply (StronglySorted_app_1_elem_of _ l1 (b1 :: l2)); try done.
        by left. }
      unfold blocked_le in Hcontra. congruence.
    - apply elem_of_cons in H2 as [->|H2]; [|done].
      exfalso. revert Hlt. unfold blocked_lt. intros. compare_cases. }
  apply list_elem_of_split in H2' as (l2a & l2b & ->).
  eexists _, (p <$> filter (λ bi, remaining_io bi ≤ dt) l1),
    (p <$> filter (λ bi, remaining_io bi ≤ dt) l2a),
    (p <$> filter (λ bi, remaining_io bi ≤ dt) l2b).
  split; [done|].
  unfold advance_step. cbn [ready set_ready]. f_equal.
  rewrite released_filter, Hsplit.
  rewrite filter_app, fmap_app. f_equal.
  rewrite filter_cons_True, fmap_cons by done. f_equal.
  rewrite filter_app, fmap_app. f_equal.
  by rewrite filter_cons_True, fmap_cons by done.
Qed.

(** ** Instances of the theorems on the scheduler *)

Lemma blocked_set_stays_sorted_witness :
  reach LoopHead (initial (mkOptions FCFS 2) [[1; 4; 1]; [1; 3; 1]]) LoopHead
    blocked_tie ∧
  StronglySorted order_lt (blocked blocked_tie) ∧
  stable_sort_blocked (blocked blocked_tie) = blocked blocked_tie ∧
  (∀ bi, bi ∈ blocked blocked_tie →
         (order bi < order_counter blocked_tie)%nat).
Proof.
  assert (reach LoopHead (initial (mkOptions FCFS 2) [[1; 4; 1]; [1; 3; 1]])
            LoopHead blocked_tie) as Hreach.
  { eapply run_iter_reach; [eapply run_iter_reach; [apply reach_init|]|];
      vm_compute; reflexivity. }
  split; [exact Hreach|].
  exact (blocked_set_stays_sorted (mkOptions FCFS 2) [[1; 4; 1]; [1; 3; 1]]
           LoopHead blocked_tie Hreach).
Defined.

Lemma blocked_tie_positive bi :
  bi ∈ blocked blocked_tie → 0 < remaining_io bi.
Proof.
  intros Hbi. simpl in Hbi.
  repeat (apply elem_of_cons in Hbi as [->|Hbi]; [simpl; lia|]).
  by apply elem_of_nil in Hbi.
Qed.

Lemma blocked_tie_NoDup : NoDup (p <$> blocked blocked_tie).
Proof. apply (bool_decide_unpack _). by vm_compute. Qed.

Lemma advance_blocked_effect_witness :
  ∃ s',
    advance_blocked 3 blocked_tie = Ok s' ∧
    let sorted := stable_sort_blocked (blocked blocked_tie) in
    blocked s' =
      ((λ bi, mkBlockedItem (p bi) (remaining_io bi - 3) (order bi)) <$>
         filter (λ bi, 3 < remaining_io bi) sorted) ∧
    ready s' =
      ready blocked_tie ++ (p <$> filter (λ bi, remaining_io bi ≤ 3) sorted) ∧
    (∀ bi, bi ∈ blocked blocked_tie →
       procs s' !! p bi =
         (λ P, if decide (remaining_io bi ≤ 3)
               then pop_front (add_executed_io (remaining_io bi) P)
               else add_executed_io 3 P) <$> procs blocked_tie !! p bi) ∧
    (∀ i, i ∉ p <$> blocked blocked_tie →
          procs s' !! i = procs blocked_tie !! i) ∧
    time_elapsed s' = time_elapsed blocked_tie ∧
    completed s' = completed blocked_tie ∧
    log s' = log blocked_tie ∧
    order_counter s' = order_counter blocked_tie ∧ opt s' = opt blocked_tie.
Proof.
  apply (advance_blocked_effect 3 blocked_tie).
  - lia.
  - apply blocked_tie_positive.
  - apply blocked_tie_NoDup.
Defined.

Lemma advance_blocked_additive_witness :
  (let* s1 := advance_blocked 1 blocked_tie in advance_blocked 2 s1) =
  advance_blocked (1 + 2) blocked_tie.
Proof.
  apply (advance_blocked_additive 1 2 blocked_tie).
  - lia.
  - lia.
  - apply blocked_tie_positive.
  - apply blocked_tie_NoDup.
Defined.

Lemma segment_in_one_step_witness :
  well_formed scenario_D ∧
  reach LoopHead (initial (mkOptions FCFS 2) scenario_D) (Executing 1 2)
    scenario_D_mid ∧
  exec_segment 2 1 2 scenario_D_mid =
    advance_blocked 2
      (run_on_cpu 1 (mkProc 1 [2] 3 0 5 0 (-1)) 2 [] 2 scenario_D_mid).
Proof.
  split; [well_formed_by_evaluation|].
  split; [reach_by_evaluation 1%nat 5|].
  apply (segment_in_one_step (mkOptions FCFS 2) scenario_D 1 2 scenario_D_mid
           (mkProc 1 [2] 3 0 5 0 (-1)) 2 [] 2).
  - well_formed_by_evaluation.
  - reach_by_evaluation 1%nat 5.
  - lia.
  - simpl. lia.
  - reflexivity.
  - reflexivity.
Defined.

Lemma rr_nonpositive_quantum_never_ends_witness :
  run 1000 (initial (mkOptions RR 0) scenario_C) = OutOfFuel.
Proof.
  apply (rr_nonpositive_quantum_never_ends (mkOptions RR 0) scenario_C 1000).
  - reflexivity.
  - simpl. lia.
  - well_formed_by_evaluation.
  - discriminate.
Defined.

Lemma fcfs_never_preempts_witness :
  ∃ s, (∀ fuel, (Z.to_nat (work_total scenario_D) < fuel)%nat →
          simulate fuel (mkOptions FCFS 1) scenario_D = Ok s) ∧
       ∀ id cpu io clock,
         CpuBurstExecution id cpu io clock QUANTUM_EXPIRED ∉ log s.
Proof.
  apply (fcfs_never_preempts 1 scenario_D). well_formed_by_evaluation.
Defined.

Lemma wait_never_negative_witness :
  ∃ s, (∀ fuel, (Z.to_nat (work_total scenario_C) < fuel)%nat →
          Int32.simulate fuel (mkOptions RR 2) scenario_C = Ok s) ∧
       ∀ id turnaround wait,
         ProcessCompletion id turnaround wait ∈ log s →
         0 ≤ wait ∧
         ∃ l, scenario_C !! id = Some l ∧
              turnaround = wait + (cpu_sum l + io_sum l).
Proof.
  apply (wait_never_negative (mkOptions RR 2) scenario_C).
  - well_formed_by_evaluation.
  - right. simpl. lia.
  - apply scenario_C_fits.
Defined.

Lemma makespan_bounds_witness :
  ∃ s, (∀ fuel, (Z.to_nat (work_total scenario_D) < fuel)%nat →
          Int32.run fuel (Int32.initial (mkOptions RR 2) scenario_D) = Ok s) ∧
       total_of cpu_sum scenario_D ≤ time_elapsed s ≤ work_total scenario_D ∧
       (∀ l, l ∈ scenario_D → cpu_sum l + io_sum l ≤ time_elapsed s) ∧
       (scenario_D ≠ [] →
        ∃ cs q, completed s = cs ++ [(time_elapsed s, q)]).
Proof.
  apply (makespan_bounds (mkOptions RR 2) scenario_D).
  - well_formed_by_evaluation.
  - right. simpl. lia.
  - apply scenario_D_fits.
Defined.

Lemma lone_process_never_waits_witness :
  ∃ s records,
    (∀ fuel, (Z.to_nat (work_total [scenario_B]) < fuel)%nat →
       Int32.simulate fuel (mkOptions RR 2) [scenario_B] = Ok s) ∧
    log s = records ++
            [ProcessCompletion 0 (cpu_sum scenario_B + io_sum scenario_B) 0] ∧
    ∀ id t w, ProcessCompletion id t w ∉ records.
Proof.
  apply (lone_process_never_waits (mkOptions RR 2) scenario_B).
  - well_formed_by_evaluation.
  - right. simpl. lia.
  - apply scenario_B_fits.
Defined.

Lemma bursts_only_shrink_witness :
  ∃ s P,
    run_iter (initial (mkOptions RR 1) scenario_D) = Ok (Some s) ∧
    procs s !! 0%nat = Some P ∧
    remains_of [2; 3; 2] (bursts P).
Proof.
  eexists _, _. split; [vm_compute; reflexivity|].
  split; [vm_compute; reflexivity|].
  eapply (bursts_only_shrink (mkOptions RR 1) scenario_D _ 0%nat _ [2; 3; 2]).
  - well_formed_by_evaluation.
  - right. simpl. lia.
  - eapply at_loop_head_next; [apply at_loop_head_first|].
    vm_compute. reflexivity.
  - vm_compute. reflexivity.
  - reflexivity.
Defined.

Lemma trace_accounts_for_every_burst_witness :
  ∃ s, (∀ fuel, (Z.to_nat (work_total scenario_D) < fuel)%nat →
          Int32.simulate fuel (mkOptions RR 1) scenario_D = Ok s) ∧
       (snd <$> completion_events (log s)) ≡ₚ seq 0 (length scenario_D) ∧
       (∀ i l, scenario_D !! i = Some l →
          io_entries i (log s) = (length l / 2)%nat) ∧
       (∀ id cpu io clock,
          CpuBurstExecution id cpu io clock COMPLETED ∈ log s →
          ∃ l, scenario_D !! id = Some l ∧ cpu = cpu_sum l ∧ io = io_sum l ∧
               ProcessCompletion id clock (clock - (cpu + io)) ∈ log s).
Proof.
  apply (trace_accounts_for_every_burst (mkOptions RR 1) scenario_D).
  - well_formed_by_evaluation.
  - right. simpl. lia.
  - apply scenario_D_fits.
Defined.

Lemma trace_is_chronological_witness :
  ∃ s, (∀ fuel, (Z.to_nat (work_total scenario_D) < fuel)%nat →
          Int32.simulate fuel (mkOptions RR 1) scenario_D = Ok s) ∧
       StronglySorted Z.lt (omap event_clock (log s)) ∧
       Forall (λ c, 0 < c ≤ time_elapsed s) (omap event_clock (log s)).
Proof.
  apply (trace_is_chronological (mkOptions RR 1) scenario_D).
  - well_formed_by_evaluation.
  - right. simpl. lia.
  - apply scenario_D_fits.
Defined.

Lemma empty_bursts_undefined_witness :
  run 1 (initial (mkOptions FCFS 2) [[]; [3]]) = Undefined.
Proof.
  apply (empty_bursts_undefined (initial (mkOptions FCFS 2) [[]; [3]])
           0%nat [1%nat] (mkProc 0 [] 0 0 0 0 (-1)) 0); reflexivity.
Defined.

Lemma fcfs_cpu_only_schedule_witness :
  ∃ s, (∀ fuel, (Z.to_nat (work_total (cpu_only three_jobs)) < fuel)%nat →
          Int32.simulate fuel (mkOptions FCFS 2) (cpu_only three_jobs) = Ok s) ∧
       completed s =
         imap (λ i _, (sum_list (take (S i) three_jobs), i)) three_jobs ∧
       time_elapsed s = sum_list three_jobs ∧
       ∀ i b, three_jobs !! i = Some b →
         ProcessCompletion i (sum_list (take (S i) three_jobs))
           (sum_list (take i three_jobs)) ∈ log s.
Proof.
  apply (fcfs_cpu_only_schedule 2 three_jobs).
  - repeat (apply Forall_cons; split; [lia|]). apply Forall_nil_2.
  - unfold INT_MAX. by vm_compute.
Defined.

Lemma rr_large_quantum_is_fcfs_witness :
  res_map observable (simulate 20 (mkOptions RR 5) scenario_D) =
  res_map observable (simulate 20 (mkOptions FCFS 7) scenario_D).
Proof.
  apply (rr_large_quantum_is_fcfs scenario_D 5 7).
  - well_formed_by_evaluation.
  - lia.
  - intros l k c Hl Hk Heven. unfold scenario_D in Hl.
    apply elem_of_cons in Hl as [->|Hl].
    { destruct k as [|[|[|k]]]; try discriminate; injection Hk as <-; lia. }
    apply elem_of_cons in Hl as [->|Hl].
    { destruct k as [|k]; try discriminate; injection Hk as <-; lia. }
    by apply elem_of_nil in Hl.
Defined.

Lemma released_in_blocked_order_witness :
  ∃ s' r1 r2 r3,
    advance_blocked 3 blocked_tie = Ok s' ∧
    ready s' = ready blocked_tie ++ r1 ++ 0%nat :: r2 ++ 1%nat :: r3.
Proof.
  apply (released_in_blocked_order 3 blocked_tie (mkBlockedItem 0 3 0)
           (mkBlockedItem 1 3 1)).
  - lia.
  - apply blocked_tie_positive.
  - apply blocked_tie_NoDup.
  - simpl. by left.
  - simpl. right. by left.
  - reflexivity.
  - simpl. lia.
Defined.

(** * The loader, the command line and main *)

Lemma push_bursts_positive xs bl :
  Forall (λ x, 0 < x) xs → push_bursts xs bl = Returns (bl ++ xs).
Proof.
  revert bl. induction xs as [|x xs IH]; intros bl Hpos; simpl.
  { by rewrite app_nil_r. }
  apply Forall_cons in Hpos as [Hx Hpos].
  rewrite (proj2 (Z.leb_gt x 0)) by done.
  rewrite IH by done. by rewrite <- app_assoc.
Qed.

Lemma push_bursts_nonpositive xs bl :
  ¬ Forall (λ x, 0 < x) xs → push_bursts xs bl = Exits msg_positive.
Proof.
  revert bl. induction xs as [|x xs IH]; intros bl Hneg; simpl.
  { by destruct Hneg. }
  destruct (Z.leb_spec x 0) as [Hx|Hx]; [done|].
  apply IH. intros Hpos. apply Hneg. by constructor.
Qed.

Lemma read_line_no_error extract line ls lines :
  line ≠ EmptyString → first_error (extract line) = None →
  read_lines extract (line :: ls) lines =
    read_lines extract ls
      (lines ++ filter (λ xs, xs ≠ []) [extract line]).
Proof.
  intros Hne Herr. simpl. rewrite decide_False by done.
  unfold first_error in Herr.
  destruct (decide (Forall _ _)) as [Hpos|]; [|done].
  destruct (decide (_ ∧ _)) as [|Hok]; [done|].
  rewrite push_bursts_positive by done. simpl.
  rewrite filter_cons, filter_nil.
  destruct (decide (extract line = [])) as [Hnil|Hnnil].
  - rewrite bool_decide_eq_true_2 by done. simpl.
    rewrite decide_False by (by intros ?). by rewrite app_nil_r.
  - rewrite bool_decide_eq_false_2 by done. simpl.
    rewrite decide_True by done.
    destruct (Nat.even (length (extract line))) eqn:Heven; [|done].
    destruct Hok. done.
Qed.

Lemma read_line_error extract line ls lines out :
  line ≠ EmptyString → first_error (extract line) = Some out →
  read_lines extract (line :: ls) lines = Exits out.
Proof.
  intros Hne Herr. simpl. rewrite decide_False by done.
  unfold first_error in Herr.
  destruct (decide (Forall _ _)) as [Hpos|Hneg].
  - destruct (decide (_ ∧ _)) as [[Hnnil Heven]|]; [|done].
    injection Herr as <-.
    rewrite push_bursts_positive by done. simpl.
    by rewrite bool_decide_eq_false_2, Heven by done.
  - injection Herr as <-. by rewrite push_bursts_nonpositive.
Qed.

(** [read_lines] in one formula. *)
Lemma read_lines_spec extract ls lines :
  read_lines extract ls lines =
    let numbers := extract <$> filter (λ l, l ≠ EmptyString) ls in
    match list_find (λ xs, is_Some (first_error xs)) numbers with
    | Some (_, xs) => Exits (default EmptyString (first_error xs))
    | None => Returns (lines ++ filter (λ xs, xs ≠ []) numbers)
    end.
Proof.
  revert lines. induction ls as [|line ls IH]; intros lines.
  { simpl. by rewrite app_nil_r. }
  cbv zeta in *. rewrite filter_cons.
  destruct (decide (line ≠ EmptyString)) as [Hne|He].
  - rewrite fmap_cons. cbn [list_find].
    destruct (first_error (extract line)) as [out|] eqn:Herr.
    + rewrite decide_True by eauto. simpl. rewrite Herr.
      by apply read_line_error.
    + rewrite decide_False by (by intros [? ?]).
      rewrite read_line_no_error, IH by done.
      destruct (list_find _ _) as [[i xs]|]; simpl; [done|].
      rewrite filter_cons, <- app_assoc. f_equal. f_equal.
      rewrite filter_cons, filter_nil.
      by destruct (decide (extract line ≠ [])).
  - assert (line = EmptyString) as -> by (by destruct (decide (line = EmptyString)); [|destruct He]).
    simpl. apply IH.
Qed.

Lemma first_error_None xs :
  first_error xs = None ↔ xs = [] ∨ well_formed_line xs.
Proof.
  unfold first_error, well_formed_line.
  destruct (decide (Forall _ _)) as [Hpos|Hneg].
  - destruct (decide (_ ∧ _)) as [[Hne Heven]|Hok].
    + split; [done|]. intros [->|[Hodd _]]; [done|].
      rewrite <- Nat.negb_even, Heven in Hodd. done.
    + split; [|done]. intros _.
      destruct xs as [|x xs]; [by left|]. right. split; [|done].
      rewrite <- Nat.negb_even.
      destruct (Nat.even (length (x :: xs))) eqn:Heven; [|done].
      destruct Hok. done.
  - split; [done|]. intros [->|[_ Hpos]]; by destruct Hneg.
Qed.

Lemma list_find_None_Forall {A} (P : A → Prop) `{∀ x, Decision (P x)} l :
  list_find P l = None ↔ Forall (λ x, ¬ P x) l.
Proof. apply list_find_None. Qed.

(** X18.  What [read_bursts] accepts.  It returns exactly when the file can be
    opened and the numbers of every line of the text are none at all, or
    positive and odd in number; it then returns the numbers of the lines
    that have some, in the order of the text, whatever [operator>>] reads
    as the numbers of a line.  What it returns is well formed, which is
    what the scheduler needs. *)
Theorem read_bursts_accepts extract path file lines :
  read_bursts_with extract path file = Returns lines ↔
  ∃ text,
    file = Some text ∧
    Forall (λ xs, xs = [] ∨ well_formed_line xs) (numbers_of extract text) ∧
    lines = filter (λ xs, xs ≠ []) (numbers_of extract text) ∧
    well_formed lines.
Proof.
  unfold read_bursts_with. destruct file as [text|].
  2:{ split; [done|]. by intros (? & ? & _). }
  rewrite read_lines_spec. cbv zeta. fold (numbers_of extract text).
  destruct (list_find _ _) as [[i xs]|] eqn:Hfind.
  - split; [done|]. intros (text' & [= <-] & Hall & _).
    apply list_find_Some in Hfind as (Hi & [out Hout] & _).
    rewrite Forall_forall in Hall.
    apply list_elem_of_lookup_2, Hall, first_error_None in Hi. congruence.
  - apply list_find_None in Hfind.
    assert (Forall (λ xs, xs = [] ∨ well_formed_line xs)
              (numbers_of extract text)) as Hall.
    { eapply Forall_impl; [exact Hfind|]. simpl. intros xs Hxs.
      apply first_error_None. destruct (first_error xs); [|done].
      destruct Hxs. eauto. }
    split.
    + intros [= <-]. exists text. split; [done|]. split; [done|].
      split; [done|]. unfold well_formed. simpl.
      apply Forall_forall. intros xs [Hne Hin]%list_elem_of_filter.
      rewrite Forall_forall in Hall. by destruct (Hall xs Hin).
    + by intros (text' & [= <-] & _ & -> & _).
Qed.

(** X19.  What [read_bursts] rejects, and with which words.  It leaves the
    program when the file can not be opened, and else at the first line
    whose numbers are not acceptable, and only there: for a number that is
    not positive if the line has one (however many numbers it has), and
    else for their even count. *)
Theorem read_bursts_rejects extract path file out :
  read_bursts_with extract path file = Exits out ↔
  (file = None ∧ out = msg_open path) ∨
  ∃ text good bad rest,
    file = Some text ∧
    numbers_of extract text = good ++ bad :: rest ∧
    Forall (λ xs, xs = [] ∨ well_formed_line xs) good ∧
    (if decide (Forall (λ x, 0 < x) bad)
     then bad ≠ [] ∧ Nat.even (length bad) = true ∧ out = msg_odd
     else out = msg_positive).
Proof.
  unfold read_bursts_with. destruct file as [text|].
  2:{ split.
      - intros [= <-]. by left.
      - intros [[_ ->]|(? & ? & ? & ? & ? & _)]; done. }
  rewrite read_lines_spec. cbv zeta. fold (numbers_of extract text).
  assert (∀ bad out',
            first_error bad = Some out' ↔
            (if decide (Forall (λ x, 0 < x) bad)
             then bad ≠ [] ∧ Nat.even (length bad) = true ∧ out' = msg_odd
             else out' = msg_positive)) as Herr.
  { intros bad out'. unfold first_error.
    destruct (decide (Forall _ _)).
    - destruct (decide (_ ∧ _)) as [[? ?]|Hn].
      + split; [by intros [= <-]|by intros (_ & _ & ->)].
      + split; [done|]. intros (? & ? & _). by destruct Hn.
    - split; [by intros [= <-]|by intros ->]. }
  destruct (list_find _ _) as [[i xs]|] eqn:Hfind.
  - apply list_find_Some in Hfind as (Hi & [out' Hout] & Hbefore).
    rewrite Hout. simpl. split.
    + intros [= <-]. right.
      exists text, (take i (numbers_of extract text)), xs,
        (drop (S i) (numbers_of extract text)).
      split; [done|]. split.
      { by rewrite <- (take_drop_middle _ i xs Hi) at 1. }
      split; [|by apply Herr].
      apply Forall_forall. intros ys Hys.
      apply list_elem_of_lookup in Hys as (j & Hj).
      apply lookup_take_Some in Hj as [Hj Hlt].
      apply first_error_None. specialize (Hbefore j ys Hj Hlt).
      destruct (first_error ys); [|done]. destruct Hbefore. eauto.
    + intros [[? _]|(text' & good & bad & rest & [= <-] & Hsplit & Hgood & Hbad)];
        [done|].
      apply Herr in Hbad.
      assert (i = length good) as ->.
      { destruct (Nat.lt_trichotomy i (length good)) as [Hlt|[?|Hgt]]; [|done|].
        - rewrite Hsplit, lookup_app_l in Hi by done.
          rewrite Forall_forall in Hgood.
          apply list_elem_of_lookup_2, Hgood, first_error_None in Hi.
          congruence.
        - exfalso. apply (Hbefore (length good) bad); [|done|by eauto].
          rewrite Hsplit. by apply list_lookup_middle. }
      rewrite Hsplit, list_lookup_middle in Hi by done.
      injection Hi as <-. congruence.
  - split; [done|].
    intros [[? _]|(text' & good & bad & rest & [= <-] & Hsplit & _ & Hbad)];
      [done|].
    apply Herr in Hbad. apply list_find_None in Hfind.
    rewrite Forall_forall in Hfind. destruct (Hfind bad); [|by eauto].
    rewrite Hsplit. apply elem_of_app. right. by left.
Qed.

(** ** The text that read_bursts is written for *)

Lemma string_app_cons c (s t : string) :
  String c s +:+ t = String c (s +:+ t).
Proof. done. Qed.

Lemma string_app_assoc (s t u : string) : (s +:+ t) +:+ u = s +:+ t +:+ u.
Proof.
  induction s as [|c s IH]; [done|]. rewrite !string_app_cons. by f_equal.
Qed.

Lemma string_app_nil_r (s : string) : s +:+ EmptyString = s.
Proof.
  induction s as [|c s IH]; [done|]. rewrite string_app_cons. by f_equal.
Qed.

Lemma all_chars_app P s t :
  all_chars P (s +:+ t) = all_chars P s && all_chars P t.
Proof.
  induction s as [|c s IH]; [done|].
  rewrite string_app_cons. simpl. by rewrite IH, andb_assoc.
Qed.

Lemma digit_pretty_N_char r :
  (r < 10)%N → digit (pretty_N_char r) = Some (Z.of_N r).
Proof.
  intros Hr.
  assert (r = 0 ∨ r = 1 ∨ r = 2 ∨ r = 3 ∨ r = 4 ∨ r = 5 ∨ r = 6 ∨ r = 7 ∨
          r = 8 ∨ r = 9)%N as Hcases by lia.
  repeat (destruct Hcases as [->|Hcases]; [done|]). by subst.
Qed.

Lemma scan_start_digit c d :
  digit c = Some d → scan_start c = Some (Digits false d).
Proof.
  unfold scan_start, sign, digit. intros Hd.
  destruct (Ascii.is_nat c) as [n|] eqn:Hn; [|done].
  assert (Ascii.is_space c = false ∧ c ≠ "+"%char ∧ c ≠ "-"%char)
    as (-> & ? & ?).
  { revert Hn. unfold Ascii.is_nat, Ascii.is_space.
    destruct c as [[] [] [] [] [] [] [] []]; intros ?;
      (split; [done|split; done]). }
  rewrite !decide_False by done. simpl in *. congruence.
Qed.

Lemma extract_pretty_N_go x s :
  (0 < x)%N →
  extract_ints Skipping (pretty_N_go x s) =
  extract_ints (Digits false (Z.of_N x)) s.
Proof.
  revert s. induction (N.lt_wf_0 x) as [x _ IH]; intros s Hx.
  rewrite pretty_N_go_step by done.
  pose proof (digit_pretty_N_char (x `mod` 10)
                ltac:(by apply N.mod_lt)) as Hd.
  destruct (decide (x `div` 10 = 0)%N) as [Hz|Hnz].
  - rewrite Hz, pretty_N_go_0. cbn [extract_ints].
    rewrite (scan_start_digit _ _ Hd). f_equal. f_equal.
    rewrite (N.div_mod x 10) at 2 by done. lia.
  - rewrite IH; [|by apply N.div_lt|lia].
    cbn [extract_ints]. rewrite Hd. f_equal. f_equal.
    rewrite (N.div_mod x 10) at 3 by done. lia.
Qed.

Lemma pretty_N_go_app x s t : pretty_N_go x s +:+ t = pretty_N_go x (s +:+ t).
Proof.
  revert s. induction (N.lt_wf_0 x) as [x _ IH]; intros s.
  destruct (decide (0 < x)%N) as [Hx|Hx].
  - rewrite (pretty_N_go_step x s), (pretty_N_go_step x (s +:+ t)) by done.
    rewrite IH; [reflexivity|by apply N.div_lt].
  - assert (x = 0%N) as -> by lia. by rewrite !pretty_N_go_0.
Qed.

Lemma all_chars_pretty_N_go P x s :
  (∀ r, (r < 10)%N → P (pretty_N_char r) = true) →
  all_chars P (pretty_N_go x s) = all_chars P s.
Proof.
  intros HP. revert s. induction (N.lt_wf_0 x) as [x _ IH]; intros s.
  destruct (decide (0 < x)%N) as [Hx|Hx].
  - rewrite pretty_N_go_step by done. rewrite IH by (by apply N.div_lt).
    cbn. rewrite HP; [done|]. by apply N.mod_lt.
  - assert (x = 0%N) as -> by lia. by rewrite pretty_N_go_0.
Qed.

Lemma pretty_positive_eq (x : Z) :
  0 < x → pretty x = pretty_N_go (Z.to_N x) EmptyString.
Proof.
  intros Hx. destruct x as [|p|p]; try lia.
  unfold pretty, pretty_Z, pretty, pretty_positive, pretty, pretty_N.
  rewrite decide_False by done. done.
Qed.

Lemma extract_pretty x rest :
  0 < x →
  extract_ints Skipping (pretty x +:+ rest) =
  extract_ints (Digits false x) rest.
Proof.
  intros Hx. rewrite pretty_positive_eq, pretty_N_go_app by done.
  rewrite extract_pretty_N_go by lia. cbn. do 2 f_equal. lia.
Qed.

Lemma all_chars_pretty P x :
  0 < x → (∀ r, (r < 10)%N → P (pretty_N_char r) = true) →
  all_chars P (pretty x) = true.
Proof.
  intros Hx HP. rewrite pretty_positive_eq by done.
  by rewrite all_chars_pretty_N_go.
Qed.

Lemma extract_print_line_app xs c rest :
  xs ≠ [] → Forall (λ x, 0 < x ≤ INT_MAX) xs → digit c = None →
  extract_ints Skipping (print_line xs +:+ String c rest) =
  xs ++ match scan_start c with
        | Some st => extract_ints st rest
        | None => []
        end.
Proof.
  intros Hne Hall Hc. induction xs as [|x xs IH]; [done|].
  apply Forall_cons in Hall as [Hx Hall].
  assert (fits_int x = true) as Hfit.
  { unfold fits_int, INT_MIN. apply andb_true_iff. lia. }
  destruct xs as [|y xs].
  - cbn [print_line]. rewrite extract_pretty by lia.
    cbn [extract_ints signed_value]. by rewrite Hc, Hfit.
  - change (print_line (x :: y :: xs))
      with (pretty x +:+ " " +:+ print_line (y :: xs)).
    rewrite !string_app_assoc. rewrite extract_pretty by lia.
    change (" " +:+ print_line (y :: xs) +:+ String c rest)
      with (String " "%char (print_line (y :: xs) +:+ String c rest)).
    cbn [extract_ints signed_value].
    change (digit " ") with (@None Z). cbv iota. rewrite Hfit.
    change (scan_start " ") with (Some Skipping). cbv iota.
    by rewrite IH.
Qed.

Lemma extract_print_line xs :
  xs ≠ [] → Forall (λ x, 0 < x ≤ INT_MAX) xs →
  extract_ints Skipping (print_line xs) = xs.
Proof.
  intros Hne Hall.
  assert (extract_ints Skipping (print_line xs +:+ String " "%char EmptyString)
          = xs ++ []) as Hsp.
  { by rewrite extract_print_line_app. }
  rewrite app_nil_r in Hsp. rewrite <- Hsp at 2. clear Hsp.
  induction xs as [|x xs IH]; [done|].
  apply Forall_cons in Hall as [Hx Hall].
  assert (fits_int x = true) as Hfit.
  { unfold fits_int, INT_MIN. apply andb_true_iff. lia. }
  destruct xs as [|y xs].
  - cbn [print_line].
    rewrite <- (string_app_nil_r (pretty x)) at 1.
    rewrite !extract_pretty by lia.
    cbn [extract_ints signed_value].
    change (digit " ") with (@None Z). cbv iota. by rewrite Hfit.
  - change (print_line (x :: y :: xs))
      with (pretty x +:+ " " +:+ print_line (y :: xs)).
    rewrite !string_app_assoc. rewrite !extract_pretty by lia.
    change (" " +:+ print_line (y :: xs) +:+ " ")
      with (String " "%char (print_line (y :: xs) +:+ " ")).
    change (" " +:+ print_line (y :: xs))
      with (String " "%char (print_line (y :: xs))).
    cbn [extract_ints signed_value].
    change (digit " ") with (@None Z). cbv iota. rewrite Hfit.
    change (scan_start " ") with (Some Skipping). cbv iota.
    by rewrite IH.
Qed.

Lemma no_newline_digit r :
  (r < 10)%N →
  negb (bool_decide (pretty_N_char r = "010"%char)) = true.
Proof.
  intros Hr.
  assert (r = 0 ∨ r = 1 ∨ r = 2 ∨ r = 3 ∨ r = 4 ∨ r = 5 ∨ r = 6 ∨ r = 7 ∨
          r = 8 ∨ r = 9)%N as Hcases by lia.
  repeat (destruct Hcases as [->|Hcases]; [done|]). by subst.
Qed.

Lemma no_newline_print_line xs :
  Forall (λ x, 0 < x) xs → no_newline (print_line xs).
Proof.
  unfold no_newline. induction xs as [|x xs IH]; intros Hall; [done|].
  apply Forall_cons in Hall as [Hx Hall].
  destruct xs as [|y xs].
  - apply all_chars_pretty; [done|]. apply no_newline_digit.
  - change (print_line (x :: y :: xs))
      with (pretty x +:+ " " +:+ print_line (y :: xs)).
    rewrite !all_chars_app, IH by done.
    rewrite all_chars_pretty; [done|done|]. apply no_newline_digit.
Qed.

Lemma getlines_line s t :
  no_newline s → s ≠ EmptyString →
  getlines (s +:+ nl +:+ t) = s :: getlines t.
Proof.
  unfold no_newline. induction s as [|c s IH]; intros Hnl Hne; [done|].
  rewrite string_app_cons. cbn [getlines all_chars] in *.
  apply andb_true_iff in Hnl as [Hc Hnl].
  apply negb_true_iff, bool_decide_eq_false in Hc.
  rewrite decide_False by done.
  destruct s as [|c' s].
  - change (EmptyString +:+ nl +:+ t) with (String "010"%char t).
    cbn [getlines]. by rewrite decide_True.
  - by rewrite IH.
Qed.

Lemma print_line_nonempty xs :
  xs ≠ [] → Forall (λ x, 0 < x ≤ INT_MAX) xs → print_line xs ≠ EmptyString.
Proof.
  intros Hne Hall Hnil. apply Hne.
  by rewrite <- (extract_print_line xs Hne Hall), Hnil.
Qed.

Lemma well_formed_line_nonempty l : well_formed_line l → l ≠ [].
Proof. by intros [Hodd _] ->. Qed.

Lemma read_lines_texts extract texts lines acc :
  Forall2 (λ t l, t ≠ EmptyString ∧ extract t = l) texts lines →
  well_formed lines →
  read_lines extract texts acc = Returns (acc ++ lines).
Proof.
  intros Hall. revert acc.
  induction Hall as [|t l texts lines [Hne Hex] _ IH]; intros acc Hwf.
  { simpl. by rewrite app_nil_r. }
  apply Forall_cons in Hwf as [Hl Hwf].
  rewrite read_line_no_error; [|done|].
  - rewrite IH by done. rewrite Hex, filter_cons, filter_nil.
    rewrite decide_True by (by apply well_formed_line_nonempty).
    by rewrite <- app_assoc.
  - rewrite Hex. apply first_error_None. by right.
Qed.

Lemma read_bursts_texts path texts lines :
  Forall2 (λ t l, no_newline t ∧ t ≠ EmptyString ∧
                  extract_ints Skipping t = l) texts lines →
  well_formed lines →
  read_bursts path
    (Some (foldr (λ t r, t +:+ nl +:+ r) EmptyString texts)) = Returns lines.
Proof.
  intros Hall Hwf. unfold read_bursts, read_bursts_with.
  assert (getlines (foldr (λ t r, t +:+ nl +:+ r) EmptyString texts) = texts)
    as ->.
  { clear Hwf. induction Hall as [|t l texts lines (Hnl & Hne & _) _ IH];
      [done|].
    cbn [foldr]. by rewrite getlines_line, IH. }
  rewrite (read_lines_texts _ texts lines []); [done| |done].
  eapply Forall2_impl; [exact Hall|]. by intros t l (_ & ? & ?).
Qed.

(** X20.  [read_bursts] reads back what is written in the format it is made
    for.  A file with one line for each process, the bursts of the process
    in decimal with one space between two of them, is read as these
    processes, when the bursts are well formed and are values of [int]. *)
Theorem read_bursts_reads_back path lines :
  well_formed lines → Forall (Forall (λ x, x ≤ INT_MAX)) lines →
  read_bursts path (Some (print_file lines)) = Returns lines.
Proof.
  intros Hwf Hfit.
  assert (print_file lines =
          foldr (λ t r, t +:+ nl +:+ r) EmptyString (print_line <$> lines))
    as ->.
  { clear. induction lines as [|l lines IH]; [done|].
    cbn [print_file fmap list_fmap foldr]. by rewrite IH. }
  apply read_bursts_texts; [|done].
  apply Forall2_fmap_l, Forall_Forall2_diag.
  apply Forall_forall. intros l Hl.
  pose proof (proj1 (Forall_forall _ _) Hwf l Hl) as [Hodd Hpos].
  pose proof (proj1 (Forall_forall _ _) Hfit l Hl) as Hmax.
  assert (l ≠ []) as Hne by (by intros ->).
  assert (Forall (λ x, 0 < x ≤ INT_MAX) l) as Hboth.
  { apply Forall_forall. intros x Hx.
    pose proof (proj1 (Forall_forall _ _) Hpos x Hx).
    pose proof (proj1 (Forall_forall _ _) Hmax x Hx). simpl in *. lia. }
  split; [by apply no_newline_print_line|].
  split; [by apply print_line_nonempty|by apply extract_print_line].
Qed.

(** X21.  [read_bursts] never complains about text that is no number: what
    follows the numbers of a line, from the first word on that can not
    start a number, is ignored, so a line may carry a note, and a mistyped
    burst cuts the line short without a message. *)
Theorem read_bursts_skips_notes path (lines : list (BurstLine * string)) :
  well_formed (fst <$> lines) →
  Forall (Forall (λ x, x ≤ INT_MAX)) (fst <$> lines) →
  Forall (λ ln, is_note ln.2) lines →
  read_bursts path (Some (print_file_notes lines)) = Returns (fst <$> lines).
Proof.
  intros Hwf Hfit Hnotes.
  assert (print_file_notes lines =
          foldr (λ t r, t +:+ nl +:+ r) EmptyString
            ((λ ln, print_line ln.1 +:+ " " +:+ ln.2) <$> lines)) as ->.
  { clear. induction lines as [|[l note] lines IH]; [done|].
    cbn [print_file_notes fmap list_fmap foldr fst snd].
    rewrite IH. by rewrite !string_app_assoc. }
  apply read_bursts_texts; [|done].
  apply Forall2_fmap, Forall_Forall2_diag.
  apply Forall_forall. intros [l note] Hl.
  pose proof (proj1 (Forall_forall _ _) Hnotes _ Hl) as [Hnl Hstart].
  assert (l ∈ fst <$> lines) as Hl'.
  { apply list_elem_of_fmap. by exists (l, note). }
  pose proof (proj1 (Forall_forall _ _) Hwf l Hl') as [Hodd Hpos].
  pose proof (proj1 (Forall_forall _ _) Hfit l Hl') as Hmax.
  assert (l ≠ []) as Hne by (by intros ->).
  assert (Forall (λ x, 0 < x ≤ INT_MAX) l) as Hboth.
  { apply Forall_forall. intros x Hx.
    pose proof (proj1 (Forall_forall _ _) Hpos x Hx).
    pose proof (proj1 (Forall_forall _ _) Hmax x Hx). simpl in *. lia. }
  cbn [fst snd] in *.
  assert (extract_ints Skipping (print_line l +:+ " " +:+ note) = l) as Hex.
  { change (" " +:+ note) with (String " "%char note).
    rewrite extract_print_line_app by done.
    change (scan_start " ") with (Some Skipping). cbv iota.
    destruct note as [|c r]; [by rewrite app_nil_r|].
    cbn [extract_ints]. by rewrite Hstart, app_nil_r. }
  split.
  { unfold no_newline. rewrite !all_chars_app.
    rewrite (no_newline_print_line l Hpos). by rewrite Hnl. }
  split; [|done].
  intros Hnil. rewrite Hnil in Hex. by subst l.
Qed.

(** ** Parse_args *)

Lemma parse_options_spec long_bits o opts :
  getopt_contract opts →
  parse_options long_bits o opts =
  Ok (if forallb accepted (quantum_values long_bits opts) then
        Returns
          (mkOptions
             (match last (filter (λ oa, oa.1 = "s"%char) opts) with
              | Some oa => strategy_word oa.2
              | None => strategy o
              end)
             (match last (quantum_values long_bits opts) with
              | Some (Some val) => to_int val
              | _ => quantum o
              end))
      else Exits msg_quantum).
Proof.
  unfold quantum_values. intros Hc. revert o.
  induction Hc as [|[c a] opts Ha _ IH]; intros o.
  { by destruct o. }
  cbn [parse_options]. unfold parse_option. rewrite !filter_cons. cbn [fst snd] in *.
  destruct (decide (c = "s"%char)) as [->|Hs].
  - rewrite (decide_False (P := "s"%char = "q"%char)) by done.
    assert (∀ o', (if decide (default EmptyString a = "fcfs")
                   then Ok (Returns (mkOptions FCFS (quantum o)))
                   else if decide (default EmptyString a = "rr")
                        then Ok (Returns (mkOptions RR (quantum o)))
                        else Ok (Returns (mkOptions FCFS (quantum o)))) = o' →
                  o' = Ok (Returns (mkOptions (strategy_word a) (quantum o))))
      as Hword.
    { intros o' <-. unfold strategy_word.
      destruct (decide (a = Some "rr")) as [->|Hne]; [done|].
      destruct (decide (_ = "fcfs")); [done|].
      destruct (decide (_ = "rr")) as [Hrr|]; [|done].
      destruct a as [w|]; [|done]. simpl in Hrr. by subst w. }
    rewrite (Hword _ eq_refl). cbn [res_bind]. rewrite IH.
    rewrite last_cons. cbn [strategy quantum].
    by destruct (last (filter _ opts)).
  - destruct (decide (c = "q"%char)) as [->|Hq].
    + destruct Ha as [arg ->]; [done|]. rewrite fmap_cons. cbn [default snd forallb]. unfold id.
      rewrite last_cons.
      destruct (strtol long_bits arg) as [val|]; [|done].
      cbn [accepted].
      destruct (Z.leb_spec val 0) as [Hle|Hlt].
      * by rewrite bool_decide_eq_false_2 by lia.
      * rewrite bool_decide_eq_true_2 by lia. cbn [res_bind andb].
        rewrite IH. cbn [strategy quantum].
        destruct (forallb _ _) eqn:Hall; [|done].
        destruct (last (_ <$> _)) as [[?|]|] eqn:Hlast; try done.
        apply last_Some in Hlast as [l' Hl'].
        rewrite Hl', forallb_app in Hall. simpl in Hall.
        by rewrite andb_false_r in Hall.
    + cbn [res_bind]. by rewrite IH.
Qed.

(** X22.  [parse_args] in one formula.  The options are checked before the
    operands are looked at: [-q] with a word that is no number, or with a
    number that is not positive, ends the program with the message on the
    quantum, whatever the strategy is and whatever the later options say;
    then a command line without operand ends with the usage message;
    otherwise the last [-s] and the last [-q] decide, [rr] alone names
    round-robin, every other word first-come-first-served, other options
    are ignored and the file is the first operand. *)
Theorem parse_args_spec long_bits argv0 opts operands :
  getopt_contract opts →
  parse_args long_bits argv0 opts operands =
  Ok (if forallb accepted (quantum_values long_bits opts) then
        match operands with
        | [] => Exits (msg_usage argv0)
        | file :: _ =>
            Returns (mkOptions (chosen_strategy opts)
                       (chosen_quantum long_bits opts), file)
        end
      else Exits msg_quantum).
Proof.
  intros Hc. unfold parse_args. rewrite parse_options_spec by done.
  cbn [res_bind strategy quantum].
  destruct (forallb _ _); [|done]. by destruct operands.
Qed.

(** ** Main *)

Lemma to_int_id v : INT_MIN ≤ v ≤ INT_MAX → to_int v = v.
Proof.
  unfold to_int, INT_MIN, INT_MAX. intros Hv.
  rewrite Z.mod_small; lia.
Qed.

Lemma chosen_quantum_positive long_bits opts :
  forallb accepted (quantum_values long_bits opts) = true →
  quantum_in_int long_bits opts →
  0 < chosen_quantum long_bits opts.
Proof.
  unfold chosen_quantum, quantum_in_int. intros Hacc Hfit.
  destruct (last _) as [[val|]|] eqn:Hlast; [|done..].
  apply last_Some in Hlast as [l' Hl']. rewrite Hl' in Hacc, Hfit.
  rewrite forallb_app in Hacc. apply andb_true_iff in Hacc as [_ Hacc].
  simpl in Hacc. rewrite andb_true_r in Hacc.
  apply bool_decide_eq_true in Hacc.
  apply Forall_app in Hfit as [_ Hfit].
  apply Forall_cons in Hfit as [Hfit _]. specialize (Hfit val eq_refl).
  rewrite to_int_id; [done|]. unfold INT_MIN. lia.
Qed.

Lemma strtol_range long_bits s val :
  1 ≤ long_bits → strtol long_bits s = Some val →
  - 2 ^ (long_bits - 1) ≤ val ≤ 2 ^ (long_bits - 1) - 1.
Proof.
  unfold strtol. intros Hb Hs.
  destruct (strtol_scan Skipping s) as [v|]; [|done].
  injection Hs as <-.
  assert (0 < 2 ^ (long_bits - 1)) by (apply Z.pow_pos_nonneg; lia). lia.
Qed.

Lemma quantum_in_int_short long_bits opts :
  1 ≤ long_bits ≤ 32 → quantum_in_int long_bits opts.
Proof.
  intros Hb. unfold quantum_in_int, quantum_values.
  apply Forall_fmap, Forall_forall. intros oa _ val Hval.
  apply strtol_range in Hval; [|lia].
  assert (2 ^ (long_bits - 1) ≤ 2 ^ 31) by (apply Z.pow_le_mono_r; lia).
  unfold INT_MAX. lia.
Qed.

Lemma read_bursts_well_formed extract path file lines :
  read_bursts_with extract path file = Returns lines → well_formed lines.
Proof.
  unfold read_bursts_with. destruct file as [text|]; [|done].
  rewrite read_lines_spec. cbv zeta.
  destruct (list_find _ _) as [[i xs]|] eqn:Hfind; [done|].
  intros [= <-]. apply list_find_None in Hfind. simpl.
  apply Forall_forall. intros xs [Hne Hin]%list_elem_of_filter.
  rewrite Forall_forall in Hfind. specialize (Hfind xs Hin).
  destruct (proj1 (first_error_None xs)) as [?|?]; [|done..].
  destruct (first_error xs); [|done]. destruct Hfind. eauto.
Qed.

Lemma simulate_spins fuel o lines :
  strategy o = RR → quantum o ≤ 0 → well_formed lines → lines ≠ [] →
  simulate fuel o lines = OutOfFuel.
Proof.
  intros Hrr Hq Hwf Hne. unfold simulate. fold (initial o lines).
  destruct (initial_fields o lines) as (Hopt & _).
  rewrite spinning_forever; rewrite ?Hopt; try done.
  by apply initial_spinning.
Qed.

(** X23.  The options that [parse_args] returns are those that the scheduler
    needs: when the numbers after [-q] are values of [int], as they all are
    where [long] has 32 bits, the quantum is positive. *)
Theorem parse_args_quantum_positive long_bits argv0 opts operands o file :
  getopt_contract opts → quantum_in_int long_bits opts →
  parse_args long_bits argv0 opts operands = Ok (Returns (o, file)) →
  0 < quantum o ∧ valid_options o.
Proof.
  intros Hc Hfit. unfold parse_args. rewrite parse_options_spec by done.
  cbn [res_bind strategy quantum].
  destruct (forallb _ _) eqn:Hacc; [|done].
  destruct operands as [|f rest]; [done|]. intros [= <- <-].
  pose proof (chosen_quantum_positive _ _ Hacc Hfit) as Hpos.
  unfold chosen_quantum in Hpos. cbn [quantum].
  split; [done|by right].
Qed.




(** X25.  [main] does not end when the options it accepted are round-robin
    with a quantum that is not positive and the file has a process: the
    worker logs an expired quantum at every turn of its loop and never
    marks the simulation done.  Where [long] has 64 bits such options come
    from the command line, [parse_args] checking the [long] and keeping the
    [int]: [-q 4294967296] is the quantum 0. *)
Theorem main_never_ends long_bits fuel argv0 opts operands open o file lines :
  parse_args long_bits argv0 opts operands = Ok (Returns (o, file)) →
  strategy o = RR → quantum o ≤ 0 →
  read_bursts file (open file) = Returns lines → lines ≠ [] →
  main long_bits fuel argv0 opts operands open true = OutOfFuel.
Proof.
  intros Hparse Hrr Hq Hread Hne. unfold main. rewrite Hparse.
  cbn [res_bind]. rewrite Hread.
  rewrite simulate_spins; try done.
  by apply read_bursts_well_formed in Hread.
Qed.

(** ** Instances of the theorems on the command line and the loader *)

Lemma sample_options_contract : getopt_contract sample_options.
Proof.
  repeat (apply Forall_cons; split; [intros _; eexists; reflexivity|]).
  apply Forall_nil_2.
Qed.

Lemma sample_options_in_int : quantum_in_int 64 sample_options.
Proof.
  unfold quantum_in_int.
  change (quantum_values 64 sample_options) with [Some 3].
  apply Forall_cons; split; [|apply Forall_nil_2].
  intros val [= <-]. unfold INT_MAX. lia.
Qed.

Lemma scenario_D_in_int : Forall (Forall (λ x, x ≤ INT_MAX)) scenario_D.
Proof.
  unfold INT_MAX.
  repeat first [apply Forall_nil_2 | apply Forall_cons; split | lia].
Qed.

Lemma read_bursts_reads_back_witness :
  read_bursts "bursts.txt" (Some (print_file scenario_D)) = Returns scenario_D.
Proof.
  apply (read_bursts_reads_back "bursts.txt" scenario_D).
  - well_formed_by_evaluation.
  - apply scenario_D_in_int.
Defined.

Lemma read_bursts_skips_notes_witness :
  read_bursts "bursts.txt" (Some (print_file_notes noted_lines)) =
  Returns scenario_D.
Proof.
  apply (read_bursts_skips_notes "bursts.txt" noted_lines).
  - well_formed_by_evaluation.
  - apply scenario_D_in_int.
  - repeat (apply Forall_cons; split; [split; reflexivity|]).
    apply Forall_nil_2.
Defined.

Lemma parse_args_spec_witness :
  parse_args 64 "schedule" sample_options ["bursts.txt"; "more.txt"] =
  Ok (Returns (mkOptions RR 3, "bursts.txt")).
Proof.
  rewrite (parse_args_spec 64 "schedule" sample_options
             ["bursts.txt"; "more.txt"] sample_options_contract).
  reflexivity.
Defined.

Lemma parse_args_quantum_positive_witness :
  0 < quantum (mkOptions RR 3) ∧ valid_options (mkOptions RR 3).
Proof.
  apply (parse_args_quantum_positive 64 "schedule" sample_options
           ["bursts.txt"] (mkOptions RR 3) "bursts.txt").
  - apply sample_options_contract.
  - apply sample_options_in_int.
  - reflexivity.
Defined.


Lemma main_never_ends_witness :
  main 64 1000 "schedule" wrapped_options ["bursts.txt"]
    (λ _, Some (print_file scenario_D)) true = OutOfFuel.
Proof.
  apply (main_never_ends 64 1000 "schedule" wrapped_options ["bursts.txt"]
           (λ _, Some (print_file scenario_D))
           (mkOptions RR 0) "bursts.txt" scenario_D).
  - reflexivity.
  - reflexivity.
  - simpl. lia.
  - reflexivity.
  - done.
Defined.
